(** * Routio message-description compiler: a shallow embedding

    The development follows the C++ sources of the generator:
    - [parser.h] / [parser.cpp]: the AST, the lexer and the recursive-descent
      parser of the message description language;
    - [codegen.cpp]: the type registry (with [TypeRegistry::computeHash]) and
      the C++ and Python emitters;
    - the [gen] command-line driver ([output_filename], [generate_code],
      [main]).

    Definitions come first, theorems afterwards. *)

From Stdlib Require Import ZArith NArith Ascii String Lia Bool.
From Stdlib Require DecimalString DecimalN DecimalPos.
From stdpp Require Import base tactics option list strings sorting.

Local Open Scope Z_scope.

(* ===================================================================== *)
(** * Characters and strings *)
(* ===================================================================== *)

(** The value of a [char] seen as an [unsigned char]: 0..255. *)
Definition byte_of_char (c : ascii) : Z := Z.of_N (N_of_ascii c).

(** Integral promotion of a plain [char] to [int].  Whether plain [char] is
    signed is implementation-defined; [char_is_signed] is that choice. *)
Definition char_to_int (char_is_signed : bool) (c : ascii) : Z :=
  let v := byte_of_char c in
  if char_is_signed && (128 <=? v) then v - 256 else v.

(** Conversion of an [int] to [unsigned char]: reduction modulo 2^8. *)
Definition to_uchar (z : Z) : Z := z mod 256.

Definition char_eqb (a b : ascii) : bool := Ascii.eqb a b.

Definition NUL : ascii := Ascii.zero.
Definition LF : ascii := "010"%char.
Definition CR : ascii := "013"%char.
Definition TAB : ascii := "009"%char.
Definition VT : ascii := "011"%char.
Definition FF : ascii := "012"%char.
Definition SPACE : ascii := " "%char.
Definition BACKSLASH : ascii := "\"%char.
Definition DQUOTE : ascii := "034"%char.

(** [<cctype>] classification in the "C" locale (the driver never calls
    [setlocale]). *)
Definition isdigit (c : ascii) : bool :=
  let v := byte_of_char c in (48 <=? v) && (v <=? 57).

Definition isupper (c : ascii) : bool :=
  let v := byte_of_char c in (65 <=? v) && (v <=? 90).

Definition islower (c : ascii) : bool :=
  let v := byte_of_char c in (97 <=? v) && (v <=? 122).

Definition isalnum (c : ascii) : bool := isdigit c || isupper c || islower c.

Definition isspace (c : ascii) : bool :=
  let v := byte_of_char c in (v =? 32) || ((9 <=? v) && (v <=? 13)).

Definition toupper (c : ascii) : ascii :=
  if islower c then ascii_of_N (N_of_ascii c - 32) else c.

Fixpoint string_map (f : ascii -> ascii) (s : string) : string :=
  match s with
  | EmptyString => EmptyString
  | String c r => String (f c) (string_map f r)
  end.

Fixpoint string_concat (l : list string) : string :=
  match l with
  | [] => EmptyString
  | s :: r => s +:+ string_concat r
  end.

(** [std::to_string] / [operator<<] of a non-negative integer in base 10. *)
Definition decimal_of_N (n : N) : string :=
  DecimalString.NilZero.string_of_uint (N.to_uint n).

(* ===================================================================== *)
(** * [std::map<std::string, V>]

    A [std::map] keeps its entries ordered by key ([std::less<std::string>],
    the byte-wise lexicographic order) and is iterated in that order.  It is
    modelled by an association list kept sorted by [map_assign], the
    counterpart of [m[k] = v]. *)
(* ===================================================================== *)

Definition std_map (V : Type) : Type := list (string * V).

Fixpoint map_assign {V} (k : string) (v : V) (m : std_map V) : std_map V :=
  match m with
  | [] => [(k, v)]
  | (k', v') :: m' =>
      match String.compare k k' with
      | Lt => (k, v) :: m
      | Eq => (k', v) :: m'
      | Gt => (k', v') :: map_assign k v m'
      end
  end.

Fixpoint map_find {V} (k : string) (m : std_map V) : option V :=
  match m with
  | [] => None
  | (k', v') :: m' => if String.eqb k k' then Some v' else map_find k m'
  end.

Definition map_keys {V} (m : std_map V) : list string := m.*1.

(* ===================================================================== *)
(** * [TypeRegistry::computeHash] *)
(* ===================================================================== *)

(** [hash[i % 16] ^= content[i]] for [i] from the given index on.  The
    accumulator is an array of 16 [unsigned char]; the right operand is the
    promoted plain [char], and the result is converted back. *)
Fixpoint computeHash_fold (char_is_signed : bool) (i : nat) (content : string)
    (hash : list Z) : list Z :=
  match content with
  | EmptyString => hash
  | String c rest =>
      let j := (i mod 16)%nat in
      let h := default 0 (hash !! j) in
      computeHash_fold char_is_signed (S i) rest
        (<[j := to_uchar (Z.lxor h (char_to_int char_is_signed c))]> hash)
  end.

Definition hex_digit (d : Z) : ascii :=
  nth (Z.to_nat d) (list_ascii_of_string "0123456789abcdef") "0"%char.

(** [oss << std::hex << v] for a non-negative [int]: the digits of [v] in
    base 16, lower case, most significant first, no leading zero. *)
Fixpoint hex_digits (fuel : nat) (v : Z) (acc : string) : string :=
  match fuel with
  | O => acc
  | S fuel' =>
      let acc' := String (hex_digit (v mod 16)) acc in
      if v / 16 =? 0 then acc' else hex_digits fuel' (v / 16) acc'
  end.

Definition ostream_hex (v : Z) : string :=
  hex_digits (S (Z.to_nat (Z.log2 v))) v EmptyString.

(** [std::setw(w)] with [std::setfill(c)]: pad on the left up to width [w]. *)
Definition setw_fill (w : nat) (c : ascii) (s : string) : string :=
  string_of_list_ascii (replicate (w - String.length s) c) +:+ s.

Definition computeHash (char_is_signed : bool) (content : string) : string :=
  let hash := computeHash_fold char_is_signed 0 content (replicate 16 0) in
  string_concat (map (fun b => setw_fill 2 "0"%char (ostream_hex b)) hash).

(* ===================================================================== *)
(** * [parser.h]: errors and the AST *)
(* ===================================================================== *)

(** [DescriptionError]: the fields the constructor stores. *)
Record DescriptionError := mkDescriptionError {
  err_file : string;
  err_line : Z;
  err_column : Z;
  err_message : string
}.

(** [std::to_string(int)]. *)
Definition to_string_int (z : Z) : string :=
  if z <? 0 then "-" +:+ decimal_of_N (Z.to_N (- z)) else decimal_of_N (Z.to_N z).

(** [DescriptionError::what()], the text given to [std::runtime_error]. *)
Definition what (e : DescriptionError) : string :=
  err_file e +:+ " (line: " +:+ to_string_int (err_line e) +:+ ", col: "
    +:+ to_string_int (err_column e) +:+ "): " +:+ err_message e.

Record Span := mkSpan {
  span_offset : nat;
  span_line : Z;
  span_col : Z
}.

(** The outcome of a computation that may throw a [DescriptionError].
    [OutOfFuel] is an artefact of the embedding: loops are bounded by the
    amount of unread input; the theorems show it is never the outcome. *)
Inductive Res (A : Type) : Type :=
  | Ok (a : A)
  | Throw (e : DescriptionError)
  | OutOfFuel.
Arguments Ok {A} a.
Arguments Throw {A} e.
Arguments OutOfFuel {A}.

Section AST.

(** The type [double] and the C library functions on it are not part of the
    repository; they are parameters of the development. *)
Variable double : Type.

Inductive Value : Type :=
  | VDouble (d : double)
  | VString (s : string)
  | VBool (b : bool).

Record KeywordArg := mkKeywordArg {
  kw_name : string;
  kw_value : Value
}.

Record Properties := mkProperties {
  args : list Value;
  kwargs : list KeywordArg
}.

Record FieldArray := mkFieldArray {
  length_ : option N
}.

Record Field := mkField {
  f_type : string;
  f_array : option FieldArray;
  f_name : string;
  f_properties : option Properties;
  f_default_value : option Value
}.

Record FieldList := mkFieldList {
  fields : list Field
}.

Record EnumerateValue := mkEnumerateValue {
  ev_name : string
}.

Record Enumerate := mkEnumerate {
  enum_name : string;
  enum_values : list EnumerateValue
}.

Record Include := mkInclude {
  include_name : string;
  include_properties : option Properties
}.

Record Import := mkImport {
  import_name : string
}.

Record ExternalLanguage := mkExternalLanguage {
  language : string;
  container : string;
  sources : list string;
  deflt : option string;
  read : option string;
  write : option string
}.

Record External := mkExternal {
  ext_name : string;
  languages : list ExternalLanguage
}.

Record Structure := mkStructure {
  struct_name : string;
  struct_fields : FieldList
}.

Record Message := mkMessage {
  msg_name : string;
  msg_fields : FieldList
}.

Record Namespace := mkNamespace {
  ns_name : string
}.

Inductive Decl : Type :=
  | DEnumerate (d : Enumerate)
  | DInclude (d : Include)
  | DImport (d : Import)
  | DExternal (d : External)
  | DStructure (d : Structure)
  | DMessage (d : Message).

Record Description := mkDescription {
  ns : option Namespace;
  decls : list Decl
}.

End AST.

Arguments VDouble {double} d.
Arguments VString {double} s.
Arguments VBool {double} b.
Arguments mkKeywordArg {double}.
Arguments kw_name {double}.
Arguments kw_value {double}.
Arguments mkProperties {double}.
Arguments args {double}.
Arguments kwargs {double}.
Arguments mkField {double}.
Arguments f_type {double}.
Arguments f_array {double}.
Arguments f_name {double}.
Arguments f_properties {double}.
Arguments f_default_value {double}.
Arguments mkFieldList {double}.
Arguments fields {double}.
Arguments mkInclude {double}.
Arguments include_name {double}.
Arguments include_properties {double}.
Arguments mkStructure {double}.
Arguments struct_name {double}.
Arguments struct_fields {double}.
Arguments mkMessage {double}.
Arguments msg_name {double}.
Arguments msg_fields {double}.
Arguments DEnumerate {double} d.
Arguments DInclude {double} d.
Arguments DImport {double} d.
Arguments DExternal {double} d.
Arguments DStructure {double} d.
Arguments DMessage {double} d.
Arguments mkDescription {double}.
Arguments ns {double}.
Arguments decls {double}.

(* ===================================================================== *)
(** * [parser.cpp]: the lexer *)
(* ===================================================================== *)

Module TokKind.
Inductive t : Set :=
  | End | Ident | Number | String
  | LBrack | RBrack | LBrace | RBrace | LParen | RParen
  | Colon | Semicolon | Equals | Comma | Dot.

Definition eqb (a b : t) : bool :=
  match a, b with
  | End, End | Ident, Ident | Number, Number | String, String
  | LBrack, LBrack | RBrack, RBrack | LBrace, LBrace | RBrace, RBrace
  | LParen, LParen | RParen, RParen | Colon, Colon
  | Semicolon, Semicolon | Equals, Equals | Comma, Comma | Dot, Dot => true
  | _, _ => false
  end.
End TokKind.

Record Token := mkToken {
  kind : TokKind.t;
  lexeme : string;
  span : Span
}.

(** The lexer state.  The pair ([input_], [i_]) of the class is kept as the
    unread suffix [input_] of the text together with the offset [i_] already
    consumed; [line_] and [col_] are [int]s (the text is assumed shorter than
    [INT_MAX] lines and columns, so they are not wrapped). *)
Record Lexer := mkLexer {
  input_ : string;
  i_ : nat;
  line_ : Z;
  col_ : Z;
  lookahead_ : list Token
}.

Definition Lexer_new (input : string) : Lexer :=
  {| input_ := input; i_ := 0; line_ := 1; col_ := 1; lookahead_ := [] |}.

Definition ch_ (lx : Lexer) : ascii :=
  match input_ lx with
  | EmptyString => NUL
  | String.String c _ => c
  end.

Definition chNext_ (lx : Lexer) : ascii :=
  match input_ lx with
  | String.String _ (String.String c _) => c
  | _ => NUL
  end.

Definition advance_ (lx : Lexer) : Lexer :=
  match input_ lx with
  | EmptyString => lx
  | String.String c rest =>
      if char_eqb c LF
      then {| input_ := rest; i_ := S (i_ lx); line_ := line_ lx + 1; col_ := 1;
              lookahead_ := lookahead_ lx |}
      else {| input_ := rest; i_ := S (i_ lx); line_ := line_ lx;
              col_ := col_ lx + 1; lookahead_ := lookahead_ lx |}
  end.

(** [while (p(ch_())) advance_();] for a test [p] that rejects ['\0']. *)
Fixpoint advance_while_fuel (n : nat) (p : ascii -> bool) (lx : Lexer) : Lexer :=
  match n with
  | O => lx
  | S n' => if p (ch_ lx) then advance_while_fuel n' p (advance_ lx) else lx
  end.

Definition advance_while (p : ascii -> bool) (lx : Lexer) : Lexer :=
  advance_while_fuel (String.length (input_ lx)) p lx.

Definition not_eol (c : ascii) : bool :=
  negb (char_eqb c NUL) && negb (char_eqb c LF).

Fixpoint skipWsAndComments_fuel (n : nat) (lx : Lexer) : Lexer :=
  match n with
  | O => lx
  | S n' =>
      let lx1 := advance_while isspace lx in
      if char_eqb (ch_ lx1) "#"%char
      then skipWsAndComments_fuel n' (advance_while not_eol lx1)
      else lx1
  end.

Definition skipWsAndComments_ (lx : Lexer) : Lexer :=
  skipWsAndComments_fuel (S (String.length (input_ lx))) lx.

Definition isIdentChar_ (c : ascii) : bool := isalnum c || char_eqb c "_"%char.

Definition span_here (lx : Lexer) : Span :=
  {| span_offset := i_ lx; span_line := line_ lx; span_col := col_ lx |}.

(** [make_(k, start, sp)]: the lexeme is [input_.substr(start, i_ - start)];
    [lx0] is the lexer as it was at offset [start]. *)
Definition make_ (k : TokKind.t) (lx0 : Lexer) (sp : Span) (lx : Lexer) : Token :=
  {| kind := k;
     lexeme := String.substring 0 (i_ lx - i_ lx0) (input_ lx0);
     span := sp |}.

Fixpoint lexString_loop (n : nat) (escaped : bool) (sp : Span) (lx : Lexer)
    : Res Lexer :=
  match n with
  | O => OutOfFuel
  | S n' =>
      let c := ch_ lx in
      if char_eqb c NUL || char_eqb c LF then
        Throw (mkDescriptionError "<input>" (span_line sp) (span_col sp)
                 "Unterminated string literal")
      else if escaped then lexString_loop n' false sp (advance_ lx)
      else if char_eqb c BACKSLASH then lexString_loop n' true sp (advance_ lx)
      else if char_eqb c DQUOTE then Ok (advance_ lx)
      else lexString_loop n' false sp (advance_ lx)
  end.

Definition lexString_ (lx : Lexer) : Res (Token * Lexer) :=
  let sp := span_here lx in
  let lx1 := advance_ lx in
  match lexString_loop (S (String.length (input_ lx1))) false sp lx1 with
  | Ok lx2 => Ok (make_ TokKind.String lx sp lx2, lx2)
  | Throw e => Throw e
  | OutOfFuel => OutOfFuel
  end.

Definition is_sign (c : ascii) : bool := char_eqb c "+"%char || char_eqb c "-"%char.

Definition lexNumber_ (lx : Lexer) : Res (Token * Lexer) :=
  let sp := span_here lx in
  let lx1 := if is_sign (ch_ lx) then advance_ lx else lx in
  let lx2 := advance_while isdigit lx1 in
  let lx3 := if char_eqb (ch_ lx2) "."%char
             then advance_while isdigit (advance_ lx2) else lx2 in
  if char_eqb (ch_ lx3) "e"%char || char_eqb (ch_ lx3) "E"%char then
    let lx4 := advance_ lx3 in
    let lx5 := if is_sign (ch_ lx4) then advance_ lx4 else lx4 in
    if negb (isdigit (ch_ lx5)) then
      Throw (mkDescriptionError "<input>" (span_line sp) (span_col sp)
               "Malformed exponent in number literal")
    else
      let lx6 := advance_while isdigit lx5 in
      Ok (make_ TokKind.Number lx sp lx6, lx6)
  else Ok (make_ TokKind.Number lx sp lx3, lx3).

Definition lexIdent_ (lx : Lexer) : Res (Token * Lexer) :=
  let sp := span_here lx in
  let lx1 := advance_while isIdentChar_ lx in
  Ok (make_ TokKind.Ident lx sp lx1, lx1).

Definition symbol_kind (c : ascii) : option TokKind.t :=
  if char_eqb c "["%char then Some TokKind.LBrack
  else if char_eqb c "]"%char then Some TokKind.RBrack
  else if char_eqb c "{"%char then Some TokKind.LBrace
  else if char_eqb c "}"%char then Some TokKind.RBrace
  else if char_eqb c "("%char then Some TokKind.LParen
  else if char_eqb c ")"%char then Some TokKind.RParen
  else if char_eqb c ":"%char then Some TokKind.Colon
  else if char_eqb c ";"%char then Some TokKind.Semicolon
  else if char_eqb c "="%char then Some TokKind.Equals
  else if char_eqb c ","%char then Some TokKind.Comma
  else if char_eqb c "."%char then Some TokKind.Dot
  else None.

Definition nextImpl_ (lx0 : Lexer) : Res (Token * Lexer) :=
  let lx := skipWsAndComments_ lx0 in
  let sp := span_here lx in
  let c := ch_ lx in
  if char_eqb c NUL then Ok (mkToken TokKind.End EmptyString sp, lx)
  else if char_eqb c DQUOTE then lexString_ lx
  else if isdigit c || (is_sign c && isdigit (chNext_ lx)) then lexNumber_ lx
  else if isIdentChar_ c then lexIdent_ lx
  else
    let lx1 := advance_ lx in
    match symbol_kind c with
    | Some k => Ok (make_ k lx sp lx1, lx1)
    | None =>
        Throw (mkDescriptionError "<input>" (span_line sp) (span_col sp)
                 ("Unexpected character: '" +:+ String.String c "'"))
    end.

Definition push_lookahead (t : Token) (lx : Lexer) : Lexer :=
  {| input_ := input_ lx; i_ := i_ lx; line_ := line_ lx; col_ := col_ lx;
     lookahead_ := lookahead_ lx ++ [t] |}.

(** [while (lookahead_.size() <= k) lookahead_.push_back(nextImpl_());]
    run [n] times, [n] being the number of missing tokens. *)
Fixpoint fill_lookahead (n : nat) (lx : Lexer) : Res Lexer :=
  match n with
  | O => Ok lx
  | S n' =>
      match nextImpl_ lx with
      | Ok (t, lx1) => fill_lookahead n' (push_lookahead t lx1)
      | Throw e => Throw e
      | OutOfFuel => OutOfFuel
      end
  end.

Definition default_Token : Token :=
  mkToken TokKind.End EmptyString (mkSpan 0 1 1).

Definition Lexer_peek (k : nat) (lx : Lexer) : Res (Token * Lexer) :=
  match fill_lookahead (S k - length (lookahead_ lx)) lx with
  | Ok lx1 => Ok (nth k (lookahead_ lx1) default_Token, lx1)
  | Throw e => Throw e
  | OutOfFuel => OutOfFuel
  end.

Definition Lexer_next (lx : Lexer) : Res (Token * Lexer) :=
  match lookahead_ lx with
  | t :: rest =>
      Ok (t, {| input_ := input_ lx; i_ := i_ lx; line_ := line_ lx;
                col_ := col_ lx; lookahead_ := rest |})
  | [] => nextImpl_ lx
  end.

(* ===================================================================== *)
(** * [parser.cpp]: the parser *)
(* ===================================================================== *)

(** A parser action: it runs on the lexer it owns ([lex_]) and either
    returns a value and the advanced lexer, or throws. *)
Definition Parser (A : Type) : Type := Lexer -> Res (A * Lexer).

Definition ret {A} (a : A) : Parser A := fun lx => Ok (a, lx).

Definition bind {A B} (m : Parser A) (k : A -> Parser B) : Parser B :=
  fun lx =>
    match m lx with
    | Ok (a, lx1) => k a lx1
    | Throw e => Throw e
    | OutOfFuel => OutOfFuel
    end.

Definition throw {A} (e : DescriptionError) : Parser A := fun _ => Throw e.

Notation "'let*' x := m 'in' k" := (bind m (fun x => k))
  (at level 10, x name, m at level 100, k at level 200, only parsing).

(** What a pass through a loop body decides. *)
Inductive LoopCtl (A : Type) : Type :=
  | Continue (a : A)
  | Break (a : A).
Arguments Continue {A} a.
Arguments Break {A} a.

(** The tokens still to be delivered: unread characters plus buffered
    tokens other than [End].  It bounds the passes of every parser loop. *)
Definition pending (lx : Lexer) : nat :=
  (String.length (input_ lx)
   + length (List.filter (fun t => negb (TokKind.eqb (kind t) TokKind.End))
               (lookahead_ lx)))%nat.

Fixpoint loop_fuel {A} (n : nat) (step : A -> Parser (LoopCtl A)) (acc : A)
    : Parser A :=
  fun lx =>
    match n with
    | O => OutOfFuel
    | S n' =>
        match step acc lx with
        | Ok (Continue a, lx1) => loop_fuel n' step a lx1
        | Ok (Break a, lx1) => Ok (a, lx1)
        | Throw e => Throw e
        | OutOfFuel => OutOfFuel
        end
    end.

Definition loop {A} (step : A -> Parser (LoopCtl A)) (acc : A) : Parser A :=
  fun lx => loop_fuel (S (pending lx)) step acc lx.

(** [while (cond) { acc = body(acc); }] *)
Definition while_ {A} (cond : Parser bool) (body : A -> Parser A) (acc : A)
    : Parser A :=
  loop (fun a => let* c := cond in
                 if c then (let* a' := body a in ret (Continue a')) else ret (Break a))
       acc.

(** [std::from_chars(first, last, len)] for [std::size_t], base 10: the
    longest prefix of digits is converted.  The result is the number of
    characters consumed together with the value, [inl] carrying the error
    code otherwise. *)
Inductive errc := invalid_argument | result_out_of_range.

Fixpoint digits_prefix (s : string) : list ascii :=
  match s with
  | String.String c r => if isdigit c then c :: digits_prefix r else []
  | EmptyString => []
  end.

Definition digits_value (ds : list ascii) : N :=
  fold_left (fun acc c => (acc * 10 + (N_of_ascii c - 48))%N) ds 0%N.

Definition from_chars (SIZE_MAX : N) (sv : string) : nat * (errc + N) :=
  let ds := digits_prefix sv in
  match ds with
  | [] => (0%nat, inl invalid_argument)
  | _ =>
      let v := digits_value ds in
      if (N.leb v SIZE_MAX) then (length ds, inr v)
      else (length ds, inl result_out_of_range)
  end.

Definition string_front (s : string) : ascii :=
  match s with String.String c _ => c | EmptyString => NUL end.

Definition string_at (s : string) (i : nat) : ascii :=
  match String.get i s with Some c => c | None => NUL end.

Definition string_back (s : string) : ascii := string_at s (String.length s - 1).

Definition push_back (s : string) (c : ascii) : string := s +:+ String.String c EmptyString.

Section Parser.

Variable double : Type.
(** [std::strtod]: the value and the number of characters converted. *)
Variable strtod : string -> double * nat.
Variable isfinite : double -> bool.
Variable SIZE_MAX : N.

Local Abbreviation Value := (Value double).
Local Abbreviation Properties := (@Properties double).
Local Abbreviation Field := (@Field double).
Local Abbreviation FieldList := (@FieldList double).
Local Abbreviation Include := (@Include double).
Local Abbreviation Structure := (@Structure double).
Local Abbreviation Message := (@Message double).
Local Abbreviation Decl := (@Decl double).
Local Abbreviation Description := (@Description double).

(** [Parser::unquote_]: the loop [for (i = 1; i + 1 < s.size(); ++i)]. *)
Fixpoint unquote_loop (n : nat) (s : string) (t : Token) (filename : string)
    (i : nat) (out : string) : Res string :=
  match n with
  | O => OutOfFuel
  | S n' =>
      if negb (i + 1 <? String.length s)%nat then Ok out
      else
        let c := string_at s i in
        if negb (char_eqb c BACKSLASH) then
          unquote_loop n' s t filename (i + 1) (push_back out c)
        else if (String.length s - 1 <=? i + 1)%nat then
          Throw (mkDescriptionError filename (span_line (span t)) (span_col (span t))
                   "Invalid escape sequence in string")
        else
          let e := string_at s (i + 1) in
          let out' :=
            if char_eqb e BACKSLASH then push_back out BACKSLASH
            else if char_eqb e DQUOTE then push_back out DQUOTE
            else if char_eqb e "n"%char then push_back out LF
            else if char_eqb e "r"%char then push_back out CR
            else if char_eqb e "t"%char then push_back out TAB
            else push_back out e in
          unquote_loop n' s t filename (i + 2) out'
  end.

Definition unquote_ (s : string) (t : Token) (filename : string) : Res string :=
  if (String.length s <? 2)%nat || negb (char_eqb (string_front s) DQUOTE)
     || negb (char_eqb (string_back s) DQUOTE)
  then Throw (mkDescriptionError filename (span_line (span t)) (span_col (span t))
                "Internal error: invalid string token")
  else unquote_loop (String.length s) s t filename 1 EmptyString.

Definition parseDouble_ (sv : string) (t : Token) (filename : string) : Res double :=
  let '(v, consumed) := strtod sv in
  if (consumed =? 0)%nat || negb (consumed =? String.length sv)%nat || negb (isfinite v)
  then Throw (mkDescriptionError filename (span_line (span t)) (span_col (span t))
                "Invalid numeric literal")
  else Ok v.

(** Lifting of the static helpers into parser actions. *)
Definition lift {A} (r : Res A) : Parser A :=
  fun lx => match r with
            | Ok a => Ok (a, lx)
            | Throw e => Throw e
            | OutOfFuel => OutOfFuel
            end.

Variable filename_ : string.

Definition errorAt_ {A} (t : Token) (msg : string) : Parser A :=
  throw (mkDescriptionError filename_ (span_line (span t)) (span_col (span t)) msg).

Definition expect_ (k : TokKind.t) (msg : string) : Parser Token :=
  let* t := Lexer_next in
  if negb (TokKind.eqb (kind t) k) then errorAt_ t msg else ret t.

Definition match_ (k : TokKind.t) : Parser bool :=
  let* t := Lexer_peek 0 in
  if TokKind.eqb (kind t) k then (let* _ := Lexer_next in ret true) else ret false.

Definition isKeyword_ (kw : string) : Parser bool :=
  let* t := Lexer_peek 0 in
  ret (TokKind.eqb (kind t) TokKind.Ident && String.eqb (lexeme t) kw).

Definition expectKeyword_ (kw : string) : Parser Token :=
  let* t := Lexer_next in
  if negb (TokKind.eqb (kind t) TokKind.Ident) || negb (String.eqb (lexeme t) kw)
  then errorAt_ t ("Expected keyword '" +:+ kw +:+ "'")
  else ret t.

Definition peek_kind_is (k : TokKind.t) : Parser bool :=
  let* t := Lexer_peek 0 in ret (TokKind.eqb (kind t) k).

(** [lex_.peek().kind == Ident && lex_.peek(1).kind == Equals]; the second
    token is only requested when the first is an identifier. *)
Definition at_keyword_property : Parser bool :=
  let* t0 := Lexer_peek 0 in
  if TokKind.eqb (kind t0) TokKind.Ident
  then (let* t1 := Lexer_peek 1 in ret (TokKind.eqb (kind t1) TokKind.Equals))
  else ret false.

Definition parseValue_ : Parser Value :=
  let* t := Lexer_peek 0 in
  if TokKind.eqb (kind t) TokKind.Number then
    let* t' := Lexer_next in
    let* v := lift (parseDouble_ (lexeme t') t' filename_) in
    ret (VDouble v)
  else if TokKind.eqb (kind t) TokKind.String then
    let* t' := Lexer_next in
    let* s := lift (unquote_ (lexeme t') t' filename_) in
    ret (VString s)
  else if TokKind.eqb (kind t) TokKind.Ident
          && (String.eqb (lexeme t) "true" || String.eqb (lexeme t) "false") then
    let* _ := Lexer_next in ret (VBool (String.eqb (lexeme t) "true"))
  else errorAt_ t "Expected value (number, string, or boolean)".

Definition add_arg (props : Properties) (v : Value) : Properties :=
  mkProperties (args props ++ [v]) (kwargs props).

Definition add_kwarg (props : Properties) (k : KeywordArg double) : Properties :=
  mkProperties (args props) (kwargs props ++ [k]).

Definition parseKeywordPropertyInto_ (props : Properties) : Parser Properties :=
  let* nameTok := expect_ TokKind.Ident "Expected property name" in
  let* _ := expect_ TokKind.Equals "Expected '=' in keyword property" in
  let* v := parseValue_ in
  ret (add_kwarg props (mkKeywordArg (lexeme nameTok) v)).

(** [while (match_(Colon)) { if (!(Ident '=')) errorAt_(peek, ...);
    parseKeywordPropertyInto_(props); }] *)
Definition keyword_property_tail (props : Properties) : Parser Properties :=
  while_ (match_ TokKind.Colon)
    (fun props =>
       let* b := at_keyword_property in
       if negb b then
         (let* t := Lexer_peek 0 in
          errorAt_ t "Expected keyword property name=value after ':'")
       else parseKeywordPropertyInto_ props)
    props.

Definition parseProperties_ : Parser Properties :=
  let props := mkProperties [] [] in
  let* _ := expect_ TokKind.LParen "Expected '(' to start property list" in
  let* b := at_keyword_property in
  let* props :=
    (if b then
       (let* props := parseKeywordPropertyInto_ props in
        keyword_property_tail props)
     else
       (let* r := peek_kind_is TokKind.RParen in
        if negb r then
          (let* v := parseValue_ in
           loop (fun props =>
                   let* c := match_ TokKind.Colon in
                   if c then
                     (let* b := at_keyword_property in
                      if b then
                        (let* props := parseKeywordPropertyInto_ props in
                         let* props := keyword_property_tail props in
                         ret (Break props))
                      else (let* v := parseValue_ in ret (Continue (add_arg props v))))
                   else ret (Break props))
                (add_arg props v))
        else ret props)) in
  let* _ := expect_ TokKind.RParen "Expected ')' to end property list" in
  ret props.

Definition parseOptionalArray_ : Parser (option FieldArray) :=
  let* b := match_ TokKind.LBrack in
  if negb b then ret None
  else
    let* n := peek_kind_is TokKind.Number in
    let* arr :=
      (if n then
         (let* t := Lexer_next in
          let sv := lexeme t in
          if negb (String.eqb sv EmptyString) && is_sign (string_front sv)
          then errorAt_ t "Array length must be a non-negative integer"
          else
            match from_chars SIZE_MAX sv with
            | (consumed, inr len) =>
                if negb (consumed =? String.length sv)%nat
                then errorAt_ t "Array length must be an integer"
                else ret (mkFieldArray (Some len))
            | (_, inl _) => errorAt_ t "Array length must be an integer"
            end)
       else ret (mkFieldArray None)) in
    let* _ := expect_ TokKind.RBrack "Expected ']' after array specifier" in
    ret (Some arr).

Definition parseField_ : Parser Field :=
  let* typeTok := expect_ TokKind.Ident "Expected field type" in
  let* arr := parseOptionalArray_ in
  let* nameTok := expect_ TokKind.Ident "Expected field name" in
  let* p := peek_kind_is TokKind.LParen in
  let* props := (if p then (let* ps := parseProperties_ in ret (Some ps)) else ret None) in
  let* e := match_ TokKind.Equals in
  let* dv := (if e then (let* v := parseValue_ in ret (Some v)) else ret None) in
  let* _ := expect_ TokKind.Semicolon "Expected ';' after field" in
  ret (mkField (lexeme typeTok) arr (lexeme nameTok) props dv).

Definition parseFieldList_ : Parser FieldList :=
  let* _ := expect_ TokKind.LBrace "Expected '{' to start field list" in
  let* fs := while_ (let* b := peek_kind_is TokKind.RBrace in ret (negb b))
          (fun fs =>
             let* e := peek_kind_is TokKind.End in
             if e then
               (let* t := Lexer_peek 0 in errorAt_ t "Unterminated field list; expected '}'")
             else (let* f := parseField_ in ret (fs ++ [f])))
          [] in
  let* _ := expect_ TokKind.RBrace "Expected '}' to end field list" in
  ret (mkFieldList fs).

Definition parseEnumerate_ : Parser Enumerate :=
  let* _ := expectKeyword_ "enumerate" in
  let* nameTok := expect_ TokKind.Ident "Expected enumerate name" in
  let* _ := expect_ TokKind.LBrace "Expected '{' after enumerate name" in
  let* r := peek_kind_is TokKind.RBrace in
  let* vs :=
    (if negb r then
       (let* t := expect_ TokKind.Ident "Expected enumerate value" in
        while_ (match_ TokKind.Comma)
          (fun vs =>
             let* t := expect_ TokKind.Ident "Expected enumerate value" in
             ret (vs ++ [mkEnumerateValue (lexeme t)]))
          [mkEnumerateValue (lexeme t)])
     else ret []) in
  let* _ := expect_ TokKind.RBrace "Expected '}' to end enumerate" in
  ret (mkEnumerate (lexeme nameTok) vs).

Definition parseInclude_ : Parser Include :=
  let* _ := expectKeyword_ "include" in
  let* fileTok := expect_ TokKind.String "Expected quoted filename after 'include'" in
  let* name := lift (unquote_ (lexeme fileTok) fileTok filename_) in
  let* p := peek_kind_is TokKind.LParen in
  let* props := (if p then (let* ps := parseProperties_ in ret (Some ps)) else ret None) in
  let* _ := expect_ TokKind.Semicolon "Expected ';' after include" in
  ret (mkInclude name props).

Definition parseImport_ : Parser Import :=
  let* _ := expectKeyword_ "import" in
  let* fileTok := expect_ TokKind.String "Expected quoted filename after 'import'" in
  let* name := lift (unquote_ (lexeme fileTok) fileTok filename_) in
  let* _ := expect_ TokKind.Semicolon "Expected ';' after import" in
  ret (mkImport name).

Definition parseExternalLanguage_ : Parser ExternalLanguage :=
  let* _ := expectKeyword_ "language" in
  let* langTok := expect_ TokKind.Ident "Expected language name after 'language'" in
  let* contTok := expect_ TokKind.String "Expected container string after language name" in
  let* cont := lift (unquote_ (lexeme contTok) contTok filename_) in
  let* f := isKeyword_ "from" in
  let* srcs :=
    (if f then
       (let* _ := Lexer_next in
        let* s := peek_kind_is TokKind.String in
        let* _ :=
          (if negb s then
             (let* t := Lexer_peek 0 in
              errorAt_ t "Expected at least one source string after 'from'")
           else ret tt) in
        while_ (peek_kind_is TokKind.String)
          (fun srcs =>
             let* s := Lexer_next in
             let* u := lift (unquote_ (lexeme s) s filename_) in
             ret (srcs ++ [u]))
          [])
     else ret []) in
  let* d := isKeyword_ "default" in
  let* dflt :=
    (if d then
       (let* _ := Lexer_next in
        let* t := expect_ TokKind.String "Expected default string after 'default'" in
        let* u := lift (unquote_ (lexeme t) t filename_) in
        ret (Some u))
     else ret None) in
  let* r := isKeyword_ "read" in
  let* rw :=
    (if r then
       (let* _ := Lexer_next in
        let* rt := expect_ TokKind.String "Expected read string after 'read'" in
        let* ru := lift (unquote_ (lexeme rt) rt filename_) in
        let* _ := expectKeyword_ "write" in
        let* wt := expect_ TokKind.String "Expected write string after 'write'" in
        let* wu := lift (unquote_ (lexeme wt) wt filename_) in
        ret (Some ru, Some wu))
     else ret (None, None)) in
  let* _ := expect_ TokKind.Semicolon "Expected ';' after language entry" in
  ret (mkExternalLanguage (lexeme langTok) cont srcs dflt (fst rw) (snd rw)).

Definition parseExternalLanguageList_ : Parser (list ExternalLanguage) :=
  let* _ := expect_ TokKind.LParen "Expected '(' to start external language list" in
  let* langs := while_ (let* b := peek_kind_is TokKind.RParen in ret (negb b))
             (fun langs =>
                let* e := peek_kind_is TokKind.End in
                let* _ :=
                  (if e then
                     (let* t := Lexer_peek 0 in
                      errorAt_ t "Unterminated external language list; expected ')'")
                   else ret tt) in
                let* k := isKeyword_ "language" in
                let* _ :=
                  (if negb k then
                     (let* t := Lexer_peek 0 in
                      errorAt_ t "Expected 'language' entry inside external language list")
                   else ret tt) in
                let* l := parseExternalLanguage_ in
                ret (langs ++ [l]))
             [] in
  let* _ := expect_ TokKind.RParen "Expected ')' to end external language list" in
  ret langs.

Definition parseExternal_ : Parser External :=
  let* _ := expectKeyword_ "external" in
  let* nameTok := expect_ TokKind.Ident "Expected external structure name" in
  let* langs := parseExternalLanguageList_ in
  let* _ := expect_ TokKind.Semicolon "Expected ';' after external" in
  ret (mkExternal (lexeme nameTok) langs).

Definition parseStructure_ : Parser Structure :=
  let* _ := expectKeyword_ "structure" in
  let* nameTok := expect_ TokKind.Ident "Expected structure name" in
  let* fl := parseFieldList_ in
  ret (mkStructure (lexeme nameTok) fl).

Definition parseMessage_ : Parser Message :=
  let* _ := expectKeyword_ "message" in
  let* nameTok := expect_ TokKind.Ident "Expected message name" in
  let* fl := parseFieldList_ in
  ret (mkMessage (lexeme nameTok) fl).

Definition parseNamespace_ : Parser Namespace :=
  let* _ := expectKeyword_ "namespace" in
  let* first := expect_ TokKind.Ident "Expected namespace name" in
  let* name := while_ (match_ TokKind.Dot)
            (fun name =>
               let* part := expect_ TokKind.Ident "Expected namespace segment after '.'" in
               ret (push_back name "."%char +:+ lexeme part))
            (lexeme first) in
  let* _ := expect_ TokKind.Semicolon "Expected ';' after namespace" in
  ret (mkNamespace name).

Definition parseDecl_ : Parser Decl :=
  let* t := Lexer_peek 0 in
  if negb (TokKind.eqb (kind t) TokKind.Ident) then
    errorAt_ t "Expected a declaration keyword"
  else if String.eqb (lexeme t) "enumerate" then
    (let* d := parseEnumerate_ in ret (DEnumerate d))
  else if String.eqb (lexeme t) "include" then
    (let* d := parseInclude_ in ret (DInclude d))
  else if String.eqb (lexeme t) "import" then
    (let* d := parseImport_ in ret (DImport d))
  else if String.eqb (lexeme t) "external" then
    (let* d := parseExternal_ in ret (DExternal d))
  else if String.eqb (lexeme t) "structure" then
    (let* d := parseStructure_ in ret (DStructure d))
  else if String.eqb (lexeme t) "message" then
    (let* d := parseMessage_ in ret (DMessage d))
  else errorAt_ t ("Unknown declaration keyword: " +:+ lexeme t).

Definition parseDescription : Parser Description :=
  let* k := isKeyword_ "namespace" in
  let* ns := (if k then (let* n := parseNamespace_ in ret (Some n)) else ret None) in
  let* ds := while_ (let* b := peek_kind_is TokKind.End in ret (negb b))
          (fun ds => let* d := parseDecl_ in ret (ds ++ [d]))
          [] in
  let* _ := expect_ TokKind.End "Expected end of input" in
  ret (mkDescription ns ds).

End Parser.

(** [parse(text, filename)] *)
Definition parse (double : Type) (strtod : string -> double * nat)
    (isfinite : double -> bool) (SIZE_MAX : N)
    (text : string) (filename : string) : Res (Description double) :=
  match parseDescription double strtod isfinite SIZE_MAX filename (Lexer_new text) with
  | Ok (d, _) => Ok d
  | Throw e => Throw e
  | OutOfFuel => OutOfFuel
  end.

(* ===================================================================== *)
(** * [codegen.cpp]: type metadata and the type registry *)
(* ===================================================================== *)

Record ContainerMapping := mkContainerMapping {
  containers : std_map string;
  defaults : std_map string;
  readers : std_map string;
  writers : std_map string
}.

Record TypeMetadata := mkTypeMetadata {
  tm_name : string;
  tm_hash : string;
  tm_containers : ContainerMapping;
  tm_sources : list string;
  is_builtin : bool;
  is_external : bool
}.

(** A default-constructed [TypeMetadata]. *)
Definition TypeMetadata_new : TypeMetadata :=
  mkTypeMetadata EmptyString EmptyString (mkContainerMapping [] [] [] []) [] false false.

Definition find_or (m : std_map string) (k : string) (dflt : string) : string :=
  match map_find k m with Some v => v | None => dflt end.

Definition getContainer (meta : TypeMetadata) (language : string) : string :=
  find_or (containers (tm_containers meta)) language (tm_name meta).

Definition getDefault (meta : TypeMetadata) (language : string) : string :=
  find_or (defaults (tm_containers meta)) language EmptyString.

Definition getReader (meta : TypeMetadata) (language : string) : string :=
  find_or (readers (tm_containers meta)) language EmptyString.

Definition getWriter (meta : TypeMetadata) (language : string) : string :=
  find_or (writers (tm_containers meta)) language EmptyString.

(** A map literal [{{k1, v1}, {k2, v2}}]. *)
Definition map_of_list {V} (l : list (string * V)) : std_map V :=
  fold_left (fun m kv => map_assign (fst kv) (snd kv) m) l [].

Definition string_is_empty (s : string) : bool :=
  match s with EmptyString => true | _ => false end.

Section Registry.

Variable double : Type.
Variable char_is_signed : bool.

Local Abbreviation Field := (@Field double).
Local Abbreviation Description := (@Description double).
Local Abbreviation computeHash := (computeHash char_is_signed).

Record TypeRegistry := mkTypeRegistry {
  types_ : std_map TypeMetadata;
  enums_ : std_map (std_map Z);
  structs_ : std_map (std_map Field);
  messages_ : list string
}.

Definition TypeRegistry_empty : TypeRegistry := mkTypeRegistry [] [] [] [].

Definition registerType (metadata : TypeMetadata) (r : TypeRegistry) : TypeRegistry :=
  mkTypeRegistry (map_assign (tm_name metadata) metadata (types_ r))
    (enums_ r) (structs_ r) (messages_ r).

Definition createBuiltinType_ (name : string) (conts : list (string * string))
    (dflts : list (string * string)) : TypeMetadata :=
  mkTypeMetadata name (computeHash name)
    (mkContainerMapping (map_of_list conts) (map_of_list dflts) [] [])
    (if String.eqb name "string" then ["string"]
     else if String.eqb name "array" || String.eqb name "tensor"
          then ["vector"; "routio/array.h"; "numpy"]
     else if String.eqb name "timestamp" then ["chrono"; "datetime"]
     else [])
    true false.

Definition registerBuiltinTypes_ (r : TypeRegistry) : TypeRegistry :=
  let r := registerType (createBuiltinType_ "int8"
             [("cpp", "int8_t"); ("python", "int")] [("cpp", "0"); ("python", "0")]) r in
  let r := registerType (createBuiltinType_ "int16"
             [("cpp", "int16_t"); ("python", "int")] [("cpp", "0"); ("python", "0")]) r in
  let r := registerType (createBuiltinType_ "int32"
             [("cpp", "int32_t"); ("python", "int")] [("cpp", "0"); ("python", "0")]) r in
  let r := registerType (createBuiltinType_ "int64"
             [("cpp", "int64_t"); ("python", "routio.long")] [("cpp", "0"); ("python", "0")]) r in
  let r := registerType (createBuiltinType_ "uint8"
             [("cpp", "uint8_t"); ("python", "int")] [("cpp", "0"); ("python", "0")]) r in
  let r := registerType (createBuiltinType_ "uint16"
             [("cpp", "uint16_t"); ("python", "int")] [("cpp", "0"); ("python", "0")]) r in
  let r := registerType (createBuiltinType_ "uint32"
             [("cpp", "uint32_t"); ("python", "int")] [("cpp", "0"); ("python", "0")]) r in
  let r := registerType (createBuiltinType_ "uint64"
             [("cpp", "uint64_t"); ("python", "int")] [("cpp", "0"); ("python", "0")]) r in
  let r := registerType (createBuiltinType_ "float32"
             [("cpp", "float"); ("python", "float")] [("cpp", "0.0f"); ("python", "0.0")]) r in
  let r := registerType (createBuiltinType_ "float64"
             [("cpp", "double"); ("python", "routio.double")]
             [("cpp", "0.0"); ("python", "0.0")]) r in
  let r := registerType (createBuiltinType_ "bool"
             [("cpp", "bool"); ("python", "bool")]
             [("cpp", "false"); ("python", "False")]) r in
  let two_quotes := String.String DQUOTE (String.String DQUOTE EmptyString) in
  let r := registerType (createBuiltinType_ "string"
             [("cpp", "std::string"); ("python", "str")]
             [("cpp", two_quotes); ("python", two_quotes)]) r in
  let r := registerType (createBuiltinType_ "int"
             [("cpp", "int32_t"); ("python", "int")] [("cpp", "0"); ("python", "0")]) r in
  let r := registerType (createBuiltinType_ "float"
             [("cpp", "float"); ("python", "float")] [("cpp", "0.0f"); ("python", "0.0")]) r in
  let r := registerType (createBuiltinType_ "double"
             [("cpp", "double"); ("python", "routio.double")]
             [("cpp", "0.0"); ("python", "0.0")]) r in
  let r := registerType (createBuiltinType_ "char"
             [("cpp", "char"); ("python", "routio.char")]
             [("cpp", "'\0'"); ("python", "'\0'")]) r in
  let timestamp :=
    mkTypeMetadata "timestamp" (computeHash "timestamp")
      (mkContainerMapping
         (map_of_list [("cpp", "std::chrono::system_clock::time_point");
                       ("python", "datetime.datetime")]) [] [] [])
      ["chrono"; "datetime"] true false in
  let r := registerType timestamp r in
  let header :=
    mkTypeMetadata "header" (computeHash "header")
      (mkContainerMapping
         (map_of_list [("cpp", "routio::Header"); ("python", "routio.Header")])
         (map_of_list [("cpp", "routio::Header()"); ("python", "routio.Header()")]) [] [])
      ["routio/datatypes.h"] true false in
  let r := registerType header r in
  let array :=
    mkTypeMetadata "array" (computeHash "array")
      (mkContainerMapping
         (map_of_list [("cpp", "routio::Array"); ("python", "numpy.ndarray")])
         (map_of_list [("cpp", "routio::Array()"); ("python", "numpy.zeros((0,))")]) [] [])
      ["routio/array.h"; "numpy"] true false in
  let r := registerType array r in
  let tensor :=
    mkTypeMetadata "tensor" (computeHash "tensor")
      (mkContainerMapping
         (map_of_list [("cpp", "routio::Tensor"); ("python", "numpy.ndarray")])
         (map_of_list [("cpp", "routio::Tensor()"); ("python", "numpy.zeros((0,))")]) [] [])
      ["routio/array.h"; "numpy"] true false in
  registerType tensor r.

(** [TypeRegistry::TypeRegistry()] *)
Definition TypeRegistry_new : TypeRegistry := registerBuiltinTypes_ TypeRegistry_empty.

Definition registerEnum (name : string) (values : std_map Z) (r : TypeRegistry)
    : TypeRegistry :=
  let r := mkTypeRegistry (types_ r) (map_assign name values (enums_ r))
             (structs_ r) (messages_ r) in
  let hash := fold_left (fun h vi => computeHash (h +:+ fst vi)) values
                (computeHash name) in
  registerType (mkTypeMetadata name hash (mkContainerMapping [] [] [] []) [] false false) r.

(** The text hashed for a structure: [content = name;
    for ([fname, field] : fields) content += field.type + fname;] *)
Definition struct_content (name : string) (fs : std_map Field) : string :=
  fold_left (fun content kv => content +:+ (f_type (snd kv) +:+ fst kv)) fs name.

Definition registerStruct (name : string) (fs : std_map Field) (r : TypeRegistry)
    : TypeRegistry :=
  let r := mkTypeRegistry (types_ r) (enums_ r) (map_assign name fs (structs_ r))
             (messages_ r) in
  registerType
    (mkTypeMetadata name (computeHash (struct_content name fs))
       (mkContainerMapping [] [] [] []) [] false false) r.

Definition registerMessage (name : string) (fs : std_map Field) (r : TypeRegistry)
    : TypeRegistry :=
  let r := mkTypeRegistry (types_ r) (enums_ r) (structs_ r) (messages_ r ++ [name]) in
  registerStruct name fs r.

Definition assign_opt (k : string) (o : option string) (m : std_map string)
    : std_map string :=
  match o with Some v => map_assign k v m | None => m end.

Definition registerExternal (ext : External) (r : TypeRegistry) : TypeRegistry :=
  let meta0 :=
    mkTypeMetadata (ext_name ext) (computeHash (ext_name ext))
      (mkContainerMapping [] [] [] []) [] false true in
  let meta :=
    fold_left
      (fun meta lang =>
         let c := tm_containers meta in
         mkTypeMetadata (tm_name meta) (tm_hash meta)
           (mkContainerMapping
              (map_assign (language lang) (container lang) (containers c))
              (assign_opt (language lang) (deflt lang) (defaults c))
              (assign_opt (language lang) (read lang) (readers c))
              (assign_opt (language lang) (write lang) (writers c)))
           (tm_sources meta ++ sources lang) (is_builtin meta) (is_external meta))
      (languages ext) meta0 in
  registerType meta r.

Definition getType (r : TypeRegistry) (name : string) : option TypeMetadata :=
  map_find name (types_ r).

Definition getEnum (r : TypeRegistry) (name : string) : option (std_map Z) :=
  map_find name (enums_ r).

Definition getStruct (r : TypeRegistry) (name : string) : option (std_map Field) :=
  map_find name (structs_ r).

Definition isMessage (r : TypeRegistry) (name : string) : bool :=
  existsb (String.eqb name) (messages_ r).

Definition getHash (r : TypeRegistry) (name : string) : string :=
  match getType r name with
  | Some meta => tm_hash meta
  | None => computeHash name
  end.

Definition push_unique (srcs : list string) (src : string) : list string :=
  if existsb (String.eqb src) srcs then srcs else srcs ++ [src].

Definition getSources (r : TypeRegistry) (language : string) : list string :=
  let srcs :=
    if String.eqb language "cpp"
    then ["vector"; "chrono"; "routio/datatypes.h"; "routio/array.h"]
    else if String.eqb language "python" then ["routio"; "datetime"; "numpy"]
    else [] in
  fold_left (fun srcs nm => fold_left push_unique (tm_sources (snd nm)) srcs)
    (types_ r) srcs.

(** The registry both generators build from a description
    ([CppGenerator::buildRegistry_], [PythonGenerator::buildRegistry_]:
    the two bodies are the same). *)
Definition enum_value_map (vs : list EnumerateValue) : std_map Z :=
  fst (fold_left (fun mi val => (map_assign (ev_name val) (snd mi) (fst mi), snd mi + 1))
         vs ([], 0)).

Definition field_map (fs : list Field) : std_map Field :=
  fold_left (fun m f => map_assign (f_name f) f m) fs [].

Definition is_cpp_language (l : string) : bool := String.eqb l "cpp" || String.eqb l "c++".
Definition is_python_language (l : string) : bool := String.eqb l "python" || String.eqb l "py".

Definition external_metadata (d : External) : TypeMetadata :=
  fold_left
    (fun meta lang =>
       let c := tm_containers meta in
       let target :=
         if is_cpp_language (language lang) then Some "cpp"
         else if is_python_language (language lang) then Some "python"
         else None in
       match target with
       | Some key =>
           mkTypeMetadata (tm_name meta) (tm_hash meta)
             (mkContainerMapping
                (map_assign key (container lang) (containers c))
                (assign_opt key (deflt lang) (defaults c))
                (assign_opt key (read lang) (readers c))
                (assign_opt key (write lang) (writers c)))
             (tm_sources meta ++ sources lang) (is_builtin meta) (is_external meta)
       | None => meta
       end)
    (languages d)
    (mkTypeMetadata (ext_name d) EmptyString (mkContainerMapping [] [] [] []) []
       false false).

Definition register_decl (r : TypeRegistry) (decl : Decl double) : TypeRegistry :=
  match decl with
  | DEnumerate d => registerEnum (enum_name d) (enum_value_map (enum_values d)) r
  | DStructure d => registerStruct (struct_name d) (field_map (fields (struct_fields d))) r
  | DMessage d => registerMessage (msg_name d) (field_map (fields (msg_fields d))) r
  | DExternal d => registerType (external_metadata d) r
  | DInclude _ => r
  | DImport _ => r
  end.

(** The member [registry_] is constructed by [TypeRegistry()], which already
    registers the built-in types; [buildRegistry_] registers them again. *)
Definition buildRegistry_ (desc : Description) : TypeRegistry :=
  fold_left register_decl (decls desc) (registerBuiltinTypes_ TypeRegistry_new).

End Registry.

Arguments types_ {double}.
Arguments enums_ {double}.
Arguments structs_ {double}.
Arguments messages_ {double}.
Arguments mkTypeRegistry {double}.
Arguments getType {double}.
Arguments getEnum {double}.
Arguments getStruct {double}.
Arguments isMessage {double}.
Arguments getSources {double}.
Arguments field_map {double}.
Arguments struct_content {double}.

(* ===================================================================== *)
(** * [codegen.cpp]: the C++ and Python emitters *)
(* ===================================================================== *)

(** [while (std::getline(iss, part, delim))]: the parts read from a stream.
    A read at end of input fails, so no empty part follows a final
    delimiter. *)
Fixpoint getline_parts (delim : ascii) (s : string) (part : string) : list string :=
  match s with
  | EmptyString => [part]
  | String.String c r =>
      if char_eqb c delim
      then part :: match r with
                   | EmptyString => []
                   | _ => getline_parts delim r EmptyString
                   end
      else getline_parts delim r (push_back part c)
  end.

Definition getline_all (delim : ascii) (s : string) : list string :=
  match s with
  | EmptyString => []
  | _ => getline_parts delim s EmptyString
  end.

(** The text a [for] loop over a container writes to the stream. *)
Definition emit_each {A} (l : list A) (f : A -> string) : string :=
  string_concat (map f l).

(** The same for loops that write a separator before every element but the
    first ([if (!first) out << sep; ... first = false;]). *)
Fixpoint emit_separated {A} (sep : string) (l : list A) (f : A -> string) : string :=
  match l with
  | [] => EmptyString
  | [x] => f x
  | x :: r => f x +:+ sep +:+ emit_separated sep r f
  end.

Definition NL : string := String.String LF EmptyString.
Definition TABs : string := String.String TAB EmptyString.
Definition QUOTE : string := String.String DQUOTE EmptyString.

Section Generators.

Variable double : Type.
(** [operator<<(std::ostream&, double)] with the default format. *)
Variable ostream_double : double -> string.
Variable char_is_signed : bool.

Local Abbreviation Value := (Value double).
Local Abbreviation Field := (@Field double).
Local Abbreviation Description := (@Description double).
Local Abbreviation TypeRegistry := (TypeRegistry double).
Local Abbreviation buildRegistry_ := (buildRegistry_ double char_is_signed).
Local Abbreviation getHash := (getHash double char_is_signed).

(** ** [CppGenerator] *)

Record CppGenerator := mkCppGenerator {
  cpp_desc_ : Description;
  cpp_registry_ : TypeRegistry;
  namespace_ : string
}.

Definition CppGenerator_new (desc : Description) : CppGenerator :=
  mkCppGenerator desc (buildRegistry_ desc)
    (match ns desc with Some n => ns_name n | None => EmptyString end).

Definition cpp_generateHeader_ (basename : string) : string :=
  let guard := string_map toupper basename in
  "#ifndef __" +:+ guard +:+ "_MSGS_H" +:+ NL +:+
  "#define __" +:+ guard +:+ "_MSGS_H" +:+ NL +:+ NL.

Definition cpp_generateIncludes_ (g : CppGenerator) : string :=
  emit_each (getSources (cpp_registry_ g) "cpp")
    (fun src => "#include <" +:+ src +:+ ">" +:+ NL).

Definition cpp_generateTypeSpecializations_ (g : CppGenerator) : string :=
  emit_each (types_ (cpp_registry_ g))
    (fun nm =>
       let meta := snd nm in
       let reader := getReader meta "cpp" in
       let writer := getWriter meta "cpp" in
       let cont := getContainer meta "cpp" in
       if negb (string_is_empty reader) && negb (string_is_empty writer) then
         "template <> inline void read(MessageReader& reader, " +:+ cont +:+ "& dst) {" +:+ NL +:+
         TABs +:+ "dst = " +:+ reader +:+ "(reader);" +:+ NL +:+
         "}" +:+ NL +:+ NL +:+
         "template <> inline void write(MessageWriter& writer, const " +:+ cont +:+ "& src) {" +:+ NL +:+
         TABs +:+ writer +:+ "(writer, src);" +:+ NL +:+
         "}" +:+ NL +:+ NL
       else EmptyString).

Definition cpp_generateNamespaceOpen_ (g : CppGenerator) : string :=
  if string_is_empty (namespace_ g) then EmptyString
  else
    emit_each (getline_all "."%char (namespace_ g))
      (fun part => "namespace " +:+ part +:+ " {" +:+ NL) +:+ NL.

Definition cpp_generateNamespaceClose_ (g : CppGenerator) : string :=
  if string_is_empty (namespace_ g) then EmptyString
  else
    emit_each (rev (getline_all "."%char (namespace_ g))) (fun _ => "}" +:+ NL).

Definition cpp_generateEnums_ (g : CppGenerator) : string :=
  emit_each (enums_ (cpp_registry_ g))
    (fun nv =>
       let name := fst nv in
       "enum " +:+ name +:+ " { " +:+
       emit_separated ", " (snd nv)
         (fun vi => string_map toupper name +:+ "_" +:+ fst vi) +:+
       " };" +:+ NL +:+ NL).

Definition cpp_generateForwardDeclarations_ (g : CppGenerator) : string :=
  emit_each (structs_ (cpp_registry_ g))
    (fun nf => "class " +:+ fst nf +:+ ";" +:+ NL) +:+ NL.

Definition cpp_formatValue_ (val : Value) : string :=
  match val with
  | VDouble v => ostream_double v
  | VString v => QUOTE +:+ v +:+ QUOTE
  | VBool v => if v then "true" else "false"
  end.

Definition base_type (r : TypeRegistry) (field : Field) : string :=
  match getType r (f_type field) with
  | Some meta => getContainer meta "cpp"
  | None => f_type field
  end.

Definition cpp_getFieldType_ (g : CppGenerator) (field : Field) : string :=
  let baseType := base_type (cpp_registry_ g) field in
  match f_array field with
  | Some arr =>
      match length_ arr with
      | Some len => baseType +:+ "[" +:+ decimal_of_N len +:+ "]"
      | None => "std::vector<" +:+ baseType +:+ ">"
      end
  | None => baseType
  end.

Definition cpp_getDefaultValue_ (g : CppGenerator) (field : Field) : string :=
  match f_default_value field with
  | Some v => cpp_formatValue_ v
  | None =>
      let meta := getType (cpp_registry_ g) (f_type field) in
      let defval := match meta with Some m => getDefault m "cpp" | None => EmptyString end in
      if negb (string_is_empty defval) then defval
      else
        match f_array field with
        | Some arr =>
            match length_ arr with
            | Some _ => "{}"
            | None => "std::vector<" +:+ base_type (cpp_registry_ g) field +:+ ">()"
            end
        | None => base_type (cpp_registry_ g) field +:+ "()"
        end
  end.

(** The parameter list of the generated constructor. *)
Definition cpp_constructor_params (g : CppGenerator) (fs : std_map Field) : string :=
  emit_separated ("," +:+ NL) fs
    (fun kv => TABs +:+ TABs +:+ cpp_getFieldType_ g (snd kv) +:+ " " +:+ fst kv
               +:+ " = " +:+ cpp_getDefaultValue_ g (snd kv)).

(** The body of the loop of [generateStructs_] for one structure. *)
Definition cpp_struct_class (g : CppGenerator) (name : string) (fs : std_map Field)
    : string :=
  "class " +:+ name +:+ " {" +:+ NL +:+
  "public:" +:+ NL +:+
  TABs +:+ name +:+ "(" +:+ NL +:+
  cpp_constructor_params g fs +:+
  NL +:+ TABs +:+ ") {" +:+ NL +:+
  emit_each fs
    (fun kv => TABs +:+ TABs +:+ "this->" +:+ fst kv +:+ " = " +:+ fst kv +:+ ";" +:+ NL) +:+
  TABs +:+ "};" +:+ NL +:+ NL +:+
  TABs +:+ "virtual ~" +:+ name +:+ "() {};" +:+ NL +:+
  emit_each fs
    (fun kv => TABs +:+ cpp_getFieldType_ g (snd kv) +:+ " " +:+ fst kv +:+ ";" +:+ NL) +:+
  "};" +:+ NL +:+ NL.

Definition cpp_generateStructs_ (g : CppGenerator) : string :=
  emit_each (structs_ (cpp_registry_ g))
    (fun nf => cpp_struct_class g (fst nf) (snd nf)).

Definition getCppNamespace_ (g : CppGenerator) : string :=
  if string_is_empty (namespace_ g) then EmptyString
  else "::" +:+ string_map (fun c => if char_eqb c "."%char then ":"%char else c) (namespace_ g)
       +:+ "::".

Definition cpp_generateEnumSerializers_ (g : CppGenerator) : string :=
  let cppns := getCppNamespace_ g in
  emit_each (enums_ (cpp_registry_ g))
    (fun nv =>
       let name := fst nv in
       let upper_name := string_map toupper name in
       "template <> inline void read(MessageReader& reader, " +:+ cppns +:+ name +:+ "& dst) {" +:+ NL +:+
       TABs +:+ "switch (reader.read<int>()) {" +:+ NL +:+
       emit_each (snd nv)
         (fun vi => TABs +:+ "case " +:+ to_string_int (snd vi) +:+ ": dst = " +:+ cppns
                    +:+ upper_name +:+ "_" +:+ fst vi +:+ "; break;" +:+ NL) +:+
       TABs +:+ "}" +:+ NL +:+
       "}" +:+ NL +:+ NL +:+
       "template <> inline void write(MessageWriter& writer, const " +:+ cppns +:+ name +:+ "& src) {" +:+ NL +:+
       TABs +:+ "switch (src) {" +:+ NL +:+
       emit_each (snd nv)
         (fun vi => TABs +:+ "case " +:+ cppns +:+ upper_name +:+ "_" +:+ fst vi
                    +:+ ": writer.write<int>(" +:+ to_string_int (snd vi) +:+ "); return;" +:+ NL) +:+
       TABs +:+ "}" +:+ NL +:+
       "}" +:+ NL +:+ NL).

(** The body of the loop of [generateStructSerializers_] for one structure. *)
Definition cpp_struct_serializer (cppns : string) (name : string) (fs : std_map Field)
    : string :=
  "template <> inline void read(MessageReader& reader, " +:+ cppns +:+ name +:+ "& dst) {" +:+ NL +:+
  emit_each fs (fun kv => TABs +:+ "read(reader, dst." +:+ fst kv +:+ ");" +:+ NL) +:+
  "}" +:+ NL +:+ NL +:+
  "template <> inline void write(MessageWriter& writer, const " +:+ cppns +:+ name +:+ "& src) {" +:+ NL +:+
  emit_each fs (fun kv => TABs +:+ "write(writer, src." +:+ fst kv +:+ ");" +:+ NL) +:+
  "}" +:+ NL +:+ NL.

Definition cpp_generateStructSerializers_ (g : CppGenerator) : string :=
  let cppns := getCppNamespace_ g in
  emit_each (structs_ (cpp_registry_ g))
    (fun nf => cpp_struct_serializer cppns (fst nf) (snd nf)).

Definition cpp_generateMessageSpecializations_ (g : CppGenerator) : string :=
  let cppns := getCppNamespace_ g in
  emit_each (messages_ (cpp_registry_ g))
    (fun msgName =>
       let hash := getHash (cpp_registry_ g) msgName in
       let ty := cppns +:+ msgName in
       "template <> inline string get_type_identifier<" +:+ ty +:+ ">() { return string("
         +:+ QUOTE +:+ hash +:+ QUOTE +:+ "); }" +:+ NL +:+ NL +:+
       "template<> inline shared_ptr<Message> routio::Message::pack<" +:+ ty +:+ ">(const "
         +:+ ty +:+ " &data) {" +:+ NL +:+
       TABs +:+ "MessageWriter writer;" +:+ NL +:+
       TABs +:+ "write(writer, data);" +:+ NL +:+
       TABs +:+ "return make_shared<BufferedMessage>(writer);" +:+ NL +:+
       "}" +:+ NL +:+ NL +:+
       "template<> inline shared_ptr<" +:+ ty +:+ "> routio::Message::unpack<" +:+ ty
         +:+ ">(SharedMessage message) {" +:+ NL +:+
       TABs +:+ "MessageReader reader(message);" +:+ NL +:+
       TABs +:+ "shared_ptr<" +:+ ty +:+ "> result(new " +:+ ty +:+ "());" +:+ NL +:+
       TABs +:+ "read(reader, *result);" +:+ NL +:+
       TABs +:+ "return result;" +:+ NL +:+
       "}" +:+ NL +:+ NL).

Definition CppGenerator_generate (g : CppGenerator) (basename : string) : string :=
  "// This is an autogenerated file, do not modify!" +:+ NL +:+ NL +:+
  cpp_generateHeader_ basename +:+
  cpp_generateIncludes_ g +:+
  NL +:+ "namespace routio {" +:+ NL +:+ NL +:+
  cpp_generateTypeSpecializations_ g +:+
  "}" +:+ NL +:+ NL +:+
  cpp_generateNamespaceOpen_ g +:+
  cpp_generateEnums_ g +:+
  cpp_generateForwardDeclarations_ g +:+
  cpp_generateStructs_ g +:+
  cpp_generateNamespaceClose_ g +:+
  NL +:+ "namespace routio {" +:+ NL +:+ NL +:+
  cpp_generateEnumSerializers_ g +:+
  cpp_generateStructSerializers_ g +:+
  cpp_generateMessageSpecializations_ g +:+
  "}" +:+ NL +:+ NL +:+
  "#endif" +:+ NL.

Definition generate_cpp (desc : Description) (basename : string) : string :=
  CppGenerator_generate (CppGenerator_new desc) basename.

(** ** [PythonGenerator] *)

Record PythonGenerator := mkPythonGenerator {
  py_desc_ : Description;
  py_registry_ : TypeRegistry
}.

Definition PythonGenerator_new (desc : Description) : PythonGenerator :=
  mkPythonGenerator desc (buildRegistry_ desc).

Definition py_generateHeader_ : string :=
  "# This is an autogenerated file, do not modify!" +:+ NL +:+
  "from __future__ import absolute_import" +:+ NL +:+
  "from __future__ import division" +:+ NL +:+
  "from __future__ import print_function" +:+ NL +:+
  "from __future__ import unicode_literals" +:+ NL +:+ NL +:+
  "from builtins import super" +:+ NL +:+ NL.

(** [registry_.getSources()] is called without an argument: the default
    language ["cpp"] applies. *)
Definition py_generateImports_ (g : PythonGenerator) : string :=
  let srcs := getSources (py_registry_ g) "cpp" in
  emit_each srcs (fun src => "import " +:+ src +:+ NL) +:+
  (if negb (match srcs with [] => true | _ => false end) then NL else EmptyString).

Definition py_generateEnumHelper_ : string :=
  "def enum(name, enums):" +:+ NL +:+
  "    reverse = dict((value, key) for key, value in enums.items())" +:+ NL +:+
  "    enums[" +:+ QUOTE +:+ "str" +:+ QUOTE +:+ "] = staticmethod(lambda x: reverse[x])" +:+ NL +:+
  "    return type(name, (), enums)" +:+ NL +:+ NL +:+
  "def enum_conversion(enum, obj):" +:+ NL +:+
  "    if isinstance(obj, int):" +:+ NL +:+
  "        return obj" +:+ NL +:+
  "    if isinstance(obj, str):" +:+ NL +:+
  "        return getattr(enum, obj)" +:+ NL +:+
  "    return 0" +:+ NL +:+ NL.

Definition py_generateEnums_ (g : PythonGenerator) : string :=
  emit_each (enums_ (py_registry_ g))
    (fun nv =>
       let name := fst nv in
       name +:+ " = enum(" +:+ QUOTE +:+ name +:+ QUOTE +:+ ", { " +:+
       emit_separated ", " (snd nv)
         (fun vi => "'" +:+ fst vi +:+ "' : " +:+ to_string_int (snd vi)) +:+
       " })" +:+ NL +:+ NL +:+
       "routio.registerType(" +:+ name +:+
       ", lambda x: x.readInt(), lambda x, o: x.writeInt(o), " +:+
       "lambda x: enum_conversion(" +:+ name +:+ ", x))" +:+ NL +:+ NL).

Definition py_generateExternalTypes_ (g : PythonGenerator) : string :=
  emit_each (types_ (py_registry_ g))
    (fun nm =>
       let meta := snd nm in
       let reader := getReader meta "python" in
       let writer := getWriter meta "python" in
       if negb (string_is_empty reader) && negb (string_is_empty writer) then
         "routio.registerType(" +:+ getContainer meta "python" +:+ ", " +:+ reader
           +:+ ", " +:+ writer +:+ " )" +:+ NL
       else EmptyString) +:+
  (if negb (match types_ (py_registry_ g) with [] => true | _ => false end)
   then NL else EmptyString).

Definition py_formatValue_ (val : Value) : string :=
  match val with
  | VDouble v => ostream_double v
  | VString v => QUOTE +:+ v +:+ QUOTE
  | VBool v => if v then "True" else "False"
  end.

Definition getPythonType_ (g : PythonGenerator) (field : Field) : string :=
  match getType (py_registry_ g) (f_type field) with
  | Some meta => getContainer meta "python"
  | None => f_type field
  end.

Definition py_type_default (g : PythonGenerator) (field : Field) : string :=
  match getType (py_registry_ g) (f_type field) with
  | Some meta => getDefault meta "python"
  | None => "None"
  end.

Definition py_getDefaultValue_ (g : PythonGenerator) (field : Field) : string :=
  match f_default_value field with
  | Some v => py_formatValue_ v
  | None =>
      match f_array field with
      | Some _ => "None"
      | None => py_type_default g field
      end
  end.

Definition isArray_ (field : Field) : bool :=
  match f_array field with Some _ => true | None => false end.

Definition isFixedArray_ (field : Field) : bool :=
  match f_array field with
  | Some arr => match length_ arr with Some _ => true | None => false end
  | None => false
  end.

Definition py_init_field (g : PythonGenerator) (fname : string) (field : Field) : string :=
  let guarded (init : string) :=
    "        if " +:+ fname +:+ " is None:" +:+ NL +:+
    "            self." +:+ fname +:+ " = " +:+ init +:+ NL +:+
    "        else:" +:+ NL +:+
    "            self." +:+ fname +:+ " = " +:+ fname +:+ NL in
  let plain := "        self." +:+ fname +:+ " = " +:+ fname +:+ NL in
  if isArray_ field then guarded "[]"
  else
    match f_default_value field with
    | None =>
        if String.eqb (py_type_default g field) "None"
        then guarded (getPythonType_ g field +:+ "()")
        else plain
    | Some _ => plain
    end.

(** The statement emitted for one field by the [read] method. *)
Definition py_read_field (g : PythonGenerator) (fname : string) (field : Field) : string :=
  if isArray_ field then
    "        dst." +:+ fname +:+ " = routio.readList(" +:+ getPythonType_ g field
      +:+ ", reader)" +:+ NL
  else
    "        dst." +:+ fname +:+ " = routio.readType(" +:+ getPythonType_ g field
      +:+ ", reader)" +:+ NL.

(** The statement emitted for one field by the [write] method. *)
Definition py_write_field (g : PythonGenerator) (fname : string) (field : Field) : string :=
  if isArray_ field then
    "        routio.writeList(" +:+ getPythonType_ g field +:+ ", writer, obj." +:+ fname
      +:+ ")" +:+ NL
  else
    "        routio.writeType(" +:+ getPythonType_ g field +:+ ", writer, obj." +:+ fname
      +:+ ")" +:+ NL.

Definition py_generateStructs_ (g : PythonGenerator) : string :=
  emit_each (structs_ (py_registry_ g))
    (fun nf =>
       let name := fst nf in
       let fs := snd nf in
       "class " +:+ name +:+ "(object):" +:+ NL +:+
       "    def __init__(self" +:+
       emit_each fs
         (fun kv => "," +:+ NL +:+ "        " +:+ fst kv +:+ " = "
                    +:+ py_getDefaultValue_ g (snd kv)) +:+
       "):" +:+ NL +:+
       emit_each fs (fun kv => py_init_field g (fst kv) (snd kv)) +:+
       "        pass" +:+ NL +:+ NL +:+
       "    @staticmethod" +:+ NL +:+
       "    def read(reader):" +:+ NL +:+
       "        dst = " +:+ name +:+ "()" +:+ NL +:+
       emit_each fs (fun kv => py_read_field g (fst kv) (snd kv)) +:+
       "        return dst" +:+ NL +:+ NL +:+
       "    @staticmethod" +:+ NL +:+
       "    def write(writer, obj):" +:+ NL +:+
       emit_each fs (fun kv => py_write_field g (fst kv) (snd kv)) +:+
       "        pass" +:+ NL +:+ NL +:+
       "routio.registerType(" +:+ name +:+ ", " +:+ name +:+ ".read, " +:+ name
         +:+ ".write)" +:+ NL +:+ NL).

Definition py_generateMessages_ (g : PythonGenerator) : string :=
  emit_each (messages_ (py_registry_ g))
    (fun msgName =>
       let hash := getHash (py_registry_ g) msgName in
       "class " +:+ msgName +:+ "Subscriber(routio.Subscriber):" +:+ NL +:+ NL +:+
       "    def __init__(self, client, alias, callback):" +:+ NL +:+
       "        def _read(message):" +:+ NL +:+
       "            reader = routio.MessageReader(message)" +:+ NL +:+
       "            return " +:+ msgName +:+ ".read(reader)" +:+ NL +:+ NL +:+
       "        super(" +:+ msgName +:+ "Subscriber, self).__init__(client, alias, "
         +:+ QUOTE +:+ hash +:+ QUOTE +:+ ", lambda x: callback(_read(x)))"
         +:+ NL +:+ NL +:+ NL +:+
       "class " +:+ msgName +:+ "Publisher(routio.Publisher):" +:+ NL +:+ NL +:+
       "    def __init__(self, client, alias):" +:+ NL +:+
       "        super(" +:+ msgName +:+ "Publisher, self).__init__(client, alias, "
         +:+ QUOTE +:+ hash +:+ QUOTE +:+ ")" +:+ NL +:+ NL +:+
       "    def send(self, obj):" +:+ NL +:+
       "        writer = routio.MessageWriter()" +:+ NL +:+
       "        " +:+ msgName +:+ ".write(writer, obj)" +:+ NL +:+
       "        super(" +:+ msgName +:+ "Publisher, self).send(writer)" +:+ NL +:+ NL).

Definition PythonGenerator_generate (g : PythonGenerator) : string :=
  py_generateHeader_ +:+
  py_generateImports_ g +:+
  py_generateEnumHelper_ +:+
  py_generateEnums_ g +:+
  py_generateExternalTypes_ g +:+
  py_generateStructs_ g +:+
  py_generateMessages_ g.

Definition generate_python (desc : Description) : string :=
  PythonGenerator_generate (PythonGenerator_new desc).

End Generators.

(* ===================================================================== *)
(** * The [gen] driver: [output_filename], [generate_code], [main] *)
(* ===================================================================== *)

Inductive OutputLanguage := CPP | Python.

(** [s.find_last_of(set)]: the index of the last character of [s] that
    belongs to [set], if any. *)
Fixpoint find_last_of_from (set : ascii -> bool) (s : string) (i : nat)
    (found : option nat) : option nat :=
  match s with
  | EmptyString => found
  | String.String c r =>
      find_last_of_from set r (S i) (if set c then Some i else found)
  end.

Definition find_last_of (set : ascii -> bool) (s : string) : option nat :=
  find_last_of_from set s 0 None.

Definition is_path_separator (c : ascii) : bool :=
  char_eqb c "/"%char || char_eqb c BACKSLASH.

Definition output_filename (input_filename : string) (lang : OutputLanguage) : string :=
  let base :=
    match find_last_of is_path_separator input_filename with
    | Some pos => String.substring (pos + 1)
                    (String.length input_filename - (pos + 1)) input_filename
    | None => input_filename
    end in
  let base :=
    match find_last_of (fun c => char_eqb c "."%char) base with
    | Some pos => String.substring 0 pos base
    | None => base
    end in
  match lang with
  | CPP => base +:+ ".cpp"
  | Python => base +:+ ".py"
  end.

(** The part of the process environment the driver touches: the files that
    can be opened for reading with their contents, the paths that can be
    opened for writing, and the three standard streams. *)
Record World := mkWorld {
  files : list (string * string);
  writable : string -> bool;
  stdin : string;
  stdout : string;
  stderr : string
}.

Definition read_file (w : World) (path : string) : option string :=
  map_find path (files w).

(** [std::ofstream outfile(path); outfile << text;]: the file is created or
    truncated. *)
Definition write_file (path text : string) (w : World) : World :=
  mkWorld ((path, text) :: files w) (writable w) (stdin w) (stdout w) (stderr w).

Definition cout (text : string) (w : World) : World :=
  mkWorld (files w) (writable w) (stdin w) (stdout w +:+ text) (stderr w).

Definition cerr (text : string) (w : World) : World :=
  mkWorld (files w) (writable w) (stdin w) (stdout w) (stderr w +:+ text).

(** Reading [std::cin] to its end. *)
Definition read_stdin (w : World) : string * World :=
  (stdin w, mkWorld (files w) (writable w) EmptyString (stdout w) (stderr w)).

Section Driver.

Variable double : Type.
Variable strtod : string -> double * nat.
Variable isfinite : double -> bool.
Variable SIZE_MAX : N.
Variable ostream_double : double -> string.
Variable char_is_signed : bool.

Local Abbreviation Description := (@Description double).
Local Abbreviation parse := (parse double strtod isfinite SIZE_MAX).
Local Abbreviation generate_cpp := (generate_cpp double ostream_double char_is_signed).
Local Abbreviation generate_python := (generate_python double ostream_double char_is_signed).

Definition generate_code (desc : Description) (input_filename : string)
    (lang : OutputLanguage) (w : World) : World :=
  let out_filename :=
    if negb (string_is_empty input_filename)
    then output_filename input_filename lang else EmptyString in
  let generated_code :=
    match lang with
    | CPP => generate_cpp desc out_filename
    | Python => generate_python desc
    end in
  if string_is_empty out_filename then cout generated_code w
  else if negb (writable w out_filename)
  then cerr ("Failed to open output file: " +:+ out_filename +:+ NL) w
  else write_file out_filename generated_code w.

(** The argument loop of [main]: [inr lang] when the unknown language [lang]
    makes [main] return 1 at once. *)
Fixpoint parse_args (argv : list string) (out_lang : OutputLanguage)
    (input_files : list string) : (OutputLanguage * list string) + string :=
  match argv with
  | [] => inl (out_lang, input_files)
  | arg :: rest =>
      match rest with
      | lang :: rest' =>
          if String.eqb arg "--language" then
            if String.eqb lang "cpp" then parse_args rest' CPP input_files
            else if String.eqb lang "python" then parse_args rest' Python input_files
            else inr lang
          else parse_args rest out_lang (input_files ++ [arg])
      | [] => parse_args rest out_lang (input_files ++ [arg])
      end
  end.

(** The loop over the input files; the result is the value [main] returns. *)
Fixpoint process_files (input_files : list string) (out_lang : OutputLanguage)
    (w : World) : Z * World :=
  match input_files with
  | [] => (0, w)
  | filename :: rest =>
      match read_file w filename with
      | None => (1, cerr ("Failed to open input file: " +:+ filename +:+ NL) w)
      | Some input =>
          match parse input filename with
          | Ok d => process_files rest out_lang (generate_code d filename out_lang w)
          | Throw e => (1, cerr (what e +:+ NL) w)
          | OutOfFuel => (1, w)
          end
      end
  end.

(** [main]; [args] is [argv[1..argc-1]].  The call
    [std::ios::sync_with_stdio(false)] returns the previous setting, which is
    [true] in a fresh process, so the first guard does not fire. *)
Definition main (args : list string) (w : World) : Z * World :=
  match parse_args args CPP [] with
  | inr lang => (1, cerr ("Unknown output language: " +:+ lang +:+ NL) w)
  | inl (out_lang, input_files) =>
      if (1 <? length input_files)%nat then process_files input_files out_lang w
      else
        let '(input, w1) := read_stdin w in
        match parse input "input" with
        | Ok d => (0, generate_code d EmptyString out_lang w1)
        | Throw e => (1, cerr (what e +:+ NL) w1)
        | OutOfFuel => (1, w1)
        end
  end.

End Driver.

(* ===================================================================== *)
(** * Specification-side definitions

    The notions the statements below are phrased with.  None of them is
    used by the embedded program. *)
(* ===================================================================== *)

(** The order of [std::less<std::string>]. *)
Definition str_lt (a b : string) : Prop := String.compare a b = Lt.

(** The keys of a map are strictly ascending. *)
Definition map_sorted {V} (m : std_map V) : Prop :=
  StronglySorted str_lt (map_keys m).

(** A map built by repeated assignment, [for (a : l) m[key(a)] = val(a);]. *)
Definition assign_all {A V} (key : A -> string) (val : A -> V) (l : list A)
    (m : std_map V) : std_map V :=
  fold_left (fun m a => map_assign (key a) (val a) m) l m.

(** The 16-byte XOR fold as the specification words it: position [j] of the
    accumulator is the XOR of the bytes of [s] at the indices [i] with
    [i mod 16 = j]. *)
Definition xor_fold_at (s : string) (j : nat) : Z :=
  foldr Z.lxor 0
    ((fun p => byte_of_char (snd p)) <$>
     filter (fun p => (fst p mod 16)%nat = j)
       (zip (seq 0 (String.length s)) (list_ascii_of_string s))).

(** The entries of an array of [unsigned char]. *)
Definition byte_list (l : list Z) : Prop := Forall (fun h => 0 <= h < 256) l.

(** The XOR of the bytes of [l], numbered from [i], whose index falls on
    position [j]. *)
Definition xor_sel (i : nat) (l : list ascii) (j : nat) : Z :=
  foldr Z.lxor 0
    ((fun p => byte_of_char (snd p)) <$>
     filter (fun p => (fst p mod 16)%nat = j) (zip (seq i (length l)) l)).

(** A byte as two lower-case hexadecimal digits. *)
Definition hex2 (b : Z) : string :=
  String.String (hex_digit (b / 16)) (String.String (hex_digit (b mod 16)) EmptyString).

Definition xor_fold_hash (s : string) : string :=
  string_concat ((fun j => hex2 (xor_fold_at s j)) <$> seq 0 16).

Definition is_lower_hex (c : ascii) : Prop :=
  c ∈ list_ascii_of_string "0123456789abcdef".

(** The type identifier a declaration is given: the hash found in the
    registry under the declared name once the declaration is registered. *)
Definition type_id_of {double} (char_is_signed : bool) (r : TypeRegistry double)
    (d : Decl double) (name : string) : string :=
  getHash double char_is_signed (register_decl double char_is_signed r d) name.

Definition structure_decl {double} (name : string) (fs : list (Field double))
    : Decl double :=
  DStructure (mkStructure name (mkFieldList fs)).

Definition message_decl {double} (name : string) (fs : list (Field double))
    : Decl double :=
  DMessage (mkMessage name (mkFieldList fs)).

(** A digest that lists the fields in the order they are declared, each
    rendered by [render]. *)
Definition declaration_order_digest {double} (render : Field double -> string)
    (name : string) (fs : list (Field double)) : string :=
  name +:+ string_concat (render <$> fs).

Definition type_then_name {double} (f : Field double) : string := f_type f +:+ f_name f.
Definition name_then_type {double} (f : Field double) : string := f_name f +:+ f_type f.


(** A plain field: a type and a name, nothing else. *)
Definition plain_field (ty name : string) : Field Z := mkField ty None name None None.

(** Two declarations of one field name with different types, in both
    orders. *)
Definition dup_fields : list (Field Z) :=
  [plain_field "int32" "a"; plain_field "float" "a"].
Definition dup_fields_swapped : list (Field Z) :=
  [plain_field "float" "a"; plain_field "int32" "a"].

(** Fields declared in an order that is not the alphabetical one. *)
Definition unsorted_fields : list (Field Z) :=
  [plain_field "int32" "b"; plain_field "float" "a"].

(** The field stored under a name. *)
Definition stored_field {double} (fs : list (Field double)) (k : string)
    : option (Field double) :=
  map_find k (field_map fs).

(** Two declarations that differ in the name of the first field only. *)
Definition fields_a_b : list (Field Z) :=
  [plain_field "int32" "a"; plain_field "float" "b"].
Definition fields_c_b : list (Field Z) :=
  [plain_field "int32" "c"; plain_field "float" "b"].

(** A string literal as it is written in a description: the body between
    two double quotes. *)
Definition quoted (body : string) : string :=
  String.String DQUOTE (body +:+ String.String DQUOTE EmptyString).

(** The escape characters [unquote_] knows. *)
Definition known_escape (e : ascii) : bool :=
  char_eqb e BACKSLASH || char_eqb e DQUOTE || char_eqb e "n"%char
  || char_eqb e "r"%char || char_eqb e "t"%char.

Definition escape (e : ascii) : string :=
  String.String BACKSLASH (String.String e EmptyString).

Definition single (c : ascii) : string := String.String c EmptyString.

(** A platform to run closed examples on: numbers are not interpreted. *)
Definition example_strtod (s : string) : Z * nat := (0, String.length s).
Definition example_isfinite (_ : Z) : bool := true.
Definition example_SIZE_MAX : N := 18446744073709551615%N.
Definition example_ostream_double (_ : Z) : string := "0".

Definition example_parse : string -> string -> Res (Description Z) :=
  parse Z example_strtod example_isfinite example_SIZE_MAX.

(** [message M { int32[3] a; }] and [message M { int32[] a; }]. *)
Definition fixed_array_message : Description Z :=
  mkDescription None
    [message_decl "M" [mkField "int32" (Some (mkFieldArray (Some 3%N))) "a" None None]].
Definition dynamic_array_message : Description Z :=
  mkDescription None
    [message_decl "M" [mkField "int32" (Some (mkFieldArray None)) "a" None None]].

(** A string made of decimal digits only, at least one. *)
Definition all_digits (s : string) : Prop :=
  s <> EmptyString /\ Forall (fun c => isdigit c = true) (list_ascii_of_string s).



Definition extension (lang : OutputLanguage) : string :=
  match lang with CPP => ".cpp" | Python => ".py" end.

Definition no_path_separator (s : string) : Prop :=
  Forall (fun c => is_path_separator c = false) (list_ascii_of_string s).

Section DriverSpec.
Variable double : Type.
Variable strtod : string -> double * nat.
Variable isfinite : double -> bool.
Variable SIZE_MAX : N.
Variable ostream_double : double -> string.
Variable char_is_signed : bool.

(** The text generated for a description. *)
Definition generated_text (lang : OutputLanguage) (d : Description double)
    (out_filename : string) : string :=
  match lang with
  | CPP => generate_cpp double ostream_double char_is_signed d out_filename
  | Python => generate_python double ostream_double char_is_signed d
  end.

(** Every input file, read when its turn comes, opens and parses. *)
Fixpoint all_inputs_parse (input_files : list string) (lang : OutputLanguage)
    (w : World) : Prop :=
  match input_files with
  | [] => True
  | f :: rest =>
      exists text d,
        read_file w f = Some text
        /\ parse double strtod isfinite SIZE_MAX text f = Ok d
        /\ all_inputs_parse rest lang
             (generate_code double ostream_double char_is_signed d f lang w)
  end.
End DriverSpec.

(** Two descriptions in a directory [d], and a standard input. *)
Definition example_world : World :=
  mkWorld [("d/a.msg", "message A { int32 x; }"); ("d/b.msg", "message B { int32 y; }")]
    (fun _ => true) "message S { int32 z; }" EmptyString EmptyString.

Definition example_main : list string -> World -> Z * World :=
  main Z example_strtod example_isfinite example_SIZE_MAX example_ostream_double false.

(** The characters the lexer has not read yet. *)
Definition remaining (lx : Lexer) : nat := String.length (input_ lx).

Definition is_End (t : Token) : bool := TokKind.eqb (kind t) TokKind.End.

(** A parser action is [quiet] when it never exhausts the bound of a loop
    and, when it returns, has not added to the pending tokens; it [eats]
    when, in addition, it has delivered at least one of them. *)
Definition quiet {A} (m : Parser A) : Prop :=
  forall lx, m lx <> OutOfFuel
             /\ forall a lx', m lx = Ok (a, lx') -> (pending lx' <= pending lx)%nat.

Definition eats {A} (m : Parser A) : Prop :=
  forall lx, m lx <> OutOfFuel
             /\ forall a lx', m lx = Ok (a, lx') -> (pending lx' < pending lx)%nat.

(** A test that delivers a token whenever it answers [true]. *)
Definition eats_if_true (m : Parser bool) : Prop :=
  forall lx, m lx <> OutOfFuel
             /\ forall a lx', m lx = Ok (a, lx') ->
                  (pending lx' + (if a then 1 else 0) <= pending lx)%nat.

(** The lexer with another lookahead buffer. *)
Definition with_lookahead (la : list Token) (lx : Lexer) : Lexer :=
  {| input_ := input_ lx; i_ := i_ lx; line_ := line_ lx; col_ := col_ lx;
     lookahead_ := la |}.

Definition res_map {A B} (f : A -> B) (r : Res A) : Res B :=
  match r with
  | Ok a => Ok (f a)
  | Throw e => Throw e
  | OutOfFuel => OutOfFuel
  end.

(** The result of a lexer function, with the buffer [la] in the lexer. *)
Definition on_lexer {A} (la : list Token) (r : Res (A * Lexer)) : Res (A * Lexer) :=
  res_map (fun p => (fst p, with_lookahead la (snd p))) r.

(** Scanning on from [lx], token after token, the lexer throws [e] before
    it reaches the end of the text. *)
Inductive lex_fails : Lexer -> DescriptionError -> Prop :=
  | lex_fails_here lx e :
      nextImpl_ lx = Throw e -> lex_fails lx e
  | lex_fails_later lx t lx' e :
      nextImpl_ lx = Ok (t, lx') -> is_End t = false -> lex_fails lx' e ->
      lex_fails lx e.

(** The same for a lexer that has tokens buffered. *)
Definition doomed (e0 : DescriptionError) (lx : Lexer) : Prop :=
  Forall (fun t => is_End t = false) (lookahead_ lx) /\ lex_fails lx e0.

(** The outcome allowed to an action started on a doomed lexer: it may go on,
    the lexer still doomed, or throw, either the lexer's error or an error
    that names the file being parsed. *)
Definition doomed_outcome {A} (e0 : DescriptionError) (filename : string)
    (may_return : bool) (r : Res (A * Lexer)) : Prop :=
  match r with
  | Ok (_, lx') => may_return = true /\ doomed e0 lx'
  | Throw e => e = e0 \/ err_file e = filename
  | OutOfFuel => True
  end.

Definition faithful {A} (e0 : DescriptionError) (filename : string)
    (m : Parser A) : Prop :=
  forall lx, doomed e0 lx -> doomed_outcome e0 filename true (m lx).

Definition refuses {A} (e0 : DescriptionError) (filename : string)
    (m : Parser A) : Prop :=
  forall lx, doomed e0 lx -> doomed_outcome e0 filename false (m lx).

(** A string literal, read from just after its opening quote, meets a raw
    newline (or a NUL character) or the end of the text before an unescaped
    closing quote. *)
Fixpoint unterminated (escaped : bool) (s : string) : bool :=
  match s with
  | EmptyString => true
  | String.String c r =>
      if char_eqb c NUL || char_eqb c LF then true
      else if escaped then unterminated false r
      else if char_eqb c BACKSLASH then unterminated true r
      else if char_eqb c DQUOTE then false
      else unterminated false r
  end.

Definition unterminated_error (line col : Z) : DescriptionError :=
  mkDescriptionError "<input>" line col "Unterminated string literal".

(** ** Declarations and the names they register *)

(** The name a declaration registers a type under; [include] and [import]
    register none. *)
Definition declared_name {double} (d : Decl double) : option string :=
  match d with
  | DEnumerate e => Some (enum_name e)
  | DStructure s => Some (struct_name s)
  | DMessage m => Some (msg_name m)
  | DExternal x => Some (ext_name x)
  | DInclude _ => None
  | DImport _ => None
  end.

Definition declared_names {double} (ds : list (Decl double)) : list string :=
  omap declared_name ds.

(** The names of the [message] declarations, in the order of the text. *)
Definition message_names {double} (ds : list (Decl double)) : list string :=
  omap (fun d => match d with DMessage m => Some (msg_name m) | _ => None end) ds.

(** The names of the [structure] and [message] declarations. *)
Definition record_names {double} (ds : list (Decl double)) : list string :=
  omap (fun d => match d with
                 | DStructure s => Some (struct_name s)
                 | DMessage m => Some (msg_name m)
                 | _ => None
                 end) ds.


(** A declaration the generators look at. *)
Definition registers {double} (d : Decl double) : bool :=
  match d with
  | DInclude _ => false
  | DImport _ => false
  | _ => true
  end.

Definition enumerate_decl {double} (name : string) (vs : list string) : Decl double :=
  DEnumerate (mkEnumerate name (mkEnumerateValue <$> vs)).

(** The language entries of an external declaration that one generator
    language reads. *)
Definition entries_for (is_lang : string -> bool) (d : External)
    : list ExternalLanguage :=
  List.filter (fun l => is_lang (language l)) (languages d).

Definition known_language (l : ExternalLanguage) : bool :=
  is_cpp_language (language l) || is_python_language (language l).

(** The sources every registered type lists. *)
Definition type_sources {double} (r : TypeRegistry double) : list string :=
  concat ((fun nm => tm_sources (snd nm)) <$> types_ r).

Definition cpp_default_sources : list string :=
  ["vector"; "chrono"; "routio/datatypes.h"; "routio/array.h"].


(** ** Positions in a text *)

(** The number of newline characters of a text. *)
Definition newlines (s : string) : nat :=
  length (List.filter (fun c => char_eqb c LF) (list_ascii_of_string s)).

(** The number of characters after the last newline of a text. *)
Definition last_line_length (s : string) : nat :=
  fold_left (fun n c => if char_eqb c LF then 0%nat else S n) (list_ascii_of_string s) 0%nat.

(** The span of what starts right after the text [pre]: its offset, and its
    line and column, both counted from 1. *)
Definition span_after (pre : string) : Span :=
  mkSpan (String.length pre) (1 + Z.of_nat (newlines pre))
    (1 + Z.of_nat (last_line_length pre)).

(** The line and column reached from [(line, col)] by reading [pre]. *)
Definition position_after (pre : string) (pos : Z * Z) : Z * Z :=
  fold_left (fun p c => if char_eqb c LF then (fst p + 1, 1) else (fst p, snd p + 1))
    (list_ascii_of_string pre) pos.

(** From [lx] to [lx'] the lexer has read the characters [pre], and nothing
    else has changed. *)
Definition reads (pre : string) (lx lx' : Lexer) : Prop :=
  input_ lx = pre +:+ input_ lx'
  /\ i_ lx' = (i_ lx + String.length pre)%nat
  /\ (line_ lx', col_ lx') = position_after pre (line_ lx, col_ lx)
  /\ lookahead_ lx' = lookahead_ lx.

(** The lexer [lx] is at work on [text]: what it has not read is the rest of
    the text, and its offset, line and column are those of that rest. *)
Definition tracks (text : string) (lx : Lexer) : Prop :=
  exists pre, text = pre +:+ input_ lx /\ span_here lx = span_after pre.

(** ** String literals *)

(** The body of a string literal as the lexer accepts it: no NUL, no raw
    newline, no double quote that is not escaped, and no backslash left
    without the character it escapes. *)
Fixpoint closed_body (escaped : bool) (s : string) : bool :=
  match s with
  | EmptyString => negb escaped
  | String.String c r =>
      if char_eqb c NUL || char_eqb c LF then false
      else if escaped then closed_body false r
      else if char_eqb c BACKSLASH then closed_body true r
      else if char_eqb c DQUOTE then false
      else closed_body false r
  end.

(** The character an escape sequence stands for. *)
Definition unescape (e : ascii) : ascii :=
  if char_eqb e "n"%char then LF
  else if char_eqb e "r"%char then CR
  else if char_eqb e "t"%char then TAB
  else e.

(** The value of the body of a literal: every backslash is dropped and the
    character after it is taken for what it stands for; a backslash at the
    very end has nothing to escape. *)
Fixpoint decode (s : string) : option string :=
  match s with
  | EmptyString => Some EmptyString
  | String.String c r =>
      if char_eqb c BACKSLASH then
        match r with
        | EmptyString => None
        | String.String e r' => String.String (unescape e) <$> decode r'
        end
      else String.String c <$> decode r
  end.

(** A body that stands for a given value: backslash, double quote, newline,
    carriage return and tab are written as escape sequences. *)
Fixpoint encode (v : string) : string :=
  match v with
  | EmptyString => EmptyString
  | String.String c r =>
      (if char_eqb c BACKSLASH then escape BACKSLASH
       else if char_eqb c DQUOTE then escape DQUOTE
       else if char_eqb c LF then escape "n"
       else if char_eqb c CR then escape "r"
       else if char_eqb c TAB then escape "t"
       else single c) +:+ encode r
  end.

Definition no_NUL (s : string) : Prop :=
  Forall (fun c => char_eqb c NUL = false) (list_ascii_of_string s).

(** ** White space and comments *)

(** A text made of white space and comments only; a comment runs from [#]
    to the end of the line.  [in_comment] tells whether the text starts
    inside a comment. *)
Fixpoint blank (in_comment : bool) (s : string) : bool :=
  match s with
  | EmptyString => true
  | String.String c r =>
      if in_comment then
        if char_eqb c LF then blank false r
        else if char_eqb c NUL then false
        else blank true r
      else if isspace c then blank false r
      else if char_eqb c "#"%char then blank true r
      else false
  end.

(** ** Parser actions and invariants of the lexer *)

(** A parser action respects an invariant [I] of the lexer: started on a
    lexer that satisfies [I], it returns with [I] still holding and a value
    that satisfies [Q], or it throws an error that satisfies [E]. *)
Definition respects {A} (I : Lexer -> Prop) (E : DescriptionError -> Prop)
    (Q : A -> Prop) (m : Parser A) : Prop :=
  forall lx, I lx ->
    match m lx with
    | Ok (a, lx') => I lx' /\ Q a
    | Throw e => E e
    | OutOfFuel => True
    end.

Definition any {A} (_ : A) : Prop := True.

(** The invariant of a lexer with buffered tokens: [J] for what it has read
    and [tok] for every token in the buffer. *)
Definition buffered (J : Lexer -> Prop) (tok : Token -> Prop) (lx : Lexer) : Prop :=
  J lx /\ Forall tok (lookahead_ lx).

(** A line and a column that are those of a place in the text: of one of
    its characters, or of its end. *)
Definition in_text (text : string) (line col : Z) : Prop :=
  exists pre post,
    text = pre +:+ post
    /\ line = span_line (span_after pre) /\ col = span_col (span_after pre).

(** The three errors of the lexer. *)
Definition lexer_message (msg : string) : Prop :=
  msg = "Unterminated string literal"
  \/ msg = "Malformed exponent in number literal"
  \/ exists c, msg = "Unexpected character: '" +:+ String.String c "'".

(** An error with a place in [text], raised by the parser under the name
    [filename] or by the lexer under the name ["<input>"]. *)
Definition located_error (text filename : string) (e : DescriptionError) : Prop :=
  in_text text (err_line e) (err_column e)
  /\ (err_file e = filename
      \/ (err_file e = "<input>" /\ lexer_message (err_message e))).

(** ** Namespaces *)



(** ** The driver *)

(** A stream that has only been appended to. *)
Definition extends (before after : string) : Prop :=
  exists s, after = before +:+ s.

Definition no_dot (s : string) : Prop :=
  Forall (fun c => char_eqb c "."%char = false) (list_ascii_of_string s).


(** ** Bytes written in hexadecimal *)

(** The lower-case hexadecimal digit of a value below 16, by its character
    code: [0] to [9] from code 48 on, [a] to [f] from code 97 on. *)
Definition lower_hex_digit (d : Z) : ascii :=
  ascii_of_nat (Z.to_nat (if d <? 10 then 48 + d else 87 + d)).

(** A byte as two lower-case hexadecimal digits, the high one first. *)
Definition lower_hex_byte (b : Z) : string :=
  String.String (lower_hex_digit (b / 16))
    (String.String (lower_hex_digit (b mod 16)) EmptyString).

Definition lower_hex (bytes : list Z) : string :=
  string_concat (lower_hex_byte <$> bytes).

(** The value of a lower-case hexadecimal digit; no other character has
    one. *)
Definition hex_digit_value (c : ascii) : option Z :=
  let n := Z.of_nat (nat_of_ascii c) in
  if (48 <=? n) && (n <=? 57) then Some (n - 48)
  else if (97 <=? n) && (n <=? 102) then Some (n - 87)
  else None.

(** The bytes a text of lower-case hexadecimal digits denotes, two digits
    to a byte. *)
Fixpoint hex_bytes (s : string) : option (list Z) :=
  match s with
  | EmptyString => Some []
  | String.String h (String.String l r) =>
      match hex_digit_value h, hex_digit_value l, hex_bytes r with
      | Some a, Some b, Some bs => Some (16 * a + b :: bs)
      | _, _, _ => None
      end
  | _ => None
  end.

(** The sixteen bytes of the XOR fold of a text: position [j] holds the XOR
    of the bytes at the indices congruent to [j] modulo 16. *)
Definition xor_fold (s : string) : list Z := xor_fold_at s <$> seq 0 16.

(** ** Pieces of generated text *)

(** [piece] occurs in [text]. *)
Definition occurs_in (piece text : string) : Prop :=
  exists pre post, text = pre +:+ piece +:+ post.

(** ** Structures and messages of a description *)

(** The name and the field declarations of a [structure] or [message]
    declaration. *)
Definition record_of {double} (d : Decl double)
    : option (string * list (Field double)) :=
  match d with
  | DStructure s => Some (struct_name s, fields (struct_fields s))
  | DMessage m => Some (msg_name m, fields (msg_fields m))
  | _ => None
  end.

(** The description declares the structure or message [name] with the field
    declarations [fs]: of several declarations of the name the last
    counts. *)
Definition declares {double} (D : Description double) (name : string)
    (fs : list (Field double)) : Prop :=
  exists pre d post,
    decls D = pre ++ d :: post
    /\ record_of d = Some (name, fs)
    /\ name ∉ record_names post.




(** ** Array types in the generated code *)

(** The C++ type of a sequence of exactly [n] elements of type [T]. *)
Definition cpp_fixed_array (T : string) (n : N) : string :=
  T +:+ "[" +:+ decimal_of_N n +:+ "]".

(** The C++ type of a sequence of any number of elements of type [T]. *)
Definition cpp_dynamic_array (T : string) : string :=
  "std::vector<" +:+ T +:+ ">".

(** A field without the length of its array specifier. *)
Definition without_length {double} (f : Field double) : Field double :=
  mkField (f_type f)
    (match f_array f with Some _ => Some (mkFieldArray None) | None => None end)
    (f_name f) (f_properties f) (f_default_value f).

Definition decl_without_lengths {double} (d : Decl double) : Decl double :=
  match d with
  | DStructure s =>
      DStructure (mkStructure (struct_name s)
                    (mkFieldList (without_length <$> fields (struct_fields s))))
  | DMessage m =>
      DMessage (mkMessage (msg_name m)
                  (mkFieldList (without_length <$> fields (msg_fields m))))
  | _ => d
  end.

(** A description in which no array specifier declares a length. *)
Definition without_lengths {double} (D : Description double) : Description double :=
  mkDescription (ns D) (decl_without_lengths <$> decls D).

(** ** File names *)






(** ** What the generators see of the stored fields *)


(** A field map with every field changed by [h]. *)
Definition map_fields {double} (h : Field double -> Field double)
    (m : std_map (Field double)) : std_map (Field double) :=
  (fun kv => (fst kv, h (snd kv))) <$> m.

(** A registry with every stored field changed by [h]. *)
Definition registry_map_fields {double} (h : Field double -> Field double)
    (r : TypeRegistry double) : TypeRegistry double :=
  mkTypeRegistry (types_ r) (enums_ r)
    ((fun nf => (fst nf, map_fields h (snd nf))) <$> structs_ r) (messages_ r).

(** ** The text generated for a structure or message *)



(* ===================================================================== *)
(** * Theorems *)
(* ===================================================================== *)

(** ** The order on strings *)

Lemma ascii_compare_lt_trans a b c :
  Ascii.compare a b = Lt -> Ascii.compare b c = Lt -> Ascii.compare a c = Lt.
Proof.
  unfold Ascii.compare. rewrite !N.compare_lt_iff. lia.
Qed.

Lemma string_compare_refl s : String.compare s s = Eq.
Proof.
  induction s as [|c s IH]; simpl; [done|].
  unfold Ascii.compare. by rewrite N.compare_refl.
Qed.

Lemma str_lt_trans a b c : str_lt a b -> str_lt b c -> str_lt a c.
Proof.
  unfold str_lt. revert b c.
  induction a as [|x a IH]; intros [|y b] [|z c]; simpl; try done.
  destruct (Ascii.compare x y) eqn:Hxy; try done.
  - apply Ascii.compare_eq_iff in Hxy as ->.
    destruct (Ascii.compare y z) eqn:Hyz; try done. apply IH.
  - destruct (Ascii.compare y z) eqn:Hyz; try done.
    + apply Ascii.compare_eq_iff in Hyz as <-. by rewrite Hxy.
    + by rewrite (ascii_compare_lt_trans _ _ _ Hxy Hyz).
Qed.

Lemma str_lt_irrefl a : ~ str_lt a a.
Proof. unfold str_lt. by rewrite string_compare_refl. Qed.

Lemma str_lt_asym a b : str_lt a b -> str_lt b a -> False.
Proof. intros H1 H2. exact (str_lt_irrefl a (str_lt_trans _ _ _ H1 H2)). Qed.

Lemma string_compare_gt_lt a b : String.compare a b = Gt -> str_lt b a.
Proof.
  intros H. unfold str_lt. rewrite String.compare_antisym, H. done.
Qed.

Lemma string_eqb_eq a b : String.eqb a b = true <-> a = b.
Proof. apply String.eqb_eq. Qed.

(** ** [std::map]: assignment keeps the keys sorted and answers lookups *)

Lemma map_find_assign {V} (k k' : string) (v : V) (m : std_map V) :
  map_find k' (map_assign k v m) =
  if String.eqb k' k then Some v else map_find k' m.
Proof.
  induction m as [|[k0 v0] m IH]; simpl.
  - done.
  - destruct (String.compare k k0) eqn:Hc; simpl.
    + apply String.compare_eq_iff in Hc as ->. by destruct (String.eqb k' k0).
    + done.
    + rewrite IH. destruct (String.eqb k' k0) eqn:E0; [|done].
      apply String.eqb_eq in E0 as ->.
      destruct (String.eqb k0 k) eqn:E1; [|done].
      apply String.eqb_eq in E1 as ->. by rewrite string_compare_refl in Hc.
Qed.

Lemma map_keys_assign {V} (k : string) (v : V) (m : std_map V) (x : string) :
  x ∈ map_keys (map_assign k v m) <-> x = k \/ x ∈ map_keys m.
Proof.
  unfold map_keys. induction m as [|[k0 v0] m IH]; simpl.
  - rewrite list_elem_of_singleton, elem_of_nil. tauto.
  - destruct (String.compare k k0) eqn:Hc; simpl.
    + apply String.compare_eq_iff in Hc as ->. rewrite !elem_of_cons. tauto.
    + rewrite !elem_of_cons. simpl. tauto.
    + rewrite !elem_of_cons, IH. simpl. tauto.
Qed.

Lemma map_assign_sorted {V} (k : string) (v : V) (m : std_map V) :
  map_sorted m -> map_sorted (map_assign k v m).
Proof.
  unfold map_sorted, map_keys. induction m as [|[k0 v0] m IH]; simpl; intros Hs.
  - repeat constructor.
  - apply StronglySorted_cons in Hs as [Hall Hs].
    destruct (String.compare k k0) eqn:Hc; simpl.
    + apply StronglySorted_cons. done.
    + apply StronglySorted_cons. split.
      * constructor; [done|]. eapply Forall_impl; [exact Hall|].
        intros y Hy. by eapply str_lt_trans.
      * apply StronglySorted_cons. done.
    + apply StronglySorted_cons. split; [|by apply IH].
      apply Forall_forall. intros x Hx.
      apply (map_keys_assign k v m x) in Hx as [->|Hx].
      * by apply string_compare_gt_lt.
      * rewrite Forall_forall in Hall. by apply Hall.
Qed.

Lemma map_find_None {V} (k : string) (m : std_map V) :
  map_find k m = None <-> k ∉ map_keys m.
Proof.
  unfold map_keys. induction m as [|[k0 v0] m IH]; simpl.
  - split; [intros _; apply not_elem_of_nil | done].
  - rewrite not_elem_of_cons. destruct (String.eqb k k0) eqn:E.
    + apply String.eqb_eq in E. split; [done | intros [? _]; done].
    + apply String.eqb_neq in E. rewrite IH. tauto.
Qed.

(** Two sorted maps that answer every lookup alike are the same map. *)
Lemma map_sorted_ext {V} (m1 m2 : std_map V) :
  map_sorted m1 -> map_sorted m2 ->
  (forall k, map_find k m1 = map_find k m2) -> m1 = m2.
Proof.
  unfold map_sorted, map_keys. revert m2.
  induction m1 as [|[k1 v1] m1 IH]; intros [|[k2 v2] m2] Hs1 Hs2 Hf; simpl in *.
  - done.
  - specialize (Hf k2). simpl in Hf. by rewrite String.eqb_refl in Hf.
  - specialize (Hf k1). simpl in Hf. by rewrite String.eqb_refl in Hf.
  - apply StronglySorted_cons in Hs1 as [Hall1 Hs1].
    apply StronglySorted_cons in Hs2 as [Hall2 Hs2].
    assert (k1 = k2) as ->.
    { pose proof (Hf k1) as H1. pose proof (Hf k2) as H2. simpl in H1, H2.
      rewrite String.eqb_refl in H1, H2.
      destruct (String.eqb k1 k2) eqn:E; [by apply String.eqb_eq in E|].
      rewrite String.eqb_sym, E in H2.
      symmetry in H1.
      assert (k1 ∈ m2.*1) as Hin1.
      { destruct (decide (k1 ∈ m2.*1)) as [|Hn]; [done|].
        apply (map_find_None (V:=V)) in Hn. congruence. }
      assert (k2 ∈ m1.*1) as Hin2.
      { destruct (decide (k2 ∈ m1.*1)) as [|Hn]; [done|].
        apply (map_find_None (V:=V)) in Hn. congruence. }
      rewrite Forall_forall in Hall1, Hall2.
      destruct (str_lt_asym k1 k2); auto. }
    assert (v1 = v2) as ->.
    { specialize (Hf k2). simpl in Hf. rewrite String.eqb_refl in Hf. congruence. }
    f_equal. apply IH; [done..|].
    intros k. specialize (Hf k). simpl in Hf.
    destruct (String.eqb k k2) eqn:E; [|done].
    apply String.eqb_eq in E as ->.
    transitivity (@None V); [|symmetry]; apply map_find_None; intros Hin.
    + rewrite Forall_forall in Hall1. exact (str_lt_irrefl _ (Hall1 _ Hin)).
    + rewrite Forall_forall in Hall2. exact (str_lt_irrefl _ (Hall2 _ Hin)).
Qed.

(** A map built by repeated assignment ([for (f : fields) m[key(f)] = f;]). *)
Section FoldAssign.
Context {A V : Type} (key : A -> string) (val : A -> V).

Local Abbreviation assign_all := (assign_all key val).

Lemma assign_all_snoc l a m :
  assign_all (l ++ [a]) m = map_assign (key a) (val a) (assign_all l m).
Proof. unfold assign_all. by rewrite fold_left_app. Qed.

Lemma assign_all_sorted l m : map_sorted m -> map_sorted (assign_all l m).
Proof.
  revert m. induction l as [|a l IH]; intros m Hm; simpl; [done|].
  apply IH. by apply map_assign_sorted.
Qed.

(** The last assignment to a key wins. *)
Lemma assign_all_find l m k :
  map_find k (assign_all l m) =
  match List.find (fun a => String.eqb k (key a)) (rev l) with
  | Some a => Some (val a)
  | None => map_find k m
  end.
Proof.
  induction l as [|a l IH] using rev_ind; simpl; [done|].
  rewrite assign_all_snoc, map_find_assign, rev_app_distr. simpl.
  by destruct (String.eqb k (key a)).
Qed.

Lemma assign_all_keys l m x :
  x ∈ map_keys (assign_all l m) <-> x ∈ key <$> l \/ x ∈ map_keys m.
Proof.
  revert m. induction l as [|a l IH]; intros m; simpl.
  - rewrite elem_of_nil. tauto.
  - unfold assign_all in *. simpl. rewrite IH, map_keys_assign, elem_of_cons. tauto.
Qed.

Lemma find_rev_NoDup l k a :
  NoDup (key <$> l) -> a ∈ l -> key a = k ->
  List.find (fun a => String.eqb k (key a)) (rev l) = Some a.
Proof.
  intros Hnd Hin <-.
  induction l as [|b l IH] using rev_ind; [by apply elem_of_nil in Hin|].
  rewrite rev_app_distr. simpl.
  rewrite fmap_app in Hnd. apply NoDup_app in Hnd as (Hnd & Hdisj & _).
  destruct (String.eqb (key a) (key b)) eqn:E.
  - apply String.eqb_eq in E.
    apply elem_of_app in Hin as [Hin|Hin].
    + exfalso. apply (Hdisj (key a)).
      * apply list_elem_of_fmap. eauto.
      * simpl. rewrite E. apply list_elem_of_singleton. done.
    + apply list_elem_of_singleton in Hin. by subst.
  - apply elem_of_app in Hin as [Hin|Hin]; [by apply IH|].
    apply list_elem_of_singleton in Hin. subst.
    by rewrite String.eqb_refl in E.
Qed.

Lemma find_rev_None l k :
  k ∉ key <$> l -> List.find (fun a => String.eqb k (key a)) (rev l) = None.
Proof.
  intros Hn. induction l as [|b l IH] using rev_ind; [done|].
  rewrite rev_app_distr. simpl. rewrite fmap_app, not_elem_of_app in Hn.
  destruct Hn as [Hn Hb]. simpl in Hb. rewrite list_elem_of_singleton in Hb.
  apply String.eqb_neq in Hb. rewrite Hb. by apply IH.
Qed.

(** With pairwise distinct keys the order of the assignments is
    immaterial. *)
Lemma assign_all_perm l l' m :
  map_sorted m -> NoDup (key <$> l) -> l ≡ₚ l' ->
  assign_all l m = assign_all l' m.
Proof.
  intros Hm Hnd Hp.
  assert (NoDup (key <$> l')) as Hnd' by (by rewrite <- Hp).
  apply map_sorted_ext; [by apply assign_all_sorted..|].
  intros k. rewrite !assign_all_find.
  destruct (decide (k ∈ key <$> l)) as [Hin|Hn].
  - apply list_elem_of_fmap in Hin as (a & -> & Hin).
    rewrite (find_rev_NoDup l (key a) a), (find_rev_NoDup l' (key a) a); try done.
    by rewrite <- Hp.
  - rewrite (find_rev_None l k), (find_rev_None l' k); try done.
    by rewrite <- Hp.
Qed.
End FoldAssign.

(** ** Strings *)

Lemma string_app_cons (x : ascii) (a b : string) :
  String.String x a +:+ b = String.String x (a +:+ b).
Proof. reflexivity. Qed.

Lemma string_app_nil_l (b : string) : EmptyString +:+ b = b.
Proof. reflexivity. Qed.

Lemma string_app_assoc (a b c : string) : (a +:+ b) +:+ c = a +:+ (b +:+ c).
Proof.
  induction a as [|x a IH]; [done|]. rewrite !string_app_cons. by f_equal.
Qed.

Lemma string_app_nil_r (a : string) : a +:+ EmptyString = a.
Proof.
  induction a as [|x a IH]; [done|]. rewrite string_app_cons. by f_equal.
Qed.

Lemma string_length_app (a b : string) :
  String.length (a +:+ b) = (String.length a + String.length b)%nat.
Proof.
  induction a as [|x a IH]; [done|]. rewrite string_app_cons. simpl. by f_equal.
Qed.

Lemma list_ascii_app (a b : string) :
  list_ascii_of_string (a +:+ b) = list_ascii_of_string a ++ list_ascii_of_string b.
Proof.
  induction a as [|x a IH]; [done|]. rewrite string_app_cons. simpl. by f_equal.
Qed.

(** ** [computeHash]: the byte arithmetic *)

Lemma byte_of_char_range c : 0 <= byte_of_char c < 256.
Proof.
  unfold byte_of_char. pose proof (N_ascii_bounded c) as H. lia.
Qed.

Lemma lxor_byte_range a b : 0 <= a < 256 -> 0 <= b < 256 -> 0 <= Z.lxor a b < 256.
Proof.
  intros Ha Hb. split.
  - apply Z.lxor_nonneg. lia.
  - destruct (Z.eq_dec (Z.lxor a b) 0) as [->|Hne]; [lia|].
    assert (0 < Z.lxor a b) as Hpos.
    { assert (0 <= Z.lxor a b) by (apply Z.lxor_nonneg; lia). lia. }
    apply (Z.log2_lt_pow2 _ 8 Hpos).
    destruct (Z.eq_dec a 0) as [->|Ha0]; destruct (Z.eq_dec b 0) as [->|Hb0].
    + rewrite Z.lxor_0_l in Hne. done.
    + rewrite Z.lxor_0_l. apply Z.log2_lt_pow2; lia.
    + rewrite Z.lxor_0_r. apply Z.log2_lt_pow2; lia.
    + pose proof (Z.log2_lxor a b ltac:(lia) ltac:(lia)) as Hl.
      assert (Z.log2 a < 8) by (apply Z.log2_lt_pow2; lia).
      assert (Z.log2 b < 8) by (apply Z.log2_lt_pow2; lia).
      lia.
Qed.

(** Whether plain [char] is signed does not matter: the accumulator only
    keeps the low eight bits. *)
Lemma hash_step_unsigned char_is_signed h c :
  0 <= h < 256 ->
  to_uchar (Z.lxor h (char_to_int char_is_signed c)) = Z.lxor h (byte_of_char c).
Proof.
  intros Hh. pose proof (byte_of_char_range c) as Hc.
  unfold to_uchar, char_to_int.
  destruct (char_is_signed && (128 <=? byte_of_char c)) eqn:E.
  - change 256 with (2 ^ 8) at 2.
    rewrite <- (Z.mod_small (Z.lxor h (byte_of_char c)) (2 ^ 8))
      by (apply lxor_byte_range; lia).
    apply Z.bits_inj'. intros n Hn.
    destruct (Z.lt_ge_cases n 8) as [Hlt|Hge].
    + rewrite !Z.mod_pow2_bits_low, !Z.lxor_spec by lia. f_equal.
      rewrite <- (Z.mod_pow2_bits_low (byte_of_char c - 256) 8 n) by lia.
      rewrite <- (Z.mod_pow2_bits_low (byte_of_char c) 8 n) by lia.
      f_equal. change (2 ^ 8) with 256.
      replace (byte_of_char c - 256) with (byte_of_char c + (-1) * 256) by lia.
      by rewrite Z_mod_plus_full.
    + rewrite !Z.mod_pow2_bits_high by lia. done.
  - apply Z.mod_small. apply lxor_byte_range; lia.
Qed.

Lemma xor_sel_cons i c l j :
  xor_sel i (c :: l) j =
  if decide ((i mod 16)%nat = j) then Z.lxor (byte_of_char c) (xor_sel (S i) l j)
  else xor_sel (S i) l j.
Proof.
  unfold xor_sel. cbn [length seq].
  change (zip (i :: seq (S i) (length l)) (c :: l))
    with ((i, c) :: zip (seq (S i) (length l)) l).
  rewrite filter_cons. cbn [fst].
  by destruct (decide ((i mod 16)%nat = j)).
Qed.

Lemma xor_sel_range i l j : 0 <= xor_sel i l j < 256.
Proof.
  revert i. induction l as [|c l IH]; intros i.
  - unfold xor_sel. simpl. lia.
  - rewrite xor_sel_cons. destruct (decide _); [|done].
    apply lxor_byte_range; [apply byte_of_char_range | done].
Qed.

Lemma computeHash_fold_length char_is_signed content i hash :
  length (computeHash_fold char_is_signed i content hash) = length hash.
Proof.
  revert i hash. induction content as [|c rest IH]; intros i hash; simpl; [done|].
  by rewrite IH, length_insert.
Qed.

Lemma computeHash_fold_lookup char_is_signed content i hash j :
  length hash = 16%nat -> byte_list hash -> (j < 16)%nat ->
  computeHash_fold char_is_signed i content hash !! j =
  Some (Z.lxor (default 0 (hash !! j)) (xor_sel i (list_ascii_of_string content) j)).
Proof.
  revert i hash. induction content as [|c rest IH]; intros i hash Hlen Hb Hj;
    cbn [computeHash_fold list_ascii_of_string].
  - destruct (lookup_lt_is_Some_2 hash j ltac:(lia)) as [h Hh].
    rewrite Hh. unfold xor_sel. cbn. cbv [from_option id]. by rewrite Z.lxor_0_r.
  - assert ((i mod 16 < 16)%nat) as Hi by (apply Nat.mod_upper_bound; lia).
    destruct (lookup_lt_is_Some_2 hash (i mod 16) ltac:(lia)) as [h Hh].
    assert (0 <= h < 256) as Hhr.
    { unfold byte_list in Hb. rewrite Forall_lookup in Hb. by eapply Hb. }
    cbv zeta. rewrite Hh. cbv [from_option id].
    rewrite hash_step_unsigned by done.
    rewrite IH; [|by rewrite length_insert| |done].
    + rewrite xor_sel_cons. destruct (decide ((i mod 16)%nat = j)) as [<-|Hne].
      * rewrite list_lookup_insert_eq by lia. rewrite Hh. cbv [from_option id].
        by rewrite Z.lxor_assoc.
      * by rewrite list_lookup_insert_ne.
    + unfold byte_list. apply Forall_insert; [done|].
      apply lxor_byte_range; [done | apply byte_of_char_range].
Qed.

Lemma length_list_ascii s : length (list_ascii_of_string s) = String.length s.
Proof. induction s as [|c s IH]; simpl; [done|]. by rewrite IH. Qed.

Lemma xor_fold_at_sel s j : xor_fold_at s j = xor_sel 0 (list_ascii_of_string s) j.
Proof. unfold xor_fold_at, xor_sel. by rewrite length_list_ascii. Qed.

(** The accumulator after the loop of [computeHash]. *)
Lemma computeHash_fold_spec char_is_signed content :
  computeHash_fold char_is_signed 0 content (replicate 16 0) =
  (fun j => xor_fold_at content j) <$> seq 0 16.
Proof.
  apply list_eq. intros j.
  destruct (decide (j < 16)%nat) as [Hj|Hj].
  - rewrite computeHash_fold_lookup; [|done| |done].
    + rewrite list_lookup_fmap, lookup_seq_lt by done.
      rewrite lookup_replicate_2 by done. cbn. cbv [from_option id].
      by rewrite Z.lxor_0_l, xor_fold_at_sel.
    + apply Forall_replicate. lia.
  - rewrite !lookup_ge_None_2; [done|..].
    + rewrite length_fmap, length_seq. lia.
    + rewrite computeHash_fold_length, length_replicate. lia.
Qed.

(** ** [computeHash]: the rendering *)

Lemma hex_byte_table :
  forallb (fun n => String.eqb (setw_fill 2 "0"%char (ostream_hex (Z.of_nat n)))
                      (hex2 (Z.of_nat n)))
    (seq 0 256) = true.
Proof. vm_compute. reflexivity. Qed.

Lemma setw_hex_byte b :
  0 <= b < 256 -> setw_fill 2 "0"%char (ostream_hex b) = hex2 b.
Proof.
  intros Hb. pose proof hex_byte_table as H.
  rewrite forallb_forall in H. specialize (H (Z.to_nat b)).
  rewrite Z2Nat.id in H by lia. apply String.eqb_eq, H, in_seq. lia.
Qed.

Lemma hex_digit_table :
  forallb (fun n => existsb (Ascii.eqb (hex_digit (Z.of_nat n)))
                      (list_ascii_of_string "0123456789abcdef"))
    (seq 0 16) = true.
Proof. vm_compute. reflexivity. Qed.

Lemma hex_digit_lower d : 0 <= d < 16 -> is_lower_hex (hex_digit d).
Proof.
  intros Hd. pose proof hex_digit_table as H.
  rewrite forallb_forall in H. specialize (H (Z.to_nat d)).
  rewrite Z2Nat.id in H by lia.
  assert (In (Z.to_nat d) (seq 0 16)) as Hin by (apply in_seq; lia).
  apply H, existsb_exists in Hin as (c & Hc & Heq).
  apply Ascii.eqb_eq in Heq. rewrite Heq. unfold is_lower_hex.
  by apply list_elem_of_In.
Qed.

Lemma hex2_lower b :
  0 <= b < 256 -> Forall is_lower_hex (list_ascii_of_string (hex2 b)).
Proof.
  intros Hb. unfold hex2. cbn [list_ascii_of_string].
  apply Forall_cons. split; [|apply Forall_cons; split; [|constructor]];
    apply hex_digit_lower.
  - split; [apply Z.div_pos; lia | apply Z.div_lt_upper_bound; lia].
  - apply Z.mod_pos_bound. lia.
Qed.

Lemma xor_fold_at_range s j : 0 <= xor_fold_at s j < 256.
Proof. rewrite xor_fold_at_sel. apply xor_sel_range. Qed.

Lemma computeHash_xor_fold char_is_signed s :
  computeHash char_is_signed s = xor_fold_hash s.
Proof.
  unfold computeHash, xor_fold_hash. rewrite computeHash_fold_spec.
  f_equal. generalize (seq 0 16). intros l.
  induction l as [|j l IH]; [done|].
  rewrite !fmap_cons. f_equal; [|exact IH].
  apply setw_hex_byte, xor_fold_at_range.
Qed.

Lemma xor_fold_hash_length s : String.length (xor_fold_hash s) = 32%nat.
Proof.
  unfold xor_fold_hash.
  assert (forall l, String.length
            (string_concat ((fun j => hex2 (xor_fold_at s j)) <$> l))
          = (2 * length l)%nat) as H.
  { induction l as [|j l IH]; [done|].
    rewrite fmap_cons. cbn [string_concat]. rewrite string_length_app, IH.
    cbn [length hex2 String.length]. lia. }
  by rewrite H, length_seq.
Qed.

Lemma xor_fold_hash_lower s :
  Forall is_lower_hex (list_ascii_of_string (xor_fold_hash s)).
Proof.
  unfold xor_fold_hash. generalize (seq 0 16). intros l.
  induction l as [|j l IH]; [constructor|].
  rewrite fmap_cons. cbn [string_concat]. rewrite list_ascii_app. apply Forall_app. split; [|done].
  apply hex2_lower, xor_fold_at_range.
Qed.

(** ** [computeHash]: the rendering, digit by digit *)

Lemma lower_hex_byte_table :
  forallb (fun n => String.eqb (hex2 (Z.of_nat n)) (lower_hex_byte (Z.of_nat n))
                    && match hex_bytes (lower_hex_byte (Z.of_nat n)) with
                       | Some [b] => Z.eqb b (Z.of_nat n)
                       | _ => false
                       end)
    (seq 0 256) = true.
Proof. vm_compute. reflexivity. Qed.

Lemma lower_hex_byte_spec b :
  0 <= b < 256 ->
  hex2 b = lower_hex_byte b /\ hex_bytes (lower_hex_byte b) = Some [b].
Proof.
  intros Hb. pose proof lower_hex_byte_table as H.
  rewrite forallb_forall in H. specialize (H (Z.to_nat b)).
  rewrite Z2Nat.id in H by lia.
  assert (In (Z.to_nat b) (seq 0 256)) as Hin by (apply in_seq; lia).
  apply H, andb_true_iff in Hin as [H1 H2]. split; [by apply String.eqb_eq|].
  destruct (hex_bytes (lower_hex_byte b)) as [[|b' [|]]|]; try done.
  apply Z.eqb_eq in H2. by subst.
Qed.

Lemma hex_bytes_cons b bs r :
  hex_bytes (lower_hex_byte b) = Some [b] -> hex_bytes r = Some bs ->
  hex_bytes (lower_hex_byte b +:+ r) = Some (b :: bs).
Proof.
  unfold lower_hex_byte. rewrite !string_app_cons, string_app_nil_l.
  cbn [hex_bytes]. intros H Hr. rewrite Hr.
  destruct (hex_digit_value (lower_hex_digit (b / 16))) as [x|]; [|done].
  destruct (hex_digit_value (lower_hex_digit (b mod 16))) as [y|]; [|done].
  by injection H as ->.
Qed.

Lemma hex_bytes_lower_hex bs :
  byte_list bs -> hex_bytes (lower_hex bs) = Some bs.
Proof.
  unfold lower_hex, byte_list. induction 1 as [|b bs Hb _ IH]; [done|].
  rewrite fmap_cons. cbn [string_concat].
  apply hex_bytes_cons; [|exact IH]. by apply lower_hex_byte_spec.
Qed.

Lemma xor_fold_bytes s : length (xor_fold s) = 16%nat /\ byte_list (xor_fold s).
Proof.
  unfold xor_fold, byte_list. split; [by rewrite length_fmap, length_seq|].
  apply Forall_fmap, Forall_forall. intros j _. apply xor_fold_at_range.
Qed.

Lemma xor_fold_hash_lower_hex s : xor_fold_hash s = lower_hex (xor_fold s).
Proof.
  unfold xor_fold_hash, lower_hex, xor_fold. rewrite <- list_fmap_compose. f_equal.
  apply list_fmap_ext. intros _ j _. cbn.
  apply lower_hex_byte_spec, xor_fold_at_range.
Qed.

(** C4.  [computeHash] XOR-folds the bytes of its argument into sixteen
    positions, byte [i] into position [i mod 16] starting from zeros, and
    renders the sixteen bytes as two lower-case hexadecimal digits each, the
    high digit first: the result is the text [lower_hex] writes for the
    sixteen bytes, and read back digit by digit it gives these bytes again.
    It has exactly 32 characters, all of them lower-case hexadecimal digits,
    and the empty input gives 32 zeros.  This holds whether plain [char] is
    signed or not. *)
Theorem computeHash_xor_fold_hex (char_is_signed : bool) (s : string) :
  computeHash char_is_signed s = lower_hex (xor_fold s)
  /\ hex_bytes (computeHash char_is_signed s) = Some (xor_fold s)
  /\ length (xor_fold s) = 16%nat
  /\ byte_list (xor_fold s)
  /\ (forall j, (j < 16)%nat -> xor_fold s !! j = Some (xor_fold_at s j))
  /\ computeHash char_is_signed s = xor_fold_hash s
  /\ String.length (computeHash char_is_signed s) = 32%nat
  /\ Forall is_lower_hex (list_ascii_of_string (computeHash char_is_signed s))
  /\ computeHash char_is_signed EmptyString = "00000000000000000000000000000000".
Proof.
  rewrite !computeHash_xor_fold.
  destruct (xor_fold_bytes s) as [Hlen Hbytes].
  split; [apply xor_fold_hash_lower_hex|].
  split; [rewrite xor_fold_hash_lower_hex; by apply hex_bytes_lower_hex|].
  split; [done|]. split; [done|].
  split.
  { intros j Hj. unfold xor_fold. by rewrite list_lookup_fmap, lookup_seq_lt. }
  split; [done|]. split; [apply xor_fold_hash_length|].
  split; [apply xor_fold_hash_lower|]. reflexivity.
Qed.

(** ** The registry *)

Lemma fold_left_ext_eq {A B} (f g : A -> B -> A) (l : list B) (a : A) :
  (forall a b, f a b = g a b) -> fold_left f l a = fold_left g l a.
Proof.
  intros H. revert a. induction l as [|b l IH]; intros a; simpl; [done|].
  by rewrite H, IH.
Qed.

Lemma computeHash_env (env1 env2 : bool) (s : string) :
  computeHash env1 s = computeHash env2 s.
Proof. by rewrite !computeHash_xor_fold. Qed.

Section RegistryFacts.
Context {double : Type}.
Implicit Types (r : TypeRegistry double) (fs : list (Field double)).

Lemma registerBuiltinTypes_env env1 env2 r :
  registerBuiltinTypes_ double env1 r = registerBuiltinTypes_ double env2 r.
Proof.
  unfold registerBuiltinTypes_, createBuiltinType_. cbv zeta.
  by rewrite !(computeHash_env env1 env2).
Qed.

Lemma register_decl_env env1 env2 r (d : Decl double) :
  register_decl double env1 r d = register_decl double env2 r d.
Proof.
  destruct d as [d|d|d|d|d|d]; cbn [register_decl]; try done.
  - unfold registerEnum. rewrite (computeHash_env env1 env2).
    f_equal. f_equal. apply fold_left_ext_eq. intros. apply computeHash_env.
  - unfold registerStruct. by rewrite (computeHash_env env1 env2).
  - unfold registerMessage, registerStruct. by rewrite (computeHash_env env1 env2).
Qed.

Lemma buildRegistry_env env1 env2 (D : Description double) :
  buildRegistry_ double env1 D = buildRegistry_ double env2 D.
Proof.
  unfold buildRegistry_, TypeRegistry_new.
  rewrite !(registerBuiltinTypes_env env1 env2).
  generalize (registerBuiltinTypes_ double env2
                (registerBuiltinTypes_ double env2 (TypeRegistry_empty double))).
  induction (decls D) as [|d ds IH]; intros r; simpl; [done|].
  by rewrite (register_decl_env env1 env2), IH.
Qed.

Lemma getHash_env env1 env2 r name :
  getHash double env1 r name = getHash double env2 r name.
Proof. unfold getHash. destruct (getType r name); [done|apply computeHash_env]. Qed.

Lemma getHash_registerType env r meta :
  getHash double env (registerType double meta r) (tm_name meta) = tm_hash meta.
Proof.
  unfold getHash, getType, registerType. cbn [types_].
  by rewrite map_find_assign, String.eqb_refl.
Qed.

Lemma getHash_registerStruct env r name (m : std_map (Field double)) :
  getHash double env (registerStruct double env name m r) name =
  computeHash env (struct_content name m).
Proof. unfold registerStruct. by rewrite getHash_registerType. Qed.

Lemma getHash_registerMessage env r name (m : std_map (Field double)) :
  getHash double env (registerMessage double env name m r) name =
  computeHash env (struct_content name m).
Proof. unfold registerMessage. by rewrite getHash_registerStruct. Qed.

Lemma struct_content_concat name (m : std_map (Field double)) :
  struct_content name m =
  name +:+ string_concat ((fun kv => f_type (snd kv) +:+ fst kv) <$> m).
Proof.
  unfold struct_content. revert name.
  induction m as [|kv m IH]; intros name.
  - cbn. by rewrite string_app_nil_r.
  - cbn [fold_left]. rewrite IH, fmap_cons. cbn [string_concat].
    by rewrite string_app_assoc.
Qed.

(** *** The map of the fields of a declaration *)

Lemma field_map_assign_all fs : field_map fs = assign_all f_name id fs [].
Proof. done. Qed.

Lemma field_map_sorted fs : map_sorted (field_map fs).
Proof. rewrite field_map_assign_all. apply assign_all_sorted. constructor. Qed.

Lemma field_map_keys fs k : k ∈ map_keys (field_map fs) <-> k ∈ f_name <$> fs.
Proof.
  rewrite field_map_assign_all, assign_all_keys. unfold map_keys. simpl.
  rewrite elem_of_nil. tauto.
Qed.

Lemma field_map_find fs k :
  map_find k (field_map fs) =
  List.find (fun f => String.eqb k (f_name f)) (rev fs).
Proof.
  rewrite field_map_assign_all, assign_all_find. simpl.
  by destruct (List.find _ _).
Qed.

Lemma field_map_perm fs fs' :
  NoDup (f_name <$> fs) -> fs ≡ₚ fs' -> field_map fs = field_map fs'.
Proof.
  intros Hnd Hp. rewrite !field_map_assign_all.
  apply assign_all_perm; [constructor|done..].
Qed.

Lemma sorted_keys_NoDup {V} (m : std_map V) : map_sorted m -> NoDup (map_keys m).
Proof.
  unfold map_sorted. generalize (map_keys m). intros l Hs.
  induction Hs as [|k l Hs IH Hall]; constructor; [|done].
  intros Hin. rewrite Forall_forall in Hall. exact (str_lt_irrefl _ (Hall _ Hin)).
Qed.

Lemma sorted_keys_unique (l1 l2 : list string) :
  StronglySorted str_lt l1 -> StronglySorted str_lt l2 ->
  (forall k, k ∈ l1 <-> k ∈ l2) -> l1 = l2.
Proof.
  intros H1 H2 Hiff.
  assert (forall l, StronglySorted str_lt l -> NoDup l) as Hnd.
  { intros l Hs. induction Hs as [|k l' Hs IH Hall]; constructor; [|done].
    intros Hin. rewrite Forall_forall in Hall. exact (str_lt_irrefl _ (Hall _ Hin)). }
  apply (StronglySorted_unique_strong str_lt); [|done..|].
  - intros x1 x2 _ _ Ha Hb. destruct (str_lt_asym _ _ Ha Hb).
  - apply NoDup_Permutation; auto.
Qed.


Lemma map_find_sorted_entry {V} (m : std_map V) k v :
  map_sorted m -> (k, v) ∈ m -> map_find k m = Some v.
Proof.
  unfold map_sorted, map_keys. induction m as [|[k0 v0] m IH]; intros Hs Hin.
  - by apply elem_of_nil in Hin.
  - rewrite fmap_cons in Hs. apply StronglySorted_cons in Hs as [Hall Hs].
    apply elem_of_cons in Hin as [Heq|Hin]; simpl.
    + injection Heq as -> ->. by rewrite String.eqb_refl.
    + destruct (String.eqb k k0) eqn:E; [|by apply IH].
      apply String.eqb_eq in E as ->. exfalso.
      rewrite Forall_forall in Hall. apply (str_lt_irrefl k0), Hall.
      apply list_elem_of_fmap. by exists (k0, v).
Qed.
End RegistryFacts.

(** ** Emitted text *)

Lemma emit_each_ext {A} (l : list A) (f g : A -> string) :
  (forall a, f a = g a) -> emit_each l f = emit_each l g.
Proof.
  intros H. unfold emit_each. f_equal. induction l as [|a l IH]; simpl; [done|].
  by rewrite H, IH.
Qed.


Lemma generate_cpp_env {double} od env1 env2 (D : Description double) basename :
  generate_cpp double od env1 D basename = generate_cpp double od env2 D basename.
Proof.
  unfold generate_cpp, CppGenerator_new. rewrite (buildRegistry_env env1 env2).
  unfold CppGenerator_generate.
  assert (forall g, cpp_generateMessageSpecializations_ double env1 g
                    = cpp_generateMessageSpecializations_ double env2 g) as ->; [|done].
  intros g. unfold cpp_generateMessageSpecializations_. cbv zeta. apply emit_each_ext.
  intros msgName. by rewrite (getHash_env env1 env2).
Qed.

Lemma generate_python_env {double} od env1 env2 (D : Description double) :
  generate_python double od env1 D = generate_python double od env2 D.
Proof.
  unfold generate_python, PythonGenerator_new. rewrite (buildRegistry_env env1 env2).
  unfold PythonGenerator_generate.
  assert (forall g, py_generateMessages_ double env1 g
                    = py_generateMessages_ double env2 g) as ->; [|done].
  intros g. unfold py_generateMessages_. apply emit_each_ext.
  intros msgName. cbv zeta. by rewrite (getHash_env env1 env2).
Qed.

(** ** Type identifiers *)

(** C1.  Type identifiers are stable: whatever the signedness of plain
    [char] on the compiling platform, a description yields the same
    registry, hence the same identifier for every name, and the same C++ and
    Python text; and the hash recorded when a structure is registered is the
    XOR-fold hash of a text made from the declaration alone (its name and
    its field map), independent of the registry it is added to. *)
Theorem type_id_stability (double : Type) (D : Description double)
    (env1 env2 : bool) :
  buildRegistry_ double env1 D = buildRegistry_ double env2 D
  /\ (forall name,
        getHash double env1 (buildRegistry_ double env1 D) name =
        getHash double env2 (buildRegistry_ double env2 D) name)
  /\ (forall od basename,
        generate_cpp double od env1 D basename = generate_cpp double od env2 D basename)
  /\ (forall od, generate_python double od env1 D = generate_python double od env2 D)
  /\ (forall r name (m : std_map (Field double)),
        getHash double env1 (registerStruct double env1 name m r) name =
        xor_fold_hash (struct_content name m)).
Proof.
  split; [apply buildRegistry_env|].
  split; [intros name; by rewrite (buildRegistry_env env1 env2), (getHash_env env1 env2)|].
  split; [intros; apply generate_cpp_env|].
  split; [intros; apply generate_python_env|].
  intros r name m. by rewrite getHash_registerStruct, computeHash_xor_fold.
Qed.

(** C2, as stated, fails: a structure that declares the name [a] twice,
    once as [int32] and once as [float], gets a different identifier when
    the two declarations are swapped (the later one wins). *)
Lemma type_id_order_dependent_on_duplicates :
  dup_fields ≡ₚ dup_fields_swapped
  /\ type_id_of false (TypeRegistry_new Z false) (structure_decl "S" dup_fields) "S"
     <> type_id_of false (TypeRegistry_new Z false)
          (structure_decl "S" dup_fields_swapped) "S".
Proof.
  split; [apply perm_swap|]. vm_compute. discriminate.
Qed.

(** C2, amended.  For a structure or message whose field names are pairwise
    distinct, every permutation of the field declarations registers the same
    registry, and so the same type identifier. *)
Theorem type_id_permutation_invariant (double : Type) (env : bool)
    (r : TypeRegistry double) (name : string) (fs fs' : list (Field double)) :
  NoDup (f_name <$> fs) -> fs ≡ₚ fs' ->
  register_decl double env r (structure_decl name fs) =
    register_decl double env r (structure_decl name fs')
  /\ register_decl double env r (message_decl name fs) =
       register_decl double env r (message_decl name fs')
  /\ type_id_of env r (structure_decl name fs) name =
       type_id_of env r (structure_decl name fs') name
  /\ type_id_of env r (message_decl name fs) name =
       type_id_of env r (message_decl name fs') name.
Proof.
  intros Hnd Hp. unfold type_id_of, structure_decl, message_decl.
  cbn [register_decl struct_name struct_fields msg_name msg_fields fields].
  by rewrite (field_map_perm fs fs' Hnd Hp).
Qed.

Lemma type_id_permutation_invariant_witness :
  type_id_of true (TypeRegistry_new Z true) (message_decl "M" unsorted_fields) "M" =
  type_id_of true (TypeRegistry_new Z true) (message_decl "M" (rev unsorted_fields)) "M".
Proof.
  apply (type_id_permutation_invariant Z true (TypeRegistry_new Z true) "M"
           unsorted_fields (rev unsorted_fields)).
  - apply (bool_decide_unpack _). vm_compute. exact I.
  - apply perm_swap.
Defined.

(** C3, as stated, fails: for [structure S { int32 b; float a; }] the
    identifier is not the hash of a digest that lists the fields in
    declaration order, whether a field is rendered as type-then-name or as
    name-then-type. *)
Lemma type_id_not_declaration_order :
  type_id_of false (TypeRegistry_new Z false) (structure_decl "S" unsorted_fields) "S"
    <> computeHash false (declaration_order_digest type_then_name "S" unsorted_fields)
  /\ type_id_of false (TypeRegistry_new Z false) (structure_decl "S" unsorted_fields) "S"
       <> computeHash false (declaration_order_digest name_then_type "S" unsorted_fields).
Proof. split; vm_compute; discriminate. Qed.

(** C3, amended.  The identifier of a structure or message is the hash of
    the type name followed, for each stored field in ascending order of field
    name, by the field's type and then its name.  The stored fields are
    those of the declaration: the same names, strictly ascending, each bound
    to the last field declared under that name. *)
Theorem type_id_sorted_digest (double : Type) (env : bool)
    (r : TypeRegistry double) (name : string) (fs : list (Field double)) :
  type_id_of env r (structure_decl name fs) name =
    computeHash env
      (name +:+ string_concat ((fun kv => f_type (snd kv) +:+ fst kv) <$> field_map fs))
  /\ type_id_of env r (message_decl name fs) name =
       computeHash env
         (name +:+ string_concat ((fun kv => f_type (snd kv) +:+ fst kv) <$> field_map fs))
  /\ StronglySorted str_lt (map_keys (field_map fs))
  /\ (forall k, k ∈ map_keys (field_map fs) <-> k ∈ f_name <$> fs)
  /\ (forall k, map_find k (field_map fs) =
                List.find (fun f => String.eqb k (f_name f)) (rev fs)).
Proof.
  unfold type_id_of, structure_decl, message_decl.
  cbn [register_decl struct_name struct_fields msg_name msg_fields fields].
  rewrite getHash_registerStruct, getHash_registerMessage, struct_content_concat.
  repeat split; try done.
  - apply field_map_sorted.
  - by apply field_map_keys.
  - by apply field_map_keys.
  - apply field_map_find.
Qed.

(** ** The order in which the generators visit the fields *)



Lemma getStruct_registerStruct {double} env (r : TypeRegistry double) name m :
  getStruct (registerStruct double env name m r) name = Some m.
Proof.
  unfold getStruct, registerStruct, registerType. cbn [structs_].
  by rewrite map_find_assign, String.eqb_refl.
Qed.

(** ** String literals *)

(** C6.  [unquote_] decodes the five known escapes, and for any other
    character [e] it turns the escape sequence backslash-[e] into [e] alone:
    the backslash is dropped, although the comment at that place in
    [parser.cpp] says unknown escapes are kept as they are.  The same is seen
    through [parse]: the literal of [import "a\qb";] becomes [aqb]. *)
Theorem unquote_drops_backslash_of_unknown_escape (t : Token) (filename : string)
    (e : ascii) :
  known_escape e = false ->
  unquote_ (quoted (escape "n")) t filename = Ok (single LF)
  /\ unquote_ (quoted (escape "r")) t filename = Ok (single CR)
  /\ unquote_ (quoted (escape "t")) t filename = Ok (single TAB)
  /\ unquote_ (quoted (escape BACKSLASH)) t filename = Ok (single BACKSLASH)
  /\ unquote_ (quoted (escape DQUOTE)) t filename = Ok (single DQUOTE)
  /\ unquote_ (quoted (escape e)) t filename = Ok (single e)
  /\ (forall double strtod isfinite SIZE_MAX,
        parse double strtod isfinite SIZE_MAX
          ("import " +:+ quoted "a\qb" +:+ ";") filename
        = Ok (mkDescription None [DImport (mkImport "aqb")])).
Proof.
  intros He. repeat split; try reflexivity.
  unfold known_escape in He.
  repeat (apply orb_false_elim in He as [He ?]).
  change (quoted (escape e))
    with (String.String DQUOTE (String.String BACKSLASH
            (String.String e (String.String DQUOTE EmptyString)))).
  unfold unquote_, string_back, string_at. cbn.
  unfold string_at. cbn. by rewrite He, H, H0, H1, H2.
Qed.

Lemma unquote_drops_backslash_of_unknown_escape_witness :
  unquote_ (quoted (escape "q")) default_Token "f.msg" = Ok (single "q").
Proof.
  apply (unquote_drops_backslash_of_unknown_escape default_Token "f.msg" "q"%char).
  reflexivity.
Defined.

(** ** The lexer: what scanning leaves untouched *)

Lemma advance_lookahead lx : lookahead_ (advance_ lx) = lookahead_ lx.
Proof.
  unfold advance_. destruct (input_ lx) as [|c r]; [done|].
  by destruct (char_eqb c LF).
Qed.

Lemma advance_while_fuel_lookahead n p lx :
  lookahead_ (advance_while_fuel n p lx) = lookahead_ lx.
Proof.
  revert lx. induction n as [|n IH]; intros lx; simpl; [done|].
  destruct (p (ch_ lx)); [|done]. by rewrite IH, advance_lookahead.
Qed.

Lemma advance_while_lookahead p lx :
  lookahead_ (advance_while p lx) = lookahead_ lx.
Proof. apply advance_while_fuel_lookahead. Qed.

Lemma skipWsAndComments_fuel_lookahead n lx :
  lookahead_ (skipWsAndComments_fuel n lx) = lookahead_ lx.
Proof.
  revert lx. induction n as [|n IH]; intros lx; simpl; [done|].
  destruct (char_eqb _ _).
  - by rewrite IH, !advance_while_lookahead.
  - by rewrite advance_while_lookahead.
Qed.

Lemma skipWsAndComments_lookahead lx :
  lookahead_ (skipWsAndComments_ lx) = lookahead_ lx.
Proof. apply skipWsAndComments_fuel_lookahead. Qed.

Lemma lexString_loop_lookahead n escaped sp lx lx' :
  lexString_loop n escaped sp lx = Ok lx' -> lookahead_ lx' = lookahead_ lx.
Proof.
  revert escaped lx. induction n as [|n IH]; intros escaped lx; simpl; [done|].
  destruct (char_eqb (ch_ lx) NUL || char_eqb (ch_ lx) LF); [done|].
  destruct escaped.
  { intros H. by rewrite (IH _ _ H), advance_lookahead. }
  destruct (char_eqb (ch_ lx) BACKSLASH).
  { intros H. by rewrite (IH _ _ H), advance_lookahead. }
  destruct (char_eqb (ch_ lx) DQUOTE).
  { intros [= <-]. apply advance_lookahead. }
  intros H. by rewrite (IH _ _ H), advance_lookahead.
Qed.

Lemma lexString_lookahead lx t lx' :
  lexString_ lx = Ok (t, lx') -> lookahead_ lx' = lookahead_ lx.
Proof.
  unfold lexString_.
  destruct (lexString_loop _ _ _ _) as [lx2| |] eqn:H; [|done..].
  intros [= _ <-]. by rewrite (lexString_loop_lookahead _ _ _ _ _ H), advance_lookahead.
Qed.

Lemma lexNumber_lookahead lx t lx' :
  lexNumber_ lx = Ok (t, lx') -> lookahead_ lx' = lookahead_ lx.
Proof.
  unfold lexNumber_. cbv zeta.
  repeat match goal with
         | |- context [if ?b then _ else _] => destruct b
         end;
    try done; intros [= _ <-];
    repeat (rewrite advance_while_lookahead || rewrite advance_lookahead); done.
Qed.

Lemma lexIdent_lookahead lx t lx' :
  lexIdent_ lx = Ok (t, lx') -> lookahead_ lx' = lookahead_ lx.
Proof. unfold lexIdent_. intros [= _ <-]. apply advance_while_lookahead. Qed.

Lemma nextImpl_lookahead lx t lx' :
  nextImpl_ lx = Ok (t, lx') -> lookahead_ lx' = lookahead_ lx.
Proof.
  unfold nextImpl_. cbv zeta.
  pose proof (skipWsAndComments_lookahead lx) as Hs.
  destruct (char_eqb _ NUL); [by intros [= _ <-]|].
  destruct (char_eqb _ DQUOTE).
  { intros H. by rewrite (lexString_lookahead _ _ _ H). }
  destruct (_ || _).
  { intros H. by rewrite (lexNumber_lookahead _ _ _ H). }
  destruct (isIdentChar_ _).
  { intros H. by rewrite (lexIdent_lookahead _ _ _ H). }
  destruct (symbol_kind _); [|done].
  intros [= _ <-]. by rewrite advance_lookahead.
Qed.

(** A token seen by [peek] is the token [next] delivers. *)
Lemma peek_then_next lx t lx1 :
  Lexer_peek 0 lx = Ok (t, lx1) ->
  exists lx2, Lexer_next lx1 = Ok (t, lx2)
              /\ input_ lx2 = input_ lx1 /\ i_ lx2 = i_ lx1
              /\ line_ lx2 = line_ lx1 /\ col_ lx2 = col_ lx1.
Proof.
  unfold Lexer_peek, Lexer_next.
  destruct (lookahead_ lx) as [|t0 rest] eqn:Hla; cbn.
  - destruct (nextImpl_ lx) as [[t1 lxn]| |] eqn:Hn; [|done..].
    intros [= <- <-]. cbn. rewrite (nextImpl_lookahead _ _ _ Hn), Hla. cbn.
    eexists. split; [done|]. done.
  - intros [= <- <-]. rewrite Hla. eexists. split; [done|]. done.
Qed.

(** ** Inversion of parser actions *)

Lemma bind_Ok {A B} (m : Parser A) (k : A -> Parser B) lx r :
  bind m k lx = Ok r <-> exists a lx1, m lx = Ok (a, lx1) /\ k a lx1 = Ok r.
Proof.
  unfold bind. destruct (m lx) as [[a lx1]|e|]; split.
  - intros H. by exists a, lx1.
  - intros (a' & lx1' & [= <- <-] & H). done.
  - done.
  - intros (? & ? & ? & _). done.
  - done.
  - intros (? & ? & ? & _). done.
Qed.

Lemma ret_Ok {A} (a : A) lx r : ret a lx = Ok r <-> r = (a, lx).
Proof. unfold ret. split; [by intros [= <-]|by intros ->]. Qed.

Lemma errorAt_not_Ok {A} filename t msg lx (r : A * Lexer) :
  errorAt_ filename t msg lx = Ok r -> False.
Proof. done. Qed.

(** Peeling one [let*] off a hypothesis [H : (let* x := m in k) lx = Ok r]. *)
Ltac bind_inv H :=
  let a := fresh "a" in
  let lx := fresh "lx" in
  let H1 := fresh "Hm" in
  apply bind_Ok in H as (a & lx & H1 & H).

(** ** Array specifiers *)

Lemma digits_prefix_all (s : string) :
  length (digits_prefix s) = String.length s ->
  digits_prefix s = list_ascii_of_string s
  /\ Forall (fun c => isdigit c = true) (list_ascii_of_string s).
Proof.
  induction s as [|c s IH]; simpl; [done|].
  destruct (isdigit c) eqn:E; simpl; [|done].
  intros [= Hlen]. destruct (IH Hlen) as [-> HF]. split; [done|].
  by constructor.
Qed.

Lemma from_chars_all (SIZE_MAX : N) (sv : string) (len : N) :
  from_chars SIZE_MAX sv = (String.length sv, inr len) ->
  all_digits sv
  /\ len = digits_value (list_ascii_of_string sv)
  /\ (len <= SIZE_MAX)%N.
Proof.
  unfold from_chars, all_digits.
  destruct (digits_prefix sv) as [|d ds] eqn:Hd; [done|].
  destruct (N.leb _ _) eqn:Hle; [|done].
  intros [= Hlen Hv].
  assert (length (digits_prefix sv) = String.length sv) as Hall by (by rewrite Hd).
  destruct (digits_prefix_all sv Hall) as [Heq HF].
  rewrite Hd in Heq. split; [split; [|done]|split].
  - intros ->. done.
  - by rewrite <- Heq.
  - apply N.leb_le in Hle. by rewrite <- Hv.
Qed.

(** C8, as stated, fails for the Python emitter: the text generated for
    [message M { int32[3] a; }] is the text generated for
    [message M { int32[] a; }]; the declared length leaves no trace, so no
    fixed-length sequence of three elements is emitted. *)
Lemma python_ignores_array_length :
  example_parse "message M { int32[3] a; }" "m.msg" = Ok fixed_array_message
  /\ example_parse "message M { int32[] a; }" "m.msg" = Ok dynamic_array_message
  /\ generate_python Z example_ostream_double false fixed_array_message
     = generate_python Z example_ostream_double false dynamic_array_message.
Proof. repeat split; vm_compute; reflexivity. Qed.

(** A declared length is accepted only when the token between the brackets
    consists of decimal digits and its value fits [std::size_t]. *)
Lemma parseOptionalArray_digits (SIZE_MAX : N) (filename : string) (lx lx' : Lexer)
    (len : N) :
  parseOptionalArray_ SIZE_MAX filename lx = Ok (Some (mkFieldArray (Some len)), lx') ->
  exists lx1 lx2 t,
    match_ TokKind.LBrack lx = Ok (true, lx1)
    /\ Lexer_peek 0 lx1 = Ok (t, lx2)
    /\ kind t = TokKind.Number
    /\ all_digits (lexeme t)
    /\ len = digits_value (list_ascii_of_string (lexeme t))
    /\ (len <= SIZE_MAX)%N.
Proof.
  intros Hparse.
  unfold parseOptionalArray_ in Hparse.
  apply bind_Ok in Hparse as (b & lx1 & Hmatch & Hparse).
  destruct b; cbn [negb] in Hparse; [|done].
  apply bind_Ok in Hparse as (isnum & lx2 & Hpeek & Hparse).
  apply bind_Ok in Hparse as (arr & lx3 & Harr & Hparse).
  apply bind_Ok in Hparse as (tr & lx4 & _ & Hparse).
  apply ret_Ok in Hparse. injection Hparse as <- _.
  unfold peek_kind_is in Hpeek.
  apply bind_Ok in Hpeek as (t & lx2' & Hpeek & Hret).
  apply ret_Ok in Hret. injection Hret as -> <-.
  destruct (TokKind.eqb (kind t) TokKind.Number) eqn:Hk.
  - apply bind_Ok in Harr as (t' & lx3' & Hnext & Harr).
    destruct (peek_then_next _ _ _ Hpeek) as (lxn & Hnext' & _).
    rewrite Hnext' in Hnext. injection Hnext as <- <-.
    destruct (negb (String.eqb (lexeme t) EmptyString) && is_sign (string_front (lexeme t)));
      [done|].
    destruct (from_chars SIZE_MAX (lexeme t)) as [consumed [ec|v]] eqn:Hfc; [done|].
    destruct (consumed =? String.length (lexeme t))%nat eqn:Hc; cbn [negb] in Harr; [|done].
    apply Nat.eqb_eq in Hc. subst consumed.
    apply ret_Ok in Harr. injection Harr as <- _.
    apply from_chars_all in Hfc as (Hd & Hv & Hle).
    exists lx1, lx2, t. split; [done|]. split; [done|].
    split; [by destruct (kind t)|]. done.
  - apply ret_Ok in Harr. discriminate Harr.
Qed.

(** ** The lexer: progress *)

Lemma ch_nonempty lx : ch_ lx <> NUL -> (0 < remaining lx)%nat.
Proof.
  unfold ch_, remaining. destruct (input_ lx); [done|]. simpl. lia.
Qed.

Lemma remaining_advance lx :
  remaining (advance_ lx) = (remaining lx - 1)%nat.
Proof.
  unfold advance_, remaining. destruct (input_ lx) as [|c r] eqn:E.
  - by rewrite E.
  - destruct (char_eqb c LF); simpl; lia.
Qed.

Lemma remaining_advance_while_fuel n p lx :
  (remaining (advance_while_fuel n p lx) <= remaining lx)%nat.
Proof.
  revert lx. induction n as [|n IH]; intros lx; simpl; [done|].
  destruct (p (ch_ lx)); [|done].
  etrans; [apply IH|]. rewrite remaining_advance. lia.
Qed.

Lemma remaining_advance_while p lx :
  (remaining (advance_while p lx) <= remaining lx)%nat.
Proof. apply remaining_advance_while_fuel. Qed.

(** A loop [while (p(ch_())) advance_();] that is entered reads a
    character. *)
Lemma remaining_advance_while_lt p lx :
  p NUL = false -> p (ch_ lx) = true ->
  (remaining (advance_while p lx) < remaining lx)%nat.
Proof.
  intros Hnul Hp. unfold advance_while.
  assert (ch_ lx <> NUL) as Hne by (intros E; rewrite E in Hp; congruence).
  pose proof (ch_nonempty lx Hne) as Hpos. unfold remaining in Hpos.
  destruct (String.length (input_ lx)) as [|n] eqn:Hn; [lia|].
  simpl. rewrite Hp.
  pose proof (remaining_advance_while_fuel n p (advance_ lx)) as H.
  rewrite remaining_advance in H. unfold remaining in *. lia.
Qed.

Lemma remaining_skipWsAndComments_fuel n lx :
  (remaining (skipWsAndComments_fuel n lx) <= remaining lx)%nat.
Proof.
  revert lx. induction n as [|n IH]; intros lx; simpl; [done|].
  destruct (char_eqb _ _).
  - etrans; [apply IH|]. etrans; apply remaining_advance_while.
  - apply remaining_advance_while.
Qed.

Lemma remaining_skipWsAndComments lx :
  (remaining (skipWsAndComments_ lx) <= remaining lx)%nat.
Proof. apply remaining_skipWsAndComments_fuel. Qed.

(** The bound on the loop of [lexString_] is never reached. *)
Lemma lexString_loop_progress n escaped sp lx :
  (remaining lx < n)%nat ->
  lexString_loop n escaped sp lx <> OutOfFuel
  /\ forall lx', lexString_loop n escaped sp lx = Ok lx' ->
                 (remaining lx' <= remaining lx)%nat.
Proof.
  revert escaped lx. induction n as [|n IH]; intros escaped lx Hn; [lia|].
  simpl.
  destruct (char_eqb (ch_ lx) NUL) eqn:Hnul; [done|]. cbn [orb].
  destruct (char_eqb (ch_ lx) LF); [done|].
  assert (ch_ lx <> NUL) as Hne.
  { intros E. rewrite E in Hnul. done. }
  pose proof (ch_nonempty lx Hne) as Hpos.
  assert (remaining (advance_ lx) < n)%nat as Hadv
    by (rewrite remaining_advance; lia).
  assert (remaining (advance_ lx) <= remaining lx)%nat as Hle
    by (rewrite remaining_advance; lia).
  destruct escaped.
  { destruct (IH false _ Hadv) as [H1 H2]. split; [done|].
    intros lx' H. specialize (H2 _ H). lia. }
  destruct (char_eqb (ch_ lx) BACKSLASH).
  { destruct (IH true _ Hadv) as [H1 H2]. split; [done|].
    intros lx' H. specialize (H2 _ H). lia. }
  destruct (char_eqb (ch_ lx) DQUOTE).
  { split; [done|]. by intros lx' [= <-]. }
  destruct (IH false _ Hadv) as [H1 H2]. split; [done|].
  intros lx' H. specialize (H2 _ H). lia.
Qed.

(** Every error [lexString_] throws is the same: the file name is the
    placeholder ["<input>"], the position that of the opening quote. *)
Lemma lexString_loop_Throw n escaped sp lx e :
  lexString_loop n escaped sp lx = Throw e ->
  e = mkDescriptionError "<input>" (span_line sp) (span_col sp)
        "Unterminated string literal".
Proof.
  revert escaped lx. induction n as [|n IH]; intros escaped lx; simpl; [done|].
  destruct (_ || _); [by intros [= <-]|].
  destruct escaped; [apply IH|].
  destruct (char_eqb (ch_ lx) BACKSLASH); [apply IH|].
  destruct (char_eqb (ch_ lx) DQUOTE); [done|]. apply IH.
Qed.

Lemma lexString_Throw lx e :
  lexString_ lx = Throw e ->
  e = mkDescriptionError "<input>" (line_ lx) (col_ lx) "Unterminated string literal".
Proof.
  unfold lexString_.
  destruct (lexString_loop _ _ _ _) as [lx2|e'|] eqn:H; [done| |done].
  intros [= <-]. by apply lexString_loop_Throw in H.
Qed.

Lemma lexString_progress lx :
  ch_ lx <> NUL ->
  lexString_ lx <> OutOfFuel
  /\ forall t lx', lexString_ lx = Ok (t, lx') -> (remaining lx' < remaining lx)%nat.
Proof.
  intros Hne. pose proof (ch_nonempty lx Hne) as Hpos. unfold lexString_.
  destruct (lexString_loop_progress
              (S (String.length (input_ (advance_ lx)))) false (span_here lx)
              (advance_ lx)) as [H1 H2]; [unfold remaining; lia|].
  destruct (lexString_loop _ _ _ _) as [lx2| |]; [|done..].
  split; [done|]. intros t lx' [= _ <-].
  specialize (H2 _ eq_refl). rewrite remaining_advance in H2. lia.
Qed.

Lemma is_sign_not_NUL c : is_sign c = true -> c <> NUL.
Proof. intros H ->. done. Qed.

Lemma lexNumber_progress lx :
  isdigit (ch_ lx) || (is_sign (ch_ lx) && isdigit (chNext_ lx)) = true ->
  lexNumber_ lx <> OutOfFuel
  /\ forall t lx', lexNumber_ lx = Ok (t, lx') -> (remaining lx' < remaining lx)%nat.
Proof.
  intros Hstart. unfold lexNumber_. cbv zeta.
  set (lx1 := if is_sign (ch_ lx) then advance_ lx else lx).
  set (lx2 := advance_while isdigit lx1).
  assert (remaining lx2 < remaining lx)%nat as H2.
  { unfold lx2, lx1. destruct (is_sign (ch_ lx)) eqn:Hs.
    - pose proof (ch_nonempty lx (is_sign_not_NUL _ Hs)).
      pose proof (remaining_advance_while isdigit (advance_ lx)) as Hw.
      rewrite remaining_advance in Hw. lia.
    - rewrite andb_false_l, orb_false_r in Hstart.
      by apply remaining_advance_while_lt. }
  set (lx3 := if char_eqb (ch_ lx2) "."%char
              then advance_while isdigit (advance_ lx2) else lx2).
  assert (remaining lx3 <= remaining lx2)%nat as H3.
  { unfold lx3. destruct (char_eqb _ _); [|done].
    etrans; [apply remaining_advance_while|]. rewrite remaining_advance. lia. }
  destruct (char_eqb (ch_ lx3) "e"%char || char_eqb (ch_ lx3) "E"%char).
  - set (lx4 := advance_ lx3).
    set (lx5 := if is_sign (ch_ lx4) then advance_ lx4 else lx4).
    assert (remaining lx5 <= remaining lx3)%nat as H5.
    { unfold lx5, lx4. destruct (is_sign (ch_ (advance_ lx3)));
        rewrite ?remaining_advance; lia. }
    fold lx4. fold lx5. destruct (isdigit (ch_ lx5)); cbn [negb]; [|done].
    split; [done|]. intros t lx' [= _ <-].
    pose proof (remaining_advance_while isdigit lx5). lia.
  - split; [done|]. intros t lx' [= _ <-]. lia.
Qed.

Lemma isIdentChar_NUL : isIdentChar_ NUL = false.
Proof. reflexivity. Qed.

(** [nextImpl_] never exhausts a bound; a token other than [End] costs at
    least one character. *)
Lemma nextImpl_progress lx :
  nextImpl_ lx <> OutOfFuel
  /\ forall t lx', nextImpl_ lx = Ok (t, lx') ->
       (remaining lx' + (if is_End t then 0 else 1) <= remaining lx)%nat.
Proof.
  unfold nextImpl_. cbv zeta.
  pose proof (remaining_skipWsAndComments lx) as Hs.
  set (lx0 := skipWsAndComments_ lx) in *.
  destruct (char_eqb (ch_ lx0) NUL) eqn:Hnul.
  { split; [done|]. intros t lx' [= <- <-]. unfold is_End. cbn [kind TokKind.eqb]. lia. }
  assert (ch_ lx0 <> NUL) as Hne by (intros E; rewrite E in Hnul; done).
  pose proof (ch_nonempty lx0 Hne) as Hpos.
  destruct (char_eqb (ch_ lx0) DQUOTE).
  { destruct (lexString_progress lx0 Hne) as [H1 H2]. split; [done|].
    intros t lx' H. specialize (H2 _ _ H). destruct (is_End t); lia. }
  destruct (_ || _) eqn:Hnum.
  { destruct (lexNumber_progress lx0 Hnum) as [H1 H2]. split; [done|].
    intros t lx' H. specialize (H2 _ _ H). destruct (is_End t); lia. }
  destruct (isIdentChar_ (ch_ lx0)) eqn:Hid.
  { unfold lexIdent_. split; [done|]. intros t lx' [= <- <-].
    pose proof (remaining_advance_while_lt isIdentChar_ lx0 isIdentChar_NUL Hid).
    destruct (is_End _); lia. }
  destruct (symbol_kind _) as [k|]; [|done].
  split; [done|]. intros t lx' [= <- <-]. rewrite remaining_advance.
  destruct (is_End _); lia.
Qed.

(** ** The lexer: the loops as the source writes them

    The bounded recursions that stand for the [while] loops of the lexer
    satisfy the equations of those loops: the bound plays no part. *)

Lemma ch_NUL_of_empty lx : remaining lx = 0%nat -> ch_ lx = NUL.
Proof. unfold remaining, ch_. by destruct (input_ lx). Qed.

Lemma advance_while_fuel_enough n m p lx :
  p NUL = false -> (remaining lx <= n)%nat -> (remaining lx <= m)%nat ->
  advance_while_fuel n p lx = advance_while_fuel m p lx.
Proof.
  intros Hnul. revert m lx. induction n as [|n IH]; intros m lx Hn Hm.
  - assert (ch_ lx = NUL) as Hc by (apply ch_NUL_of_empty; lia).
    destruct m; cbn [advance_while_fuel]; [done|]. by rewrite Hc, Hnul.
  - cbn [advance_while_fuel]. destruct (p (ch_ lx)) eqn:Hp.
    + assert (ch_ lx <> NUL) as Hne by (intros E; rewrite E in Hp; congruence).
      pose proof (ch_nonempty lx Hne).
      destruct m as [|m]; [lia|]. cbn [advance_while_fuel]. rewrite Hp.
      apply IH; rewrite remaining_advance; lia.
    + destruct m; cbn [advance_while_fuel]; [done|]. by rewrite Hp.
Qed.

(** [while (p(ch_())) advance_();] *)
Lemma advance_while_unfold p lx :
  p NUL = false ->
  advance_while p lx = if p (ch_ lx) then advance_while p (advance_ lx) else lx.
Proof.
  intros Hnul. unfold advance_while. fold (remaining lx). fold (remaining (advance_ lx)).
  destruct (p (ch_ lx)) eqn:Hp.
  - assert (ch_ lx <> NUL) as Hne by (intros E; rewrite E in Hp; congruence).
    pose proof (ch_nonempty lx Hne).
    destruct (remaining lx) as [|n] eqn:Hr; [lia|].
    cbn [advance_while_fuel]. rewrite Hp.
    apply advance_while_fuel_enough; [done|rewrite remaining_advance; lia..].
  - destruct (remaining lx); cbn [advance_while_fuel]; [done|]. by rewrite Hp.
Qed.

Lemma skipWsAndComments_fuel_enough n m lx :
  (remaining lx < n)%nat -> (remaining lx < m)%nat ->
  skipWsAndComments_fuel n lx = skipWsAndComments_fuel m lx.
Proof.
  revert m lx. induction n as [|n IH]; intros m lx Hn Hm; [lia|].
  destruct m as [|m]; [lia|]. cbn [skipWsAndComments_fuel]. cbv zeta.
  set (lx1 := advance_while isspace lx).
  destruct (char_eqb (ch_ lx1) "#"%char) eqn:Hc; [|done].
  pose proof (remaining_advance_while isspace lx) as H1. fold lx1 in H1.
  assert (not_eol (ch_ lx1) = true) as Hnot.
  { apply Ascii.eqb_eq in Hc. by rewrite Hc. }
  pose proof (remaining_advance_while_lt not_eol lx1 eq_refl Hnot) as H2.
  apply IH; lia.
Qed.

(** [for (;;) { while (isspace(ch_())) advance_();
               if (ch_() == '#') { while (...) advance_(); continue; }
               break; }] *)
Lemma skipWsAndComments_unfold lx :
  skipWsAndComments_ lx =
  let lx1 := advance_while isspace lx in
  if char_eqb (ch_ lx1) "#"%char
  then skipWsAndComments_ (advance_while not_eol lx1)
  else lx1.
Proof.
  unfold skipWsAndComments_ at 1. cbn [skipWsAndComments_fuel]. cbv zeta.
  set (lx1 := advance_while isspace lx).
  destruct (char_eqb (ch_ lx1) "#"%char) eqn:Hc; [|done].
  pose proof (remaining_advance_while isspace lx) as H1. fold lx1 in H1.
  assert (not_eol (ch_ lx1) = true) as Hnot.
  { apply Ascii.eqb_eq in Hc. by rewrite Hc. }
  pose proof (remaining_advance_while_lt not_eol lx1 eq_refl Hnot) as H2.
  unfold skipWsAndComments_. apply skipWsAndComments_fuel_enough;
    unfold remaining in *; lia.
Qed.

(** ** The parser: every loop ends within its bound *)

Lemma pending_eq lx :
  pending lx = (remaining lx
                + length (List.filter (fun t => negb (is_End t)) (lookahead_ lx)))%nat.
Proof. done. Qed.

Lemma Lexer_next_progress lx :
  Lexer_next lx <> OutOfFuel
  /\ forall t lx', Lexer_next lx = Ok (t, lx') ->
       (pending lx' + (if is_End t then 0 else 1) <= pending lx)%nat.
Proof.
  unfold Lexer_next. destruct (lookahead_ lx) as [|t0 rest] eqn:Hla.
  - destruct (nextImpl_progress lx) as [H1 H2]. split; [done|].
    intros t lx' H. specialize (H2 _ _ H).
    rewrite !pending_eq, (nextImpl_lookahead _ _ _ H), Hla. simpl. lia.
  - split; [done|]. intros t lx' [= <- <-].
    rewrite !pending_eq, Hla. unfold remaining. cbn [input_ lookahead_ List.filter].
    destruct (is_End t0); cbn [negb length]; lia.
Qed.

Lemma pending_push t lx :
  pending (push_lookahead t lx) = (pending lx + (if is_End t then 0 else 1))%nat.
Proof.
  rewrite !pending_eq. unfold push_lookahead, remaining. cbn [input_ lookahead_].
  rewrite List.filter_app, length_app. cbn [List.filter].
  destruct (is_End t); cbn [negb length]; lia.
Qed.

Lemma fill_lookahead_progress n lx :
  fill_lookahead n lx <> OutOfFuel
  /\ forall lx', fill_lookahead n lx = Ok lx' -> (pending lx' <= pending lx)%nat.
Proof.
  revert lx. induction n as [|n IH]; intros lx; simpl.
  - split; [done|]. by intros lx' [= <-].
  - destruct (nextImpl_progress lx) as [H1 H2].
    destruct (nextImpl_ lx) as [[t lx1]| |] eqn:Hn; [|done..].
    destruct (IH (push_lookahead t lx1)) as [H3 H4]. split; [done|].
    intros lx' H. specialize (H4 _ H). specialize (H2 _ _ eq_refl).
    rewrite pending_push in H4.
    rewrite !pending_eq in *. rewrite (nextImpl_lookahead _ _ _ Hn) in H4. lia.
Qed.

(** *** The combinators *)

Lemma eats_quiet {A} (m : Parser A) : eats m -> quiet m.
Proof.
  intros H lx. destruct (H lx) as [H1 H2]. split; [done|].
  intros a lx' E. specialize (H2 _ _ E). lia.
Qed.

Lemma eats_if_true_quiet (m : Parser bool) : eats_if_true m -> quiet m.
Proof.
  intros H lx. destruct (H lx) as [H1 H2]. split; [done|].
  intros a lx' E. specialize (H2 _ _ E). lia.
Qed.

Lemma quiet_ret {A} (a : A) : quiet (ret a).
Proof. intros lx. split; [done|]. by intros a' lx' [= _ <-]. Qed.

Lemma quiet_throw {A} e : quiet (throw (A:=A) e).
Proof. intros lx. split; done. Qed.

Lemma eats_throw {A} e : eats (throw (A:=A) e).
Proof. intros lx. split; done. Qed.

Lemma quiet_errorAt {A} f t msg : quiet (errorAt_ (A:=A) f t msg).
Proof. apply quiet_throw. Qed.

Lemma eats_errorAt {A} f t msg : eats (errorAt_ (A:=A) f t msg).
Proof. apply eats_throw. Qed.

Lemma quiet_lift {A} (r : Res A) : r <> OutOfFuel -> quiet (lift r).
Proof.
  intros Hr lx. unfold lift. destruct r; [|done..].
  split; [done|]. by intros a' lx' [= _ <-].
Qed.

Lemma quiet_bind {A B} (m : Parser A) (k : A -> Parser B) :
  quiet m -> (forall a, quiet (k a)) -> quiet (bind m k).
Proof.
  intros Hm Hk lx. unfold bind. destruct (Hm lx) as [H1 H2].
  destruct (m lx) as [[a lx1]| |]; [|done..].
  destruct (Hk a lx1) as [H3 H4]. split; [done|].
  intros b lx' E. specialize (H2 _ _ eq_refl). specialize (H4 _ _ E). lia.
Qed.

Lemma eats_bind_l {A B} (m : Parser A) (k : A -> Parser B) :
  eats m -> (forall a, quiet (k a)) -> eats (bind m k).
Proof.
  intros Hm Hk lx. unfold bind. destruct (Hm lx) as [H1 H2].
  destruct (m lx) as [[a lx1]| |]; [|done..].
  destruct (Hk a lx1) as [H3 H4]. split; [done|].
  intros b lx' E. specialize (H2 _ _ eq_refl). specialize (H4 _ _ E). lia.
Qed.

Lemma eats_bind_r {A B} (m : Parser A) (k : A -> Parser B) :
  quiet m -> (forall a, eats (k a)) -> eats (bind m k).
Proof.
  intros Hm Hk lx. unfold bind. destruct (Hm lx) as [H1 H2].
  destruct (m lx) as [[a lx1]| |]; [|done..].
  destruct (Hk a lx1) as [H3 H4]. split; [done|].
  intros b lx' E. specialize (H2 _ _ eq_refl). specialize (H4 _ _ E). lia.
Qed.

(** A test followed by a branch that only runs when the test delivered a
    token. *)
Lemma eats_bind_test {B} (m : Parser bool) (k : bool -> Parser B) :
  eats_if_true m -> quiet (k true) -> eats (k false) -> eats (bind m k).
Proof.
  intros Hm Ht Hf lx. unfold bind. destruct (Hm lx) as [H1 H2].
  destruct (m lx) as [[[|] lx1]| |]; [| |done..].
  - destruct (Ht lx1) as [H3 H4]. split; [done|].
    intros b lx' E. specialize (H2 _ _ eq_refl). specialize (H4 _ _ E).
    cbv iota in H2. lia.
  - destruct (Hf lx1) as [H3 H4]. split; [done|].
    intros b lx' E. specialize (H2 _ _ eq_refl). specialize (H4 _ _ E).
    cbv iota in H2. lia.
Qed.

(** A loop whose every repeating pass delivers a token stays within
    its bound. *)
Lemma quiet_loop_fuel {A} (step : A -> Parser (LoopCtl A)) :
  (forall acc, quiet (step acc)) ->
  (forall acc lx a lx', step acc lx = Ok (Continue a, lx') ->
                        (pending lx' < pending lx)%nat) ->
  forall n acc lx, (pending lx < n)%nat ->
    loop_fuel n step acc lx <> OutOfFuel
    /\ forall a lx', loop_fuel n step acc lx = Ok (a, lx') ->
                     (pending lx' <= pending lx)%nat.
Proof.
  intros Hq Hc. induction n as [|n IH]; intros acc lx Hn; [lia|].
  simpl. destruct (Hq acc lx) as [H1 H2].
  destruct (step acc lx) as [[[a|a] lx1]| |] eqn:Hs; [| |done..].
  - pose proof (Hc _ _ _ _ Hs) as Hlt.
    destruct (IH a lx1 ltac:(lia)) as [H3 H4]. split; [done|].
    intros b lx' E. specialize (H4 _ _ E). lia.
  - split; [done|]. intros b lx' [= <- <-]. by apply (H2 _ _ eq_refl).
Qed.

Lemma quiet_loop {A} (step : A -> Parser (LoopCtl A)) (acc : A) :
  (forall acc, quiet (step acc)) ->
  (forall acc lx a lx', step acc lx = Ok (Continue a, lx') ->
                        (pending lx' < pending lx)%nat) ->
  quiet (loop step acc).
Proof.
  intros Hq Hc lx. unfold loop. apply quiet_loop_fuel; [done..|lia].
Qed.

Lemma quiet_while_test {A} (cond : Parser bool) (body : A -> Parser A) (acc : A) :
  eats_if_true cond -> (forall a, quiet (body a)) -> quiet (while_ cond body acc).
Proof.
  intros Hc Hb. unfold while_. apply quiet_loop.
  - intros a. apply quiet_bind; [by apply eats_if_true_quiet|].
    intros [|]; [|apply quiet_ret].
    apply quiet_bind; [apply Hb|]. intros; apply quiet_ret.
  - intros a lx a' lx' H. apply bind_Ok in H as (c & lx1 & H1 & H).
    destruct (Hc lx) as [_ Hc2]. specialize (Hc2 _ _ H1). destruct c.
    + apply bind_Ok in H as (a'' & lx2 & H2 & H). apply ret_Ok in H.
      injection H as _ <-. destruct (Hb a lx1) as [_ Hb2].
      specialize (Hb2 _ _ H2). cbv iota in Hc2. lia.
    + apply ret_Ok in H. done.
Qed.

Lemma quiet_while_body {A} (cond : Parser bool) (body : A -> Parser A) (acc : A) :
  quiet cond -> (forall a, eats (body a)) -> quiet (while_ cond body acc).
Proof.
  intros Hc Hb. unfold while_. apply quiet_loop.
  - intros a. apply quiet_bind; [done|].
    intros [|]; [|apply quiet_ret].
    apply quiet_bind; [apply eats_quiet, Hb|]. intros; apply quiet_ret.
  - intros a lx a' lx' H. apply bind_Ok in H as (c & lx1 & H1 & H).
    destruct (Hc lx) as [_ Hc2]. specialize (Hc2 _ _ H1). destruct c.
    + apply bind_Ok in H as (a'' & lx2 & H2 & H). apply ret_Ok in H.
      injection H as _ <-. destruct (Hb a lx1) as [_ Hb2].
      specialize (Hb2 _ _ H2). lia.
    + apply ret_Ok in H. done.
Qed.

(** *** The primitives *)

Lemma quiet_Lexer_next : quiet Lexer_next.
Proof.
  intros lx. destruct (Lexer_next_progress lx) as [H1 H2]. split; [done|].
  intros t lx' E. specialize (H2 _ _ E). lia.
Qed.

Lemma quiet_Lexer_peek k : quiet (Lexer_peek k).
Proof.
  intros lx. unfold Lexer_peek.
  destruct (fill_lookahead_progress (S k - length (lookahead_ lx)) lx) as [H1 H2].
  destruct (fill_lookahead _ lx) as [lx1| |]; [|done..].
  split; [done|]. intros t lx' [= _ <-]. by apply H2.
Qed.

Lemma eats_expect_ f k msg : k <> TokKind.End -> eats (expect_ f k msg).
Proof.
  intros Hk lx. unfold expect_, bind.
  destruct (Lexer_next_progress lx) as [H1 H2].
  destruct (Lexer_next lx) as [[t lx1]| |]; [|done..].
  destruct (TokKind.eqb (kind t) k) eqn:E; cbn [negb]; [|done].
  split; [done|]. intros a lx' [= <- <-]. specialize (H2 _ _ eq_refl).
  assert (is_End t = false) as Ht.
  { unfold is_End. destruct (kind t), k; done. }
  rewrite Ht in H2. lia.
Qed.

Lemma quiet_expect_ f k msg : quiet (expect_ f k msg).
Proof.
  unfold expect_. apply quiet_bind; [apply quiet_Lexer_next|].
  intros t. destruct (negb _); [apply quiet_errorAt|apply quiet_ret].
Qed.

Lemma eats_expectKeyword_ f kw : eats (expectKeyword_ f kw).
Proof.
  intros lx. unfold expectKeyword_, bind.
  destruct (Lexer_next_progress lx) as [H1 H2].
  destruct (Lexer_next lx) as [[t lx1]| |]; [|done..].
  destruct (TokKind.eqb (kind t) TokKind.Ident) eqn:E; cbn [negb orb]; [|done].
  destruct (negb (String.eqb (lexeme t) kw)); [done|].
  split; [done|]. intros a lx' [= <- <-]. specialize (H2 _ _ eq_refl).
  assert (is_End t = false) as Ht.
  { unfold is_End. by destruct (kind t). }
  rewrite Ht in H2. lia.
Qed.

(** A token that [peek] saw and that is not [End] is delivered by the
    [next] that follows. *)
Lemma peek_next_eats lx t lx1 t' lx2 :
  Lexer_peek 0 lx = Ok (t, lx1) -> is_End t = false ->
  Lexer_next lx1 = Ok (t', lx2) ->
  t' = t /\ (pending lx2 < pending lx)%nat.
Proof.
  intros Hp Ht Hn.
  destruct (quiet_Lexer_peek 0 lx) as [_ Hq]. specialize (Hq _ _ Hp).
  destruct (peek_then_next _ _ _ Hp) as (lx2' & Hn' & _).
  rewrite Hn' in Hn. injection Hn as <- <-. split; [done|].
  destruct (Lexer_next_progress lx1) as [_ H2]. specialize (H2 _ _ Hn').
  rewrite Ht in H2. lia.
Qed.

Lemma eats_if_true_match_ k : k <> TokKind.End -> eats_if_true (match_ k).
Proof.
  intros Hk lx. unfold match_, bind.
  destruct (quiet_Lexer_peek 0 lx) as [H1 H2].
  destruct (Lexer_peek 0 lx) as [[t lx1]| |] eqn:Hp; [|done..].
  specialize (H2 _ _ eq_refl).
  destruct (TokKind.eqb (kind t) k) eqn:E.
  - destruct (Lexer_next_progress lx1) as [H3 H4].
    destruct (Lexer_next lx1) as [[t' lx2]| |] eqn:Hn; [|done..].
    split; [done|]. intros a lx' [= <- <-].
    assert (is_End t = false) as Ht.
    { unfold is_End. destruct (kind t), k; done. }
    destruct (peek_next_eats _ _ _ _ _ Hp Ht Hn) as [_ Hlt]. lia.
  - split; [done|]. intros a lx' [= <- <-]. lia.
Qed.

Lemma quiet_isKeyword_ kw : quiet (isKeyword_ kw).
Proof.
  unfold isKeyword_. apply quiet_bind; [apply quiet_Lexer_peek|].
  intros; apply quiet_ret.
Qed.

Lemma quiet_peek_kind_is k : quiet (peek_kind_is k).
Proof.
  unfold peek_kind_is. apply quiet_bind; [apply quiet_Lexer_peek|].
  intros; apply quiet_ret.
Qed.

Lemma quiet_at_keyword_property : quiet at_keyword_property.
Proof.
  unfold at_keyword_property. apply quiet_bind; [apply quiet_Lexer_peek|].
  intros t. destruct (TokKind.eqb _ _); [|apply quiet_ret].
  apply quiet_bind; [apply quiet_Lexer_peek|]. intros; apply quiet_ret.
Qed.

(** The negated test [peek().kind != k] of the loops. *)
Lemma quiet_peek_kind_is_not k :
  quiet (bind (peek_kind_is k) (fun b => ret (negb b))).
Proof. apply quiet_bind; [apply quiet_peek_kind_is|]. intros; apply quiet_ret. Qed.

(** *** The static helpers *)

Lemma unquote_loop_bound n s t f i out :
  (1 <= n)%nat -> (String.length s <= n + i)%nat ->
  unquote_loop n s t f i out <> OutOfFuel.
Proof.
  revert i out. induction n as [|n IH]; intros i out Hn Hlen; [lia|].
  cbn [unquote_loop].
  destruct (i + 1 <? String.length s)%nat eqn:Hlt; cbn [negb]; [|done].
  apply Nat.ltb_lt in Hlt.
  destruct (negb (char_eqb (string_at s i) BACKSLASH)).
  { apply IH; lia. }
  destruct (String.length s - 1 <=? i + 1)%nat eqn:Hle; [done|].
  apply Nat.leb_gt in Hle. apply IH; lia.
Qed.

Lemma unquote_bound s t f : unquote_ s t f <> OutOfFuel.
Proof.
  unfold unquote_. destruct (String.length s <? 2)%nat eqn:Hlen; [done|].
  apply Nat.ltb_ge in Hlen. cbn [orb].
  destruct (_ || _); [done|]. apply unquote_loop_bound; lia.
Qed.

Lemma parseDouble_bound {double} strtod isfinite sv t f :
  parseDouble_ double strtod isfinite sv t f <> OutOfFuel.
Proof.
  unfold parseDouble_. destruct (strtod sv) as [v consumed].
  by destruct (_ || _).
Qed.

(** *** The grammar *)

Lemma TokKind_not_End (k : TokKind.t) :
  TokKind.eqb k TokKind.End = false -> k <> TokKind.End.
Proof. by intros H ->. Qed.

Create HintDb steady discriminated.

#[local] Hint Resolve quiet_ret quiet_errorAt eats_errorAt quiet_Lexer_next
  quiet_Lexer_peek quiet_expect_ eats_expectKeyword_ quiet_isKeyword_
  quiet_peek_kind_is quiet_at_keyword_property quiet_peek_kind_is_not
  unquote_bound parseDouble_bound : steady.
#[local] Hint Extern 1 (eats (expect_ _ _ _)) =>
  apply eats_expect_; discriminate : steady.
#[local] Hint Extern 1 (eats_if_true (match_ _)) =>
  apply eats_if_true_match_; discriminate : steady.
#[local] Hint Extern 1 (quiet (match_ _)) =>
  apply eats_if_true_quiet, eats_if_true_match_; discriminate : steady.
#[local] Hint Extern 1 (quiet (lift _)) => apply quiet_lift : steady.
#[local] Hint Extern 5 (quiet _) => apply eats_quiet : steady.

(** Decomposition of an action along its [let*]s and branches. *)
Ltac steady :=
  cbv beta;
  lazymatch goal with
  | |- quiet (bind _ _) => apply quiet_bind; [steady | intros ?; steady]
  | |- eats (bind _ _) =>
      first [ solve [apply eats_bind_l; [steady | intros ?; steady]]
            | solve [apply eats_bind_r; [steady | intros ?; steady]] ]
  | |- quiet (if ?b then _ else _) => destruct b; steady
  | |- eats (if ?b then _ else _) => destruct b; steady
  | |- quiet (while_ _ _ _) =>
      first [ solve [apply quiet_while_test; [steady | intros ?; steady]]
            | solve [apply quiet_while_body; [steady | intros ?; steady]] ]
  | |- _ => solve [eauto 6 with steady]
  end.

Section Grammar.
Context (double : Type) (strtod : string -> double * nat)
  (isfinite : double -> bool) (SIZE_MAX : N) (filename_ : string).

(** An action that looks at the next token and, unless the token is [End],
    takes it. *)
Lemma eats_peek_dispatch {B} (K : Token -> Parser B) :
  (forall t,
     (exists k, is_End t = false /\ K t = bind Lexer_next k /\ forall t', quiet (k t'))
     \/ eats (K t)) ->
  eats (bind (Lexer_peek 0) K).
Proof.
  intros HK lx. unfold bind at 1 2.
  destruct (quiet_Lexer_peek 0 lx) as [H1 H2].
  destruct (Lexer_peek 0 lx) as [[t lx1]| |] eqn:Hp; [|done..].
  specialize (H2 _ _ eq_refl).
  destruct (HK t) as [(k & Ht & -> & Hk)|He].
  - unfold bind.
    destruct (Lexer_next_progress lx1) as [H3 _].
    destruct (Lexer_next lx1) as [[t' lx2]| |] eqn:Hn; [|done..].
    destruct (peek_next_eats _ _ _ _ _ Hp Ht Hn) as [_ Hlt].
    destruct (Hk t' lx2) as [H5 H6]. split; [done|].
    intros a lx' E. specialize (H6 _ _ E). lia.
  - destruct (He lx1) as [H3 H4]. split; [done|].
    intros a lx' E. specialize (H4 _ _ E). lia.
Qed.

Lemma eats_parseValue_ : eats (parseValue_ double strtod isfinite filename_).
Proof.
  unfold parseValue_. apply eats_peek_dispatch. intros t.
  destruct (TokKind.eqb (kind t) TokKind.Number) eqn:E1.
  { left. eexists. split; [unfold is_End; by destruct (kind t)|].
    split; [reflexivity|]. intros t'. steady. }
  destruct (TokKind.eqb (kind t) TokKind.String) eqn:E2.
  { left. eexists. split; [unfold is_End; by destruct (kind t)|].
    split; [reflexivity|]. intros t'. steady. }
  destruct (TokKind.eqb (kind t) TokKind.Ident) eqn:E3; cbn [andb]; [|right; steady].
  destruct (_ || _); [|right; steady].
  left. eexists. split; [unfold is_End; by destruct (kind t)|].
  split; [reflexivity|]. intros t'. steady.
Qed.
#[local] Hint Resolve eats_parseValue_ : steady.

Lemma eats_parseKeywordPropertyInto_ props :
  eats (parseKeywordPropertyInto_ double strtod isfinite filename_ props).
Proof. unfold parseKeywordPropertyInto_. steady. Qed.
#[local] Hint Resolve eats_parseKeywordPropertyInto_ : steady.

Lemma quiet_keyword_property_tail props :
  quiet (keyword_property_tail double strtod isfinite filename_ props).
Proof. unfold keyword_property_tail. steady. Qed.
#[local] Hint Resolve quiet_keyword_property_tail : steady.

Lemma eats_parseProperties_ :
  eats (parseProperties_ double strtod isfinite filename_).
Proof.
  unfold parseProperties_. cbv zeta.
  apply eats_bind_l; [steady|]. intros _.
  apply quiet_bind; [steady|]. intros b.
  apply quiet_bind; [|intros; steady].
  destruct b; [steady|].
  apply quiet_bind; [steady|]. intros r. destruct (negb r); [|steady].
  apply quiet_bind; [steady|]. intros v.
  apply quiet_loop.
  - intros acc. steady.
  - intros acc lx a lx' H.
    apply bind_Ok in H as (c & lx1 & Hc & H).
    destruct (eats_if_true_match_ TokKind.Colon ltac:(discriminate) lx) as [_ Hm].
    specialize (Hm _ _ Hc). destruct c; [|by apply ret_Ok in H].
    cbv iota in Hm.
    assert (forall B (m : Parser B) b lx2, quiet m -> m lx1 = Ok (b, lx2) ->
              (pending lx2 < pending lx)%nat) as Hq.
    { intros B m b0 lx2 Hqm E. destruct (Hqm lx1) as [_ Hle].
      specialize (Hle _ _ E). lia. }
    eapply Hq; [|exact H]. steady.
Qed.
#[local] Hint Resolve eats_parseProperties_ : steady.

Lemma quiet_parseOptionalArray_ : quiet (parseOptionalArray_ SIZE_MAX filename_).
Proof.
  unfold parseOptionalArray_.
  apply quiet_bind; [steady|]. intros b. destruct (negb b); [steady|].
  apply quiet_bind; [steady|]. intros n.
  apply quiet_bind; [|intros; steady].
  destruct n; [|steady].
  apply quiet_bind; [steady|]. intros t. cbv zeta.
  destruct (_ && _); [steady|].
  destruct (from_chars _ _) as [consumed [ec|len]]; [steady|].
  destruct (negb _); steady.
Qed.
#[local] Hint Resolve quiet_parseOptionalArray_ : steady.

Lemma eats_parseField_ :
  eats (parseField_ double strtod isfinite SIZE_MAX filename_).
Proof. unfold parseField_. steady. Qed.
#[local] Hint Resolve eats_parseField_ : steady.

Lemma eats_parseFieldList_ :
  eats (parseFieldList_ double strtod isfinite SIZE_MAX filename_).
Proof. unfold parseFieldList_. steady. Qed.
#[local] Hint Resolve eats_parseFieldList_ : steady.

Lemma eats_parseEnumerate_ : eats (parseEnumerate_ filename_).
Proof. unfold parseEnumerate_. steady. Qed.

Lemma eats_parseInclude_ :
  eats (parseInclude_ double strtod isfinite filename_).
Proof. unfold parseInclude_. steady. Qed.

Lemma eats_parseImport_ : eats (parseImport_ filename_).
Proof. unfold parseImport_. steady. Qed.

(** [while (peek().kind == String) { s = next(); ... }] *)
Lemma quiet_source_strings (srcs : list string) :
  quiet (while_ (peek_kind_is TokKind.String)
           (fun srcs =>
              let* s := Lexer_next in
              let* u := lift (unquote_ (lexeme s) s filename_) in
              ret (srcs ++ [u]))
           srcs).
Proof.
  unfold while_. apply quiet_loop.
  - intros acc. steady.
  - intros acc lx a lx' H.
    apply bind_Ok in H as (c & lx1 & Hc & H).
    unfold peek_kind_is in Hc. apply bind_Ok in Hc as (t & lx1' & Hp & Hc).
    apply ret_Ok in Hc. injection Hc as -> <-.
    destruct (TokKind.eqb (kind t) TokKind.String) eqn:Ek; [|by apply ret_Ok in H].
    apply bind_Ok in H as (a' & lx2 & Hb & H). apply ret_Ok in H. injection H as _ <-.
    apply bind_Ok in Hb as (s & lx3 & Hn & Hb).
    assert (is_End t = false) as Ht by (unfold is_End; by destruct (kind t)).
    destruct (peek_next_eats _ _ _ _ _ Hp Ht Hn) as [_ Hlt].
    assert (quiet (let* u := lift (unquote_ (lexeme s) s filename_) in
                   ret (acc ++ [u]))) as Hq by steady.
    destruct (Hq lx3) as [_ Hle]. specialize (Hle _ _ Hb). lia.
Qed.
#[local] Hint Resolve quiet_source_strings : steady.

Lemma eats_parseExternalLanguage_ : eats (parseExternalLanguage_ filename_).
Proof.
  unfold parseExternalLanguage_.
  apply eats_bind_l; [steady|]. intros _.
  apply quiet_bind; [steady|]. intros langTok.
  apply quiet_bind; [steady|]. intros contTok.
  apply quiet_bind; [steady|]. intros cont.
  apply quiet_bind; [steady|]. intros f.
  apply quiet_bind; [|intros; steady].
  destruct f; [|steady].
  apply quiet_bind; [steady|]. intros _.
  apply quiet_bind; [steady|]. intros s.
  apply quiet_bind; [steady|]. intros _.
  apply quiet_source_strings.
Qed.
#[local] Hint Resolve eats_parseExternalLanguage_ : steady.

Lemma eats_parseExternalLanguageList_ :
  eats (parseExternalLanguageList_ filename_).
Proof. unfold parseExternalLanguageList_. steady. Qed.
#[local] Hint Resolve eats_parseExternalLanguageList_ : steady.

Lemma eats_parseExternal_ : eats (parseExternal_ filename_).
Proof. unfold parseExternal_. steady. Qed.

Lemma eats_parseStructure_ :
  eats (parseStructure_ double strtod isfinite SIZE_MAX filename_).
Proof. unfold parseStructure_. steady. Qed.

Lemma eats_parseMessage_ :
  eats (parseMessage_ double strtod isfinite SIZE_MAX filename_).
Proof. unfold parseMessage_. steady. Qed.

Lemma quiet_parseNamespace_ : quiet (parseNamespace_ filename_).
Proof. unfold parseNamespace_. steady. Qed.

#[local] Hint Resolve eats_parseEnumerate_ eats_parseInclude_ eats_parseImport_
  eats_parseExternal_ eats_parseStructure_ eats_parseMessage_
  quiet_parseNamespace_ : steady.

Lemma eats_parseDecl_ :
  eats (parseDecl_ double strtod isfinite SIZE_MAX filename_).
Proof. unfold parseDecl_. steady. Qed.
#[local] Hint Resolve eats_parseDecl_ : steady.

Lemma quiet_parseDescription :
  quiet (parseDescription double strtod isfinite SIZE_MAX filename_).
Proof. unfold parseDescription. steady. Qed.

End Grammar.

(** [parse] always returns a description or throws: the bounds that stand
    for the termination of the loops of the lexer and the parser are never
    exhausted. *)
Theorem parse_total (double : Type) (strtod : string -> double * nat)
    (isfinite : double -> bool) (SIZE_MAX : N) (text filename : string) :
  (exists d, parse double strtod isfinite SIZE_MAX text filename = Ok d)
  \/ (exists e, parse double strtod isfinite SIZE_MAX text filename = Throw e).
Proof.
  unfold parse.
  destruct (quiet_parseDescription double strtod isfinite SIZE_MAX filename
              (Lexer_new text)) as [H _].
  destruct (parseDescription _ _ _ _ _ _) as [[d lx]|e|]; [left|right|done]; eauto.
Qed.

(** ** The lexer does not look at its lookahead buffer *)

Lemma ch_with_lookahead la lx : ch_ (with_lookahead la lx) = ch_ lx.
Proof. done. Qed.

Lemma chNext_with_lookahead la lx : chNext_ (with_lookahead la lx) = chNext_ lx.
Proof. done. Qed.

Lemma span_here_with_lookahead la lx :
  span_here (with_lookahead la lx) = span_here lx.
Proof. done. Qed.

Lemma advance_with_lookahead la lx :
  advance_ (with_lookahead la lx) = with_lookahead la (advance_ lx).
Proof.
  unfold advance_, with_lookahead. cbn [input_].
  destruct (input_ lx) as [|c r] eqn:E; cbn.
  - by rewrite E.
  - destruct (char_eqb c LF); done.
Qed.

Lemma advance_while_fuel_with_lookahead n p la lx :
  advance_while_fuel n p (with_lookahead la lx)
  = with_lookahead la (advance_while_fuel n p lx).
Proof.
  revert lx. induction n as [|n IH]; intros lx; cbn [advance_while_fuel]; [done|].
  rewrite ch_with_lookahead. destruct (p (ch_ lx)); [|done].
  by rewrite advance_with_lookahead, IH.
Qed.

Lemma advance_while_with_lookahead p la lx :
  advance_while p (with_lookahead la lx) = with_lookahead la (advance_while p lx).
Proof. apply advance_while_fuel_with_lookahead. Qed.

Lemma skipWsAndComments_fuel_with_lookahead n la lx :
  skipWsAndComments_fuel n (with_lookahead la lx)
  = with_lookahead la (skipWsAndComments_fuel n lx).
Proof.
  revert lx. induction n as [|n IH]; intros lx; cbn [skipWsAndComments_fuel]; [done|].
  cbv zeta. rewrite !advance_while_with_lookahead, ch_with_lookahead.
  destruct (char_eqb _ _); [|done].
  by rewrite ?advance_while_with_lookahead, IH.
Qed.

Lemma skipWsAndComments_with_lookahead la lx :
  skipWsAndComments_ (with_lookahead la lx)
  = with_lookahead la (skipWsAndComments_ lx).
Proof. apply skipWsAndComments_fuel_with_lookahead. Qed.

Lemma make_with_lookahead k la la' lx0 sp lx :
  make_ k (with_lookahead la lx0) sp (with_lookahead la' lx) = make_ k lx0 sp lx.
Proof. done. Qed.

Lemma lexString_loop_with_lookahead n escaped sp la lx :
  lexString_loop n escaped sp (with_lookahead la lx)
  = res_map (with_lookahead la) (lexString_loop n escaped sp lx).
Proof.
  revert escaped lx. induction n as [|n IH]; intros escaped lx;
    cbn [lexString_loop]; [done|].
  cbv zeta. rewrite ch_with_lookahead, advance_with_lookahead.
  destruct (_ || _); [done|].
  destruct escaped; [apply IH|].
  destruct (char_eqb (ch_ lx) BACKSLASH); [apply IH|].
  destruct (char_eqb (ch_ lx) DQUOTE); [done|]. apply IH.
Qed.

Lemma lexString_with_lookahead la lx :
  lexString_ (with_lookahead la lx) = on_lexer la (lexString_ lx).
Proof.
  unfold lexString_. cbv zeta.
  rewrite advance_with_lookahead, span_here_with_lookahead.
  change (input_ (with_lookahead la (advance_ lx))) with (input_ (advance_ lx)).
  rewrite lexString_loop_with_lookahead.
  destruct (lexString_loop _ _ _ _); done.
Qed.

Lemma lexNumber_with_lookahead la lx :
  lexNumber_ (with_lookahead la lx) = on_lexer la (lexNumber_ lx).
Proof.
  unfold lexNumber_. cbv zeta.
  rewrite span_here_with_lookahead, ch_with_lookahead.
  assert ((if is_sign (ch_ lx) then advance_ (with_lookahead la lx)
           else with_lookahead la lx)
          = with_lookahead la (if is_sign (ch_ lx) then advance_ lx else lx)) as ->.
  { destruct (is_sign _); [apply advance_with_lookahead|done]. }
  rewrite advance_while_with_lookahead, ch_with_lookahead.
  set (lx2 := advance_while isdigit (if is_sign (ch_ lx) then advance_ lx else lx)).
  assert ((if char_eqb (ch_ lx2) "."%char
           then advance_while isdigit (advance_ (with_lookahead la lx2))
           else with_lookahead la lx2)
          = with_lookahead la
              (if char_eqb (ch_ lx2) "."%char
               then advance_while isdigit (advance_ lx2) else lx2)) as ->.
  { destruct (char_eqb (ch_ lx2) "."%char); [|done].
    by rewrite advance_with_lookahead, advance_while_with_lookahead. }
  set (lx3 := if char_eqb (ch_ lx2) "."%char
              then advance_while isdigit (advance_ lx2) else lx2).
  rewrite ch_with_lookahead.
  destruct (char_eqb (ch_ lx3) "e"%char || char_eqb (ch_ lx3) "E"%char); [|done].
  rewrite advance_with_lookahead, ch_with_lookahead.
  assert ((if is_sign (ch_ (advance_ lx3))
           then advance_ (with_lookahead la (advance_ lx3))
           else with_lookahead la (advance_ lx3))
          = with_lookahead la
              (if is_sign (ch_ (advance_ lx3)) then advance_ (advance_ lx3)
               else advance_ lx3)) as ->.
  { destruct (is_sign (ch_ (advance_ lx3))); [apply advance_with_lookahead|done]. }
  rewrite ch_with_lookahead.
  match goal with |- context [negb ?b] => destruct b end; [|done].
  cbn [negb]. by rewrite advance_while_with_lookahead.
Qed.

Lemma lexIdent_with_lookahead la lx :
  lexIdent_ (with_lookahead la lx) = on_lexer la (lexIdent_ lx).
Proof.
  unfold lexIdent_. cbv zeta.
  by rewrite span_here_with_lookahead, advance_while_with_lookahead.
Qed.

Lemma nextImpl_with_lookahead la lx :
  nextImpl_ (with_lookahead la lx) = on_lexer la (nextImpl_ lx).
Proof.
  unfold nextImpl_. cbv zeta.
  rewrite skipWsAndComments_with_lookahead, span_here_with_lookahead,
    ch_with_lookahead, chNext_with_lookahead.
  destruct (char_eqb _ NUL); [done|].
  destruct (char_eqb _ DQUOTE); [apply lexString_with_lookahead|].
  destruct (_ || _); [apply lexNumber_with_lookahead|].
  destruct (isIdentChar_ _); [apply lexIdent_with_lookahead|].
  rewrite advance_with_lookahead. by destruct (symbol_kind _).
Qed.

Lemma with_lookahead_idem la la' lx :
  with_lookahead la (with_lookahead la' lx) = with_lookahead la lx.
Proof. done. Qed.

Lemma with_lookahead_same lx : with_lookahead (lookahead_ lx) lx = lx.
Proof. by destruct lx. Qed.

Lemma lex_fails_with_lookahead la lx e :
  lex_fails lx e -> lex_fails (with_lookahead la lx) e.
Proof.
  intros H. induction H as [lx e H|lx t lx' e H Ht _ IH].
  - apply lex_fails_here. by rewrite nextImpl_with_lookahead, H.
  - eapply lex_fails_later; [|exact Ht|exact IH].
    by rewrite nextImpl_with_lookahead, H.
Qed.

Lemma lex_fails_any_lookahead la lx e :
  lex_fails (with_lookahead la lx) e -> lex_fails lx e.
Proof.
  intros H. apply (lex_fails_with_lookahead (lookahead_ lx)) in H.
  by rewrite with_lookahead_idem, with_lookahead_same in H.
Qed.

(** ** Parsing a text the lexer cannot get through *)

Section Doomed.
Context (e0 : DescriptionError) (filename_ : string).

Local Abbreviation faithful := (faithful e0 filename_).
Local Abbreviation refuses := (refuses e0 filename_).

Lemma faithful_ret {A} (a : A) : faithful (ret a).
Proof. intros lx Hd. by split. Qed.

Lemma faithful_errorAt {A} t msg : faithful (errorAt_ (A:=A) filename_ t msg).
Proof. intros lx Hd. by right. Qed.

Lemma refuses_errorAt {A} t msg : refuses (errorAt_ (A:=A) filename_ t msg).
Proof. intros lx Hd. by right. Qed.

Lemma faithful_lift {A} (r : Res A) :
  (forall e, r = Throw e -> err_file e = filename_) -> faithful (lift r).
Proof.
  intros Hr lx Hd. unfold lift. destruct r as [a|e|]; [by split| |done].
  right. by apply Hr.
Qed.

Lemma refuses_faithful {A} (m : Parser A) : refuses m -> faithful m.
Proof.
  intros H lx Hd. specialize (H lx Hd). unfold doomed_outcome in *.
  destruct (m lx) as [[a lx']| |]; [|done..]. by destruct H.
Qed.

Lemma faithful_bind {A B} (m : Parser A) (k : A -> Parser B) :
  faithful m -> (forall a, faithful (k a)) -> faithful (bind m k).
Proof.
  intros Hm Hk lx Hd. specialize (Hm lx Hd). unfold bind, doomed_outcome in *.
  destruct (m lx) as [[a lx1]| |]; [|done..].
  destruct Hm as [_ Hd1]. apply (Hk a lx1 Hd1).
Qed.

Lemma refuses_bind_l {A B} (m : Parser A) (k : A -> Parser B) :
  refuses m -> refuses (bind m k).
Proof.
  intros Hm lx Hd. specialize (Hm lx Hd). unfold bind, doomed_outcome in *.
  destruct (m lx) as [[a lx1]| |]; [|done..]. by destruct Hm.
Qed.

Lemma refuses_bind_r {A B} (m : Parser A) (k : A -> Parser B) :
  faithful m -> (forall a, refuses (k a)) -> refuses (bind m k).
Proof.
  intros Hm Hk lx Hd. specialize (Hm lx Hd). unfold bind, doomed_outcome in *.
  destruct (m lx) as [[a lx1]| |]; [|done..].
  destruct Hm as [_ Hd1]. apply (Hk a lx1 Hd1).
Qed.

Lemma faithful_loop_fuel {A} (step : A -> Parser (LoopCtl A)) :
  (forall acc, faithful (step acc)) ->
  forall n acc, faithful (loop_fuel n step acc).
Proof.
  intros Hs. induction n as [|n IH]; intros acc lx Hd; [done|].
  cbn [loop_fuel]. specialize (Hs acc lx Hd). unfold doomed_outcome in Hs.
  destruct (step acc lx) as [[[a|a] lx1]| |]; [| |done..].
  - destruct Hs as [_ Hd1]. apply (IH a lx1 Hd1).
  - done.
Qed.

Lemma faithful_loop {A} (step : A -> Parser (LoopCtl A)) (acc : A) :
  (forall acc, faithful (step acc)) -> faithful (loop step acc).
Proof. intros Hs lx Hd. unfold loop. by apply faithful_loop_fuel. Qed.

Lemma faithful_while_ {A} (cond : Parser bool) (body : A -> Parser A) (acc : A) :
  faithful cond -> (forall a, faithful (body a)) -> faithful (while_ cond body acc).
Proof.
  intros Hc Hb. unfold while_. apply faithful_loop. intros a.
  apply faithful_bind; [done|]. intros [|]; [|apply faithful_ret].
  apply faithful_bind; [apply Hb|]. intros; apply faithful_ret.
Qed.

(** *** The lexer primitives *)

Lemma doomed_nextImpl lx :
  lookahead_ lx = [] -> doomed e0 lx ->
  match nextImpl_ lx with
  | Ok (t, lx') => is_End t = false /\ lookahead_ lx' = [] /\ lex_fails lx' e0
  | Throw e => e = e0
  | OutOfFuel => True
  end.
Proof.
  intros Hla [_ Hf]. inversion Hf as [lx1 e H|lx1 t lx' e H Ht Hf']; subst.
  - by rewrite H.
  - rewrite H. split; [done|]. split; [|done].
    by rewrite (nextImpl_lookahead _ _ _ H).
Qed.

Lemma doomed_Lexer_next lx :
  doomed e0 lx ->
  match Lexer_next lx with
  | Ok (t, lx') => is_End t = false /\ doomed e0 lx'
  | Throw e => e = e0
  | OutOfFuel => True
  end.
Proof.
  intros Hd. unfold Lexer_next.
  destruct (lookahead_ lx) as [|t rest] eqn:Hla.
  - pose proof (doomed_nextImpl lx Hla Hd) as H.
    destruct (nextImpl_ lx) as [[t lx']| |]; [|done..].
    destruct H as (Ht & Hla' & Hf). split; [done|]. split; [|done].
    rewrite Hla'. constructor.
  - destruct Hd as [Hall Hf]. rewrite Hla in Hall.
    apply Forall_cons in Hall as [Ht Hrest]. split; [done|]. split; [done|].
    by apply (lex_fails_with_lookahead rest) in Hf.
Qed.

Lemma faithful_Lexer_next : faithful Lexer_next.
Proof.
  intros lx Hd. pose proof (doomed_Lexer_next lx Hd) as H. unfold doomed_outcome.
  destruct (Lexer_next lx) as [[t lx']| |]; [|by left|done].
  by destruct H.
Qed.

Lemma doomed_push t lx :
  is_End t = false -> Forall (fun t => is_End t = false) (lookahead_ lx) ->
  lex_fails lx e0 -> doomed e0 (push_lookahead t lx).
Proof.
  intros Ht Hall Hf. split.
  - cbn. apply Forall_app. split; [done|]. by constructor.
  - by apply (lex_fails_with_lookahead (lookahead_ lx ++ [t])) in Hf.
Qed.

Lemma faithful_fill_lookahead n lx :
  doomed e0 lx ->
  match fill_lookahead n lx with
  | Ok lx' => doomed e0 lx'
  | Throw e => e = e0
  | OutOfFuel => True
  end.
Proof.
  revert lx. induction n as [|n IH]; intros lx Hd; cbn [fill_lookahead]; [done|].
  destruct Hd as [Hall Hf].
  inversion Hf as [lx1 e H|lx1 t lx' e H Ht Hf']; subst; rewrite H; [done|].
  apply IH. apply doomed_push; [done| |done].
  by rewrite (nextImpl_lookahead _ _ _ H).
Qed.

Lemma faithful_Lexer_peek k : faithful (Lexer_peek k).
Proof.
  intros lx Hd. unfold Lexer_peek, doomed_outcome.
  pose proof (faithful_fill_lookahead (S k - length (lookahead_ lx)) lx Hd) as H.
  destruct (fill_lookahead _ lx) as [lx'| |]; [by split|by left|done].
Qed.

(** On a doomed lexer the end of input is never seen. *)
Lemma refuses_expect_End msg : refuses (expect_ filename_ TokKind.End msg).
Proof.
  intros lx Hd. unfold expect_, bind, doomed_outcome.
  pose proof (doomed_Lexer_next lx Hd) as H.
  destruct (Lexer_next lx) as [[t lx']| |]; [|by left|done].
  destruct H as [Ht _]. unfold is_End in Ht. rewrite Ht. cbn [negb].
  by right.
Qed.

Lemma unquote_loop_file n s t i out e :
  unquote_loop n s t filename_ i out = Throw e -> err_file e = filename_.
Proof.
  revert i out. induction n as [|n IH]; intros i out; cbn [unquote_loop]; [done|].
  destruct (negb (i + 1 <? String.length s)%nat); [done|].
  destruct (negb (char_eqb (string_at s i) BACKSLASH)); [apply IH|].
  destruct (String.length s - 1 <=? i + 1)%nat; [by intros [= <-]|]. apply IH.
Qed.

Lemma unquote_file s t e : unquote_ s t filename_ = Throw e -> err_file e = filename_.
Proof.
  unfold unquote_. destruct (_ || _); [by intros [= <-]|]. apply unquote_loop_file.
Qed.

Lemma parseDouble_file {double} strtod isfinite sv t e :
  parseDouble_ double strtod isfinite sv t filename_ = Throw e ->
  err_file e = filename_.
Proof.
  unfold parseDouble_. destruct (strtod sv) as [v consumed].
  destruct (_ || _); [by intros [= <-]|done].
Qed.

End Doomed.

Create HintDb faithful discriminated.

#[local] Hint Resolve faithful_ret faithful_errorAt refuses_errorAt
  faithful_Lexer_next faithful_Lexer_peek refuses_expect_End : faithful.
#[local] Hint Extern 1 (faithful _ _ (lift (unquote_ _ _ _))) =>
  apply faithful_lift; intros ?; apply unquote_file : faithful.
#[local] Hint Extern 1 (faithful _ _ (lift (parseDouble_ _ _ _ _ _ _))) =>
  apply faithful_lift; intros ?; apply parseDouble_file : faithful.

Ltac faithful_tac :=
  cbv beta zeta;
  lazymatch goal with
  | |- faithful _ _ (bind _ _) =>
      apply faithful_bind; [faithful_tac | intros ?; faithful_tac]
  | |- faithful _ _ (if ?b then _ else _) => destruct b; faithful_tac
  | |- faithful _ _ (match ?x with _ => _ end) => destruct x; faithful_tac
  | |- faithful _ _ (while_ _ _ _) =>
      apply faithful_while_; [faithful_tac | intros ?; faithful_tac]
  | |- faithful _ _ (loop _ _) =>
      apply faithful_loop; intros ?; faithful_tac
  | |- _ => solve [eauto 4 with faithful]
  end.

Section DoomedGrammar.
Context (double : Type) (strtod : string -> double * nat)
  (isfinite : double -> bool) (SIZE_MAX : N)
  (e0 : DescriptionError) (filename_ : string).

Local Abbreviation faithful := (faithful e0 filename_).

Lemma faithful_expect_ k msg : faithful (expect_ filename_ k msg).
Proof. unfold expect_. faithful_tac. Qed.

Lemma faithful_match_ k : faithful (match_ k).
Proof. unfold match_. faithful_tac. Qed.

Lemma faithful_isKeyword_ kw : faithful (isKeyword_ kw).
Proof. unfold isKeyword_. faithful_tac. Qed.

Lemma faithful_expectKeyword_ kw : faithful (expectKeyword_ filename_ kw).
Proof. unfold expectKeyword_. faithful_tac. Qed.

Lemma faithful_peek_kind_is k : faithful (peek_kind_is k).
Proof. unfold peek_kind_is. faithful_tac. Qed.

Lemma faithful_at_keyword_property : faithful at_keyword_property.
Proof. unfold at_keyword_property. faithful_tac. Qed.

#[local] Hint Resolve faithful_expect_ faithful_match_ faithful_isKeyword_
  faithful_expectKeyword_ faithful_peek_kind_is faithful_at_keyword_property
  : faithful.

Lemma faithful_parseValue_ :
  faithful (parseValue_ double strtod isfinite filename_).
Proof. unfold parseValue_. faithful_tac. Qed.
#[local] Hint Resolve faithful_parseValue_ : faithful.

Lemma faithful_parseKeywordPropertyInto_ props :
  faithful (parseKeywordPropertyInto_ double strtod isfinite filename_ props).
Proof. unfold parseKeywordPropertyInto_. faithful_tac. Qed.
#[local] Hint Resolve faithful_parseKeywordPropertyInto_ : faithful.

Lemma faithful_keyword_property_tail props :
  faithful (keyword_property_tail double strtod isfinite filename_ props).
Proof. unfold keyword_property_tail. faithful_tac. Qed.
#[local] Hint Resolve faithful_keyword_property_tail : faithful.

Lemma faithful_parseProperties_ :
  faithful (parseProperties_ double strtod isfinite filename_).
Proof. unfold parseProperties_. faithful_tac. Qed.
#[local] Hint Resolve faithful_parseProperties_ : faithful.

Lemma faithful_parseOptionalArray_ :
  faithful (parseOptionalArray_ SIZE_MAX filename_).
Proof. unfold parseOptionalArray_. faithful_tac. Qed.
#[local] Hint Resolve faithful_parseOptionalArray_ : faithful.

Lemma faithful_parseField_ :
  faithful (parseField_ double strtod isfinite SIZE_MAX filename_).
Proof. unfold parseField_. faithful_tac. Qed.
#[local] Hint Resolve faithful_parseField_ : faithful.

Lemma faithful_parseFieldList_ :
  faithful (parseFieldList_ double strtod isfinite SIZE_MAX filename_).
Proof. unfold parseFieldList_. faithful_tac. Qed.
#[local] Hint Resolve faithful_parseFieldList_ : faithful.

Lemma faithful_parseEnumerate_ : faithful (parseEnumerate_ filename_).
Proof. unfold parseEnumerate_. faithful_tac. Qed.

Lemma faithful_parseInclude_ :
  faithful (parseInclude_ double strtod isfinite filename_).
Proof. unfold parseInclude_. faithful_tac. Qed.

Lemma faithful_parseImport_ : faithful (parseImport_ filename_).
Proof. unfold parseImport_. faithful_tac. Qed.

Lemma faithful_parseExternalLanguage_ :
  faithful (parseExternalLanguage_ filename_).
Proof. unfold parseExternalLanguage_. faithful_tac. Qed.
#[local] Hint Resolve faithful_parseExternalLanguage_ : faithful.

Lemma faithful_parseExternalLanguageList_ :
  faithful (parseExternalLanguageList_ filename_).
Proof. unfold parseExternalLanguageList_. faithful_tac. Qed.
#[local] Hint Resolve faithful_parseExternalLanguageList_ : faithful.

Lemma faithful_parseExternal_ : faithful (parseExternal_ filename_).
Proof. unfold parseExternal_. faithful_tac. Qed.

Lemma faithful_parseStructure_ :
  faithful (parseStructure_ double strtod isfinite SIZE_MAX filename_).
Proof. unfold parseStructure_. faithful_tac. Qed.

Lemma faithful_parseMessage_ :
  faithful (parseMessage_ double strtod isfinite SIZE_MAX filename_).
Proof. unfold parseMessage_. faithful_tac. Qed.

Lemma faithful_parseNamespace_ : faithful (parseNamespace_ filename_).
Proof. unfold parseNamespace_. faithful_tac. Qed.

#[local] Hint Resolve faithful_parseEnumerate_ faithful_parseInclude_
  faithful_parseImport_ faithful_parseExternal_ faithful_parseStructure_
  faithful_parseMessage_ faithful_parseNamespace_ : faithful.

Lemma faithful_parseDecl_ :
  faithful (parseDecl_ double strtod isfinite SIZE_MAX filename_).
Proof. unfold parseDecl_. faithful_tac. Qed.
#[local] Hint Resolve faithful_parseDecl_ : faithful.

Lemma refuses_parseDescription :
  refuses e0 filename_ (parseDescription double strtod isfinite SIZE_MAX filename_).
Proof.
  unfold parseDescription.
  apply refuses_bind_r; [faithful_tac|]. intros k.
  apply refuses_bind_r; [faithful_tac|]. intros ns.
  apply refuses_bind_r; [faithful_tac|]. intros ds.
  apply refuses_bind_l, refuses_expect_End.
Qed.

End DoomedGrammar.

(** When the lexer, scanning the text token after token, throws [e0] before
    the end, [parse] returns no description: it throws, either [e0] itself or
    an error of the parser, raised at an earlier token, which names the file
    passed to [parse]. *)
Theorem parse_of_unlexable_text (double : Type) (strtod : string -> double * nat)
    (isfinite : double -> bool) (SIZE_MAX : N) (text filename : string)
    (e0 : DescriptionError) :
  lex_fails (Lexer_new text) e0 ->
  exists e, parse double strtod isfinite SIZE_MAX text filename = Throw e
            /\ (e = e0 \/ err_file e = filename).
Proof.
  intros Hf.
  assert (doomed e0 (Lexer_new text)) as Hd by (split; [constructor|done]).
  pose proof (refuses_parseDescription double strtod isfinite SIZE_MAX e0 filename
                (Lexer_new text) Hd) as H.
  destruct (parse_total double strtod isfinite SIZE_MAX text filename)
    as [[d Hp]|[e Hp]]; unfold parse in *; unfold doomed_outcome in H;
    destruct (parseDescription _ _ _ _ _ _) as [[d' lx]|e'|]; try done.
  - by destruct H.
  - injection Hp as ->. by exists e.
Qed.

(** ** Unterminated string literals *)

Lemma lexString_loop_unterminated n escaped sp lx :
  (remaining lx < n)%nat -> unterminated escaped (input_ lx) = true ->
  lexString_loop n escaped sp lx
  = Throw (unterminated_error (span_line sp) (span_col sp)).
Proof.
  revert escaped lx. induction n as [|n IH]; intros escaped lx Hn Hu; [lia|].
  cbn [lexString_loop]. cbv zeta. unfold ch_.
  destruct (input_ lx) as [|c r] eqn:Hin; [done|].
  cbn [unterminated] in Hu.
  destruct (char_eqb c NUL || char_eqb c LF) eqn:Hc; [done|].
  assert (input_ (advance_ lx) = r) as Hadv.
  { unfold advance_. rewrite Hin. by destruct (char_eqb c LF). }
  assert (remaining (advance_ lx) < n)%nat as Hrem.
  { rewrite remaining_advance. unfold remaining in *. rewrite Hin in *.
    cbn [String.length] in *. lia. }
  destruct escaped.
  { apply IH; [done|]. by rewrite Hadv. }
  destruct (char_eqb c BACKSLASH).
  { apply IH; [done|]. by rewrite Hadv. }
  destruct (char_eqb c DQUOTE); [done|].
  apply IH; [done|]. by rewrite Hadv.
Qed.

(** A literal that is not closed before a raw newline or the end of the
    text makes [lexString_] throw. *)
Lemma lexString_unterminated lx q rest :
  input_ lx = String.String q rest -> unterminated false rest = true ->
  lexString_ lx = Throw (unterminated_error (line_ lx) (col_ lx)).
Proof.
  intros Hin Hu. unfold lexString_. cbv zeta.
  assert (input_ (advance_ lx) = rest) as Hadv.
  { unfold advance_. rewrite Hin. by destruct (char_eqb q LF). }
  rewrite (lexString_loop_unterminated _ false (span_here lx) (advance_ lx));
    [done|unfold remaining; lia|by rewrite Hadv].
Qed.

(** Every error of the lexer names the file ["<input>"]. *)
Lemma lexNumber_Throw_file lx e : lexNumber_ lx = Throw e -> err_file e = "<input>".
Proof.
  unfold lexNumber_. cbv zeta.
  repeat match goal with
         | |- context [if ?b then _ else _] => destruct b
         end; try done; by intros [= <-].
Qed.

Lemma nextImpl_Throw_file lx e : nextImpl_ lx = Throw e -> err_file e = "<input>".
Proof.
  unfold nextImpl_. cbv zeta.
  destruct (char_eqb _ NUL); [done|].
  destruct (char_eqb _ DQUOTE).
  { intros H. by rewrite (lexString_Throw _ _ H). }
  destruct (_ || _); [apply lexNumber_Throw_file|].
  destruct (isIdentChar_ _); [done|].
  destruct (symbol_kind _); [done|]. by intros [= <-].
Qed.

Lemma lex_fails_file lx e : lex_fails lx e -> err_file e = "<input>".
Proof.
  intros H. induction H as [lx e H|lx t lx' e H Ht _ IH]; [|done].
  by apply nextImpl_Throw_file in H.
Qed.

(** C7.  A text in which the lexer runs into a string literal that is not
    closed before a raw newline or the end of the text is never parsed into a
    description: [parse] throws.  The error of the lexer carries the line
    and column of the opening quote, but as file name it carries the fixed
    ["<input>"], not the file name passed to [parse]; only an error the
    parser raises itself, at an earlier token, names that file.  The first
    two texts below end in an unterminated literal and in a literal with a
    raw newline; the third is an error of the parser's own. *)
Theorem unterminated_string_error_names_placeholder_file (double : Type)
    (strtod : string -> double * nat) (isfinite : double -> bool) (SIZE_MAX : N)
    (text filename : string) (e0 : DescriptionError) :
  lex_fails (Lexer_new text) e0 ->
  (exists e, parse double strtod isfinite SIZE_MAX text filename = Throw e
             /\ (e = e0 \/ err_file e = filename))
  /\ err_file e0 = "<input>"
  /\ (forall lx q rest,
        input_ lx = String.String q rest -> unterminated false rest = true ->
        lexString_ lx = Throw (unterminated_error (line_ lx) (col_ lx)))
  /\ (forall lx e,
        lexString_ lx = Throw e -> e = unterminated_error (line_ lx) (col_ lx))
  /\ parse double strtod isfinite SIZE_MAX
       ("import " +:+ String.String DQUOTE "abc") filename
     = Throw (unterminated_error 1 8)
  /\ parse double strtod isfinite SIZE_MAX
       ("import " +:+ String.String DQUOTE "ab" +:+ NL +:+ "c" +:+ quoted ";") filename
     = Throw (unterminated_error 1 8)
  /\ parse double strtod isfinite SIZE_MAX ("import" +:+ NL +:+ "  3;") filename
     = Throw (mkDescriptionError filename 2 3 "Expected quoted filename after 'import'").
Proof.
  intros Hf.
  split; [by apply parse_of_unlexable_text|].
  split; [by apply lex_fails_file in Hf|].
  split; [apply lexString_unterminated|].
  split; [apply lexString_Throw|].
  repeat split; reflexivity.
Qed.

Lemma unterminated_string_error_names_placeholder_file_witness :
  exists e, example_parse ("import " +:+ String.String DQUOTE "abc") "f.msg" = Throw e
            /\ (e = unterminated_error 1 8 \/ err_file e = "f.msg").
Proof.
  refine (proj1 (unterminated_string_error_names_placeholder_file Z example_strtod
            example_isfinite example_SIZE_MAX
            ("import " +:+ String.String DQUOTE "abc") "f.msg"
            (unterminated_error 1 8) _)).
  eapply lex_fails_later; [vm_compute; reflexivity|reflexivity|].
  apply lex_fails_here. vm_compute. reflexivity.
Defined.

(** ** Output file names *)

(** [find_last_of] splits a string at the last character of the set. *)
Lemma find_last_of_from_split (set : ascii -> bool) (s : string) (i : nat)
    (found : option nat) :
  (find_last_of_from set s i found = found
   /\ Forall (fun c => set c = false) (list_ascii_of_string s))
  \/ (exists pre c post,
        s = pre +:+ String.String c post /\ set c = true
        /\ Forall (fun c => set c = false) (list_ascii_of_string post)
        /\ find_last_of_from set s i found = Some (i + String.length pre)%nat).
Proof.
  revert i found. induction s as [|c s IH]; intros i found; simpl.
  - left. split; [done|constructor].
  - destruct (IH (S i) (if set c then Some i else found))
      as [[Heq Hall]|(pre & c' & post & -> & Hc & Hpost & Heq)].
    + destruct (set c) eqn:Hset.
      * right. exists EmptyString, c, s. simpl.
        repeat split; try done. rewrite Heq. f_equal. lia.
      * left. split; [done|]. by constructor.
    + right. exists (String.String c pre), c', post.
      rewrite string_app_cons. repeat split; try done.
      rewrite Heq. simpl. f_equal. lia.
Qed.

Lemma substring_skip (pre s : string) (n : nat) :
  String.substring (String.length pre) n (pre +:+ s) = String.substring 0 n s.
Proof.
  induction pre as [|x pre IH]; [done|].
  rewrite string_app_cons. cbn [String.length String.substring]. exact IH.
Qed.

Lemma substring_all (s : string) : String.substring 0 (String.length s) s = s.
Proof. induction s as [|c s IH]; simpl; [done|]. by rewrite IH. Qed.

Lemma substring_app_r (pre : string) (c : ascii) (post : string) :
  String.substring (String.length pre + 1)
    (String.length (pre +:+ String.String c post) - (String.length pre + 1))
    (pre +:+ String.String c post) = post.
Proof.
  rewrite string_length_app. cbn [String.length].
  replace (String.length pre + S (String.length post) - (String.length pre + 1))%nat
    with (String.length post) by lia.
  replace (pre +:+ String.String c post)
    with ((pre +:+ String.String c EmptyString) +:+ post)
    by (by rewrite string_app_assoc).
  replace (String.length pre + 1)%nat
    with (String.length (pre +:+ String.String c EmptyString))
    by (by rewrite string_length_app).
  by rewrite substring_skip, substring_all.
Qed.

Lemma substring_prefix (pre : string) (rest : string) :
  String.substring 0 (String.length pre) (pre +:+ rest) = pre.
Proof.
  induction pre as [|x pre IH].
  - simpl. by destruct rest.
  - rewrite string_app_cons. simpl. by rewrite IH.
Qed.

Lemma no_path_separator_app a b :
  no_path_separator (a +:+ b) <-> no_path_separator a /\ no_path_separator b.
Proof. unfold no_path_separator. by rewrite list_ascii_app, Forall_app. Qed.

(** The name [output_filename] derives never has a directory part. *)
Lemma output_filename_no_directory (input_filename : string) (lang : OutputLanguage) :
  no_path_separator (output_filename input_filename lang).
Proof.
  unfold output_filename.
  set (base := match find_last_of is_path_separator input_filename with
               | Some pos => _
               | None => input_filename
               end).
  assert (no_path_separator base) as Hbase.
  { unfold base, find_last_of.
    destruct (find_last_of_from_split is_path_separator input_filename 0 None)
      as [[-> Hall]|(pre & c & post & -> & Hc & Hpost & ->)]; [done|].
    cbn [Nat.add]. by rewrite substring_app_r. }
  assert (no_path_separator
            match find_last_of (fun c => char_eqb c "."%char) base with
            | Some pos => String.substring 0 pos base
            | None => base
            end) as Hstem.
  { unfold find_last_of.
    destruct (find_last_of_from_split (fun c => char_eqb c "."%char) base 0 None)
      as [[-> Hall]|(pre & c & post & Heq & Hc & Hpost & ->)]; [done|].
    cbn [Nat.add]. rewrite Heq, substring_prefix.
    rewrite Heq in Hbase. by apply no_path_separator_app in Hbase as [? _]. }
  destruct lang; apply no_path_separator_app; (split; [done|]);
    repeat constructor.
Qed.

(** ** The driver *)

Section DriverFacts.
Context (double : Type) (strtod : string -> double * nat)
  (isfinite : double -> bool) (SIZE_MAX : N)
  (ostream_double : double -> string) (char_is_signed : bool).

Local Abbreviation parse_text := (parse double strtod isfinite SIZE_MAX).
Local Abbreviation run_main :=
  (main double strtod isfinite SIZE_MAX ostream_double char_is_signed).
Local Abbreviation run_files :=
  (process_files double strtod isfinite SIZE_MAX ostream_double char_is_signed).
Local Abbreviation gen_code :=
  (generate_code double ostream_double char_is_signed).
Local Abbreviation gen_text :=
  (generated_text double ostream_double char_is_signed).
Local Abbreviation inputs_parse :=
  (all_inputs_parse double strtod isfinite SIZE_MAX ostream_double char_is_signed).

Lemma output_filename_not_empty f lang :
  string_is_empty (output_filename f lang) = false.
Proof.
  unfold output_filename.
  destruct lang;
    match goal with |- string_is_empty (?b +:+ _) = false => by destruct b end.
Qed.

Lemma generate_code_stdout d lang w :
  gen_code d EmptyString lang w = cout (gen_text lang d EmptyString) w.
Proof. unfold generate_code. by destruct lang. Qed.


Lemma process_files_app pre post lang w w1 :
  run_files pre lang w = (0, w1) ->
  run_files (pre ++ post) lang w = run_files post lang w1.
Proof.
  revert w. induction pre as [|f pre IH]; intros w; simpl.
  - by intros [= <-].
  - destruct (read_file w f); [|done].
    destruct (parse_text _ f); [|done..]. apply IH.
Qed.

Lemma process_files_all_parse files lang w :
  fst (run_files files lang w) = 0 <-> inputs_parse files lang w.
Proof.
  revert w. induction files as [|f files IH]; intros w; cbn [process_files all_inputs_parse].
  - done.
  - destruct (read_file w f) as [text|]; [|split; [done|by intros (? & ? & ? & _)]].
    destruct (parse_text text f) as [d|e|] eqn:Hp.
    + rewrite IH. split.
      * intros H. by exists text, d.
      * intros (text' & d' & [= <-] & Hp' & H). rewrite Hp in Hp'. by injection Hp' as <-.
    + split; [done|]. intros (text' & d' & [= <-] & Hp' & _). by rewrite Hp in Hp'.
    + split; [done|]. intros (text' & d' & [= <-] & Hp' & _). by rewrite Hp in Hp'.
Qed.

Lemma process_files_code files lang w :
  fst (run_files files lang w) = 0 \/ fst (run_files files lang w) = 1.
Proof.
  revert w. induction files as [|f files IH]; intros w; cbn [process_files].
  - by left.
  - destruct (read_file w f) as [text|]; [|by right].
    destruct (parse_text text f); [apply IH|by right..].
Qed.

(** C9.  When the parse of an input throws, [main] returns 1 and leaves
    the world as it was when that input's turn came, but for the error
    message on standard error: nothing is generated for that input.  When
    every input parses, [main] returns 0, and only then.  The inputs are
    standard input when at most one file is named, the named files
    otherwise. *)
Theorem main_exit_code (args : list string) (w : World)
    (lang : OutputLanguage) (input_files : list string) :
  parse_args args CPP [] = inl (lang, input_files) ->
  ((length input_files <= 1)%nat ->
     (forall e, parse_text (stdin w) "input" = Throw e ->
        run_main args w = (1, cerr (what e +:+ NL) (snd (read_stdin w))))
     /\ (fst (run_main args w) = 0 <-> exists d, parse_text (stdin w) "input" = Ok d)
     /\ (fst (run_main args w) = 1 <-> exists e, parse_text (stdin w) "input" = Throw e))
  /\ ((1 < length input_files)%nat ->
        (forall pre f post w1 text e,
           input_files = pre ++ f :: post ->
           run_files pre lang w = (0, w1) ->
           read_file w1 f = Some text -> parse_text text f = Throw e ->
           run_main args w = (1, cerr (what e +:+ NL) w1))
        /\ (fst (run_main args w) = 0 <-> inputs_parse input_files lang w))
  /\ (fst (run_main args w) = 0 \/ fst (run_main args w) = 1).
Proof.
  intros Hargs. unfold main. rewrite Hargs.
  destruct (parse_total double strtod isfinite SIZE_MAX (stdin w) "input")
    as [[d Hd]|[e He]].
  - split; [|split].
    + intros Hlen. assert ((1 <? length input_files)%nat = false) as ->
        by (apply Nat.ltb_ge; lia).
      cbn -[generate_code parse]. rewrite Hd. cbn [fst].
      split; [done|]. split; split; try done.
      * intros _. by exists d.
      * by intros [e He].
    + intros Hlen. apply Nat.ltb_lt in Hlen. rewrite Hlen. split.
      * intros pre f post w1 text e -> Hpre Hr He.
        rewrite (process_files_app _ _ _ _ _ Hpre). cbn [process_files].
        by rewrite Hr, He.
      * apply process_files_all_parse.
    + destruct (1 <? length input_files)%nat; [apply process_files_code|].
      cbn -[generate_code parse]. rewrite Hd. by left.
  - split; [|split].
    + intros Hlen. assert ((1 <? length input_files)%nat = false) as ->
        by (apply Nat.ltb_ge; lia).
      cbn -[generate_code parse]. rewrite He. cbn [fst].
      split; [by intros e' [= <-]|]. split; split; try done.
      * by intros [d Hd].
      * intros _. by exists e.
    + intros Hlen. apply Nat.ltb_lt in Hlen. rewrite Hlen. split.
      * intros pre f post w1 text e' -> Hpre Hr He'.
        rewrite (process_files_app _ _ _ _ _ Hpre). cbn [process_files].
        by rewrite Hr, He'.
      * apply process_files_all_parse.
    + destruct (1 <? length input_files)%nat; [apply process_files_code|].
      cbn -[generate_code parse]. rewrite He. by right.
Qed.
End DriverFacts.


Lemma main_exit_code_witness :
  fst (example_main ["d/a.msg"; "d/b.msg"] example_world) = 0.
Proof.
  refine (proj2 (proj2 (proj1 (proj2 (main_exit_code Z example_strtod example_isfinite
            example_SIZE_MAX example_ostream_double false
            ["d/a.msg"; "d/b.msg"] example_world CPP ["d/a.msg"; "d/b.msg"] _)) _)) _).
  - reflexivity.
  - simpl. lia.
  - simpl. eexists _, _. split; [reflexivity|]. split; [vm_compute; reflexivity|].
    eexists _, _. split; [reflexivity|]. split; [vm_compute; reflexivity|]. exact I.
Defined.

(** * The registry the generators build *)

Lemma map_sorted_nil {V} : map_sorted (@nil (string * V)).
Proof. constructor. Qed.

Lemma map_find_Some_elem {V} (k : string) (m : std_map V) (v : V) :
  map_find k m = Some v -> (k, v) ∈ m.
Proof.
  induction m as [|[k' v'] m IH]; simpl; [done|].
  destruct (String.eqb k k') eqn:E.
  - apply string_eqb_eq in E as ->. intros [= ->]. left.
  - intros H. right. by apply IH.
Qed.


Section RegistryMore.
Context {double : Type} (env : bool).
Implicit Types (r : TypeRegistry double) (d : Decl double)
  (ds : list (Decl double)) (D : Description double).

Local Abbreviation register := (register_decl double env).
Local Abbreviation builtins := (registerBuiltinTypes_ double env).
Local Abbreviation build := (buildRegistry_ double env).

(** ** What one registration changes *)

Lemma getType_registerType r meta name :
  getType (registerType double meta r) name =
  if String.eqb name (tm_name meta) then Some meta else getType r name.
Proof. unfold getType, registerType. cbn [types_]. apply map_find_assign. Qed.

Lemma types_registerEnum r name values :
  exists meta, tm_name meta = name /\ is_builtin meta = false
               /\ registerEnum double env name values r
                  = registerType double meta
                      (mkTypeRegistry (types_ r) (map_assign name values (enums_ r))
                         (structs_ r) (messages_ r)).
Proof. eexists. split; [|split]; [| |reflexivity]; reflexivity. Qed.

Lemma name_external_fold (ls : list ExternalLanguage) meta :
  let res := fold_left
    (fun meta lang =>
       let c := tm_containers meta in
       let target :=
         if is_cpp_language (language lang) then Some "cpp"
         else if is_python_language (language lang) then Some "python"
         else None in
       match target with
       | Some key =>
           mkTypeMetadata (tm_name meta) (tm_hash meta)
             (mkContainerMapping
                (map_assign key (container lang) (containers c))
                (assign_opt key (deflt lang) (defaults c))
                (assign_opt key (read lang) (readers c))
                (assign_opt key (write lang) (writers c)))
             (tm_sources meta ++ sources lang) (is_builtin meta) (is_external meta)
       | None => meta
       end) ls meta in
  tm_name res = tm_name meta /\ tm_hash res = tm_hash meta
  /\ is_builtin res = is_builtin meta /\ is_external res = is_external meta.
Proof.
  revert meta. induction ls as [|l ls IH]; intros meta; [done|].
  cbn [fold_left]. cbv zeta in *.
  match goal with |- context [fold_left ?f ls ?m] => destruct (IH m) as (H1 & H2 & H3 & H4) end.
  rewrite H1, H2, H3, H4.
  destruct (is_cpp_language _); [done|]. by destruct (is_python_language _).
Qed.

Lemma external_metadata_name (x : External) :
  tm_name (external_metadata x) = ext_name x
  /\ tm_hash (external_metadata x) = EmptyString
  /\ is_builtin (external_metadata x) = false
  /\ is_external (external_metadata x) = false.
Proof. unfold external_metadata. apply name_external_fold. Qed.

(** The entry a declaration leaves under its own name, written as one
    registration. *)
Lemma register_decl_entry r d name :
  declared_name d = Some name ->
  exists meta r',
    tm_name meta = name /\ is_builtin meta = false
    /\ register r d = registerType double meta r'
    /\ types_ r' = types_ r
    /\ forall r0, exists r0', register r0 d = registerType double meta r0'.
Proof.
  destruct d as [e|i|i|x|s|m]; cbn [declared_name]; intros [= <-].
  - eexists _, _. split; [|split; [|split; [|split]]]; [| |reflexivity| |];
      [reflexivity|reflexivity|reflexivity|]. intros r0. eexists. reflexivity.
  - destruct (external_metadata_name x) as (Hn & _ & Hb & _).
    exists (external_metadata x), r. split; [done|]. split; [done|].
    split; [reflexivity|]. split; [done|]. intros r0. by exists r0.
  - eexists _, _. split; [|split; [|split; [|split]]]; [| |reflexivity| |];
      [reflexivity|reflexivity|reflexivity|]. intros r0. eexists. reflexivity.
  - eexists _, _. split; [|split; [|split; [|split]]]; [| |reflexivity| |];
      [reflexivity|reflexivity|reflexivity|]. intros r0. eexists. reflexivity.
Qed.

Lemma getType_register_same r d name :
  declared_name d = Some name ->
  exists meta, getType (register r d) name = Some meta
               /\ tm_name meta = name /\ is_builtin meta = false
               /\ forall r0, getType (register r0 d) name = Some meta.
Proof.
  intros Hd. destruct (register_decl_entry r d name Hd)
    as (meta & r' & Hn & Hb & Hr & _ & Hall).
  exists meta. rewrite Hr, getType_registerType, Hn, String.eqb_refl.
  split; [done|]. split; [done|]. split; [done|].
  intros r0. destruct (Hall r0) as [r0' ->].
  by rewrite getType_registerType, Hn, String.eqb_refl.
Qed.

Lemma getType_register_other r d name :
  declared_name d <> Some name -> getType (register r d) name = getType r name.
Proof.
  intros Hd. destruct (declared_name d) as [n|] eqn:Hdn.
  - destruct (register_decl_entry r d n Hdn) as (meta & r' & Hn & _ & Hr & Ht & _).
    rewrite Hr, getType_registerType, Hn.
    destruct (String.eqb name n) eqn:E.
    + apply string_eqb_eq in E. congruence.
    + unfold getType. by rewrite Ht.
  - by destruct d.
Qed.

Lemma getType_fold_other ds r name :
  name ∉ declared_names ds ->
  getType (fold_left register ds r) name = getType r name.
Proof.
  revert r. induction ds as [|d ds IH]; intros r Hn; [done|].
  cbn [fold_left]. unfold declared_names in *. cbn [omap list_omap] in Hn.
  destruct (declared_name d) as [n|] eqn:Hd.
  - apply not_elem_of_cons in Hn as [Hne Hn].
    rewrite IH by done. apply getType_register_other. congruence.
  - rewrite IH by done. apply getType_register_other. congruence.
Qed.

(** ** The built-in types *)

Lemma getType_builtins r name :
  getType (builtins r) name =
  match getType (builtins (TypeRegistry_empty double)) name with
  | Some m => Some m
  | None => getType r name
  end.
Proof.
  unfold registerBuiltinTypes_. cbv zeta.
  rewrite !getType_registerType.
  repeat match goal with
         | |- context [String.eqb name ?k] => destruct (String.eqb name k); [reflexivity|]
         end.
  reflexivity.
Qed.

Lemma getType_builtins_twice name :
  getType (builtins (TypeRegistry_new double env)) name
  = getType (TypeRegistry_new double env) name.
Proof.
  rewrite getType_builtins. unfold TypeRegistry_new.
  by destruct (getType (builtins (TypeRegistry_empty double)) name).
Qed.
End RegistryMore.

Section RegistryOrder.
Context {double : Type} (env : bool).
Implicit Types (r : TypeRegistry double) (d : Decl double)
  (ds : list (Decl double)) (D : Description double).

Local Abbreviation register := (register_decl double env).
Local Abbreviation builtins := (registerBuiltinTypes_ double env).
Local Abbreviation build := (buildRegistry_ double env).

(** ** Messages *)

Lemma messages_register r d :
  messages_ (register r d) = messages_ r ++ message_names [d].
Proof.
  destruct d; cbn [register_decl message_names omap list_omap];
    try (symmetry; apply app_nil_r); reflexivity.
Qed.

Lemma message_names_cons d ds :
  message_names (d :: ds) = message_names [d] ++ message_names ds.
Proof. unfold message_names. cbn [omap list_omap]. by destruct d. Qed.

Lemma messages_fold ds r :
  messages_ (fold_left register ds r) = messages_ r ++ message_names ds.
Proof.
  revert r. induction ds as [|d ds IH]; intros r.
  - symmetry. apply app_nil_r.
  - cbn [fold_left]. rewrite IH, messages_register, (message_names_cons d ds).
    by rewrite app_assoc.
Qed.

Lemma isMessage_elem r name : isMessage r name = true <-> name ∈ messages_ r.
Proof.
  unfold isMessage. rewrite existsb_exists. split.
  - intros (x & Hin & Heq). apply string_eqb_eq in Heq as ->.
    by apply list_elem_of_In.
  - intros Hin. exists name. split; [by apply list_elem_of_In|apply String.eqb_refl].
Qed.

(** X1.  The registry lists the messages in the order of their
    declarations, one entry for each [message] declaration: a name
    declared twice is listed twice, and a [structure] is never listed.
    [isMessage] answers by this list.  The generators emit the publisher,
    subscriber and pack/unpack code by iterating over it. *)
Theorem messages_in_declaration_order D :
  messages_ (build D) = message_names (decls D)
  /\ forall name, isMessage (build D) name = true <-> name ∈ message_names (decls D).
Proof.
  assert (messages_ (build D) = message_names (decls D)) as Hm.
  { unfold buildRegistry_. by rewrite messages_fold. }
  split; [done|]. intros name. by rewrite isMessage_elem, Hm.
Qed.

(** ** Names that are not declared, names that are declared again *)

Lemma getStruct_register r d name :
  getStruct (register r d) name =
  match d with
  | DStructure s =>
      if String.eqb name (struct_name s) then Some (field_map (fields (struct_fields s)))
      else getStruct r name
  | DMessage m =>
      if String.eqb name (msg_name m) then Some (field_map (fields (msg_fields m)))
      else getStruct r name
  | _ => getStruct r name
  end.
Proof.
  destruct d; try reflexivity; unfold getStruct;
    cbn [register_decl registerMessage registerStruct registerType structs_];
    apply map_find_assign.
Qed.

Lemma getEnum_register r d name :
  getEnum (register r d) name =
  match d with
  | DEnumerate e =>
      if String.eqb name (enum_name e) then Some (enum_value_map (enum_values e))
      else getEnum r name
  | _ => getEnum r name
  end.
Proof.
  destruct d; try reflexivity; unfold getEnum;
    cbn [register_decl registerEnum registerType enums_];
    apply map_find_assign.
Qed.

Lemma getStruct_fold_other ds r name :
  name ∉ declared_names ds ->
  getStruct (fold_left register ds r) name = getStruct r name.
Proof.
  revert r. induction ds as [|d ds IH]; intros r Hn; [done|].
  cbn [fold_left]. unfold declared_names in *. cbn [omap list_omap] in Hn.
  destruct d as [e|i|i|x|s|m]; cbn [declared_name] in Hn;
    try apply not_elem_of_cons in Hn as [Hne Hn];
    rewrite IH by done; rewrite getStruct_register; try done.
  - destruct (String.eqb name (struct_name s)) eqn:E; [|done].
    by apply string_eqb_eq in E.
  - destruct (String.eqb name (msg_name m)) eqn:E; [|done].
    by apply string_eqb_eq in E.
Qed.

Lemma getEnum_fold_other ds r name :
  name ∉ declared_names ds ->
  getEnum (fold_left register ds r) name = getEnum r name.
Proof.
  revert r. induction ds as [|d ds IH]; intros r Hn; [done|].
  cbn [fold_left]. unfold declared_names in *. cbn [omap list_omap] in Hn.
  destruct d as [e|i|i|x|s|m]; cbn [declared_name] in Hn;
    try apply not_elem_of_cons in Hn as [Hne Hn];
    rewrite IH by done; rewrite getEnum_register; try done.
  destruct (String.eqb name (enum_name e)) eqn:E; [|done].
  by apply string_eqb_eq in E.
Qed.

(** X2.  A name the description does not declare keeps the entry of a
    fresh registry: a built-in type stays what it is, any other name is
    unknown ([getType], [getStruct] and [getEnum] find nothing, and
    [getHash] falls back on the hash of the name itself). *)
Theorem undeclared_names_untouched D name :
  name ∉ declared_names (decls D) ->
  getType (build D) name = getType (TypeRegistry_new double env) name
  /\ getStruct (build D) name = None
  /\ getEnum (build D) name = None
  /\ getHash double env (build D) name
     = getHash double env (TypeRegistry_new double env) name
  /\ (getType (TypeRegistry_new double env) name = None ->
      getHash double env (build D) name = computeHash env name).
Proof.
  intros Hn.
  assert (getType (build D) name = getType (TypeRegistry_new double env) name) as Ht.
  { unfold buildRegistry_. rewrite getType_fold_other by done.
    apply getType_builtins_twice. }
  split; [done|]. split; [|split; [|split]].
  - unfold buildRegistry_. by rewrite getStruct_fold_other.
  - unfold buildRegistry_. by rewrite getEnum_fold_other.
  - unfold getHash. by rewrite Ht.
  - intros Hnone. unfold getHash. by rewrite Ht, Hnone.
Qed.

(** X3.  When a name is declared more than once, or is the name of a
    built-in type, the last declaration of the name decides its entry:
    the entry is the one that declaration would leave in an empty
    registry, whatever was declared before and after under other names,
    and it is not marked built-in.  No redeclaration is rejected. *)
Theorem last_declaration_wins (nsp : option Namespace) (pre post : list (Decl double))
    d name :
  declared_name d = Some name ->
  name ∉ declared_names post ->
  let D := mkDescription nsp (pre ++ d :: post) in
  getType (build D) name = getType (register (TypeRegistry_empty double) d) name
  /\ getHash double env (build D) name
     = getHash double env (register (TypeRegistry_empty double) d) name
  /\ exists meta, getType (build D) name = Some meta
                  /\ tm_name meta = name /\ is_builtin meta = false.
Proof.
  intros Hd Hpost D.
  destruct (getType_register_same env (TypeRegistry_empty double) d name Hd)
    as (meta & Hm & Hn & Hb & Hall).
  assert (getType (build D) name = Some meta) as Ht.
  { unfold buildRegistry_, D. cbn [decls].
    rewrite fold_left_app. cbn [fold_left].
    rewrite getType_fold_other by done. apply Hall. }
  split; [by rewrite Ht, Hm|]. split.
  - unfold getHash. by rewrite Ht, Hm.
  - by exists meta.
Qed.

End RegistryOrder.

Lemma undeclared_names_untouched_witness :
  getType (buildRegistry_ Z false fixed_array_message) "int32"
  = getType (TypeRegistry_new Z false) "int32"
  /\ getStruct (buildRegistry_ Z false fixed_array_message) "int32" = None.
Proof.
  refine (let H := undeclared_names_untouched false fixed_array_message "int32" _ in
          conj (proj1 H) (proj1 (proj2 H))).
  apply (bool_decide_unpack _). vm_compute. exact I.
Defined.

Lemma last_declaration_wins_witness :
  exists meta,
    getType (buildRegistry_ Z false
               (mkDescription None
                  ([structure_decl "S" [plain_field "int32" "a"]]
                   ++ structure_decl "int32" [plain_field "float" "x"]
                   :: [structure_decl "T" []]))) "int32" = Some meta
    /\ tm_name meta = "int32" /\ is_builtin meta = false.
Proof.
  refine (proj2 (proj2 (last_declaration_wins false None
                          [structure_decl "S" [plain_field "int32" "a"]]
                          [structure_decl "T" []]
                          (structure_decl "int32" [plain_field "float" "x"])
                          "int32" _ _))).
  - reflexivity.
  - apply (bool_decide_unpack _). vm_compute. exact I.
Defined.

(** ** Enumerations *)

Lemma enum_fold_index (vs : list EnumerateValue) (m : std_map Z) (i : Z) :
  snd (fold_left (fun mi val => (map_assign (ev_name val) (snd mi) (fst mi), snd mi + 1))
         vs (m, i)) = i + Z.of_nat (length vs).
Proof.
  revert m i. induction vs as [|v vs IH]; intros m i; cbn [fold_left length].
  - cbn [snd]. lia.
  - rewrite IH. cbn [snd]. lia.
Qed.

Lemma enum_fold_find_other (vs : list EnumerateValue) (m : std_map Z) (i : Z) (k : string) :
  k ∉ ev_name <$> vs ->
  map_find k (fst (fold_left
                     (fun mi val => (map_assign (ev_name val) (snd mi) (fst mi), snd mi + 1))
                     vs (m, i))) = map_find k m.
Proof.
  revert m i. induction vs as [|v vs IH]; intros m i Hk; [done|].
  rewrite fmap_cons in Hk. apply not_elem_of_cons in Hk as [Hne Hk].
  cbn [fold_left fst snd]. rewrite IH by done. rewrite map_find_assign.
  destruct (String.eqb k (ev_name v)) eqn:E; [|done].
  by apply string_eqb_eq in E.
Qed.

Lemma enum_fold_sorted (vs : list EnumerateValue) (m : std_map Z) (i : Z) :
  map_sorted m ->
  map_sorted (fst (fold_left
                     (fun mi val => (map_assign (ev_name val) (snd mi) (fst mi), snd mi + 1))
                     vs (m, i))).
Proof.
  revert m i. induction vs as [|v vs IH]; intros m i Hm; [done|].
  cbn [fold_left fst snd]. apply IH. by apply map_assign_sorted.
Qed.

Lemma enum_fold_keys (vs : list EnumerateValue) (m : std_map Z) (i : Z) (k : string) :
  k ∈ map_keys (fst (fold_left
                       (fun mi val => (map_assign (ev_name val) (snd mi) (fst mi), snd mi + 1))
                       vs (m, i)))
  <-> k ∈ ev_name <$> vs \/ k ∈ map_keys m.
Proof.
  revert m i. induction vs as [|v vs IH]; intros m i.
  - cbn [fold_left fst fmap list_fmap]. rewrite elem_of_nil. tauto.
  - cbn [fold_left fst snd]. rewrite IH, map_keys_assign, fmap_cons, elem_of_cons. tauto.
Qed.

Lemma enum_value_map_sorted vs : map_sorted (enum_value_map vs).
Proof. apply enum_fold_sorted, map_sorted_nil. Qed.

Lemma enum_value_map_keys vs k :
  k ∈ map_keys (enum_value_map vs) <-> k ∈ ev_name <$> vs.
Proof.
  unfold enum_value_map. rewrite enum_fold_keys. cbn [map_keys fmap list_fmap].
  rewrite elem_of_nil. tauto.
Qed.

(** X4.  The values of an enumeration are numbered from 0 in the order
    they are declared: the value at position [i] of the declaration has the
    index [i], provided its name is not declared again further on (of a
    repeated name the last position counts).  A name that is not declared
    has no index. *)
Theorem enum_values_numbered (pre post : list EnumerateValue) (v : EnumerateValue) :
  ev_name v ∉ ev_name <$> post ->
  map_find (ev_name v) (enum_value_map (pre ++ v :: post)) = Some (Z.of_nat (length pre))
  /\ forall k, k ∉ ev_name <$> (pre ++ v :: post) ->
               map_find k (enum_value_map (pre ++ v :: post)) = None.
Proof.
  intros Hpost. split.
  - unfold enum_value_map. rewrite fold_left_app. cbn [fold_left].
    match goal with
    | |- context [fold_left ?f pre ?a] => destruct (fold_left f pre a) as [m1 i1] eqn:Hf
    end.
    assert (i1 = Z.of_nat (length pre)) as ->.
    { change i1 with (snd (m1, i1)). rewrite <- Hf. exact (enum_fold_index pre [] 0). }
    cbn [fst snd]. rewrite enum_fold_find_other by done.
    by rewrite map_find_assign, String.eqb_refl.
  - intros k Hk. apply map_find_None. by rewrite enum_value_map_keys.
Qed.

Lemma enum_values_numbered_witness :
  map_find "green" (enum_value_map (mkEnumerateValue <$> ["red"; "green"; "blue"]))
  = Some 1.
Proof.
  refine (proj1 (enum_values_numbered [mkEnumerateValue "red"] [mkEnumerateValue "blue"]
                   (mkEnumerateValue "green") _)).
  apply (bool_decide_unpack _). vm_compute. exact I.
Defined.

Section EnumHash.
Context {double : Type} (env : bool).

Lemma fold_hash_keys (m : std_map Z) (h : string) :
  fold_left (fun h vi => computeHash env (h +:+ fst vi)) m h
  = fold_left (fun h k => computeHash env (h +:+ k)) (map_keys m) h.
Proof.
  revert h. induction m as [|kv m IH]; intros h; [done|].
  cbn [fold_left map_keys fmap list_fmap]. apply IH.
Qed.

Lemma getHash_registerEnum (r : TypeRegistry double) name values :
  getHash double env (registerEnum double env name values r) name
  = fold_left (fun h k => computeHash env (h +:+ k)) (map_keys values)
      (computeHash env name).
Proof.
  unfold registerEnum. cbv zeta.
  match goal with
  | |- getHash _ _ (registerType _ ?m _) _ = _ =>
      rewrite (getHash_registerType env _ m)
  end.
  cbn [tm_hash]. apply fold_hash_keys.
Qed.

(** X5.  The type identifier of an enumeration is computed from its
    name and the set of its value names, visited in ascending order: it
    does not depend on the order in which the values are declared, nor
    on their indices.  Two enumerations that list the same names in a
    different order share the identifier, although they number the
    values differently. *)
Theorem enum_hash_ignores_value_order (r r' : TypeRegistry double) (name : string)
    (vs vs' : list string) :
  vs ≡ₚ vs' ->
  type_id_of env r (enumerate_decl name vs) name
  = type_id_of env r' (enumerate_decl name vs') name
  /\ type_id_of env r (enumerate_decl name vs) name
     = fold_left (fun h k => computeHash env (h +:+ k))
         (map_keys (enum_value_map (mkEnumerateValue <$> vs)))
         (computeHash env name)
  /\ StronglySorted str_lt (map_keys (enum_value_map (mkEnumerateValue <$> vs)))
  /\ forall k, k ∈ map_keys (enum_value_map (mkEnumerateValue <$> vs)) <-> k ∈ vs.
Proof.
  intros Hp.
  assert (forall l : list string, ev_name <$> (mkEnumerateValue <$> l) = l) as Hid.
  { intros l. rewrite <- list_fmap_compose. induction l as [|a l IH]; [done|].
    rewrite fmap_cons. f_equal. exact IH. }
  assert (forall l k, k ∈ map_keys (enum_value_map (mkEnumerateValue <$> l)) <-> k ∈ l)
    as Hkeys.
  { intros l k. by rewrite enum_value_map_keys, Hid. }
  assert (map_keys (enum_value_map (mkEnumerateValue <$> vs))
          = map_keys (enum_value_map (mkEnumerateValue <$> vs'))) as Heq.
  { apply sorted_keys_unique; [apply enum_value_map_sorted..|].
    intros k. rewrite !Hkeys. by rewrite Hp. }
  unfold type_id_of, enumerate_decl. cbn [register_decl enum_name enum_values].
  rewrite !getHash_registerEnum.
  split; [by rewrite Heq|]. split; [done|]. split; [apply enum_value_map_sorted|].
  apply Hkeys.
Qed.
End EnumHash.

Lemma enum_hash_ignores_value_order_witness :
  type_id_of false (TypeRegistry_new Z false) (enumerate_decl "Color" ["red"; "green"]) "Color"
  = type_id_of false (TypeRegistry_new Z false) (enumerate_decl "Color" ["green"; "red"]) "Color".
Proof.
  refine (proj1 (enum_hash_ignores_value_order false (TypeRegistry_new Z false)
                   (TypeRegistry_new Z false) "Color" ["red"; "green"] ["green"; "red"] _)).
  apply perm_swap.
Defined.

Section RegistrySorted.
Context {double : Type} (env : bool).
Implicit Types (r : TypeRegistry double) (d : Decl double)
  (ds : list (Decl double)) (D : Description double).

Local Abbreviation register := (register_decl double env).
Local Abbreviation builtins := (registerBuiltinTypes_ double env).
Local Abbreviation build := (buildRegistry_ double env).







End RegistrySorted.

(** ** External declarations *)

Lemma cpp_not_python l : is_cpp_language l = true -> is_python_language l = false.
Proof.
  unfold is_cpp_language, is_python_language. intros H.
  apply orb_true_iff in H as [H|H]; apply string_eqb_eq in H; by subst.
Qed.

Lemma external_fold_spec (ls : list ExternalLanguage) (meta : TypeMetadata) :
  let step := fun meta lang =>
    let c := tm_containers meta in
    let target :=
      if is_cpp_language (language lang) then Some "cpp"
      else if is_python_language (language lang) then Some "python"
      else None in
    match target with
    | Some key =>
        mkTypeMetadata (tm_name meta) (tm_hash meta)
          (mkContainerMapping
             (map_assign key (container lang) (containers c))
             (assign_opt key (deflt lang) (defaults c))
             (assign_opt key (read lang) (readers c))
             (assign_opt key (write lang) (writers c)))
          (tm_sources meta ++ sources lang) (is_builtin meta) (is_external meta)
    | None => meta
    end in
  let res := fold_left step ls meta in
  res = fold_left step (List.filter known_language ls) meta
  /\ getContainer res "cpp"
     = match last (List.filter (fun l => is_cpp_language (language l)) ls) with
       | Some l => container l
       | None => getContainer meta "cpp"
       end
  /\ getContainer res "python"
     = match last (List.filter (fun l => is_python_language (language l)) ls) with
       | Some l => container l
       | None => getContainer meta "python"
       end
  /\ tm_sources res
     = tm_sources meta ++ concat (sources <$> List.filter known_language ls).
Proof.
  intros step. revert meta. induction ls as [|l ls IH]; intros meta.
  - cbn. by rewrite app_nil_r.
  - cbn [fold_left List.filter]. cbv zeta in IH.
    destruct (IH (step meta l)) as (H1 & H2 & H3 & H4). clear IH.
    cbv zeta. rewrite H2, H3, H4. unfold known_language.
    assert (is_cpp_language (language l) = true ->
            step meta l = mkTypeMetadata (tm_name meta) (tm_hash meta)
              (mkContainerMapping
                 (map_assign "cpp" (container l) (containers (tm_containers meta)))
                 (assign_opt "cpp" (deflt l) (defaults (tm_containers meta)))
                 (assign_opt "cpp" (read l) (readers (tm_containers meta)))
                 (assign_opt "cpp" (write l) (writers (tm_containers meta))))
              (tm_sources meta ++ sources l) (is_builtin meta) (is_external meta)) as Scpp.
    { intros Hc. unfold step. by rewrite Hc. }
    assert (is_cpp_language (language l) = false ->
            is_python_language (language l) = true ->
            step meta l = mkTypeMetadata (tm_name meta) (tm_hash meta)
              (mkContainerMapping
                 (map_assign "python" (container l) (containers (tm_containers meta)))
                 (assign_opt "python" (deflt l) (defaults (tm_containers meta)))
                 (assign_opt "python" (read l) (readers (tm_containers meta)))
                 (assign_opt "python" (write l) (writers (tm_containers meta))))
              (tm_sources meta ++ sources l) (is_builtin meta) (is_external meta)) as Spy.
    { intros Hc Hp. unfold step. by rewrite Hc, Hp. }
    assert (is_cpp_language (language l) = false ->
            is_python_language (language l) = false -> step meta l = meta) as Snone.
    { intros Hc Hp. unfold step. by rewrite Hc, Hp. }
    clearbody step.
    destruct (is_cpp_language (language l)) eqn:Hc.
    + rewrite (cpp_not_python _ Hc). cbn [orb fold_left].
      specialize (Scpp eq_refl). rewrite Scpp in *. clear Spy Snone.
      split; [exact H1|]. rewrite last_cons.
      unfold getContainer, find_or. cbn [tm_containers containers tm_name tm_sources].
      rewrite !map_find_assign. cbn [String.eqb Ascii.eqb Bool.eqb].
      split; [by destruct (last (List.filter (fun l0 => is_cpp_language (language l0)) ls))|].
      split; [done|].
      cbn [fmap list_fmap concat]. by rewrite app_assoc.
    + cbn [orb]. destruct (is_python_language (language l)) eqn:Hp.
      * cbn [fold_left]. specialize (Spy eq_refl eq_refl). rewrite Spy in *.
        split; [exact H1|]. rewrite last_cons.
        unfold getContainer, find_or. cbn [tm_containers containers tm_name tm_sources].
        rewrite !map_find_assign. cbn [String.eqb Ascii.eqb Bool.eqb].
        split; [done|].
        split; [by destruct (last (List.filter (fun l0 => is_python_language (language l0)) ls))|].
        cbn [fmap list_fmap concat]. by rewrite app_assoc.
      * specialize (Snone eq_refl eq_refl). rewrite Snone in *. done.
Qed.

(** X7.  Of the language entries of an [external] declaration the
    generators read those named [cpp] or [c++] (as C++) and [python] or
    [py] (as Python); entries for any other language are ignored.  Of
    several entries for one language the last gives the container, while
    the sources of all of them are kept, in order; without an entry the
    container is the declared name.  The entry is registered with an empty
    hash and is not marked external. *)
Theorem external_language_entries (x : External) :
  external_metadata x
  = external_metadata (mkExternal (ext_name x) (List.filter known_language (languages x)))
  /\ getContainer (external_metadata x) "cpp"
     = match last (entries_for is_cpp_language x) with
       | Some l => container l
       | None => ext_name x
       end
  /\ getContainer (external_metadata x) "python"
     = match last (entries_for is_python_language x) with
       | Some l => container l
       | None => ext_name x
       end
  /\ tm_sources (external_metadata x)
     = concat (sources <$> List.filter known_language (languages x))
  /\ tm_hash (external_metadata x) = EmptyString
  /\ is_external (external_metadata x) = false.
Proof.
  destruct (external_metadata_name x) as (_ & Hh & _ & He).
  unfold external_metadata in *. cbn [ext_name languages].
  match goal with
  | |- context [fold_left ?f (languages x) ?m] =>
      destruct (external_fold_spec (languages x) m) as (H1 & H2 & H3 & H4);
      destruct (external_fold_spec (List.filter known_language (languages x)) m)
        as (H1' & _)
  end.
  cbv zeta in *. split.
  { rewrite H1. reflexivity. }
  split; [exact H2|]. split; [exact H3|]. split; [exact H4|]. split; [exact Hh|exact He].
Qed.

(** ** Sources *)

Lemma push_unique_NoDup (srcs : list string) (s : string) :
  NoDup srcs -> NoDup (push_unique srcs s).
Proof.
  intros H. unfold push_unique. destruct (existsb _ srcs) eqn:E; [done|].
  apply NoDup_app. split; [done|]. split; [|apply NoDup_singleton].
  intros y Hy Hs. apply list_elem_of_singleton in Hs as ->.
  assert (existsb (String.eqb s) srcs = true); [|congruence].
  apply existsb_exists. exists s. split; [by apply list_elem_of_In|apply String.eqb_refl].
Qed.

Lemma push_unique_elem (srcs : list string) (s x : string) :
  x ∈ push_unique srcs s <-> x ∈ srcs \/ x = s.
Proof.
  unfold push_unique. destruct (existsb _ srcs) eqn:E.
  - apply existsb_exists in E as (y & Hy & Heq). apply string_eqb_eq in Heq as <-.
    apply list_elem_of_In in Hy. split; [tauto|]. intros [H| ->]; done.
  - rewrite elem_of_app, list_elem_of_singleton. tauto.
Qed.

Lemma push_unique_prefix (srcs : list string) (s : string) :
  exists extra, push_unique srcs s = srcs ++ extra.
Proof.
  unfold push_unique. destruct (existsb _ srcs).
  - exists []. by rewrite app_nil_r.
  - by eexists.
Qed.

Lemma push_all_spec (l srcs : list string) :
  let res := fold_left push_unique l srcs in
  (NoDup srcs -> NoDup res)
  /\ (forall x, x ∈ res <-> x ∈ srcs \/ x ∈ l)
  /\ exists extra, res = srcs ++ extra.
Proof.
  revert srcs. induction l as [|s l IH]; intros srcs; cbn [fold_left].
  - split; [done|]. split.
    + intros x. rewrite elem_of_nil. tauto.
    + exists []. by rewrite app_nil_r.
  - destruct (IH (push_unique srcs s)) as (H1 & H2 & extra & H3). cbv zeta.
    split; [|split].
    + intros H. by apply H1, push_unique_NoDup.
    + intros x. rewrite H2, push_unique_elem, elem_of_cons. tauto.
    + destruct (push_unique_prefix srcs s) as [e1 He1].
      exists (e1 ++ extra). by rewrite H3, He1, app_assoc.
Qed.

Lemma sources_fold_spec (tys : std_map TypeMetadata) (srcs : list string) :
  let res := fold_left (fun srcs (nm : string * TypeMetadata) =>
                          fold_left push_unique (tm_sources (snd nm)) srcs) tys srcs in
  (NoDup srcs -> NoDup res)
  /\ (forall x, x ∈ res <->
                x ∈ srcs \/ x ∈ concat ((fun nm => tm_sources (snd nm)) <$> tys))
  /\ exists extra, res = srcs ++ extra.
Proof.
  revert srcs. induction tys as [|nm tys IH]; intros srcs; cbn [fold_left].
  - split; [done|]. split.
    + intros x. cbn. rewrite elem_of_nil. tauto.
    + exists []. by rewrite app_nil_r.
  - destruct (IH (fold_left push_unique (tm_sources (snd nm)) srcs))
      as (H1 & H2 & extra & H3).
    destruct (push_all_spec (tm_sources (snd nm)) srcs) as (G1 & G2 & e1 & G3).
    cbv zeta in *. split; [|split].
    + intros H. by apply H1, G1.
    + intros x. rewrite H2, G2, fmap_cons. cbn [concat]. rewrite elem_of_app. tauto.
    + exists (e1 ++ extra). by rewrite H3, G3, app_assoc.
Qed.

Section Sources.
Context {double : Type} (env : bool).

Lemma getSources_cpp_prefix (r : TypeRegistry double) :
  exists extra, getSources r "cpp" = cpp_default_sources ++ extra.
Proof.
  unfold getSources. cbn [String.eqb Ascii.eqb Bool.eqb].
  match goal with
  | |- context [fold_left ?f (types_ r) ?s] =>
      destruct (sources_fold_spec (types_ r) s) as (_ & _ & H3)
  end.
  exact H3.
Qed.

(** X8.  The list of sources of a language starts with the
    sources the language always has (the list an empty registry gives),
    continues with the sources of the registered types, and names each
    source once: no include or import line is emitted twice, and no
    source of a registered type is missing. *)
Theorem getSources_lists_each_source_once (r : TypeRegistry double) (lang : string) :
  NoDup (getSources r lang)
  /\ (exists extra,
        getSources r lang = getSources (TypeRegistry_empty double) lang ++ extra)
  /\ forall s, s ∈ getSources r lang
               <-> s ∈ getSources (TypeRegistry_empty double) lang \/ s ∈ type_sources r.
Proof.
  unfold getSources. cbn [types_ TypeRegistry_empty fold_left].
  set (srcs := if String.eqb lang "cpp" then _ else _).
  destruct (sources_fold_spec (types_ r) srcs) as (H1 & H2 & H3).
  cbv zeta in *. split; [|split; [exact H3|exact H2]].
  apply H1. unfold srcs. destruct (String.eqb lang "cpp").
  { apply (bool_decide_unpack _). vm_compute. exact I. }
  destruct (String.eqb lang "python").
  { apply (bool_decide_unpack _). vm_compute. exact I. }
  constructor.
Qed.
End Sources.

(** * The generators *)

Lemma emit_each_app {A} (l1 l2 : list A) (f : A -> string) :
  emit_each (l1 ++ l2) f = emit_each l1 f +:+ emit_each l2 f.
Proof.
  unfold emit_each. induction l1 as [|a l1 IH]; cbn [app map string_concat].
  - by rewrite string_app_nil_l.
  - by rewrite IH, string_app_assoc.
Qed.

Section Imports.
Context {double : Type} (od : double -> string) (env : bool).
Implicit Types (D : Description double).

(** X9.  The Python emitter asks the registry for its sources without
    naming a language, so it is given the list of the default language,
    C++: the import lines of the generated Python module name the same
    sources, in the same order, as the include lines of the generated
    C++ header, and the module always begins, after its fixed header,
    with [import vector], [import chrono], [import routio/datatypes.h]
    and [import routio/array.h]. *)
Theorem python_imports_follow_cpp_sources D :
  exists srcs rest,
    getSources (buildRegistry_ double env D) "cpp" = cpp_default_sources ++ srcs
    /\ cpp_generateIncludes_ double (CppGenerator_new double env D)
       = emit_each (cpp_default_sources ++ srcs)
           (fun src => "#include <" +:+ src +:+ ">" +:+ NL)
    /\ py_generateImports_ double (PythonGenerator_new double env D)
       = emit_each (cpp_default_sources ++ srcs) (fun src => "import " +:+ src +:+ NL)
         +:+ NL
    /\ generate_python double od env D
       = py_generateHeader_
         +:+ "import vector" +:+ NL +:+ "import chrono" +:+ NL
         +:+ "import routio/datatypes.h" +:+ NL +:+ "import routio/array.h" +:+ NL
         +:+ rest.
Proof.
  destruct (getSources_cpp_prefix (buildRegistry_ double env D))
    as [srcs Hs].
  exists srcs. eexists. split; [exact Hs|]. split; [|split].
  - unfold cpp_generateIncludes_, CppGenerator_new. cbn [cpp_registry_]. by rewrite Hs.
  - unfold py_generateImports_, PythonGenerator_new. cbn [py_registry_]. cbv zeta.
    rewrite Hs. done.
  - unfold generate_python, PythonGenerator_generate.
    unfold py_generateImports_ at 1. unfold PythonGenerator_new at 1.
    cbn [py_registry_]. cbv zeta. rewrite Hs.
    change (match cpp_default_sources ++ srcs with [] => true | _ => false end) with false.
    cbn [negb]. rewrite emit_each_app.
    change (emit_each cpp_default_sources (fun src => "import " +:+ src +:+ NL))
      with ("import vector" +:+ NL +:+ "import chrono" +:+ NL
            +:+ "import routio/datatypes.h" +:+ NL +:+ "import routio/array.h" +:+ NL).
    rewrite !string_app_assoc. reflexivity.
Qed.
End Imports.

Section IgnoredDeclarations.
Context {double : Type} (od : double -> string) (env : bool).
Implicit Types (D : Description double) (ds : list (Decl double)).

Lemma fold_register_filter ds (r : TypeRegistry double) :
  fold_left (register_decl double env) (List.filter registers ds) r
  = fold_left (register_decl double env) ds r.
Proof.
  revert r. induction ds as [|d ds IH]; intros r; [done|].
  cbn [List.filter]. destruct d; cbn [registers fold_left register_decl]; apply IH.
Qed.

Lemma CppGenerator_generate_ext (g1 g2 : CppGenerator double) basename :
  cpp_registry_ double g1 = cpp_registry_ double g2 ->
  namespace_ double g1 = namespace_ double g2 ->
  CppGenerator_generate double od env g1 basename
  = CppGenerator_generate double od env g2 basename.
Proof.
  destruct g1 as [d1 r1 n1], g2 as [d2 r2 n2]. cbn [cpp_registry_ namespace_].
  intros -> ->. reflexivity.
Qed.

Lemma PythonGenerator_generate_ext (g1 g2 : PythonGenerator double) :
  py_registry_ double g1 = py_registry_ double g2 ->
  PythonGenerator_generate double od env g1 = PythonGenerator_generate double od env g2.
Proof.
  destruct g1 as [d1 r1], g2 as [d2 r2]. cbn [py_registry_].
  intros ->. reflexivity.
Qed.

(** X10.  The [include] and [import] declarations of a description
    leave no trace in the generated code: the C++ header and the Python
    module are those of the description without them (no other file is
    read).  The Python module does not depend on the namespace
    either. *)
Theorem include_and_import_are_ignored D (basename : string) (nsp : option Namespace) :
  let D' := mkDescription (ns D) (List.filter registers (decls D)) in
  buildRegistry_ double env D' = buildRegistry_ double env D
  /\ generate_cpp double od env D' basename = generate_cpp double od env D basename
  /\ generate_python double od env D' = generate_python double od env D
  /\ generate_python double od env (mkDescription nsp (decls D))
     = generate_python double od env D.
Proof.
  intros D'.
  assert (buildRegistry_ double env D' = buildRegistry_ double env D) as Hb.
  { unfold buildRegistry_, D'. cbn [decls]. apply fold_register_filter. }
  split; [exact Hb|]. split; [|split].
  - unfold generate_cpp. apply CppGenerator_generate_ext.
    + unfold CppGenerator_new. cbn [cpp_registry_]. exact Hb.
    + reflexivity.
  - unfold generate_python. apply PythonGenerator_generate_ext.
    unfold PythonGenerator_new. cbn [py_registry_]. exact Hb.
  - unfold generate_python. apply PythonGenerator_generate_ext. reflexivity.
Qed.
End IgnoredDeclarations.

(** * The lexer: what a token is made of *)

Lemma char_eqb_eq a b : char_eqb a b = true <-> a = b.
Proof. apply Ascii.eqb_eq. Qed.

Lemma char_eqb_refl a : char_eqb a a = true.
Proof. by apply char_eqb_eq. Qed.

Lemma position_after_app p1 p2 pos :
  position_after (p1 +:+ p2) pos = position_after p2 (position_after p1 pos).
Proof. unfold position_after. by rewrite list_ascii_app, fold_left_app. Qed.

Lemma reads_refl lx : reads EmptyString lx lx.
Proof. unfold reads. cbn. split; [done|]. split; [lia|]. done. Qed.

Lemma reads_trans p1 p2 lx lx1 lx2 :
  reads p1 lx lx1 -> reads p2 lx1 lx2 -> reads (p1 +:+ p2) lx lx2.
Proof.
  intros (A1 & A2 & A3 & A4) (B1 & B2 & B3 & B4). unfold reads.
  split; [by rewrite A1, B1, string_app_assoc|].
  split; [rewrite B2, A2, string_length_app; lia|].
  split; [by rewrite position_after_app, <- A3|]. by rewrite B4.
Qed.

Lemma reads_advance lx c r :
  input_ lx = String.String c r -> reads (single c) lx (advance_ lx).
Proof.
  intros Hin. unfold reads, advance_, single, position_after. rewrite Hin.
  cbn [list_ascii_of_string fold_left fst snd String.length].
  destruct (char_eqb c LF); cbn [input_ i_ line_ col_ lookahead_];
    (split; [done|]; split; [lia|]; done).
Qed.

Lemma ch_input lx : ch_ lx <> NUL -> exists r, input_ lx = String.String (ch_ lx) r.
Proof. unfold ch_. destruct (input_ lx) as [|c r]; [done|]. by exists r. Qed.

Lemma reads_advance_while_fuel n p lx :
  p NUL = false ->
  exists pre, reads pre lx (advance_while_fuel n p lx)
              /\ Forall (fun c => p c = true) (list_ascii_of_string pre).
Proof.
  intros Hnul. revert lx. induction n as [|n IH]; intros lx; cbn [advance_while_fuel].
  - exists EmptyString. split; [apply reads_refl|constructor].
  - destruct (p (ch_ lx)) eqn:Hp.
    + assert (ch_ lx <> NUL) as Hne by (intros E; rewrite E in Hp; congruence).
      destruct (ch_input lx Hne) as [r Hin].
      destruct (IH (advance_ lx)) as (pre & Hr & Hall).
      exists (single (ch_ lx) +:+ pre). split.
      * eapply reads_trans; [by eapply reads_advance|done].
      * cbn. by constructor.
    + exists EmptyString. split; [apply reads_refl|constructor].
Qed.

Lemma reads_advance_while p lx :
  p NUL = false ->
  exists pre, reads pre lx (advance_while p lx)
              /\ Forall (fun c => p c = true) (list_ascii_of_string pre)
              /\ p (ch_ (advance_while p lx)) = false.
Proof.
  intros Hnul. destruct (reads_advance_while_fuel (String.length (input_ lx)) p lx Hnul)
    as (pre & Hr & Hall).
  exists pre. split; [done|]. split; [done|].
  clear pre Hr Hall. unfold advance_while.
  assert (forall n lx, (remaining lx <= n)%nat ->
                       p (ch_ (advance_while_fuel n p lx)) = false) as H.
  { clear lx. induction n as [|n IH]; intros lx Hn; cbn [advance_while_fuel].
    - rewrite ch_NUL_of_empty by lia. done.
    - destruct (p (ch_ lx)) eqn:Hp; [|done]. apply IH.
      rewrite remaining_advance. lia. }
  by apply H.
Qed.

Lemma reads_skipWsAndComments_fuel n lx :
  exists pre, reads pre lx (skipWsAndComments_fuel n lx).
Proof.
  revert lx. induction n as [|n IH]; intros lx; cbn [skipWsAndComments_fuel].
  - exists EmptyString. apply reads_refl.
  - cbv zeta. destruct (reads_advance_while isspace lx eq_refl) as (p1 & H1 & _).
    destruct (char_eqb _ _).
    + destruct (reads_advance_while not_eol (advance_while isspace lx) eq_refl)
        as (p2 & H2 & _).
      destruct (IH (advance_while not_eol (advance_while isspace lx))) as (p3 & H3).
      exists (p1 +:+ (p2 +:+ p3)). eapply reads_trans; [done|]. by eapply reads_trans.
    + by exists p1.
Qed.

Lemma reads_skipWsAndComments lx : exists pre, reads pre lx (skipWsAndComments_ lx).
Proof. apply reads_skipWsAndComments_fuel. Qed.

Lemma reads_lexString_loop n escaped sp lx lx' :
  lexString_loop n escaped sp lx = Ok lx' ->
  exists body, reads (body +:+ single DQUOTE) lx lx' /\ closed_body escaped body = true.
Proof.
  revert escaped lx. induction n as [|n IH]; intros escaped lx; cbn [lexString_loop]; [done|].
  cbv zeta. destruct (char_eqb (ch_ lx) NUL || char_eqb (ch_ lx) LF) eqn:Hc; [done|].
  assert (ch_ lx <> NUL) as Hne.
  { intros E. rewrite E in Hc. done. }
  destruct (ch_input lx Hne) as [r Hin].
  pose proof (reads_advance lx _ _ Hin) as Hadv.
  assert (forall body,
            reads (body +:+ single DQUOTE) (advance_ lx) lx' ->
            reads ((String.String (ch_ lx) body) +:+ single DQUOTE) lx lx') as Hstep.
  { intros body Hr. eapply (reads_trans (single (ch_ lx))); [exact Hadv|exact Hr]. }
  destruct escaped.
  { intros H. destruct (IH _ _ H) as (body & Hr & Hb).
    exists (String.String (ch_ lx) body). split; [by apply Hstep|].
    cbn [closed_body]. by rewrite Hc. }
  destruct (char_eqb (ch_ lx) BACKSLASH) eqn:Hbs.
  { intros H. destruct (IH _ _ H) as (body & Hr & Hb).
    exists (String.String (ch_ lx) body). split; [by apply Hstep|].
    cbn [closed_body]. by rewrite Hc, Hbs. }
  destruct (char_eqb (ch_ lx) DQUOTE) eqn:Hq.
  { intros [= <-]. exists EmptyString. split; [|done].
    apply char_eqb_eq in Hq. rewrite Hq in Hadv. exact Hadv. }
  intros H. destruct (IH _ _ H) as (body & Hr & Hb).
  exists (String.String (ch_ lx) body). split; [by apply Hstep|].
  cbn [closed_body]. by rewrite Hc, Hbs, Hq.
Qed.

Lemma make_lexeme k lx0 sp lx pre :
  reads pre lx0 lx -> lexeme (make_ k lx0 sp lx) = pre.
Proof.
  intros (H1 & H2 & _). unfold make_. cbn [lexeme]. rewrite H1, H2.
  replace (i_ lx0 + String.length pre - i_ lx0)%nat with (String.length pre) by lia.
  apply substring_prefix.
Qed.

Lemma reads_lexString lx t lx' :
  ch_ lx = DQUOTE -> lexString_ lx = Ok (t, lx') ->
  exists body, reads (quoted body) lx lx' /\ closed_body false body = true
               /\ t = mkToken TokKind.String (quoted body) (span_here lx).
Proof.
  intros Hq. unfold lexString_. cbv zeta.
  destruct (lexString_loop _ _ _ _) as [lx2| |] eqn:Hl; [|done..].
  intros [= <- <-]. apply reads_lexString_loop in Hl as (body & Hr & Hb).
  assert (ch_ lx <> NUL) as Hne by (by rewrite Hq).
  destruct (ch_input lx Hne) as [r Hin]. rewrite Hq in Hin.
  pose proof (reads_trans _ _ _ _ _ (reads_advance lx _ _ Hin) Hr) as Hall.
  exists body. split; [exact Hall|]. split; [done|].
  unfold make_ at 1. f_equal.
  apply (make_lexeme TokKind.String lx (span_here lx) lx2 _ Hall).
Qed.

Lemma reads_lexNumber lx t lx' :
  lexNumber_ lx = Ok (t, lx') ->
  exists pre, reads pre lx lx' /\ t = mkToken TokKind.Number pre (span_here lx).
Proof.
  unfold lexNumber_. cbv zeta.
  set (lx1 := if is_sign (ch_ lx) then advance_ lx else lx).
  assert (exists p1, reads p1 lx lx1) as (p1 & H1).
  { unfold lx1. destruct (is_sign (ch_ lx)) eqn:Hs.
    - destruct (ch_input lx (is_sign_not_NUL _ Hs)) as [r Hin].
      eexists. by eapply reads_advance.
    - eexists. apply reads_refl. }
  set (lx2 := advance_while isdigit lx1).
  destruct (reads_advance_while isdigit lx1 eq_refl) as (p2 & H2 & _). fold lx2 in H2.
  set (lx3 := if char_eqb (ch_ lx2) "."%char
              then advance_while isdigit (advance_ lx2) else lx2).
  assert (exists p3, reads p3 lx2 lx3) as (p3 & H3).
  { unfold lx3. destruct (char_eqb (ch_ lx2) "."%char) eqn:Hd.
    - assert (ch_ lx2 <> NUL) as Hne.
      { apply char_eqb_eq in Hd. by rewrite Hd. }
      destruct (ch_input lx2 Hne) as [r Hin].
      destruct (reads_advance_while isdigit (advance_ lx2) eq_refl) as (p & Hp & _).
      eexists. eapply reads_trans; [by eapply reads_advance|exact Hp].
    - eexists. apply reads_refl. }
  pose proof (reads_trans _ _ _ _ _ H1 (reads_trans _ _ _ _ _ H2 H3)) as H13.
  destruct (char_eqb (ch_ lx3) "e"%char || char_eqb (ch_ lx3) "E"%char) eqn:He.
  - set (lx4 := advance_ lx3).
    assert (ch_ lx3 <> NUL) as Hne.
    { intros E. rewrite E in He. done. }
    destruct (ch_input lx3 Hne) as [r Hin].
    pose proof (reads_advance lx3 _ _ Hin) as H4. fold lx4 in H4.
    set (lx5 := if is_sign (ch_ lx4) then advance_ lx4 else lx4).
    assert (exists p5, reads p5 lx4 lx5) as (p5 & H5).
    { unfold lx5. destruct (is_sign (ch_ lx4)) eqn:Hs.
      - destruct (ch_input lx4 (is_sign_not_NUL _ Hs)) as [r' Hin'].
        eexists. by eapply reads_advance.
      - eexists. apply reads_refl. }
    destruct (negb (isdigit (ch_ lx5))); [done|].
    destruct (reads_advance_while isdigit lx5 eq_refl) as (p6 & H6 & _).
    intros [= <- <-].
    pose proof (reads_trans _ _ _ _ _ H13
                  (reads_trans _ _ _ _ _ H4 (reads_trans _ _ _ _ _ H5 H6))) as Hall.
    eexists. split; [exact Hall|]. unfold make_ at 1. f_equal.
    apply (make_lexeme TokKind.Number lx (span_here lx) _ _ Hall).
  - intros [= <- <-]. eexists. split; [exact H13|]. unfold make_ at 1. f_equal.
    apply (make_lexeme TokKind.Number lx (span_here lx) _ _ H13).
Qed.

(** ** Tokens and their spans *)

Lemma nextImpl_Ok_cases lx t lx' :
  nextImpl_ lx = Ok (t, lx') ->
  let lx0 := skipWsAndComments_ lx in
  span t = span_here lx0
  /\ reads (lexeme t) lx0 lx'
  /\ match kind t with
     | TokKind.End => lexeme t = EmptyString /\ ch_ lx0 = NUL
     | TokKind.String =>
         exists body, lexeme t = quoted body /\ closed_body false body = true
     | TokKind.Number =>
         isdigit (ch_ lx0) || (is_sign (ch_ lx0) && isdigit (chNext_ lx0)) = true
     | TokKind.Ident =>
         isdigit (ch_ lx0) = false
         /\ Forall (fun c => isIdentChar_ c = true) (list_ascii_of_string (lexeme t))
         /\ isIdentChar_ (ch_ lx') = false
     | k => symbol_kind (ch_ lx0) = Some k /\ lexeme t = single (ch_ lx0)
     end
  /\ (kind t <> TokKind.End -> lexeme t <> EmptyString /\ string_front (lexeme t) = ch_ lx0).
Proof.
  unfold nextImpl_. cbv zeta. set (lx0 := skipWsAndComments_ lx).
  destruct (char_eqb (ch_ lx0) NUL) eqn:Hnul.
  { intros [= <- <-]. cbn [span lexeme kind]. split; [done|].
    split; [apply reads_refl|]. split; [|done]. split; [done|]. by apply char_eqb_eq. }
  assert (ch_ lx0 <> NUL) as Hne by (intros E; rewrite E in Hnul; done).
  destruct (ch_input lx0 Hne) as [r Hin].
  assert (forall pre lx1, reads pre lx0 lx1 -> pre <> EmptyString ->
                          string_front pre = ch_ lx0) as Hfront.
  { intros pre lx1 (H1 & _) Hpre. rewrite Hin in H1. destruct pre as [|c pre]; [done|].
    cbn in H1. by injection H1 as <- _. }
  destruct (char_eqb (ch_ lx0) DQUOTE) eqn:Hq.
  { apply char_eqb_eq in Hq. intros H.
    destruct (reads_lexString lx0 t lx' Hq H) as (body & Hr & Hb & ->).
    cbn [span lexeme kind]. split; [done|]. split; [done|].
    split; [by exists body|]. intros _. split; [done|]. by eapply Hfront. }
  destruct (isdigit (ch_ lx0) || is_sign (ch_ lx0) && isdigit (chNext_ lx0)) eqn:Hnum.
  { intros H. destruct (reads_lexNumber lx0 t lx' H) as (pre & Hr & ->).
    cbn [span lexeme kind]. split; [done|]. split; [done|]. split; [done|].
    intros _.
    assert (pre <> EmptyString) as Hpre.
    { intros ->. destruct (lexNumber_progress lx0 Hnum) as [_ Hlt].
      specialize (Hlt _ _ H). destruct Hr as (Hr & _). unfold remaining in Hlt.
      rewrite Hr, string_app_nil_l in Hlt. lia. }
    split; [done|]. by eapply Hfront. }
  destruct (isIdentChar_ (ch_ lx0)) eqn:Hid.
  { unfold lexIdent_. cbv zeta. intros [= <- <-].
    destruct (reads_advance_while isIdentChar_ lx0 eq_refl) as (pre & Hr & Hall & Hstop).
    rewrite (make_lexeme TokKind.Ident lx0 (span_here lx0) _ _ Hr).
    cbn [span kind make_]. split; [done|]. split; [done|].
    apply orb_false_elim in Hnum as [Hd _].
    split; [done|]. intros _.
    assert (pre <> EmptyString) as Hpre.
    { intros ->. pose proof (remaining_advance_while_lt isIdentChar_ lx0 eq_refl Hid) as Hlt.
      destruct Hr as (Hr & _). unfold remaining in Hlt. rewrite Hr, string_app_nil_l in Hlt.
      lia. }
    split; [done|]. by eapply Hfront. }
  pose proof (reads_advance lx0 _ _ Hin) as Hadv.
  destruct (symbol_kind (ch_ lx0)) as [k|] eqn:Hk; [|done].
  intros [= <- <-].
  rewrite (make_lexeme k lx0 (span_here lx0) _ _ Hadv).
  cbn [span kind make_]. split; [done|]. split; [done|].
  split; [|intros _; split; [done|reflexivity]].
  unfold symbol_kind in Hk.
  repeat match type of Hk with
         | (if ?b then _ else _) = _ => destruct b eqn:?
         end; try discriminate; injection Hk as <-; split; try reflexivity;
    unfold symbol_kind;
    repeat match goal with
           | H : char_eqb _ _ = _ |- _ => rewrite H
           end; reflexivity.
Qed.

Lemma nextImpl_Throw_position lx e :
  nextImpl_ lx = Throw e ->
  err_line e = line_ (skipWsAndComments_ lx)
  /\ err_column e = col_ (skipWsAndComments_ lx)
  /\ err_file e = "<input>".
Proof.
  unfold nextImpl_. cbv zeta. set (lx0 := skipWsAndComments_ lx).
  destruct (char_eqb (ch_ lx0) NUL); [done|].
  destruct (char_eqb (ch_ lx0) DQUOTE).
  { intros H. by rewrite (lexString_Throw _ _ H). }
  destruct (_ || _).
  { unfold lexNumber_. cbv zeta.
    repeat match goal with
           | |- context [if ?b then _ else _] => destruct b
           end; try done; by intros [= <-]. }
  destruct (isIdentChar_ _); [done|].
  destruct (symbol_kind _); [done|]. by intros [= <-].
Qed.

(** ** Positions *)

Lemma newlines_snoc pre c :
  newlines (pre +:+ single c) = (newlines pre + (if char_eqb c LF then 1 else 0))%nat.
Proof.
  unfold newlines. rewrite list_ascii_app. cbn [single list_ascii_of_string].
  rewrite List.filter_app, length_app. cbn [List.filter].
  by destruct (char_eqb c LF).
Qed.

Lemma last_line_length_snoc pre c :
  last_line_length (pre +:+ single c)
  = if char_eqb c LF then 0%nat else S (last_line_length pre).
Proof.
  unfold last_line_length. rewrite list_ascii_app, fold_left_app. reflexivity.
Qed.

Lemma position_after_spec pre p0 :
  position_after pre (1 + Z.of_nat (newlines p0), 1 + Z.of_nat (last_line_length p0))
  = (1 + Z.of_nat (newlines (p0 +:+ pre)), 1 + Z.of_nat (last_line_length (p0 +:+ pre))).
Proof.
  revert p0. induction pre as [|c pre IH]; intros p0.
  - by rewrite string_app_nil_r.
  - change (String.String c pre) with (single c +:+ pre).
    rewrite position_after_app, <- string_app_assoc, <- IH. f_equal.
    unfold position_after. cbn [single list_ascii_of_string fold_left fst snd].
    rewrite newlines_snoc, last_line_length_snoc.
    destruct (char_eqb c LF); f_equal; lia.
Qed.

Lemma tracks_reads text p0 pre lx lx' :
  text = p0 +:+ input_ lx -> span_here lx = span_after p0 ->
  reads pre lx lx' ->
  text = (p0 +:+ pre) +:+ input_ lx' /\ span_here lx' = span_after (p0 +:+ pre).
Proof.
  intros Ht Hs (H1 & H2 & H3 & _). split.
  - by rewrite Ht, H1, string_app_assoc.
  - unfold span_here, span_after in *. injection Hs as Hi Hl Hc.
    rewrite Hl, Hc, position_after_spec in H3. injection H3 as -> ->.
    rewrite H2, Hi, string_length_app. reflexivity.
Qed.

Lemma tracks_new text : tracks text (Lexer_new text).
Proof. exists EmptyString. split; reflexivity. Qed.



(** * String literals and their values *)

Lemma string_get_app_r (pre s : string) (i : nat) :
  String.get (String.length pre + i) (pre +:+ s) = String.get i s.
Proof.
  induction pre as [|c pre IH]; [by rewrite string_app_nil_l|].
  rewrite string_app_cons. exact IH.
Qed.

Lemma string_at_app (pre : string) (c : ascii) (r : string) :
  string_at (pre +:+ String.String c r) (String.length pre) = c.
Proof.
  unfold string_at. replace (String.length pre) with (String.length pre + 0)%nat by lia.
  by rewrite string_get_app_r.
Qed.

Lemma string_at_app_next (pre : string) (c e : ascii) (r : string) :
  string_at (pre +:+ String.String c (String.String e r)) (String.length pre + 1) = e.
Proof. unfold string_at. by rewrite string_get_app_r. Qed.

Lemma push_back_app out c v : push_back out c +:+ v = out +:+ String.String c v.
Proof. unfold push_back. by rewrite string_app_assoc. Qed.

(** Deciding the tests on indices a goal contains. *)
Ltac index_tests :=
  repeat match goal with
         | |- context [(?a <? ?b)%nat] =>
             first [ replace (a <? b)%nat with true by (symmetry; apply Nat.ltb_lt; lia)
                   | replace (a <? b)%nat with false by (symmetry; apply Nat.ltb_ge; lia) ]
         | |- context [(?a <=? ?b)%nat] =>
             first [ replace (a <=? b)%nat with true by (symmetry; apply Nat.leb_le; lia)
                   | replace (a <=? b)%nat with false by (symmetry; apply Nat.leb_gt; lia) ]
         end.

Lemma unquote_loop_spec n (pre body : string) t filename out :
  (String.length body < n)%nat ->
  unquote_loop n (pre +:+ body +:+ single DQUOTE) t filename (String.length pre) out
  = match decode body with
    | Some v => Ok (out +:+ v)
    | None => Throw (mkDescriptionError filename (span_line (span t))
                       (span_col (span t)) "Invalid escape sequence in string")
    end.
Proof.
  revert pre body out. induction n as [|n IH]; intros pre body out Hn; [lia|].
  cbn [unquote_loop]. rewrite !string_length_app. cbn [single String.length].
  destruct body as [|c r].
  - cbn [String.length decode]. rewrite string_app_nil_l. index_tests.
    cbn [negb]. by rewrite string_app_nil_r.
  - cbn [String.length] in *. index_tests.
    cbn [negb]. rewrite string_app_cons, string_at_app. cbn [decode].
    destruct (char_eqb c BACKSLASH) eqn:Hc; cbn [negb].
    + destruct r as [|e r'].
      * cbn [String.length]. index_tests. done.
      * cbn [String.length] in *. index_tests.
        rewrite string_app_cons, string_at_app_next.
        specialize (IH (pre +:+ String.String c (String.String e EmptyString)) r').
        rewrite string_length_app in IH. cbn [String.length] in IH.
        rewrite string_app_assoc in IH. rewrite !string_app_cons, string_app_nil_l in IH.
        rewrite IH by lia.
        destruct (decode r') as [v|]; cbn [fmap option_fmap option_map]; [|done].
        f_equal. unfold unescape.
        destruct (char_eqb e BACKSLASH) eqn:E1.
        { apply char_eqb_eq in E1 as ->. cbn. apply push_back_app. }
        destruct (char_eqb e DQUOTE) eqn:E2.
        { apply char_eqb_eq in E2 as ->. cbn. apply push_back_app. }
        destruct (char_eqb e "n"); [apply push_back_app|].
        destruct (char_eqb e "r"); [apply push_back_app|].
        destruct (char_eqb e "t"); apply push_back_app.
    + specialize (IH (pre +:+ String.String c EmptyString) r).
      rewrite string_length_app in IH. cbn [String.length] in IH.
      rewrite string_app_assoc in IH. rewrite !string_app_cons, string_app_nil_l in IH.
      rewrite IH by lia.
      destruct (decode r) as [v|]; cbn [fmap option_fmap option_map]; [|done].
      f_equal. apply push_back_app.
Qed.

Lemma quoted_eq body :
  quoted body = single DQUOTE +:+ body +:+ single DQUOTE.
Proof. reflexivity. Qed.

Lemma quoted_snoc body :
  quoted body = String.String DQUOTE body +:+ single DQUOTE.
Proof. unfold quoted. by rewrite string_app_cons. Qed.

Lemma string_back_snoc s c : string_back (s +:+ single c) = c.
Proof.
  unfold string_back. rewrite string_length_app. cbn [single String.length].
  replace (String.length s + 1 - 1)%nat with (String.length s) by lia.
  apply string_at_app.
Qed.

Lemma string_snoc_inv s : s <> EmptyString -> exists body c, s = body +:+ single c.
Proof.
  induction s as [|a s IH]; [done|]. intros _. destruct s as [|b s'].
  - by exists EmptyString, a.
  - destruct IH as (body & c & Hs); [done|]. exists (String.String a body), c.
    by rewrite Hs, string_app_cons.
Qed.

Lemma unquote_quoted (t : Token) (filename : string) (body : string) :
  unquote_ (quoted body) t filename
  = match decode body with
    | Some v => Ok v
    | None => Throw (mkDescriptionError filename (span_line (span t))
                       (span_col (span t)) "Invalid escape sequence in string")
    end.
Proof.
  unfold unquote_.
  assert (String.length (quoted body) = S (String.length body + 1)) as Hlen.
  { unfold quoted. cbn [String.length]. by rewrite string_length_app. }
  rewrite Hlen. index_tests. cbn [orb].
  change (string_front (quoted body)) with DQUOTE. rewrite char_eqb_refl. cbn [negb orb].
  rewrite quoted_snoc at 1. rewrite string_back_snoc, char_eqb_refl. cbn [negb].
  rewrite quoted_eq.
  rewrite (unquote_loop_spec _ (single DQUOTE) body t filename EmptyString) by lia.
  destruct (decode body); [|done]. by rewrite string_app_nil_l.
Qed.

Lemma unquote_not_quoted (t : Token) (filename : string) (s : string) :
  (forall body, s <> quoted body) ->
  unquote_ s t filename
  = Throw (mkDescriptionError filename (span_line (span t))
             (span_col (span t)) "Internal error: invalid string token").
Proof.
  intros Hs. unfold unquote_.
  destruct (String.length s <? 2)%nat eqn:Hlen; [done|]. cbn [orb].
  apply Nat.ltb_ge in Hlen.
  destruct s as [|c s']; [cbn in Hlen; lia|].
  cbn [string_front].
  destruct (char_eqb c DQUOTE) eqn:Hc; [|done]. cbn [negb orb].
  apply char_eqb_eq in Hc as ->.
  destruct (string_snoc_inv s') as (body & l & ->).
  { intros ->. cbn in Hlen. lia. }
  rewrite <- string_app_cons, string_back_snoc.
  destruct (char_eqb l DQUOTE) eqn:Hl; [|done].
  apply char_eqb_eq in Hl as ->. exfalso. by apply (Hs body).
Qed.

(** X12.  What [unquote_] returns, for every argument.  Given a body
    between two double quotes it drops each backslash and takes the
    character after it for what it stands for ([n], [r], [t]: newline,
    carriage return, tab; any other character: itself), copying every other
    character, double quotes included; a backslash that is the last
    character of the body makes it throw ["Invalid escape sequence in
    string"].  Given anything else it throws ["Internal error: invalid
    string token"].  Both errors carry the file name and the position of
    the token. *)
Theorem unquote_decodes (t : Token) (filename : string) :
  (forall body,
     unquote_ (quoted body) t filename
     = match decode body with
       | Some v => Ok v
       | None => Throw (mkDescriptionError filename (span_line (span t))
                          (span_col (span t)) "Invalid escape sequence in string")
       end)
  /\ (forall s, (forall body, s <> quoted body) ->
        unquote_ s t filename
        = Throw (mkDescriptionError filename (span_line (span t))
                   (span_col (span t)) "Internal error: invalid string token")).
Proof. split; [apply unquote_quoted|apply unquote_not_quoted]. Qed.

Lemma decode_escape e r :
  decode (escape e +:+ r) = String.String (unescape e) <$> decode r.
Proof.
  unfold escape. rewrite !string_app_cons, string_app_nil_l. cbn [decode].
  by rewrite char_eqb_refl.
Qed.

Lemma decode_encode v : decode (encode v) = Some v.
Proof.
  induction v as [|c v IH]; [done|]. cbn [encode].
  destruct (char_eqb c BACKSLASH) eqn:E1.
  { apply char_eqb_eq in E1 as ->. by rewrite decode_escape, IH. }
  destruct (char_eqb c DQUOTE) eqn:E2.
  { apply char_eqb_eq in E2 as ->. by rewrite decode_escape, IH. }
  destruct (char_eqb c LF) eqn:E3.
  { apply char_eqb_eq in E3 as ->. by rewrite decode_escape, IH. }
  destruct (char_eqb c CR) eqn:E4.
  { apply char_eqb_eq in E4 as ->. by rewrite decode_escape, IH. }
  destruct (char_eqb c TAB) eqn:E5.
  { apply char_eqb_eq in E5 as ->. by rewrite decode_escape, IH. }
  unfold single. rewrite string_app_cons, string_app_nil_l. cbn [decode].
  by rewrite E1, IH.
Qed.

Lemma closed_body_escape e r :
  char_eqb e NUL || char_eqb e LF = false ->
  closed_body false (escape e +:+ r) = closed_body false r.
Proof.
  intros He. unfold escape. rewrite !string_app_cons, string_app_nil_l.
  cbn [closed_body]. rewrite He. reflexivity.
Qed.

Lemma closed_body_encode v : no_NUL v -> closed_body false (encode v) = true.
Proof.
  unfold no_NUL. induction v as [|c v IH]; [done|]. cbn [list_ascii_of_string].
  intros H. inversion H as [|? ? Hc Hv]; subst. specialize (IH Hv). cbn [encode].
  destruct (char_eqb c BACKSLASH) eqn:E1; [by rewrite closed_body_escape|].
  destruct (char_eqb c DQUOTE) eqn:E2; [by rewrite closed_body_escape|].
  destruct (char_eqb c LF) eqn:E3; [by rewrite closed_body_escape|].
  destruct (char_eqb c CR) eqn:E4; [by rewrite closed_body_escape|].
  destruct (char_eqb c TAB) eqn:E5; [by rewrite closed_body_escape|].
  unfold single. rewrite string_app_cons, string_app_nil_l. cbn [closed_body].
  by rewrite Hc, E3, E1, E2.
Qed.

Lemma closed_body_decode body :
  (closed_body false body = true -> is_Some (decode body))
  /\ (closed_body true body = true ->
      exists e r, body = String.String e r /\ is_Some (decode r)).
Proof.
  induction body as [|c r [IH1 IH2]].
  - split; [by eexists|done].
  - cbn [closed_body decode].
    destruct (char_eqb c NUL || char_eqb c LF); [done|]. split.
    + destruct (char_eqb c BACKSLASH).
      * intros H. destruct (IH2 H) as (e & r' & -> & [v Hv]). rewrite Hv. by eexists.
      * destruct (char_eqb c DQUOTE); [done|]. intros H.
        destruct (IH1 H) as [v Hv]. rewrite Hv. by eexists.
    + intros H. exists c, r. split; [done|]. by apply IH1.
Qed.

(** The lexer reads a closed body up to its closing quote. *)
Lemma lexString_loop_closed n escaped sp lx body rest :
  (String.length body < n)%nat ->
  input_ lx = body +:+ String.String DQUOTE rest ->
  closed_body escaped body = true ->
  exists lx', lexString_loop n escaped sp lx = Ok lx' /\ input_ lx' = rest.
Proof.
  revert escaped lx body. induction n as [|n IH]; intros escaped lx body Hn Hin Hb; [lia|].
  cbn [lexString_loop]. cbv zeta. unfold ch_. rewrite Hin.
  destruct body as [|c r].
  - rewrite string_app_nil_l. cbn [closed_body] in Hb. destruct escaped; [done|].
    cbn. eexists. split; [done|]. unfold advance_. rewrite Hin, string_app_nil_l.
    by cbn.
  - rewrite string_app_cons. cbn [closed_body] in Hb. cbn [String.length] in Hn.
    destruct (char_eqb c NUL || char_eqb c LF) eqn:Hc; [done|].
    assert (input_ (advance_ lx) = r +:+ String.String DQUOTE rest) as Hadv.
    { unfold advance_. rewrite Hin, string_app_cons. by destruct (char_eqb c LF). }
    destruct escaped; [apply (IH _ _ r); [lia|done..]|].
    destruct (char_eqb c BACKSLASH); [apply (IH _ _ r); [lia|done..]|].
    destruct (char_eqb c DQUOTE); [done|]. apply (IH _ _ r); [lia|done..].
Qed.

Lemma skipWsAndComments_id lx :
  isspace (ch_ lx) = false -> char_eqb (ch_ lx) "#"%char = false ->
  skipWsAndComments_ lx = lx.
Proof.
  intros Hs Hc. rewrite skipWsAndComments_unfold. cbv zeta.
  rewrite (advance_while_unfold isspace lx eq_refl), Hs. by rewrite Hc.
Qed.

(** X13.  Every string value without a NUL character can be written as
    a literal: written between double quotes with backslash, double quote,
    newline, carriage return and tab replaced by their escape sequences, it
    is read by the lexer as one [String] token that ends at the closing
    quote, and [unquote_] gives the value back. *)
Theorem string_literal_round_trip (v rest : string) (lx : Lexer) (filename : string) :
  no_NUL v ->
  input_ lx = quoted (encode v) +:+ rest ->
  exists t lx',
    nextImpl_ lx = Ok (t, lx')
    /\ t = mkToken TokKind.String (quoted (encode v)) (span_here lx)
    /\ input_ lx' = rest
    /\ unquote_ (lexeme t) t filename = Ok v.
Proof.
  intros Hv Hin.
  assert (ch_ lx = DQUOTE) as Hch by (unfold ch_; by rewrite Hin).
  assert (skipWsAndComments_ lx = lx) as Hskip.
  { apply skipWsAndComments_id; by rewrite Hch. }
  assert (input_ (advance_ lx) = encode v +:+ String.String DQUOTE rest) as Hadv.
  { unfold advance_. rewrite Hin. unfold quoted. rewrite string_app_cons.
    cbn. by rewrite string_app_assoc. }
  destruct (lexString_loop_closed (S (String.length (input_ (advance_ lx)))) false
              (span_here lx) (advance_ lx) (encode v) rest) as (lx' & Hl & Hrest).
  { rewrite Hadv, string_length_app. lia. }
  { exact Hadv. }
  { by apply closed_body_encode. }
  assert (lexString_ lx = Ok (make_ TokKind.String lx (span_here lx) lx', lx')) as Hlex.
  { unfold lexString_. cbv zeta. by rewrite Hl. }
  destruct (reads_lexString lx _ _ Hch Hlex) as (body & Hr & Hb & Ht).
  assert (body = encode v) as ->.
  { destruct Hr as (Hr & _). rewrite Hin, Hrest in Hr.
    unfold quoted in Hr. rewrite !string_app_cons in Hr. injection Hr as Hr.
    rewrite !string_app_assoc in Hr.
    clear -Hr Hb Hv. pose proof (closed_body_encode v Hv) as Hv'. revert Hr Hb Hv'.
    generalize (encode v) as a. generalize false as esc.
    intros esc a. revert esc body.
    induction a as [|c a IH]; intros esc body Hr Hb Ha.
    - destruct body as [|d body]; [done|].
      rewrite string_app_nil_l, string_app_cons in Hr. injection Hr as <- Hr.
      cbn [closed_body] in *. destruct esc; [done|]. done.
    - destruct body as [|d body].
      + rewrite string_app_nil_l, string_app_cons in Hr. injection Hr as -> Hr.
        cbn [closed_body] in *. destruct esc; [done|]. done.
      + rewrite !string_app_cons in Hr. injection Hr as -> Hr.
        cbn [closed_body] in *.
        destruct (char_eqb d NUL || char_eqb d LF); [done|].
        destruct esc; [by rewrite (IH false body)|].
        destruct (char_eqb d BACKSLASH); [by rewrite (IH true body)|].
        destruct (char_eqb d DQUOTE); [done|]. by rewrite (IH false body). }
  eexists _, lx'. split.
  { unfold nextImpl_. cbv zeta. rewrite Hskip, Hch. cbn [char_eqb Ascii.eqb Bool.eqb].
    exact Hlex. }
  split; [exact Ht|]. split; [exact Hrest|].
  rewrite Ht. cbn [lexeme].
  rewrite unquote_quoted. by rewrite decode_encode.
Qed.

Lemma string_literal_round_trip_witness :
  exists t lx',
    nextImpl_ (Lexer_new (quoted (encode ("a" +:+ NL +:+ quoted "b")) +:+ ";"))
    = Ok (t, lx')
    /\ t = mkToken TokKind.String (quoted (encode ("a" +:+ NL +:+ quoted "b")))
             (mkSpan 0 1 1)
    /\ input_ lx' = ";"
    /\ unquote_ (lexeme t) t "f.msg" = Ok ("a" +:+ NL +:+ quoted "b").
Proof.
  refine (string_literal_round_trip ("a" +:+ NL +:+ quoted "b") ";"
            (Lexer_new (quoted (encode ("a" +:+ NL +:+ quoted "b")) +:+ ";")) "f.msg" _ _).
  - unfold no_NUL. apply (bool_decide_unpack _). vm_compute. exact I.
  - reflexivity.
Defined.

(** X14.  Every [String] token the lexer produces is accepted by
    [unquote_]: its lexeme is a body between two double quotes in which no
    backslash is left without a character to escape, so neither of the two
    errors of [unquote_] can arise from a token of the lexer. *)
Theorem lexed_strings_always_unquote (lx lx' : Lexer) (t : Token) (filename : string) :
  nextImpl_ lx = Ok (t, lx') ->
  kind t = TokKind.String ->
  exists body v,
    lexeme t = quoted body /\ closed_body false body = true
    /\ decode body = Some v
    /\ unquote_ (lexeme t) t filename = Ok v.
Proof.
  intros H Hk. destruct (nextImpl_Ok_cases _ _ _ H) as (_ & _ & Hcase & _).
  rewrite Hk in Hcase. destruct Hcase as (body & Hlex & Hb).
  destruct (proj1 (closed_body_decode body) Hb) as [v Hv].
  exists body, v. split; [done|]. split; [done|]. split; [done|].
  rewrite Hlex, unquote_quoted. by rewrite Hv.
Qed.

Lemma lexed_strings_always_unquote_witness :
  exists body v,
    quoted "a\tb" = quoted body /\ closed_body false body = true
    /\ decode body = Some v
    /\ unquote_ (quoted "a\tb") (mkToken TokKind.String (quoted "a\tb") (mkSpan 7 1 8))
         "f.msg" = Ok v.
Proof.
  refine (lexed_strings_always_unquote
            (mkLexer (" " +:+ quoted "a\tb" +:+ ";") 6 1 7 [])
            (mkLexer ";" 13 1 14 [])
            (mkToken TokKind.String (quoted "a\tb") (mkSpan 7 1 8)) "f.msg" _ _);
    vm_compute; reflexivity.
Defined.

Lemma unquote_decodes_witness :
  unquote_ (quoted "a\") (mkToken TokKind.String (quoted "a\") (mkSpan 0 1 1)) "f.msg"
  = Throw (mkDescriptionError "f.msg" 1 1 "Invalid escape sequence in string")
  /\ unquote_ "a" (mkToken TokKind.String "a" (mkSpan 0 1 1)) "f.msg"
     = Throw (mkDescriptionError "f.msg" 1 1 "Internal error: invalid string token").
Proof.
  refine (let H := unquote_decodes (mkToken TokKind.String "a" (mkSpan 0 1 1)) "f.msg" in
          conj _ (proj2 H "a" _)).
  - exact (proj1 (unquote_decodes (mkToken TokKind.String (quoted "a\") (mkSpan 0 1 1))
                    "f.msg") "a\").
  - intros body. unfold quoted. destruct body; discriminate.
Defined.

(** ** The kinds of tokens *)

(** X15.  What the lexeme of a token looks like, by kind.  [End]: empty.
    [Ident]: one or more letters, digits and underscores, the first not a
    digit, and as long as possible (the character after it is none of
    these).  [Number]: not empty, starting with a digit or a sign.
    [String]: a body between two double quotes, the body free of NUL, raw
    newline and unescaped double quote.  Any other kind: the one character
    of that symbol. *)
Theorem token_shapes (lx lx' : Lexer) (t : Token) :
  nextImpl_ lx = Ok (t, lx') ->
  match kind t with
  | TokKind.End => lexeme t = EmptyString
  | TokKind.Ident =>
      lexeme t <> EmptyString
      /\ isdigit (string_front (lexeme t)) = false
      /\ Forall (fun c => isIdentChar_ c = true) (list_ascii_of_string (lexeme t))
      /\ isIdentChar_ (ch_ lx') = false
  | TokKind.Number =>
      lexeme t <> EmptyString
      /\ isdigit (string_front (lexeme t)) || is_sign (string_front (lexeme t)) = true
  | TokKind.String =>
      exists body, lexeme t = quoted body /\ closed_body false body = true
  | k => exists c, symbol_kind c = Some k /\ lexeme t = single c
  end.
Proof.
  intros H. destruct (nextImpl_Ok_cases _ _ _ H) as (_ & _ & Hcase & Hne).
  destruct (kind t) eqn:Hk.
  - by destruct Hcase.
  - destruct Hcase as (Hd & Hall & Hstop). destruct Hne as [Hne Hf]; [done|].
    split; [done|]. split; [by rewrite Hf|]. done.
  - destruct Hne as [Hne Hf]; [done|]. split; [done|]. rewrite Hf.
    apply orb_true_iff in Hcase as [->|Hc]; [done|].
    apply andb_true_iff in Hc as [-> _]. apply orb_true_r.
  - exact Hcase.
  - by eexists.
  - by eexists.
  - by eexists.
  - by eexists.
  - by eexists.
  - by eexists.
  - by eexists.
  - by eexists.
  - by eexists.
  - by eexists.
  - by eexists.
Qed.

Lemma token_shapes_witness :
  "msg_1" <> EmptyString
  /\ isdigit (string_front "msg_1") = false
  /\ Forall (fun c => isIdentChar_ c = true) (list_ascii_of_string "msg_1")
  /\ isIdentChar_ (ch_ (mkLexer "-x" 6 1 7 [])) = false.
Proof.
  refine (token_shapes (Lexer_new " msg_1-x") (mkLexer "-x" 6 1 7 [])
            (mkToken TokKind.Ident "msg_1" (mkSpan 1 1 2)) _).
  vm_compute. reflexivity.
Defined.

(** ** White space and comments *)

Lemma blank_spaces p r :
  Forall (fun c => isspace c = true) (list_ascii_of_string p) ->
  blank false (p +:+ r) = blank false r.
Proof.
  induction p as [|c p IH]; cbn [list_ascii_of_string]; intros H.
  - by rewrite string_app_nil_l.
  - inversion H as [|? ? Hc Hp]; subst. rewrite string_app_cons. cbn [blank].
    rewrite Hc. by apply IH.
Qed.

Lemma blank_comment p r :
  Forall (fun c => not_eol c = true) (list_ascii_of_string p) ->
  blank true (p +:+ r) = blank true r.
Proof.
  induction p as [|c p IH]; cbn [list_ascii_of_string]; intros H.
  - by rewrite string_app_nil_l.
  - inversion H as [|? ? Hc Hp]; subst. rewrite string_app_cons. cbn [blank].
    unfold not_eol in Hc. apply andb_true_iff in Hc as [Hn Hl].
    apply negb_true_iff in Hn, Hl. rewrite Hn, Hl. by apply IH.
Qed.

Lemma blank_in_comment s : blank false s = true -> blank true s = true.
Proof.
  induction s as [|c s IH]; [done|]. cbn [blank].
  destruct (isspace c) eqn:Hs.
  - intros H. destruct (char_eqb c LF); [done|].
    destruct (char_eqb c NUL) eqn:Hn; [|by apply IH].
    apply char_eqb_eq in Hn as ->. done.
  - destruct (char_eqb c "#"%char) eqn:Hc; [|done].
    apply char_eqb_eq in Hc as ->. by cbn.
Qed.

Lemma skipWsAndComments_fuel_blank n lx :
  exists ws, reads ws lx (skipWsAndComments_fuel n lx) /\ blank false ws = true.
Proof.
  revert lx. induction n as [|n IH]; intros lx; cbn [skipWsAndComments_fuel].
  - exists EmptyString. split; [apply reads_refl|done].
  - cbv zeta. destruct (reads_advance_while isspace lx eq_refl) as (p1 & H1 & Hs1 & _).
    destruct (char_eqb (ch_ (advance_while isspace lx)) "#"%char) eqn:Hc.
    + destruct (reads_advance_while not_eol (advance_while isspace lx) eq_refl)
        as (p2 & H2 & Hs2 & _).
      destruct (IH (advance_while not_eol (advance_while isspace lx))) as (p3 & H3 & Hs3).
      exists (p1 +:+ (p2 +:+ p3)). split.
      { eapply reads_trans; [done|]. by eapply reads_trans. }
      rewrite blank_spaces by done.
      destruct p2 as [|c p2].
      * rewrite string_app_nil_l. done.
      * cbn [list_ascii_of_string] in Hs2. inversion Hs2 as [|? ? Hc2 Hp2]; subst.
        assert (c = "#"%char) as ->.
        { destruct H2 as (H2 & _). apply char_eqb_eq in Hc. unfold ch_ in Hc.
          rewrite H2, string_app_cons in Hc. done. }
        rewrite string_app_cons. cbn [blank]. change (isspace "#") with false. cbn.
        rewrite blank_comment by done. by apply blank_in_comment.
    + exists p1. split; [done|]. rewrite <- (string_app_nil_r p1).
      by rewrite blank_spaces.
Qed.

Lemma skipWsAndComments_stops lx :
  isspace (ch_ (skipWsAndComments_ lx)) = false
  /\ char_eqb (ch_ (skipWsAndComments_ lx)) "#"%char = false.
Proof.
  unfold skipWsAndComments_.
  assert (forall n lx, (remaining lx < n)%nat ->
            isspace (ch_ (skipWsAndComments_fuel n lx)) = false
            /\ char_eqb (ch_ (skipWsAndComments_fuel n lx)) "#"%char = false) as H.
  { clear lx. induction n as [|n IH]; intros lx Hn; [lia|].
    cbn [skipWsAndComments_fuel]. cbv zeta.
    destruct (reads_advance_while isspace lx eq_refl) as (p1 & _ & _ & Hstop).
    pose proof (remaining_advance_while isspace lx) as Hle.
    destruct (char_eqb (ch_ (advance_while isspace lx)) "#"%char) eqn:Hc; [|done].
    apply IH.
    assert (not_eol (ch_ (advance_while isspace lx)) = true) as Hnot.
    { apply char_eqb_eq in Hc. by rewrite Hc. }
    pose proof (remaining_advance_while_lt not_eol _ eq_refl Hnot). lia. }
  apply H. unfold remaining. lia.
Qed.

(** X16.  Before a token the lexer skips white space and comments, a
    comment running from [#] to the end of the line, and nothing else: the
    text passed over is made of these only, and the character it stops at
    is neither white space nor [#] (or the text has ended).  Skipping
    again skips nothing more. *)
Theorem comments_and_blanks_are_skipped (lx : Lexer) :
  let lx0 := skipWsAndComments_ lx in
  (exists ws, reads ws lx lx0 /\ blank false ws = true)
  /\ isspace (ch_ lx0) = false
  /\ char_eqb (ch_ lx0) "#"%char = false
  /\ skipWsAndComments_ lx0 = lx0.
Proof.
  cbv zeta. destruct (skipWsAndComments_stops lx) as [Hs Hc].
  split; [apply skipWsAndComments_fuel_blank|]. split; [done|]. split; [done|].
  by apply skipWsAndComments_id.
Qed.

(** ** The look-ahead buffer *)

Lemma fill_lookahead_spec n lx lx1 :
  fill_lookahead n lx = Ok lx1 ->
  exists new, lookahead_ lx1 = lookahead_ lx ++ new /\ length new = n.
Proof.
  revert lx. induction n as [|n IH]; intros lx; cbn [fill_lookahead].
  - intros [= <-]. exists []. by rewrite app_nil_r.
  - destruct (nextImpl_ lx) as [[t lxn]| |] eqn:Hn; [|done..].
    intros H. destruct (IH _ H) as (new & Hl & Hlen).
    exists (t :: new). split; [|cbn; lia].
    rewrite Hl. unfold push_lookahead. cbn [lookahead_].
    rewrite (nextImpl_lookahead _ _ _ Hn). by rewrite <- app_assoc.
Qed.

Lemma peek_buffered k lx t :
  lookahead_ lx !! k = Some t -> Lexer_peek k lx = Ok (t, lx).
Proof.
  intros H. unfold Lexer_peek.
  pose proof (lookup_lt_Some _ _ _ H) as Hlt.
  replace (S k - length (lookahead_ lx))%nat with 0%nat by lia.
  cbn [fill_lookahead]. f_equal. f_equal.
  by apply nth_lookup_Some.
Qed.

Lemma peek_buffers k lx t lx1 :
  Lexer_peek k lx = Ok (t, lx1) ->
  lookahead_ lx1 !! k = Some t /\ exists new, lookahead_ lx1 = lookahead_ lx ++ new.
Proof.
  unfold Lexer_peek.
  destruct (fill_lookahead _ lx) as [lx2| |] eqn:Hf; [|done..].
  intros [= <- <-]. destruct (fill_lookahead_spec _ _ _ Hf) as (new & Hl & Hlen).
  split; [|by exists new].
  assert (k < length (lookahead_ lx2))%nat as Hlt.
  { rewrite Hl, length_app. lia. }
  destruct (lookup_lt_is_Some_2 _ _ Hlt) as [t' Ht'].
  rewrite Ht'. f_equal. symmetry. by apply nth_lookup_Some.
Qed.

(** X17.  Looking ahead does not lose or reorder tokens.  Once [peek(k)]
    has returned a token, [peek(k)] returns it again without reading, and
    so does [peek(j)] for every smaller [j] with the token buffered at
    [j]; [next()] then delivers the buffered tokens from the front: after
    [peek(0)] it returns the token [peek(0)] gave, and after [peek(k+1)]
    one more [next()] leaves that token at [peek(k)]. *)
Theorem lookahead_is_consistent (k : nat) (lx lx1 : Lexer) (t : Token) :
  Lexer_peek k lx = Ok (t, lx1) ->
  Lexer_peek k lx1 = Ok (t, lx1)
  /\ (forall j, (j <= k)%nat -> exists tj, Lexer_peek j lx1 = Ok (tj, lx1))
  /\ (exists new, lookahead_ lx1 = lookahead_ lx ++ new)
  /\ match k with
     | O => exists lx2, Lexer_next lx1 = Ok (t, lx2)
     | S k' => exists t0 lx2, Lexer_next lx1 = Ok (t0, lx2)
                              /\ Lexer_peek 0 lx1 = Ok (t0, lx1)
                              /\ Lexer_peek k' lx2 = Ok (t, lx2)
     end.
Proof.
  intros H. destruct (peek_buffers _ _ _ _ H) as (Hk & new & Hnew).
  split; [by apply peek_buffered|]. split; [|split; [by exists new|]].
  - intros j Hj. pose proof (lookup_lt_Some _ _ _ Hk) as Hlt.
    destruct (lookup_lt_is_Some_2 (lookahead_ lx1) j) as [tj Htj]; [lia|].
    exists tj. by apply peek_buffered.
  - unfold Lexer_next. destruct (lookahead_ lx1) as [|t0 rest] eqn:Hla; [done|].
    destruct k as [|k'].
    + cbn in Hk. injection Hk as ->. by eexists.
    + cbn in Hk. eexists t0, _. split; [done|]. split.
      * apply peek_buffered. by rewrite Hla.
      * by apply peek_buffered.
Qed.

Lemma lookahead_is_consistent_witness :
  exists t0 lx2,
    Lexer_next (mkLexer " 3;" 3 1 4
                  [mkToken TokKind.Ident "x" (mkSpan 0 1 1);
                   mkToken TokKind.Equals "=" (mkSpan 2 1 3)]) = Ok (t0, lx2)
    /\ Lexer_peek 0 (mkLexer " 3;" 3 1 4
                       [mkToken TokKind.Ident "x" (mkSpan 0 1 1);
                        mkToken TokKind.Equals "=" (mkSpan 2 1 3)])
       = Ok (t0, mkLexer " 3;" 3 1 4
                   [mkToken TokKind.Ident "x" (mkSpan 0 1 1);
                    mkToken TokKind.Equals "=" (mkSpan 2 1 3)])
    /\ Lexer_peek 0 lx2 = Ok (mkToken TokKind.Equals "=" (mkSpan 2 1 3), lx2).
Proof.
  refine (proj2 (proj2 (proj2
            (lookahead_is_consistent 1 (Lexer_new "x = 3;") _
               (mkToken TokKind.Equals "=" (mkSpan 2 1 3)) _)))).
  vm_compute. reflexivity.
Defined.

(** * The parser: invariants of the lexer it drives *)

Section Respects.
Context (I : Lexer -> Prop) (E : DescriptionError -> Prop).

Lemma respects_ret {A} (Q : A -> Prop) (a : A) : Q a -> respects I E Q (ret a).
Proof. intros Hq lx Hi. by split. Qed.

Lemma respects_ret_any {A} (a : A) : respects I E any (ret a).
Proof. by apply respects_ret. Qed.

Lemma respects_throw {A} (Q : A -> Prop) e : E e -> respects I E Q (throw e).
Proof. intros He lx Hi. exact He. Qed.

Lemma respects_lift {A} (r : Res A) :
  (forall e, r = Throw e -> E e) -> respects I E any (lift r).
Proof.
  intros Hr lx Hi. unfold lift. destruct r as [a|e|]; [by split| |done]. by apply Hr.
Qed.

Lemma respects_bind {A B} (Q : A -> Prop) (R : B -> Prop) (m : Parser A)
    (k : A -> Parser B) :
  respects I E Q m -> (forall a, Q a -> respects I E R (k a)) ->
  respects I E R (bind m k).
Proof.
  intros Hm Hk lx Hi. specialize (Hm lx Hi). unfold bind.
  destruct (m lx) as [[a lx1]| |]; [|done..].
  destruct Hm as [Hi1 Hq]. apply (Hk a Hq lx1 Hi1).
Qed.

Lemma respects_any {A} (Q : A -> Prop) (m : Parser A) :
  respects I E Q m -> respects I E any m.
Proof.
  intros Hm lx Hi. specialize (Hm lx Hi).
  destruct (m lx) as [[a lx1]| |]; [|done..]. by destruct Hm.
Qed.

Lemma respects_loop_fuel {A} (step : A -> Parser (LoopCtl A)) :
  (forall acc, respects I E any (step acc)) ->
  forall n acc, respects I E any (loop_fuel n step acc).
Proof.
  intros Hs. induction n as [|n IH]; intros acc lx Hi; [done|].
  cbn [loop_fuel]. specialize (Hs acc lx Hi).
  destruct (step acc lx) as [[[a|a] lx1]| |]; [| |done..].
  - destruct Hs as [Hi1 _]. apply (IH a lx1 Hi1).
  - done.
Qed.

Lemma respects_loop {A} (step : A -> Parser (LoopCtl A)) (acc : A) :
  (forall acc, respects I E any (step acc)) -> respects I E any (loop step acc).
Proof. intros Hs lx Hi. unfold loop. by apply respects_loop_fuel. Qed.

Lemma respects_while_ {A} (cond : Parser bool) (body : A -> Parser A) (acc : A) :
  respects I E any cond -> (forall a, respects I E any (body a)) ->
  respects I E any (while_ cond body acc).
Proof.
  intros Hc Hb. unfold while_. apply respects_loop. intros a.
  eapply respects_bind; [exact Hc|]. intros [|] _; [|apply respects_ret_any].
  eapply respects_bind; [apply Hb|]. intros; apply respects_ret_any.
Qed.
End Respects.

(** ** The lexer primitives, from what [nextImpl_] ensures *)

Section RespectsLexer.
Context (J : Lexer -> Prop) (tok : Token -> Prop) (E : DescriptionError -> Prop).
Hypothesis J_lookahead : forall la lx, J lx -> J (with_lookahead la lx).
Hypothesis J_nextImpl :
  forall lx, J lx ->
    match nextImpl_ lx with
    | Ok (t, lx') => J lx' /\ tok t
    | Throw e => E e
    | OutOfFuel => True
    end.

Local Abbreviation I := (buffered J tok).

Lemma buffered_nextImpl lx :
  I lx ->
  match nextImpl_ lx with
  | Ok (t, lx') => I lx' /\ tok t
  | Throw e => E e
  | OutOfFuel => True
  end.
Proof.
  intros [Hj Hla]. specialize (J_nextImpl lx Hj).
  destruct (nextImpl_ lx) as [[t lx']| |] eqn:Hn; [|done..].
  destruct J_nextImpl as [Hj' Ht]. split; [|done]. split; [done|].
  by rewrite (nextImpl_lookahead _ _ _ Hn).
Qed.

Lemma respects_Lexer_next : respects I E tok Lexer_next.
Proof.
  intros lx Hi. unfold Lexer_next.
  destruct (lookahead_ lx) as [|t rest] eqn:Hla.
  - by apply buffered_nextImpl.
  - destruct Hi as [Hj Hall]. rewrite Hla in Hall.
    inversion Hall as [|? ? Ht Hrest]; subst. split; [|done]. split; [|done].
    apply (J_lookahead rest lx Hj).
Qed.

Lemma respects_fill_lookahead n lx :
  I lx ->
  match fill_lookahead n lx with
  | Ok lx' => I lx'
  | Throw e => E e
  | OutOfFuel => True
  end.
Proof.
  revert lx. induction n as [|n IH]; intros lx Hi; cbn [fill_lookahead]; [done|].
  pose proof (buffered_nextImpl lx Hi) as Hn.
  destruct (nextImpl_ lx) as [[t lx1]| |]; [|done..].
  destruct Hn as [[Hj Hla] Ht]. apply IH. split.
  - apply (J_lookahead (lookahead_ lx1 ++ [t]) lx1 Hj).
  - unfold push_lookahead. cbn [lookahead_]. apply Forall_app. split; [done|].
    by constructor.
Qed.

Lemma respects_Lexer_peek k : respects I E tok (Lexer_peek k).
Proof.
  intros lx Hi. unfold Lexer_peek.
  pose proof (respects_fill_lookahead (S k - length (lookahead_ lx)) lx Hi) as Hf.
  destruct (fill_lookahead _ lx) as [lx1| |] eqn:Hfill; [|done..].
  split; [done|].
  destruct (fill_lookahead_spec _ _ _ Hfill) as (new & Hl & Hlen).
  destruct Hf as [_ Hall]. rewrite Forall_forall in Hall. apply Hall.
  apply list_elem_of_In, nth_In. rewrite Hl, length_app. lia.
Qed.
End RespectsLexer.

(** ** The grammar *)

Lemma unquote_loop_Throw n s t filename i out e :
  unquote_loop n s t filename i out = Throw e ->
  exists msg, e = mkDescriptionError filename (span_line (span t)) (span_col (span t)) msg.
Proof.
  revert i out. induction n as [|n IH]; intros i out; cbn [unquote_loop]; [done|].
  destruct (negb (i + 1 <? String.length s)%nat); [done|].
  destruct (negb (char_eqb (string_at s i) BACKSLASH)); [apply IH|].
  destruct (String.length s - 1 <=? i + 1)%nat; [intros [= <-]; by eexists|]. apply IH.
Qed.

Lemma unquote_Throw s t filename e :
  unquote_ s t filename = Throw e ->
  exists msg, e = mkDescriptionError filename (span_line (span t)) (span_col (span t)) msg.
Proof.
  unfold unquote_. destruct (_ || _); [intros [= <-]; by eexists|].
  apply unquote_loop_Throw.
Qed.

Lemma parseDouble_Throw {double} strtod isfinite sv t filename e :
  parseDouble_ double strtod isfinite sv t filename = Throw e ->
  exists msg, e = mkDescriptionError filename (span_line (span t)) (span_col (span t)) msg.
Proof.
  unfold parseDouble_. destruct (strtod sv) as [v consumed].
  destruct (_ || _); [intros [= <-]; by eexists|done].
Qed.

Create HintDb respects discriminated.

(** Decomposition of an action along its [let*]s and branches; a token an
    action returns is known to satisfy the property of tokens. *)
Ltac respects_tac :=
  cbv beta zeta;
  lazymatch goal with
  | |- respects (buffered _ ?tok) _ _ (bind ?m _) =>
      lazymatch type of m with
      | Parser Token =>
          eapply (respects_bind _ _ tok); [respects_tac | intros ? ?; respects_tac]
      | Lexer -> Res (Token * Lexer) =>
          eapply (respects_bind _ _ tok); [respects_tac | intros ? ?; respects_tac]
      | _ =>
          eapply (respects_bind _ _ any); [respects_tac | intros ? _; respects_tac]
      end
  | |- respects _ _ _ (if ?b then _ else _) => destruct b; respects_tac
  | |- respects _ _ _ (match ?x with _ => _ end) => destruct x; respects_tac
  | |- respects _ _ _ (while_ _ _ _) =>
      apply respects_while_; [respects_tac | intros ?; respects_tac]
  | |- respects _ _ _ (loop _ _) =>
      apply respects_loop; intros ?; respects_tac
  | |- respects _ _ any (ret _) => apply respects_ret_any
  | |- _ => solve [eauto 4 with respects]
  end.

Section RespectsGrammar.
Context (double : Type) (strtod : string -> double * nat)
  (isfinite : double -> bool) (SIZE_MAX : N) (filename_ : string).
Context (J : Lexer -> Prop) (tok : Token -> Prop) (E : DescriptionError -> Prop).
Hypothesis J_lookahead : forall la lx, J lx -> J (with_lookahead la lx).
Hypothesis J_nextImpl :
  forall lx, J lx ->
    match nextImpl_ lx with
    | Ok (t, lx') => J lx' /\ tok t
    | Throw e => E e
    | OutOfFuel => True
    end.
Hypothesis E_at :
  forall t msg, tok t ->
    E (mkDescriptionError filename_ (span_line (span t)) (span_col (span t)) msg).

Local Abbreviation I := (buffered J tok).
Local Abbreviation ok := (respects I E any).

Lemma respects_next : respects I E tok Lexer_next.
Proof. by apply respects_Lexer_next. Qed.

Lemma respects_peek k : respects I E tok (Lexer_peek k).
Proof. by apply respects_Lexer_peek. Qed.

Lemma respects_errorAt {A} (Q : A -> Prop) t msg :
  tok t -> respects I E Q (errorAt_ filename_ t msg).
Proof. intros Ht. apply respects_throw. by apply E_at. Qed.

Lemma respects_unquote s t : tok t -> ok (lift (unquote_ s t filename_)).
Proof.
  intros Ht. apply respects_lift. intros e He.
  destruct (unquote_Throw _ _ _ _ He) as [msg ->]. by apply E_at.
Qed.

Lemma respects_parseDouble sv t :
  tok t -> ok (lift (parseDouble_ double strtod isfinite sv t filename_)).
Proof.
  intros Ht. apply respects_lift. intros e He.
  destruct (parseDouble_Throw _ _ _ _ _ _ He) as [msg ->]. by apply E_at.
Qed.

#[local] Hint Resolve respects_next respects_peek : respects.
#[local] Hint Extern 1 (respects _ _ _ (errorAt_ _ _ _)) =>
  apply respects_errorAt; assumption : respects.
#[local] Hint Extern 1 (respects _ _ _ (lift (unquote_ _ _ _))) =>
  apply respects_unquote; assumption : respects.
#[local] Hint Extern 1 (respects _ _ _ (lift (parseDouble_ _ _ _ _ _ _))) =>
  apply respects_parseDouble; assumption : respects.
#[local] Hint Extern 1 (respects _ _ _ (ret _)) =>
  apply respects_ret; assumption : respects.

Lemma respects_expect_ k msg : respects I E tok (expect_ filename_ k msg).
Proof. unfold expect_. respects_tac. Qed.

Lemma respects_expectKeyword_ kw : respects I E tok (expectKeyword_ filename_ kw).
Proof. unfold expectKeyword_. respects_tac. Qed.

Lemma respects_match_ k : ok (match_ k).
Proof. unfold match_. respects_tac. Qed.

Lemma respects_isKeyword_ kw : ok (isKeyword_ kw).
Proof. unfold isKeyword_. respects_tac. Qed.

Lemma respects_peek_kind_is k : ok (peek_kind_is k).
Proof. unfold peek_kind_is. respects_tac. Qed.

Lemma respects_at_keyword_property : ok at_keyword_property.
Proof. unfold at_keyword_property. respects_tac. Qed.

#[local] Hint Resolve respects_expect_ respects_expectKeyword_ respects_match_
  respects_isKeyword_ respects_peek_kind_is respects_at_keyword_property : respects.

Lemma respects_parseValue_ : ok (parseValue_ double strtod isfinite filename_).
Proof. unfold parseValue_. respects_tac. Qed.
#[local] Hint Resolve respects_parseValue_ : respects.

Lemma respects_parseKeywordPropertyInto_ props :
  ok (parseKeywordPropertyInto_ double strtod isfinite filename_ props).
Proof. unfold parseKeywordPropertyInto_. respects_tac. Qed.
#[local] Hint Resolve respects_parseKeywordPropertyInto_ : respects.

Lemma respects_keyword_property_tail props :
  ok (keyword_property_tail double strtod isfinite filename_ props).
Proof. unfold keyword_property_tail. respects_tac. Qed.
#[local] Hint Resolve respects_keyword_property_tail : respects.

Lemma respects_parseProperties_ :
  ok (parseProperties_ double strtod isfinite filename_).
Proof. unfold parseProperties_. respects_tac. Qed.
#[local] Hint Resolve respects_parseProperties_ : respects.

Lemma respects_parseOptionalArray_ : ok (parseOptionalArray_ SIZE_MAX filename_).
Proof. unfold parseOptionalArray_. respects_tac. Qed.
#[local] Hint Resolve respects_parseOptionalArray_ : respects.

Lemma respects_parseField_ :
  ok (parseField_ double strtod isfinite SIZE_MAX filename_).
Proof. unfold parseField_. respects_tac. Qed.
#[local] Hint Resolve respects_parseField_ : respects.

Lemma respects_parseFieldList_ :
  ok (parseFieldList_ double strtod isfinite SIZE_MAX filename_).
Proof. unfold parseFieldList_. respects_tac. Qed.
#[local] Hint Resolve respects_parseFieldList_ : respects.

Lemma respects_parseEnumerate_ : ok (parseEnumerate_ filename_).
Proof. unfold parseEnumerate_. respects_tac. Qed.

Lemma respects_parseInclude_ :
  ok (parseInclude_ double strtod isfinite filename_).
Proof. unfold parseInclude_. respects_tac. Qed.

Lemma respects_parseImport_ : ok (parseImport_ filename_).
Proof. unfold parseImport_. respects_tac. Qed.

Lemma respects_parseExternalLanguage_ : ok (parseExternalLanguage_ filename_).
Proof. unfold parseExternalLanguage_. respects_tac. Qed.
#[local] Hint Resolve respects_parseExternalLanguage_ : respects.

Lemma respects_parseExternalLanguageList_ : ok (parseExternalLanguageList_ filename_).
Proof. unfold parseExternalLanguageList_. respects_tac. Qed.
#[local] Hint Resolve respects_parseExternalLanguageList_ : respects.

Lemma respects_parseExternal_ : ok (parseExternal_ filename_).
Proof. unfold parseExternal_. respects_tac. Qed.

Lemma respects_parseStructure_ :
  ok (parseStructure_ double strtod isfinite SIZE_MAX filename_).
Proof. unfold parseStructure_. respects_tac. Qed.

Lemma respects_parseMessage_ :
  ok (parseMessage_ double strtod isfinite SIZE_MAX filename_).
Proof. unfold parseMessage_. respects_tac. Qed.

Lemma respects_parseNamespace_ : ok (parseNamespace_ filename_).
Proof. unfold parseNamespace_. respects_tac. Qed.

#[local] Hint Resolve respects_parseEnumerate_ respects_parseInclude_
  respects_parseImport_ respects_parseExternal_ respects_parseStructure_
  respects_parseMessage_ respects_parseNamespace_ : respects.

Lemma respects_parseDecl_ :
  ok (parseDecl_ double strtod isfinite SIZE_MAX filename_).
Proof. unfold parseDecl_. respects_tac. Qed.
#[local] Hint Resolve respects_parseDecl_ : respects.

Lemma respects_parseDescription :
  ok (parseDescription double strtod isfinite SIZE_MAX filename_).
Proof. unfold parseDescription. respects_tac. Qed.

(** Every error [parse] throws satisfies [E], when the invariant holds of
    the lexer [parse] starts with. *)
Lemma parse_Throw_respects text e :
  J (Lexer_new text) ->
  parse double strtod isfinite SIZE_MAX text filename_ = Throw e -> E e.
Proof.
  intros Hj. unfold parse.
  pose proof (respects_parseDescription (Lexer_new text)) as H.
  destruct (parseDescription _ _ _ _ _ _) as [[d lx]|e'|]; [done| |done].
  intros [= <-]. apply H. split; [done|constructor].
Qed.

End RespectsGrammar.

(** ** Where errors point *)

Lemma nextImpl_Throw_message lx e :
  nextImpl_ lx = Throw e -> lexer_message (err_message e).
Proof.
  unfold nextImpl_, lexer_message. cbv zeta. set (lx0 := skipWsAndComments_ lx).
  destruct (char_eqb (ch_ lx0) NUL); [done|].
  destruct (char_eqb (ch_ lx0) DQUOTE).
  { intros H. rewrite (lexString_Throw _ _ H). by left. }
  destruct (_ || _).
  { unfold lexNumber_. cbv zeta.
    repeat match goal with
           | |- context [if ?b then _ else _] => destruct b
           end; try done; intros [= <-]; right; by left. }
  destruct (isIdentChar_ _); [done|].
  destruct (symbol_kind _); [done|]. intros [= <-]. right. right. by eexists.
Qed.

Lemma tracks_with_lookahead text la lx :
  tracks text lx -> tracks text (with_lookahead la lx).
Proof. intros (pre & H1 & H2). by exists pre. Qed.

Lemma tracks_nextImpl text filename lx :
  tracks text lx ->
  match nextImpl_ lx with
  | Ok (t, lx') =>
      tracks text lx' /\ in_text text (span_line (span t)) (span_col (span t))
  | Throw e => located_error text filename e
  | OutOfFuel => True
  end.
Proof.
  intros (p0 & Ht & Hs).
  destruct (reads_skipWsAndComments lx) as (ws & Hws).
  destruct (tracks_reads _ _ _ _ _ Ht Hs Hws) as (Ht0 & Hs0).
  destruct (nextImpl_ lx) as [[t lx']|e|] eqn:H; [| |done].
  - destruct (nextImpl_Ok_cases _ _ _ H) as (Hsp & Hr & _).
    destruct (tracks_reads _ _ _ _ _ Ht0 Hs0 Hr) as (Ht1 & Hs1).
    split; [by eexists|].
    exists (p0 +:+ ws), (input_ (skipWsAndComments_ lx)). split; [done|].
    by rewrite Hsp, Hs0.
  - destruct (nextImpl_Throw_position _ _ H) as (Hl & Hc & Hf). split.
    + exists (p0 +:+ ws), (input_ (skipWsAndComments_ lx)). split; [done|].
      rewrite <- Hs0. by rewrite Hl, Hc.
    + right. split; [done|]. by eapply nextImpl_Throw_message.
Qed.

(** X18.  Every error [parse] throws points into the text: its line and
    column are those of a place of the text (of the first character of a
    token, or of the end of the text), lines and columns counted from 1.
    The error names the file passed to [parse], unless it is one of the
    three errors of the lexer (unterminated string literal, malformed
    exponent, unexpected character), which name ["<input>"]. *)
Theorem parse_errors_are_located (double : Type) (strtod : string -> double * nat)
    (isfinite : double -> bool) (SIZE_MAX : N) (text filename : string)
    (e : DescriptionError) :
  parse double strtod isfinite SIZE_MAX text filename = Throw e ->
  in_text text (err_line e) (err_column e)
  /\ (err_file e = filename
      \/ (err_file e = "<input>" /\ lexer_message (err_message e))).
Proof.
  apply (parse_Throw_respects double strtod isfinite SIZE_MAX filename
           (tracks text)
           (fun t => in_text text (span_line (span t)) (span_col (span t)))
           (located_error text filename)).
  - apply tracks_with_lookahead.
  - apply tracks_nextImpl.
  - intros t msg Ht. split; [exact Ht|by left].
  - apply tracks_new.
Qed.

Lemma parse_errors_are_located_witness :
  in_text ("message M {" +:+ NL +:+ "  int32 ;" +:+ NL +:+ "}") 2 9
  /\ ("m.msg" = "m.msg"
      \/ ("m.msg" = "<input>" /\ lexer_message "Expected field name")).
Proof.
  refine (parse_errors_are_located Z example_strtod example_isfinite example_SIZE_MAX
            ("message M {" +:+ NL +:+ "  int32 ;" +:+ NL +:+ "}") "m.msg"
            (mkDescriptionError "m.msg" 2 9 "Expected field name") _).
  vm_compute. reflexivity.
Defined.

(** ** Termination *)

(** X19.  [parse] terminates on every text: it returns a description or
    throws a [DescriptionError].  No loop of the lexer or of the parser
    runs for ever, because every pass through a loop reads at least one
    character or takes at least one token; a single token is read without
    the lexer running out of text to read either. *)
Theorem parse_terminates (double : Type) (strtod : string -> double * nat)
    (isfinite : double -> bool) (SIZE_MAX : N) (text filename : string) :
  ((exists d, parse double strtod isfinite SIZE_MAX text filename = Ok d)
   \/ (exists e, parse double strtod isfinite SIZE_MAX text filename = Throw e))
  /\ (forall lx, (exists t lx', nextImpl_ lx = Ok (t, lx')
                                /\ (remaining lx' <= remaining lx)%nat
                                /\ (kind t <> TokKind.End ->
                                    (remaining lx' < remaining lx)%nat))
                 \/ (exists e, nextImpl_ lx = Throw e)).
Proof.
  split; [apply parse_total|].
  intros lx. destruct (nextImpl_progress lx) as [Hne Hle].
  destruct (nextImpl_ lx) as [[t lx']|e|] eqn:H; [|by right; eexists|done].
  left. exists t, lx'. split; [done|]. specialize (Hle _ _ eq_refl).
  split; [destruct (is_End t); lia|].
  intros Hk. unfold is_End in Hle. destruct (kind t); try done; cbn in Hle; lia.
Qed.

(** ** A text without declarations *)

Lemma blank_skipped n lx :
  (remaining lx < n)%nat -> blank false (input_ lx) = true ->
  input_ (skipWsAndComments_fuel n lx) = EmptyString.
Proof.
  revert lx. induction n as [|n IH]; intros lx Hn Hb; [lia|].
  cbn [skipWsAndComments_fuel]. cbv zeta.
  destruct (reads_advance_while isspace lx eq_refl) as (p1 & (H1 & _) & Hs1 & Hstop1).
  pose proof (remaining_advance_while isspace lx) as Hle1.
  set (lx1 := advance_while isspace lx) in *.
  rewrite H1, blank_spaces in Hb by done.
  destruct (input_ lx1) as [|c r] eqn:Hin1.
  { unfold ch_. rewrite Hin1. cbn. exact Hin1. }
  assert (ch_ lx1 = c) as Hch by (unfold ch_; by rewrite Hin1).
  rewrite Hch in *. cbn [blank] in Hb. rewrite Hstop1 in Hb.
  destruct (char_eqb c "#"%char) eqn:Hc; [|done].
  assert (not_eol (ch_ lx1) = true) as Hnot.
  { rewrite Hch. apply char_eqb_eq in Hc. by rewrite Hc. }
  destruct (reads_advance_while not_eol lx1 eq_refl) as (p2 & (H2 & _) & Hs2 & Hstop2).
  pose proof (remaining_advance_while_lt not_eol lx1 eq_refl Hnot) as Hlt2.
  set (lx2 := advance_while not_eol lx1) in *.
  apply IH; [lia|].
  rewrite Hin1 in H2. destruct p2 as [|c2 q].
  { rewrite string_app_nil_l in H2. unfold remaining in Hlt2.
    rewrite Hin1, <- H2 in Hlt2. cbn in Hlt2. lia. }
  rewrite string_app_cons in H2. injection H2 as <- H2. rewrite H2 in Hb.
  cbn [list_ascii_of_string] in Hs2. inversion Hs2 as [|? ? _ Hq]; subst.
  rewrite blank_comment in Hb by done.
  destruct (input_ lx2) as [|d r2] eqn:Hin2; [done|].
  assert (ch_ lx2 = d) as Hch2 by (unfold ch_; by rewrite Hin2).
  rewrite Hch2 in Hstop2. cbn [blank] in *.
  unfold not_eol in Hstop2. apply andb_false_iff in Hstop2 as [Hd|Hd];
    apply negb_false_iff in Hd.
  - apply char_eqb_eq in Hd as ->. done.
  - apply char_eqb_eq in Hd as ->. done.
Qed.

Lemma blank_nextImpl lx :
  blank false (input_ lx) = true ->
  nextImpl_ lx
  = Ok (mkToken TokKind.End EmptyString (span_here (skipWsAndComments_ lx)),
        skipWsAndComments_ lx).
Proof.
  intros Hb. unfold nextImpl_. cbv zeta.
  assert (input_ (skipWsAndComments_ lx) = EmptyString) as Hin.
  { apply blank_skipped; [unfold remaining; lia|done]. }
  unfold ch_ at 1. by rewrite Hin.
Qed.

(** X20.  A text that holds nothing but white space and comments (the
    empty text among them) is a valid description: [parse] returns the
    description without namespace and without declarations. *)
Theorem blank_text_is_the_empty_description (double : Type)
    (strtod : string -> double * nat) (isfinite : double -> bool) (SIZE_MAX : N)
    (text filename : string) :
  blank false text = true ->
  parse double strtod isfinite SIZE_MAX text filename = Ok (mkDescription None []).
Proof.
  intros Hb. pose proof (blank_nextImpl (Lexer_new text) Hb) as Hn.
  set (lx0 := skipWsAndComments_ (Lexer_new text)) in *.
  assert (lookahead_ lx0 = []) as Hla by apply skipWsAndComments_lookahead.
  set (tEnd := mkToken TokKind.End EmptyString (span_here lx0)) in *.
  assert (Lexer_peek 0 (Lexer_new text) = Ok (tEnd, push_lookahead tEnd lx0)) as Hp.
  { unfold Lexer_peek. cbn [lookahead_ Lexer_new length Nat.sub fill_lookahead].
    rewrite Hn. cbn [fill_lookahead push_lookahead lookahead_ nth]. rewrite Hla. done. }
  set (lx1 := push_lookahead tEnd lx0) in *.
  assert (lookahead_ lx1 = [tEnd]) as Hla1.
  { unfold lx1, push_lookahead. cbn [lookahead_]. by rewrite Hla. }
  assert (Lexer_peek 0 lx1 = Ok (tEnd, lx1)) as Hp1.
  { apply peek_buffered. by rewrite Hla1. }
  unfold parse, parseDescription, isKeyword_, while_, loop, peek_kind_is, expect_.
  unfold bind at 1 2. rewrite Hp. cbv beta iota. unfold ret at 1.
  cbn [kind tEnd TokKind.eqb andb]. unfold bind at 1. unfold ret at 1.
  unfold bind at 1. cbn [loop_fuel]. unfold bind at 1 2 3. rewrite Hp1.
  cbv beta iota. unfold ret at 1. cbn [kind tEnd TokKind.eqb negb].
  unfold ret at 1. cbv beta iota. unfold ret at 1.
  unfold bind at 1 2. unfold Lexer_next. rewrite Hla1.
  cbn [kind tEnd TokKind.eqb negb]. unfold ret at 1. cbv beta iota.
  reflexivity.
Qed.

Lemma blank_text_is_the_empty_description_witness :
  example_parse ("  # nothing here" +:+ NL +:+ NL +:+ "# nor here") "e.msg"
  = Ok (mkDescription None []).
Proof.
  apply (blank_text_is_the_empty_description Z example_strtod example_isfinite
           example_SIZE_MAX).
  vm_compute. reflexivity.
Defined.

(** * Array lengths: printing and reading back *)

Lemma digits_value_acc (d : Decimal.uint) (acc : positive) :
  fold_left (fun acc c => (acc * 10 + (N_of_ascii c - 48))%N)
    (list_ascii_of_string (DecimalString.NilEmpty.string_of_uint d)) (Npos acc)
  = Npos (Pos.of_uint_acc d acc).
Proof.
  revert acc. induction d as [|d IH|d IH|d IH|d IH|d IH|d IH|d IH|d IH|d IH|d IH];
    intros acc; cbn [DecimalString.NilEmpty.string_of_uint list_ascii_of_string fold_left
                     Pos.of_uint_acc]; [done|..];
    rewrite <- IH; f_equal; cbn; lia.
Qed.

Lemma digits_value_uint (d : Decimal.uint) :
  digits_value (list_ascii_of_string (DecimalString.NilEmpty.string_of_uint d))
  = N.of_uint d.
Proof.
  unfold digits_value, N.of_uint.
  induction d as [|d IH|d IH|d IH|d IH|d IH|d IH|d IH|d IH|d IH|d IH];
    cbn [DecimalString.NilEmpty.string_of_uint list_ascii_of_string fold_left Pos.of_uint];
    [done|exact IH|..];
    match goal with
    | |- fold_left ?f ?l ?a = _ =>
        let v := eval cbv in a in change a with v
    end; apply digits_value_acc.
Qed.

Lemma digits_prefix_uint (d : Decimal.uint) :
  digits_prefix (DecimalString.NilEmpty.string_of_uint d)
  = list_ascii_of_string (DecimalString.NilEmpty.string_of_uint d).
Proof.
  induction d as [|d IH|d IH|d IH|d IH|d IH|d IH|d IH|d IH|d IH|d IH];
    cbn [DecimalString.NilEmpty.string_of_uint list_ascii_of_string digits_prefix];
    [done|..]; change (isdigit _) with true; cbv iota; by rewrite IH.
Qed.

Lemma to_uint_not_Nil (n : N) : N.to_uint n <> Decimal.Nil.
Proof.
  destruct n as [|p]; [done|]. cbn. apply DecimalPos.Unsigned.to_uint_nonnil.
Qed.

Lemma decimal_of_N_digits (n : N) :
  decimal_of_N n = DecimalString.NilEmpty.string_of_uint (N.to_uint n).
Proof.
  unfold decimal_of_N, DecimalString.NilZero.string_of_uint.
  pose proof (to_uint_not_Nil n). by destruct (N.to_uint n).
Qed.

Lemma decimal_of_N_value (n : N) :
  digits_prefix (decimal_of_N n) = list_ascii_of_string (decimal_of_N n)
  /\ digits_value (list_ascii_of_string (decimal_of_N n)) = n
  /\ decimal_of_N n <> EmptyString.
Proof.
  rewrite decimal_of_N_digits. split; [apply digits_prefix_uint|]. split.
  - rewrite digits_value_uint. apply DecimalN.Unsigned.of_to.
  - pose proof (to_uint_not_Nil n). by destruct (N.to_uint n).
Qed.

(** X21.  The decimal numeral [std::to_string] gives for an array length
    (the [N] of the emitted C++ type [T[N]]) is read back by
    [std::from_chars] in full and as the same number, as long as the number
    fits [std::size_t]; a number that does not fit is refused as out of
    range, with all its digits consumed.  The numeral is never empty and
    consists of digits. *)
Theorem array_length_round_trip (SIZE_MAX n : N) :
  from_chars SIZE_MAX (decimal_of_N n)
  = (String.length (decimal_of_N n),
     if (n <=? SIZE_MAX)%N then inr n else inl result_out_of_range)
  /\ all_digits (decimal_of_N n)
  /\ forall (double : Type) (g : CppGenerator double) ty name props,
       cpp_getFieldType_ double g
         (mkField ty (Some (mkFieldArray (Some n))) name props None)
       = base_type double (cpp_registry_ double g)
           (mkField ty (Some (mkFieldArray (Some n))) name props None)
         +:+ "[" +:+ decimal_of_N n +:+ "]".
Proof.
  destruct (decimal_of_N_value n) as (Hp & Hv & Hne).
  split; [|split; [|done]].
  - unfold from_chars. rewrite Hp, Hv, length_list_ascii.
    destruct (list_ascii_of_string (decimal_of_N n)) eqn:Hl.
    { destruct (decimal_of_N n); done. }
    by destruct (n <=? SIZE_MAX)%N.
  - split; [done|]. rewrite <- Hp. clear.
    induction (decimal_of_N n) as [|c s IH]; cbn [digits_prefix]; [constructor|].
    destruct (isdigit c) eqn:Hc; constructor; [done|].
    (* the prefix of digits consists of digits *)
    clear IH. induction s as [|c' s IH']; cbn [digits_prefix]; [constructor|].
    destruct (isdigit c') eqn:Hc'; constructor; done.
Qed.

(** * Namespaces in the C++ header *)










(** * The driver *)

(** ** Output file names *)

Lemma find_last_of_from_free (set : ascii -> bool) (s : string) (i : nat)
    (found : option nat) :
  Forall (fun c => set c = false) (list_ascii_of_string s) ->
  find_last_of_from set s i found = found.
Proof.
  revert i found. induction s as [|c s IH]; intros i found H; [done|].
  cbn [list_ascii_of_string] in H. inversion H as [|? ? Hc Hs]; subst.
  cbn [find_last_of_from]. rewrite Hc. by apply IH.
Qed.

Lemma find_last_of_from_last (set : ascii -> bool) (pre : string) (c : ascii)
    (post : string) (i : nat) (found : option nat) :
  set c = true -> Forall (fun c => set c = false) (list_ascii_of_string post) ->
  find_last_of_from set (pre +:+ String.String c post) i found
  = Some (i + String.length pre)%nat.
Proof.
  intros Hc Hpost. revert i found. induction pre as [|a pre IH]; intros i found.
  - rewrite string_app_nil_l. cbn [find_last_of_from String.length]. rewrite Hc.
    rewrite find_last_of_from_free by done. f_equal. lia.
  - rewrite string_app_cons. cbn [find_last_of_from String.length]. rewrite IH.
    f_equal. lia.
Qed.

Lemma output_filename_of_name (name : string) (lang : OutputLanguage) :
  no_path_separator name ->
  output_filename name lang
  = match find_last_of (fun c => char_eqb c "."%char) name with
    | Some pos => String.substring 0 pos name
    | None => name
    end +:+ extension lang.
Proof.
  intros Hn. unfold output_filename.
  assert (find_last_of is_path_separator name = None) as ->.
  { unfold find_last_of. by apply find_last_of_from_free. }
  by destruct lang.
Qed.

(** X23.  The name of the output file, case by case.  The directory part
    of the input name (everything up to the last [/] or backslash) plays no
    part, so inputs of the same name in different directories are given the
    same output file.  Of the name that is left, what follows the last dot
    is replaced by [cpp] or [py]; a name without a dot has [.cpp] or [.py]
    appended.  Applying the function to its own result changes nothing. *)
Theorem output_file_names (lang : OutputLanguage) :
  (forall dir sep name,
     is_path_separator sep = true -> no_path_separator name ->
     output_filename (dir +:+ String.String sep name) lang = output_filename name lang)
  /\ (forall stem ext,
        no_path_separator (stem +:+ "." +:+ ext) -> no_dot ext ->
        output_filename (stem +:+ "." +:+ ext) lang = stem +:+ extension lang)
  /\ (forall name,
        no_path_separator name -> no_dot name ->
        output_filename name lang = name +:+ extension lang)
  /\ (forall p, output_filename (output_filename p lang) lang = output_filename p lang).
Proof.
  assert (forall stem ext,
            no_path_separator (stem +:+ "." +:+ ext) -> no_dot ext ->
            output_filename (stem +:+ "." +:+ ext) lang = stem +:+ extension lang) as Hext.
  { intros stem ext Hs He. rewrite output_filename_of_name by done.
    change (stem +:+ "." +:+ ext) with (stem +:+ String.String "."%char ext).
    assert (find_last_of (fun c => char_eqb c "."%char)
              (stem +:+ String.String "."%char ext) = Some (String.length stem)) as ->.
    { unfold find_last_of. by rewrite find_last_of_from_last. }
    by rewrite substring_prefix. }
  split; [|split; [exact Hext|split]].
  - intros dir sep name Hsep Hname. unfold output_filename at 1.
    assert (find_last_of is_path_separator (dir +:+ String.String sep name)
            = Some (String.length dir)) as ->.
    { unfold find_last_of. by rewrite find_last_of_from_last. }
    rewrite substring_app_r.
    rewrite (output_filename_of_name name lang Hname). by destruct lang.
  - intros name Hs Hd. rewrite output_filename_of_name by done.
    assert (find_last_of (fun c => char_eqb c "."%char) name = None) as ->.
    { unfold find_last_of. by apply find_last_of_from_free. }
    done.
  - intros p. pose proof (output_filename_no_directory p lang) as Hno.
    assert (exists stem,
              output_filename p lang
              = stem +:+ "." +:+ match lang with CPP => "cpp" | Python => "py" end)
      as [stem Hst].
    { unfold output_filename. destruct lang; eexists; reflexivity. }
    rewrite Hst in *. rewrite Hext; [by destruct lang|done|].
    destruct lang; repeat constructor.
Qed.

Lemma output_file_names_witness :
  output_filename ("a/b" +:+ String.String "/"%char "x.msg") CPP
  = output_filename "x.msg" CPP.
Proof.
  refine (proj1 (output_file_names CPP) "a/b" "/"%char "x.msg" _ _).
  - reflexivity.
  - unfold no_path_separator. repeat constructor.
Defined.

(** ** Command-line arguments *)


Section DriverMore.
Context (double : Type) (strtod : string -> double * nat)
  (isfinite : double -> bool) (SIZE_MAX : N)
  (ostream_double : double -> string) (char_is_signed : bool).

Local Abbreviation parse_text := (parse double strtod isfinite SIZE_MAX).
Local Abbreviation run_main :=
  (main double strtod isfinite SIZE_MAX ostream_double char_is_signed).
Local Abbreviation run_files :=
  (process_files double strtod isfinite SIZE_MAX ostream_double char_is_signed).
Local Abbreviation gen_code :=
  (generate_code double ostream_double char_is_signed).

End DriverMore.


(** ** What the driver touches *)

Lemma extends_refl s : extends s s.
Proof. exists EmptyString. by rewrite string_app_nil_r. Qed.

Lemma extends_app s t : extends s (s +:+ t).
Proof. by exists t. Qed.

Lemma extends_trans a b c : extends a b -> extends b c -> extends a c.
Proof. intros [s ->] [t ->]. exists (s +:+ t). by rewrite string_app_assoc. Qed.

Section DriverEffects.
Context (double : Type) (strtod : string -> double * nat)
  (isfinite : double -> bool) (SIZE_MAX : N)
  (ostream_double : double -> string) (char_is_signed : bool).

Local Abbreviation parse_text := (parse double strtod isfinite SIZE_MAX).
Local Abbreviation run_main :=
  (main double strtod isfinite SIZE_MAX ostream_double char_is_signed).
Local Abbreviation run_files :=
  (process_files double strtod isfinite SIZE_MAX ostream_double char_is_signed).
Local Abbreviation gen_code :=
  (generate_code double ostream_double char_is_signed).

Lemma generate_code_effects d f lang w :
  let w' := gen_code d f lang w in
  stdin w' = stdin w /\ writable w' = writable w
  /\ extends (stdout w) (stdout w') /\ extends (stderr w) (stderr w')
  /\ (f <> EmptyString -> stdout w' = stdout w)
  /\ (f = EmptyString -> files w' = files w)
  /\ (files w' = files w
      \/ exists text, files w' = (output_filename f lang, text) :: files w).
Proof.
  cbv zeta. unfold generate_code. destruct f as [|c f].
  - cbn [string_is_empty negb]. cbn [string_is_empty cout stdin writable stdout stderr files].
    repeat split; try done; try apply extends_refl; try apply extends_app. by left.
  - cbn [string_is_empty negb].
    rewrite (output_filename_not_empty (String.String c f) lang).
    destruct (writable w (output_filename (String.String c f) lang));
      cbn [negb cerr write_file stdin writable stdout stderr files];
      repeat split; try done; try apply extends_refl; try apply extends_app.
    + right. by eexists.
    + by left.
Qed.

Lemma process_files_effects fs lang w :
  let w' := snd (run_files fs lang w) in
  stdin w' = stdin w /\ writable w' = writable w
  /\ extends (stdout w) (stdout w') /\ extends (stderr w) (stderr w')
  /\ (EmptyString ∉ fs -> stdout w' = stdout w)
  /\ exists new,
       files w' = new ++ files w
       /\ Forall (fun kv => fst kv ∈ (fun f => output_filename f lang) <$> fs) new.
Proof.
  cbv zeta. revert w. induction fs as [|f fs IH]; intros w; cbn [process_files].
  - cbn [snd]. repeat split; try done; try apply extends_refl. by exists [].
  - destruct (read_file w f) as [text|].
    2:{ cbn [snd cerr stdin writable stdout stderr files].
        repeat split; try done; try apply extends_refl; try apply extends_app.
        by exists []. }
    destruct (parse_text text f) as [d|e|].
    + destruct (generate_code_effects d f lang w) as (G1 & G2 & G3 & G4 & G5 & _ & G7).
      cbv zeta in *.
      destruct (IH (gen_code d f lang w)) as (H1 & H2 & H3 & H4 & H5 & new & H6 & H7).
      split; [by rewrite H1|]. split; [by rewrite H2|].
      split; [by eapply extends_trans|]. split; [by eapply extends_trans|].
      split.
      * intros Hne. apply not_elem_of_cons in Hne as [Hf Hfs].
        rewrite H5 by done. apply G5. congruence.
      * destruct G7 as [G7|[txt G7]].
        -- exists new. split; [by rewrite H6, G7|].
           eapply Forall_impl; [exact H7|]. intros kv Hkv. rewrite fmap_cons.
           by right.
        -- exists (new ++ [(output_filename f lang, txt)]). split.
           ++ rewrite H6, G7. by rewrite <- app_assoc.
           ++ apply Forall_app. split.
              ** eapply Forall_impl; [exact H7|]. intros kv Hkv. rewrite fmap_cons.
                 by right.
              ** constructor; [|constructor]. rewrite fmap_cons. by left.
    + cbn [snd cerr stdin writable stdout stderr files].
      repeat split; try done; try apply extends_refl; try apply extends_app.
      by exists [].
    + cbn [snd]. repeat split; try done; try apply extends_refl. by exists [].
Qed.

Lemma stdin_mode_effects lang w :
  let w' := snd (let '(input, w1) := read_stdin w in
                 match parse_text input "input" with
                 | Ok d => (0, gen_code d EmptyString lang w1)
                 | Throw e => (1, cerr (what e +:+ NL) w1)
                 | OutOfFuel => (1, w1)
                 end) in
  writable w' = writable w
  /\ extends (stdout w) (stdout w') /\ extends (stderr w) (stderr w')
  /\ files w' = files w /\ stdin w' = EmptyString.
Proof.
  cbv zeta. unfold read_stdin.
  destruct (parse_text (stdin w) "input") as [d|e|].
  - match goal with
    | |- context [gen_code d EmptyString lang ?w1] =>
        destruct (generate_code_effects d EmptyString lang w1)
          as (G1 & G2 & G3 & G4 & _ & G6 & _)
    end.
    cbv zeta in *. cbn [snd]. cbn [stdin writable stdout stderr files] in *.
    split; [done|]. split; [done|]. split; [done|]. split; [by apply G6|done].
  - cbn [snd cerr stdin writable stdout stderr files].
    repeat split; try done; try apply extends_refl; try apply extends_app.
  - cbn [snd stdin writable stdout stderr files].
    repeat split; try done; try apply extends_refl.
Qed.

(** X25.  What a run of [gen] can change.  It only appends to standard
    output and standard error, never deletes a file, and the only files it
    creates or overwrites bear the output names of its input files.  When
    it reads standard input (at most one file named) it writes no file at
    all; when it reads files (two or more named) it does not read standard
    input, and it writes nothing to standard output unless an input file
    has the empty name. *)
Theorem main_effects (args : list string) (w : World) :
  let w' := snd (run_main args w) in
  extends (stdout w) (stdout w')
  /\ extends (stderr w) (stderr w')
  /\ writable w' = writable w
  /\ (exists new, files w' = new ++ files w)
  /\ forall lang fs,
       parse_args args CPP [] = inl (lang, fs) ->
       ((length fs <= 1)%nat -> files w' = files w)
       /\ ((1 < length fs)%nat ->
           stdin w' = stdin w
           /\ (EmptyString ∉ fs -> stdout w' = stdout w)
           /\ exists new,
                files w' = new ++ files w
                /\ Forall (fun kv => fst kv ∈ (fun f => output_filename f lang) <$> fs)
                     new).
Proof.
  cbv zeta. unfold main.
  destruct (parse_args args CPP []) as [[lang fs]|l] eqn:Hargs.
  2:{ cbn [snd cerr stdin writable stdout stderr files].
      split; [apply extends_refl|]. split; [apply extends_app|]. split; [done|].
      split; [by exists []|]. done. }
  destruct (1 <? length fs)%nat eqn:Hlen.
  - apply Nat.ltb_lt in Hlen.
    destruct (process_files_effects fs lang w) as (H1 & H2 & H3 & H4 & H5 & new & H6 & H7).
    cbv zeta in *. split; [done|]. split; [done|]. split; [done|].
    split; [by exists new|]. intros lang' fs' [= <- <-]. split; [lia|].
    intros _. split; [done|]. split; [done|]. by exists new.
  - apply Nat.ltb_ge in Hlen.
    destruct (stdin_mode_effects lang w) as (H1 & H2 & H3 & H4 & H5).
    cbv zeta in *. split; [done|]. split; [done|]. split; [done|].
    split; [exists []; by rewrite H4|]. intros lang' fs' [= <- <-].
    split; [done|]. lia.
Qed.

(** X26.  When exactly one input file is named on the
    command line, [gen] does not read it: it behaves as if no file were
    named, reading standard input and writing to standard output.  It
    writes no file, and its exit code and what it prints are the same
    whatever the files hold. *)
Theorem single_input_file_is_not_read (args args' : list string) (w : World)
    (lang : OutputLanguage) (f : string) :
  parse_args args CPP [] = inl (lang, [f]) ->
  parse_args args' CPP [] = inl (lang, []) ->
  run_main args w = run_main args' w
  /\ files (snd (run_main args w)) = files w
  /\ forall fs,
       let w0 := mkWorld fs (writable w) (stdin w) (stdout w) (stderr w) in
       fst (run_main args w0) = fst (run_main args w)
       /\ stdout (snd (run_main args w0)) = stdout (snd (run_main args w))
       /\ stderr (snd (run_main args w0)) = stderr (snd (run_main args w))
       /\ files (snd (run_main args w0)) = fs.
Proof.
  intros H1 H2. split; [|split].
  - unfold main. by rewrite H1, H2.
  - destruct (stdin_mode_effects lang w) as (_ & _ & _ & H4 & _).
    unfold main. rewrite H1. exact H4.
  - intros fs w0.
    assert (files (snd (run_main args w0)) = fs) as Hfiles.
    { destruct (stdin_mode_effects lang w0) as (_ & _ & _ & H4 & _).
      unfold main. rewrite H1. exact H4. }
    split; [|split; [|split]]; [| | |exact Hfiles];
      unfold main; rewrite H1; subst w0;
      cbn [length Nat.ltb Nat.leb read_stdin stdin];
      (destruct (parse_text (stdin w) "input") as [d|e|]; [|done..]);
      rewrite !generate_code_stdout; done.
Qed.
End DriverEffects.

Lemma single_input_file_is_not_read_witness :
  example_main ["d/a.msg"] example_world = example_main [] example_world.
Proof.
  refine (proj1 (single_input_file_is_not_read Z example_strtod example_isfinite
                   example_SIZE_MAX example_ostream_double false
                   ["d/a.msg"] [] example_world CPP "d/a.msg" _ _));
    reflexivity.
Defined.

Lemma main_effects_witness :
  stdin (snd (example_main ["d/a.msg"; "d/b.msg"] example_world)) = stdin example_world
  /\ stdout (snd (example_main ["d/a.msg"; "d/b.msg"] example_world))
     = stdout example_world
  /\ exists new,
       files (snd (example_main ["d/a.msg"; "d/b.msg"] example_world))
       = new ++ files example_world
       /\ Forall (fun kv => fst kv ∈ (fun f => output_filename f CPP)
                                       <$> ["d/a.msg"; "d/b.msg"]) new.
Proof.
  unshelve refine (let H := proj2 (proj2 (proj2 (proj2 (proj2
                     (main_effects Z example_strtod example_isfinite example_SIZE_MAX
                        example_ostream_double false ["d/a.msg"; "d/b.msg"]
                        example_world)))) CPP ["d/a.msg"; "d/b.msg"] _) _ in
          conj (proj1 H) (conj (proj1 (proj2 H) _) (proj2 (proj2 H)))).
  - reflexivity.
  - cbn. lia.
  - apply (bool_decide_unpack _). vm_compute. exact I.
Defined.

(** * Pieces of the generated text *)

Lemma occurs_in_refl (p : string) : occurs_in p p.
Proof. exists EmptyString, EmptyString. by rewrite string_app_nil_l, string_app_nil_r. Qed.

Lemma occurs_in_app_l (p a b : string) : occurs_in p a -> occurs_in p (a +:+ b).
Proof.
  intros (pre & post & ->). exists pre, (post +:+ b).
  by rewrite !string_app_assoc.
Qed.

Lemma occurs_in_app_r (p a b : string) : occurs_in p b -> occurs_in p (a +:+ b).
Proof.
  intros (pre & post & ->). exists (a +:+ pre), post.
  by rewrite !string_app_assoc.
Qed.

Lemma occurs_in_trans (p q r : string) : occurs_in p q -> occurs_in q r -> occurs_in p r.
Proof.
  intros (pre & post & ->) (pre' & post' & ->). exists (pre' +:+ pre), (post +:+ post').
  by rewrite !string_app_assoc.
Qed.

Lemma occurs_in_emit_each {A} (l : list A) (f : A -> string) (x : A) :
  x ∈ l -> occurs_in (f x) (emit_each l f).
Proof.
  intros Hx. apply list_elem_of_split in Hx as (l1 & l2 & ->).
  unfold emit_each. rewrite map_app. cbn [map].
  exists (string_concat (map f l1)), (string_concat (map f l2)).
  induction l1 as [|a l1 IH]; cbn [map app string_concat].
  - by rewrite string_app_nil_l.
  - by rewrite IH, !string_app_assoc.
Qed.

Lemma occurs_in_emit_separated {A} (sep : string) (l : list A) (f : A -> string) (x : A) :
  x ∈ l -> occurs_in (f x) (emit_separated sep l f).
Proof.
  induction l as [|a l IH]; intros Hx; [by apply elem_of_nil in Hx|].
  destruct l as [|b l].
  - apply list_elem_of_singleton in Hx as ->. apply occurs_in_refl.
  - change (emit_separated sep (a :: b :: l) f)
      with (f a +:+ sep +:+ emit_separated sep (b :: l) f).
    apply elem_of_cons in Hx as [->|Hx].
    + apply occurs_in_app_l, occurs_in_refl.
    + by apply occurs_in_app_r, occurs_in_app_r, IH.
Qed.

Lemma emit_each_fmap {A B} (h : A -> B) (l : list A) (f : B -> string) :
  emit_each (h <$> l) f = emit_each l (fun a => f (h a)).
Proof. unfold emit_each. f_equal. induction l as [|a l IH]; [done|]. cbn. by f_equal. Qed.

Lemma emit_each_ext_in {A} (l : list A) (f g : A -> string) :
  (forall a, a ∈ l -> f a = g a) -> emit_each l f = emit_each l g.
Proof.
  intros H. unfold emit_each. f_equal. induction l as [|a l IH]; [done|].
  cbn [map]. rewrite H by (by left). f_equal. apply IH. intros b Hb. apply H. by right.
Qed.

Lemma emit_each_map_keys {V} (m : std_map V) (F : string -> V -> string) (dflt : string) :
  map_sorted m ->
  emit_each m (fun kv => F (fst kv) (snd kv)) =
  emit_each (map_keys m)
    (fun k => match map_find k m with Some v => F k v | None => dflt end).
Proof.
  intros Hs. unfold map_keys. rewrite emit_each_fmap. apply emit_each_ext_in.
  intros [k v] Hin. cbn [fst snd]. by rewrite (map_find_sorted_entry m k v Hs Hin).
Qed.

(** Finding the part a piece occurs in, in a text put together from
    parts. *)
Ltac find_piece H :=
  lazymatch type of H with
  | occurs_in _ ?x =>
      repeat lazymatch goal with
        | |- occurs_in _ x => exact H
        | |- occurs_in _ (x +:+ _) => apply occurs_in_app_l; exact H
        | |- occurs_in _ (_ +:+ _) => apply occurs_in_app_r
        end
  end.

(** * Assignments to a map and changes of its values *)

Lemma map_assign_fmap {V W} (h : V -> W) (k : string) (v : V) (m : std_map V) :
  (fun kv => (fst kv, h (snd kv))) <$> map_assign k v m
  = map_assign k (h v) ((fun kv => (fst kv, h (snd kv))) <$> m).
Proof.
  induction m as [|[k' v'] m IH]; [done|].
  cbn [map_assign]. rewrite fmap_cons. cbn [fst snd map_assign].
  destruct (String.compare k k'); rewrite ?fmap_cons; cbn [fst snd]; [done..|].
  by rewrite IH.
Qed.

(** * The structures and messages of a description in its registry *)

Section Records.
Context {double : Type} (env : bool).
Implicit Types (r : TypeRegistry double) (d : Decl double)
  (ds : list (Decl double)) (D : Description double).

Local Abbreviation register := (register_decl double env).
Local Abbreviation build := (buildRegistry_ double env).

Lemma getStruct_fold_records ds r name :
  name ∉ record_names ds ->
  getStruct (fold_left register ds r) name = getStruct r name.
Proof.
  revert r. induction ds as [|d ds IH]; intros r Hn; [done|].
  cbn [fold_left]. unfold record_names in *. cbn [omap list_omap] in Hn.
  destruct d as [e|i|i|x|s|m];
    try apply not_elem_of_cons in Hn as [Hne Hn];
    rewrite IH by done; rewrite getStruct_register; try done.
  - destruct (String.eqb name (struct_name s)) eqn:E; [|done].
    by apply string_eqb_eq in E.
  - destruct (String.eqb name (msg_name m)) eqn:E; [|done].
    by apply string_eqb_eq in E.
Qed.

Lemma declares_getStruct D name fs :
  declares D name fs -> getStruct (build D) name = Some (field_map fs).
Proof.
  intros (pre & d & post & Hd & Hrec & Hpost).
  unfold buildRegistry_. rewrite Hd, fold_left_app. cbn [fold_left].
  rewrite getStruct_fold_records by done. rewrite getStruct_register.
  destruct d as [e|i|i|x|s|m]; try done; cbn [record_of] in Hrec;
    injection Hrec as <- <-; by rewrite String.eqb_refl.
Qed.

Lemma declares_stored D name fs :
  declares D name fs -> (name, field_map fs) ∈ structs_ (build D).
Proof. intros H. by apply map_find_Some_elem, declares_getStruct. Qed.

Lemma stored_field_elem fs k (f : Field double) :
  stored_field fs k = Some f -> (k, f) ∈ field_map fs.
Proof. apply map_find_Some_elem. Qed.
End Records.

(** * The basename of an input file *)










(** * Inputs and outputs of the driver *)

Section DriverFiles.
Context (double : Type) (strtod : string -> double * nat)
  (isfinite : double -> bool) (SIZE_MAX : N)
  (ostream_double : double -> string) (char_is_signed : bool).

Local Abbreviation parse_text := (parse double strtod isfinite SIZE_MAX).
Local Abbreviation run_main :=
  (main double strtod isfinite SIZE_MAX ostream_double char_is_signed).
Local Abbreviation run_files :=
  (process_files double strtod isfinite SIZE_MAX ostream_double char_is_signed).
Local Abbreviation gen_text :=
  (generated_text double ostream_double char_is_signed).

End DriverFiles.


(** * The order of the fields in the generated C++ *)

Section FieldOrder.
Context (double : Type) (od : double -> string) (env : bool).
Implicit Types (r : TypeRegistry double) (d : Decl double)
  (ds : list (Decl double)) (D : Description double) (g : CppGenerator double).

Local Abbreviation register := (register_decl double env).
Local Abbreviation build := (buildRegistry_ double env).
Local Abbreviation new := (CppGenerator_new double env).

(** ** The text of one structure *)



(** ** The texts of all structures in the header *)


Lemma classes_in_header D basename :
  occurs_in (cpp_generateStructs_ double od (new D))
    (generate_cpp double od env D basename).
Proof.
  unfold generate_cpp, CppGenerator_generate.
  pose proof (occurs_in_refl (cpp_generateStructs_ double od (new D))) as H.
  find_piece H.
Qed.

Lemma class_in_header D basename name fm :
  (name, fm) ∈ structs_ (build D) ->
  occurs_in (cpp_struct_class double od (new D) name fm)
    (generate_cpp double od env D basename).
Proof.
  intros Hin. eapply occurs_in_trans; [|apply classes_in_header].
  unfold cpp_generateStructs_.
  exact (occurs_in_emit_each _
           (fun nf => cpp_struct_class double od (new D) (fst nf) (snd nf))
           (name, fm) Hin).
Qed.


(** ** The field names the generators visit *)






End FieldOrder.


(** * Array specifiers in the generated code *)

Lemma occurs_in_prefix (p q : string) : occurs_in p (p +:+ q).
Proof. apply occurs_in_app_l, occurs_in_refl. Qed.

Lemma from_chars_decimal (SIZE_MAX n : N) :
  (n <= SIZE_MAX)%N ->
  from_chars SIZE_MAX (decimal_of_N n) = (String.length (decimal_of_N n), inr n).
Proof.
  intros Hn. destruct (decimal_of_N_value n) as (Hp & Hv & Hne).
  unfold from_chars. rewrite Hp, Hv, length_list_ascii.
  destruct (list_ascii_of_string (decimal_of_N n)) eqn:Hl.
  { destruct (decimal_of_N n); done. }
  apply N.leb_le in Hn. by rewrite Hn.
Qed.

Lemma digits_prefix_digits (s : string) :
  Forall (fun c => isdigit c = true) (digits_prefix s).
Proof.
  induction s as [|c s IH]; cbn [digits_prefix]; [constructor|].
  destruct (isdigit c) eqn:Hc; by constructor.
Qed.

Lemma decimal_of_N_all_digits (n : N) : all_digits (decimal_of_N n).
Proof.
  destruct (decimal_of_N_value n) as (Hp & _ & Hne). split; [done|].
  rewrite <- Hp. apply digits_prefix_digits.
Qed.

Section ArrayCode.
Context (double : Type) (od : double -> string) (env : bool).
Implicit Types (D : Description double) (g : CppGenerator double)
  (pg : PythonGenerator double) (f : Field double) (fm : std_map (Field double)).

Local Abbreviation build := (buildRegistry_ double env).

(** ** C++ *)

Lemma cpp_getFieldType_array g f :
  cpp_getFieldType_ double g f =
  match f_array f with
  | Some arr =>
      match length_ arr with
      | Some n => cpp_fixed_array (base_type double (cpp_registry_ double g) f) n
      | None => cpp_dynamic_array (base_type double (cpp_registry_ double g) f)
      end
  | None => base_type double (cpp_registry_ double g) f
  end.
Proof. reflexivity. Qed.

Lemma member_in_class g name fm k f :
  (k, f) ∈ fm ->
  occurs_in (TABs +:+ cpp_getFieldType_ double g f +:+ " " +:+ k +:+ ";" +:+ NL)
    (cpp_struct_class double od g name fm).
Proof.
  intros Hin.
  pose proof (occurs_in_emit_each fm
                (fun kv => TABs +:+ cpp_getFieldType_ double g (snd kv) +:+ " "
                           +:+ fst kv +:+ ";" +:+ NL) (k, f) Hin) as H.
  cbn [fst snd] in H. unfold cpp_struct_class. find_piece H.
Qed.

Lemma parameter_in_class g name fm k f :
  (k, f) ∈ fm ->
  occurs_in (TABs +:+ TABs +:+ cpp_getFieldType_ double g f +:+ " " +:+ k +:+ " = ")
    (cpp_struct_class double od g name fm).
Proof.
  intros Hin.
  pose proof (occurs_in_emit_separated ("," +:+ NL) fm
                (fun kv => TABs +:+ TABs +:+ cpp_getFieldType_ double g (snd kv) +:+ " "
                           +:+ fst kv +:+ " = " +:+ cpp_getDefaultValue_ double od g (snd kv))
                (k, f) Hin) as H.
  cbn [fst snd] in H.
  eapply occurs_in_trans.
  2:{ unfold cpp_struct_class, cpp_constructor_params. find_piece H. }
  exists EmptyString, (cpp_getDefaultValue_ double od g f).
  by rewrite string_app_nil_l, !string_app_assoc.
Qed.

(** ** Python *)

Lemma classes_in_module D :
  occurs_in (py_generateStructs_ double od (PythonGenerator_new double env D))
    (generate_python double od env D).
Proof.
  unfold generate_python, PythonGenerator_generate.
  pose proof (occurs_in_refl
                (py_generateStructs_ double od (PythonGenerator_new double env D))) as H.
  find_piece H.
Qed.

Lemma python_field_lines pg name fm k f :
  (name, fm) ∈ structs_ (py_registry_ double pg) -> (k, f) ∈ fm ->
  occurs_in ("," +:+ NL +:+ "        " +:+ k +:+ " = " +:+ py_getDefaultValue_ double od pg f)
    (py_generateStructs_ double od pg)
  /\ occurs_in (py_init_field double pg k f) (py_generateStructs_ double od pg)
  /\ occurs_in (py_read_field double pg k f) (py_generateStructs_ double od pg)
  /\ occurs_in (py_write_field double pg k f) (py_generateStructs_ double od pg).
Proof.
  intros Hrec Hin.
  pose proof (occurs_in_emit_each fm
                (fun kv => "," +:+ NL +:+ "        " +:+ fst kv +:+ " = "
                           +:+ py_getDefaultValue_ double od pg (snd kv)) (k, f) Hin) as H1.
  pose proof (occurs_in_emit_each fm
                (fun kv => py_init_field double pg (fst kv) (snd kv)) (k, f) Hin) as H2.
  pose proof (occurs_in_emit_each fm
                (fun kv => py_read_field double pg (fst kv) (snd kv)) (k, f) Hin) as H3.
  pose proof (occurs_in_emit_each fm
                (fun kv => py_write_field double pg (fst kv) (snd kv)) (k, f) Hin) as H4.
  cbn [fst snd] in H1, H2, H3, H4.
  unfold py_generateStructs_.
  repeat split;
    (eapply occurs_in_trans;
     [|exact (occurs_in_emit_each (structs_ (py_registry_ double pg)) _ (name, fm) Hrec)]);
    cbv beta zeta; cbn [fst snd].
  - find_piece H1.
  - find_piece H2.
  - find_piece H3.
  - find_piece H4.
Qed.

(** ** The declared lengths and the Python emitter *)

Lemma field_map_fmap (h : Field double -> Field double) (fs : list (Field double)) :
  (forall f, f_name (h f) = f_name f) ->
  field_map (h <$> fs) = map_fields h (field_map fs).
Proof.
  intros Hname. unfold field_map.
  change (@nil (string * Field double)) with (map_fields h []) at 1.
  generalize (@nil (string * Field double)) as m.
  induction fs as [|f fs IH]; intros m; [done|].
  rewrite fmap_cons. cbn [fold_left]. rewrite <- IH. f_equal.
  unfold map_fields. by rewrite map_assign_fmap, Hname.
Qed.

Lemma struct_content_fmap (h : Field double -> Field double) name fm :
  (forall f, f_type (h f) = f_type f) ->
  struct_content name (map_fields h fm) = struct_content name fm.
Proof.
  intros Htype. unfold struct_content, map_fields. revert name.
  induction fm as [|[k f] fm IH]; intros name; [done|].
  rewrite fmap_cons. cbn [fold_left fst snd]. by rewrite IH, Htype.
Qed.

Lemma registerBuiltinTypes_map_fields h (r : TypeRegistry double) :
  registerBuiltinTypes_ double env (registry_map_fields h r)
  = registry_map_fields h (registerBuiltinTypes_ double env r).
Proof. reflexivity. Qed.

Lemma register_without_lengths (r : TypeRegistry double) (d : Decl double) :
  register_decl double env (registry_map_fields without_length r) (decl_without_lengths d)
  = registry_map_fields without_length (register_decl double env r d).
Proof.
  destruct d as [e|i|i|x|s|m]; try reflexivity;
    cbn [decl_without_lengths register_decl struct_name struct_fields msg_name
           msg_fields fields];
    rewrite field_map_fmap by done;
    unfold registerMessage, registerStruct, registerType, registry_map_fields;
    cbn [types_ enums_ structs_ messages_ tm_name];
    rewrite struct_content_fmap by done;
    by rewrite (map_assign_fmap (map_fields without_length)).
Qed.

Lemma build_without_lengths D :
  build (without_lengths D) = registry_map_fields without_length (build D).
Proof.
  unfold buildRegistry_, without_lengths. cbn [decls].
  assert (registerBuiltinTypes_ double env (TypeRegistry_new double env)
          = registry_map_fields without_length
              (registerBuiltinTypes_ double env (TypeRegistry_new double env))) as Hb.
  { unfold TypeRegistry_new. rewrite <- !registerBuiltinTypes_map_fields. reflexivity. }
  rewrite Hb at 1.
  generalize (registerBuiltinTypes_ double env (TypeRegistry_new double env)) as r.
  induction (decls D) as [|d ds IH]; intros r; [done|].
  rewrite fmap_cons. cbn [fold_left]. by rewrite register_without_lengths, IH.
Qed.

Lemma py_structs_without_lengths D D' (r : TypeRegistry double) :
  py_generateStructs_ double od
    (mkPythonGenerator double D' (registry_map_fields without_length r))
  = py_generateStructs_ double od (mkPythonGenerator double D r).
Proof.
  unfold py_generateStructs_, registry_map_fields. cbn [py_registry_ structs_].
  rewrite emit_each_fmap. apply emit_each_ext. intros [name fm].
  cbv beta zeta. cbn [fst snd]. unfold map_fields. rewrite !emit_each_fmap.
  cbn [fst snd].
  assert (forall F G : string * Field double -> string,
            (forall kv, F kv = G kv) -> emit_each fm F = emit_each fm G) as Hext
    by (intros F G; apply emit_each_ext).
  rewrite (Hext _ (fun kv => "," +:+ NL +:+ "        " +:+ fst kv +:+ " = "
                             +:+ py_getDefaultValue_ double od
                                   (mkPythonGenerator double D r) (snd kv))).
  2:{ intros [k f]. cbn [fst snd]. do 5 f_equal.
      unfold py_getDefaultValue_, without_length. cbn [f_default_value f_array].
      destruct (f_default_value f); [done|]. by destruct (f_array f). }
  rewrite (Hext (fun kv => py_init_field _ _ _ _)
             (fun kv => py_init_field double (mkPythonGenerator double D r)
                          (fst kv) (snd kv))).
  2:{ intros [k f]. cbn [fst snd].
      unfold py_init_field, isArray_, without_length. cbn [f_default_value f_array].
      by destruct (f_array f). }
  rewrite (Hext (fun kv => py_read_field _ _ _ _)
             (fun kv => py_read_field double (mkPythonGenerator double D r)
                          (fst kv) (snd kv))).
  2:{ intros [k f]. cbn [fst snd].
      unfold py_read_field, isArray_, without_length. cbn [f_array].
      by destruct (f_array f). }
  rewrite (Hext (fun kv => py_write_field _ _ _ _)
             (fun kv => py_write_field double (mkPythonGenerator double D r)
                          (fst kv) (snd kv))).
  2:{ intros [k f]. cbn [fst snd].
      unfold py_write_field, isArray_, without_length. cbn [f_array].
      by destruct (f_array f). }
  reflexivity.
Qed.

Lemma generate_python_without_lengths D :
  generate_python double od env (without_lengths D) = generate_python double od env D.
Proof.
  unfold generate_python, PythonGenerator_new. rewrite build_without_lengths.
  unfold PythonGenerator_generate.
  rewrite (py_structs_without_lengths D (without_lengths D)). reflexivity.
Qed.
End ArrayCode.

(** The array specifier of a parsed field is the one [parseOptionalArray_]
    read after the type of the field. *)
Lemma parseField_array (double : Type) (strtod : string -> double * nat)
    (isfinite : double -> bool) (SIZE_MAX : N) (filename : string)
    (lx lx' : Lexer) (f : Field double) :
  parseField_ double strtod isfinite SIZE_MAX filename lx = Ok (f, lx') ->
  exists t lx1 lx2,
    expect_ filename TokKind.Ident "Expected field type" lx = Ok (t, lx1)
    /\ f_type f = lexeme t
    /\ parseOptionalArray_ SIZE_MAX filename lx1 = Ok (f_array f, lx2).
Proof.
  unfold parseField_. intros H.
  apply bind_Ok in H as (t & lx1 & Ht & H).
  apply bind_Ok in H as (arr & lx2 & Harr & H).
  apply bind_Ok in H as (nt & lx3 & _ & H).
  apply bind_Ok in H as (p & lx4 & _ & H).
  apply bind_Ok in H as (props & lx5 & _ & H).
  apply bind_Ok in H as (e & lx6 & _ & H).
  apply bind_Ok in H as (dv & lx7 & _ & H).
  apply bind_Ok in H as (u & lx8 & _ & H).
  apply ret_Ok in H. injection H as -> _.
  by exists t, lx1, lx2.
Qed.

(** C8, amended.  For every field stored for a structure or message of a
    description: in the generated C++ header a field with array length [n]
    is declared, as a member and as a constructor parameter, with the type
    [T[n]], [n] written in decimal, and a field with an array specifier
    without length with the type [std::vector<T>], [T] being the C++ type
    of the element.  In the generated Python module every array field, with
    or without a length, has the constructor default [None] unless the
    declaration gives one, is initialised to the empty list, and is read
    and written by [routio.readList] and [routio.writeList]; the module is
    the one generated for the description without its array lengths, so no
    length is emitted.  The parser accepts a declared length only when the
    token between the brackets consists of decimal digits and its value
    fits [std::size_t], and that value is the length of the field. *)
Theorem array_specifier_code (double : Type) (strtod : string -> double * nat)
    (isfinite : double -> bool) (od : double -> string) (env : bool) (SIZE_MAX : N)
    (D : Description double) (basename name : string) (fs : list (Field double))
    (k : string) (f : Field double) :
  declares D name fs ->
  stored_field fs k = Some f ->
  let header := generate_cpp double od env D basename in
  let module := generate_python double od env D in
  let T := base_type double (buildRegistry_ double env D) f in
  let P := getPythonType_ double (PythonGenerator_new double env D) f in
  (forall n, f_array f = Some (mkFieldArray (Some n)) ->
     occurs_in (TABs +:+ cpp_fixed_array T n +:+ " " +:+ k +:+ ";" +:+ NL) header
     /\ occurs_in (TABs +:+ TABs +:+ cpp_fixed_array T n +:+ " " +:+ k +:+ " = ") header
     /\ all_digits (decimal_of_N n)
     /\ digits_value (list_ascii_of_string (decimal_of_N n)) = n
     /\ ((n <= SIZE_MAX)%N ->
         from_chars SIZE_MAX (decimal_of_N n)
         = (String.length (decimal_of_N n), inr n)))
  /\ (f_array f = Some (mkFieldArray None) ->
      occurs_in (TABs +:+ cpp_dynamic_array T +:+ " " +:+ k +:+ ";" +:+ NL) header
      /\ occurs_in (TABs +:+ TABs +:+ cpp_dynamic_array T +:+ " " +:+ k +:+ " = ") header)
  /\ (f_array f = None ->
      occurs_in (TABs +:+ T +:+ " " +:+ k +:+ ";" +:+ NL) header)
  /\ (forall arr, f_array f = Some arr ->
      occurs_in ("," +:+ NL +:+ "        " +:+ k +:+ " = "
                 +:+ match f_default_value f with
                     | Some v => py_formatValue_ double od v
                     | None => "None"
                     end) module
      /\ occurs_in ("        if " +:+ k +:+ " is None:" +:+ NL +:+
                    "            self." +:+ k +:+ " = []" +:+ NL +:+
                    "        else:" +:+ NL +:+
                    "            self." +:+ k +:+ " = " +:+ k +:+ NL) module
      /\ occurs_in ("        dst." +:+ k +:+ " = routio.readList(" +:+ P
                    +:+ ", reader)" +:+ NL) module
      /\ occurs_in ("        routio.writeList(" +:+ P +:+ ", writer, obj." +:+ k
                    +:+ ")" +:+ NL) module)
  /\ generate_python double od env (without_lengths D) = module
  /\ (forall filename lx lx' len,
        parseOptionalArray_ SIZE_MAX filename lx
        = Ok (Some (mkFieldArray (Some len)), lx') ->
        exists lx1 lx2 t,
          match_ TokKind.LBrack lx = Ok (true, lx1)
          /\ Lexer_peek 0 lx1 = Ok (t, lx2)
          /\ kind t = TokKind.Number
          /\ all_digits (lexeme t)
          /\ len = digits_value (list_ascii_of_string (lexeme t))
          /\ (len <= SIZE_MAX)%N)
  /\ (forall filename lx lx' (parsed : Field double),
        parseField_ double strtod isfinite SIZE_MAX filename lx = Ok (parsed, lx') ->
        exists t lx1 lx2,
          expect_ filename TokKind.Ident "Expected field type" lx = Ok (t, lx1)
          /\ f_type parsed = lexeme t
          /\ parseOptionalArray_ SIZE_MAX filename lx1 = Ok (f_array parsed, lx2)).
Proof.
  intros Hdecl Hf header module T P.
  pose proof (declares_stored env D name fs Hdecl) as Hrec.
  pose proof (stored_field_elem fs k f Hf) as Hin.
  pose proof (class_in_header double od env D basename name (field_map fs) Hrec) as Hclass.
  pose proof (occurs_in_trans _ _ _
                (member_in_class double od (CppGenerator_new double env D) name
                   (field_map fs) k f Hin) Hclass) as Hmember.
  pose proof (occurs_in_trans _ _ _
                (parameter_in_class double od (CppGenerator_new double env D) name
                   (field_map fs) k f Hin) Hclass) as Hparam.
  rewrite cpp_getFieldType_array in Hmember, Hparam.
  change (base_type double (cpp_registry_ double (CppGenerator_new double env D)) f)
    with T in Hmember, Hparam.
  change (generate_cpp double od env D basename) with header in Hmember, Hparam.
  split.
  { intros n Hn. rewrite Hn in Hmember, Hparam. cbn [length_] in Hmember, Hparam.
    split; [done|]. split; [done|]. split; [apply decimal_of_N_all_digits|].
    split; [apply decimal_of_N_value|]. apply from_chars_decimal. }
  split.
  { intros Hn. rewrite Hn in Hmember, Hparam. by cbn [length_] in Hmember, Hparam. }
  split.
  { intros Hn. by rewrite Hn in Hmember. }
  split.
  { intros arr Harr.
    destruct (python_field_lines double od (PythonGenerator_new double env D) name
                (field_map fs) k f Hrec Hin) as (H1 & H2 & H3 & H4).
    pose proof (classes_in_module double od env D) as Hmod.
    unfold py_getDefaultValue_ in H1. unfold py_init_field, isArray_ in H2.
    unfold py_read_field, isArray_ in H3. unfold py_write_field, isArray_ in H4.
    rewrite Harr in H1, H2, H3, H4.
    split; [exact (occurs_in_trans _ _ _ H1 Hmod)|].
    split; [exact (occurs_in_trans _ _ _ H2 Hmod)|].
    split; [exact (occurs_in_trans _ _ _ H3 Hmod)|].
    exact (occurs_in_trans _ _ _ H4 Hmod). }
  split; [apply generate_python_without_lengths|].
  split; [intros filename lx lx' len; apply parseOptionalArray_digits|].
  intros filename lx lx' parsed. apply parseField_array.
Qed.

Lemma array_specifier_code_witness :
  occurs_in (TABs +:+ cpp_fixed_array "int32_t" 3 +:+ " " +:+ "a" +:+ ";" +:+ NL)
    (generate_cpp Z example_ostream_double false fixed_array_message "m.cpp")
  /\ occurs_in ("        dst." +:+ "a" +:+ " = routio.readList(" +:+ "int"
                +:+ ", reader)" +:+ NL)
       (generate_python Z example_ostream_double false fixed_array_message)
  /\ exists lx1 lx2 t,
       match_ TokKind.LBrack (Lexer_new "[16] data;") = Ok (true, lx1)
       /\ Lexer_peek 0 lx1 = Ok (t, lx2)
       /\ kind t = TokKind.Number
       /\ all_digits (lexeme t)
       /\ 16%N = digits_value (list_ascii_of_string (lexeme t))
       /\ (16 <= example_SIZE_MAX)%N.
Proof.
  unshelve refine
    (let H := array_specifier_code Z example_strtod example_isfinite
                example_ostream_double false example_SIZE_MAX fixed_array_message
                "m.cpp" "M"
                [mkField "int32" (Some (mkFieldArray (Some 3%N))) "a" None None]
                "a" (mkField "int32" (Some (mkFieldArray (Some 3%N))) "a" None None)
                _ _ in
     conj (proj1 (proj1 H 3%N eq_refl))
       (conj (proj1 (proj2 (proj2 (proj1 (proj2 (proj2 (proj2 H)))
                                     (mkFieldArray (Some 3%N)) eq_refl))))
          (proj1 (proj2 (proj2 (proj2 (proj2 (proj2 H)))))
             "m.msg" (Lexer_new "[16] data;") (mkLexer " data;" 4 1 5 []) 16%N _))).
  - exists [], (message_decl "M"
                  [mkField "int32" (Some (mkFieldArray (Some 3%N))) "a" None None]), [].
    split; [reflexivity|]. split; [reflexivity|]. apply not_elem_of_nil.
  - reflexivity.
  - vm_compute. reflexivity.
Defined.
